(** * A command-line assistant: calculator, configuration, currency and weather

    A shallow embedding of [utils/math_utils.py], [calculator/evaluator.py],
    [utils/config.py], the handling of queries in [services/currency.py]
    and [services/weather.py], and [main.py]: its handlers, the reading of
    its configuration and its loop.  The properties are those of the
    extraction heuristics and of the whitelist evaluator, then of the merge
    of the configuration, of the classification and parsing of queries, of
    the conversion without network, and of the loop.  What the servers of
    the services and of the language model answer is left open.

    Python is taken as CPython 3.10 to 3.13: [str] is a sequence of Unicode
    code points, an [int] has any size that the memory holds, [float] is
    IEEE-754 binary64, and [ast.Num] is the legacy alias whose instance
    check accepts a [Constant] holding an [int], [float] or [complex] that
    is not a [bool].  What the interpreter settles by its state (the
    answers of the parser, where the stack overflows, which integers the
    memory holds) is a parameter of the statements. *)

From Stdlib Require Import String Ascii DecimalString.
From Stdlib Require Import ZArith NArith QArith Qpower Qcanon Bool Lia.
From Stdlib Require Import Floats.SpecFloat.
From Stdlib Require Import List Sorted.
Import ListNotations.

Set Warnings "-register-all".

Local Open Scope bool_scope.

(** ** Text *)

(** A Python [str] is a list of code points. *)
Definition char := N.
Definition str := list char.

Definition of_string (s : string) : str :=
  map N_of_ascii (list_ascii_of_string s).

Definition chr (s : string) : char :=
  match s with
  | String a _ => N_of_ascii a
  | EmptyString => 0%N
  end.

Definition str_eqb (a b : str) : bool :=
  if list_eq_dec N.eq_dec a b then true else false.

(** The tables of the Unicode character database that the code consults
    outside ASCII: [str.isdigit] and the regular expression class [\d]
    (decimal digits).  Inside ASCII both are the digits 0 to 9. *)
Record unicode_db := {
  ucd_isdigit : char -> bool;
  ucd_isdecimal : char -> bool
}.

Definition is_ascii_digit (c : char) : bool :=
  ((48 <=? c) && (c <=? 57))%N.

(** [Py_UNICODE_ISSPACE]: what [\s] matches in a [str] pattern and what
    [str.strip()] removes. *)
Definition py_isspace (c : char) : bool :=
  (((9 <=? c) && (c <=? 13)) || ((28 <=? c) && (c <=? 32))
   || (c =? 133) || (c =? 160) || (c =? 5760)
   || ((8192 <=? c) && (c <=? 8202))
   || (c =? 8232) || (c =? 8233) || (c =? 8239) || (c =? 8287)
   || (c =? 12288))%N.

Section Regex.

Variable ucd : unicode_db.

(** [ch.isdigit()] *)
Definition py_isdigit (c : char) : bool :=
  if (c <? 128)%N then is_ascii_digit c else ucd_isdigit ucd c.

(** What [\d] matches. *)
Definition py_isdecimal (c : char) : bool :=
  if (c <? 128)%N then is_ascii_digit c else ucd_isdecimal ucd c.

(** *** The regular expressions of the program

    Every pattern of [math_utils.py] is a sequence of character sets, each
    taken once, or repeated with [*] or [+]. *)
Inductive set_item :=
| Range (lo hi : char)
| Lit (c : char)
| ClassSpace
| ClassDigit.

Inductive quantifier := Once | Star | Plus.

Definition charset := list set_item.
Definition pattern := list (charset * quantifier).

Definition item_mem (i : set_item) (c : char) : bool :=
  match i with
  | Range lo hi => ((lo <=? c) && (c <=? hi))%N
  | Lit d => (c =? d)%N
  | ClassSpace => py_isspace c
  | ClassDigit => py_isdecimal c
  end.

Definition set_mem (cs : charset) (c : char) : bool :=
  existsb (fun i => item_mem i c) cs.

(** Greedy repetition with backtracking: take the character when the set
    has it and the rest can still match, otherwise stop here. *)
Fixpoint repeat_greedy (cs : charset) (k : str -> option str) (s : str)
  : option str :=
  match s with
  | c :: s' =>
      if set_mem cs c then
        match repeat_greedy cs k s' with
        | Some rest => Some rest
        | None => k s
        end
      else k s
  | [] => k s
  end.

(** Match the pattern at the start of [s]; the result is what is left of
    [s] after the match.  [ok] is the test the end of the match must pass
    (the engine's [must_advance] rule). *)
Fixpoint match_here (p : pattern) (ok : str -> bool) (s : str)
  : option str :=
  match p with
  | [] => if ok s then Some s else None
  | (cs, Once) :: p' =>
      match s with
      | c :: s' => if set_mem cs c then match_here p' ok s' else None
      | [] => None
      end
  | (cs, Star) :: p' => repeat_greedy cs (match_here p' ok) s
  | (cs, Plus) :: p' =>
      match s with
      | c :: s' =>
          if set_mem cs c then repeat_greedy cs (match_here p' ok) s'
          else None
      | [] => None
      end
  end.

(** [pattern.match(s)] as a truth value. *)
Definition re_match (p : pattern) (s : str) : bool :=
  match match_here p (fun _ => true) s with
  | Some _ => true
  | None => false
  end.

(** The leftmost match at or after the start of [s]: where it starts (as
    a suffix of [s]) and what is left after it.  An empty match at the
    very start is refused when [must_advance] is set. *)
Fixpoint search_from (p : pattern) (must_advance : bool) (s : str)
  : option (str * str) :=
  match
    match_here p
      (fun rest => negb must_advance || (length rest <? length s)%nat) s
  with
  | Some rest => Some (s, rest)
  | None =>
      match s with
      | [] => None
      | _ :: s' => search_from p false s'
      end
  end.

(** [bool(re.search(p, s))] *)
Definition re_search (p : pattern) (s : str) : bool :=
  match search_from p false s with
  | Some _ => true
  | None => false
  end.

Definition matched (start rest : str) : str :=
  firstn (length start - length rest) start.

Definition skipped (s start : str) : str :=
  firstn (length s - length start) s.

(** The scanning loop shared by [findall] and [sub]: search, record the
    match, continue after it; after an empty match the next one must
    advance.  Each round consumes a character or sets [must_advance], so
    [2 * length s + 2] rounds are enough. *)
Fixpoint findall_loop (fuel : nat) (p : pattern) (must_advance : bool)
  (s : str) : list str :=
  match fuel with
  | O => []
  | S fuel' =>
      match search_from p must_advance s with
      | None => []
      | Some (start, rest) =>
          matched start rest
          :: findall_loop fuel' p (length start =? length rest)%nat rest
      end
  end.

(** [re.findall(p, s)] for a pattern without groups. *)
Definition re_findall (p : pattern) (s : str) : list str :=
  findall_loop (2 * length s + 2) p false s.

Fixpoint sub_loop (fuel : nat) (p : pattern) (repl : str)
  (must_advance : bool) (s : str) : str :=
  match fuel with
  | O => s
  | S fuel' =>
      match search_from p must_advance s with
      | None => s
      | Some (start, rest) =>
          skipped s start ++ repl
          ++ sub_loop fuel' p repl (length start =? length rest)%nat rest
      end
  end.

(** [re.sub(p, repl, s)] for a replacement without group references. *)
Definition re_sub (p : pattern) (repl : str) (s : str) : str :=
  sub_loop (2 * length s + 2) p repl false s.

(** *** [str] methods and builtins *)

Fixpoint lstrip (s : str) : str :=
  match s with
  | c :: s' => if py_isspace c then lstrip s' else s
  | [] => []
  end.

(** [s.strip()] *)
Definition strip (s : str) : str :=
  rev (lstrip (rev (lstrip s))).

(** [max(l, key=len)] on a non-empty list: the first of the longest. *)
Fixpoint max_by_len (best : str) (l : list str) : str :=
  match l with
  | [] => best
  | x :: l' =>
      if (length best <? length x)%nat then max_by_len x l'
      else max_by_len best l'
  end.

(** [op in str] for a one-character [op]. *)
Definition contains (c : char) (s : str) : bool :=
  existsb (N.eqb c) s.

(** ** [utils/math_utils.py] *)

(** [[0-9\+\-\*\/\^\(\)\.\s]] *)
Definition _MATH_CHARS : pattern :=
  [([Range (chr "0") (chr "9"); Lit (chr "+"); Lit (chr "-"); Lit (chr "*");
     Lit (chr "/"); Lit (chr "^"); Lit (chr "("); Lit (chr ")");
     Lit (chr "."); ClassSpace], Once)].

Definition operator_set : charset :=
  [Lit (chr "+"); Lit (chr "-"); Lit (chr "*"); Lit (chr "/"); Lit (chr "^")].

(** [\d+\s*[\+\-\*\/\^]\s*\d+] *)
Definition loose_pattern : pattern :=
  [([ClassDigit], Plus); ([ClassSpace], Star); (operator_set, Once);
   ([ClassSpace], Star); ([ClassDigit], Plus)].

(** [[0-9\.\s\+\-\*\/\^\(\)]+] *)
Definition block_pattern : pattern :=
  [([Range (chr "0") (chr "9"); Lit (chr "."); ClassSpace; Lit (chr "+");
     Lit (chr "-"); Lit (chr "*"); Lit (chr "/"); Lit (chr "^");
     Lit (chr "("); Lit (chr ")")], Plus)].

(** [\s+] *)
Definition spaces_pattern : pattern := [([ClassSpace], Plus)].

(** The argument is [None] or a [str]. *)
Definition is_math_question (text : option str) : bool :=
  match text with
  | None | Some [] => false
  | Some text =>
      let only_mathish := forallb (fun ch => re_match _MATH_CHARS [ch]) text in
      let has_digit := existsb py_isdigit text in
      let has_op :=
        existsb (fun op => contains op text)
          [chr "+"; chr "-"; chr "*"; chr "/"; chr "^"] in
      (only_mathish && has_digit && has_op) || re_search loose_pattern text
  end.

Definition extract_expression (text : option str) : option str :=
  match text with
  | None | Some [] => None
  | Some text =>
      match re_findall block_pattern text with
      | [] => None
      | m :: matches =>
          let expr := strip (max_by_len m matches) in
          let expr := re_sub spaces_pattern [] expr in
          match expr with
          | [] => None
          | _ => Some expr
          end
      end
  end.

End Regex.

(** ** Python numbers *)

(** A [float] is an IEEE-754 binary64 number. *)
Definition float := spec_float.
Definition complex := (float * float)%type.

Definition fadd : float -> float -> float := SFadd 53 1024.
Definition fsub : float -> float -> float := SFsub 53 1024.
Definition fmul : float -> float -> float := SFmul 53 1024.
Definition fdiv : float -> float -> float := SFdiv 53 1024.

Definition float_is_zero (x : float) : bool :=
  match x with
  | S754_zero _ => true
  | _ => false
  end.

(** The quotient [a / b] of two positive integers rounded to the nearest
    float, ties to even; an infinity when it is too large. *)
Definition ratio_to_float (negative : bool) (a b : positive) : float :=
  let '(q, e, l) := SFdiv_core_binary 53 1024 (Zpos a) 0 (Zpos b) 0 in
  binary_round_aux 53 1024 negative q e l.

(** The exact value of a finite float. *)
Definition float_to_Q (x : float) : option Q :=
  match x with
  | S754_zero _ => Some 0%Q
  | S754_finite s m e =>
      let n := if s then Zneg m else Zpos m in
      Some (match e with
            | Zneg k => n # (2 ^ k)%positive
            | _ => (n * 2 ^ e) # 1
            end)
  | _ => None
  end.

(** [x.is_integer()] *)
Definition float_is_integer (x : float) : bool :=
  match x with
  | S754_zero _ => true
  | S754_finite _ m e =>
      match e with
      | Zneg k => (Zpos m mod 2 ^ Zpos k =? 0)%Z
      | _ => true
      end
  | _ => false
  end.

(** [int(x)] for a finite [x]: truncation towards zero. *)
Definition float_to_int (x : float) : Z :=
  match x with
  | S754_finite s m e =>
      let n :=
        match e with
        | Zneg k => (Zpos m / 2 ^ Zpos k)%Z
        | _ => (Zpos m * 2 ^ e)%Z
        end in
      if s then (- n)%Z else n
  | _ => 0%Z
  end.

(** A number as the evaluator can return it.  [bool] is a subclass of
    [int] with the values 0 and 1. *)
Inductive value :=
| VBool (b : bool)
| VInt (n : Z)
| VFloat (x : float)
| VComplex (z : complex).

(** ** Exceptions *)

Inductive exn_class :=
| EvalError
| ZeroDivisionError
| OverflowError
| RecursionError
| MemoryError
| SyntaxError
| TypeError
| ValueError
| OtherException (name : string).

(** A raised exception: its class and [str(e)]. *)
Record exn := mk_exn { exn_class_of : exn_class; exn_msg : string }.

Inductive outcome (A : Type) :=
| Return (a : A)
| Raise (e : exn).
Arguments Return {A} a.
Arguments Raise {A} e.

Definition raise {A : Type} (c : exn_class) (msg : string) : outcome A :=
  Raise (mk_exn c msg).

Definition bind {A B : Type} (m : outcome A) (k : A -> outcome B)
  : outcome B :=
  match m with
  | Return a => k a
  | Raise e => Raise e
  end.

Notation "x <- m ;; k" := (bind m (fun x => k))
  (at level 61, m at next level, right associativity).

(** ** The syntax trees of [ast] *)

Module ast.

Inductive constant :=
| CInt (n : Z)
| CFloat (x : float)
| CComplex (z : complex)
| CBool (b : bool)
| CStr (s : str)
| CBytes (s : str)
| CNone
| CEllipsis.

Inductive operator :=
| Add | Sub | Mult | MatMult | Div | Mod | Pow
| LShift | RShift | BitOr | BitXor | BitAnd | FloorDiv.

Inductive unaryop := Invert | Not | UAdd | USub.

(** Expression nodes.  The shapes the calculator can meet are spelled out;
    [Other] stands for every remaining node class ([BoolOp], [Compare],
    [IfExp], [Lambda], [Dict], [JoinedStr], ...) with its child
    expressions. *)
Inductive expr :=
| Constant (value : constant)
| BinOp (left : expr) (op : operator) (right : expr)
| UnaryOp (op : unaryop) (operand : expr)
| Name (id : str)
| Call (func : expr) (args : list expr)
| Attribute (value : expr) (attr : str)
| Subscript (value : expr) (slice : expr)
| Starred (value : expr)
| Tuple (elts : list expr)
| List (elts : list expr)
| Other (class : string) (children : list expr).

(** [type(node.op)]: the class of an operator node. *)
Inductive op_type :=
| BinaryType (o : operator)
| UnaryType (o : unaryop).

Definition operator_eqb (a b : operator) : bool :=
  match a, b with
  | Add, Add | Sub, Sub | Mult, Mult | MatMult, MatMult | Div, Div
  | Mod, Mod | Pow, Pow | LShift, LShift | RShift, RShift | BitOr, BitOr
  | BitXor, BitXor | BitAnd, BitAnd | FloorDiv, FloorDiv => true
  | _, _ => false
  end.

Definition unaryop_eqb (a b : unaryop) : bool :=
  match a, b with
  | Invert, Invert | Not, Not | UAdd, UAdd | USub, USub => true
  | _, _ => false
  end.

Definition op_type_eqb (a b : op_type) : bool :=
  match a, b with
  | BinaryType x, BinaryType y => operator_eqb x y
  | UnaryType x, UnaryType y => unaryop_eqb x y
  | _, _ => false
  end.

(** [isinstance(node, ast.Num)]: a [Constant] whose value is an [int],
    [float] or [complex] and not a [bool]; [node.n] is that value. *)
Definition Num_n (node : expr) : option value :=
  match node with
  | Constant (CInt n) => Some (VInt n)
  | Constant (CFloat x) => Some (VFloat x)
  | Constant (CComplex z) => Some (VComplex z)
  | _ => None
  end.

(** [isinstance(node, ast.Constant) and isinstance(node.value, (int,
    float))]; [bool] values pass, being instances of [int]. *)
Definition Constant_int_or_float (node : expr) : option value :=
  match node with
  | Constant (CInt n) => Some (VInt n)
  | Constant (CFloat x) => Some (VFloat x)
  | Constant (CBool b) => Some (VBool b)
  | _ => None
  end.

End ast.

(** ** The grammar of arithmetic expressions

    [ast.parse] is CPython's, and the program's properties take its
    answers as given.  What follows is a model of it on the part of the
    language the calculator's inputs are written in: printable ASCII text
    holding decimal integer and point-float literals, names, the constants
    [True], [False] and [None], quoted strings of one line without
    escapes, the operators [+ - * / // **], parentheses, calls and tuples,
    with spaces and tabs between tokens.  On any other input (a character
    outside printable ASCII, a triple-quoted string, a string prefix, an
    exponent, ...) the verdict is [NotModelled] and nothing is said.  The
    model gives the sample runtime its parser and the properties the
    trees of their examples. *)

Module grammar.

Inductive token :=
| NUMBER (c : ast.constant)
| KEYWORD (c : ast.constant)
| NAME (id : str)
| STRING (s : str)
| PLUS | MINUS | STAR | SLASH | DOUBLESTAR | DOUBLESLASH
| LPAR | RPAR | COMMA.

(** *** Tokens *)

Inductive lex_state :=
| Start
| InInt (digits : list N)
| InFrac (int_part frac_part : list N)
| AfterDot
| InName (cs : str)
| InStr (quote : char) (cs : str)
| AfterEmpty (quote : char)
| AfterStar
| AfterSlash.

(** The state after a character, with the tokens completed by it. *)
Inductive step_result :=
| Go (emitted : list token) (st : lex_state)
| Bad
| Unknown.

Definition is_name_start (c : char) : bool :=
  (((65 <=? c) && (c <=? 90)) || ((97 <=? c) && (c <=? 122)) || (c =? 95))%N.

Definition is_quote (c : char) : bool :=
  ((c =? 34) || (c =? 39))%N.

(** Digits are kept most significant last while they are read. *)
Definition digits_value (ds : list N) : N :=
  fold_right (fun d acc => (10 * acc + d)%N) 0%N ds.

Definition keywords : list string :=
  ["and"; "as"; "assert"; "async"; "await"; "break"; "class"; "continue";
   "def"; "del"; "elif"; "else"; "except"; "finally"; "for"; "from";
   "global"; "if"; "import"; "in"; "is"; "lambda"; "nonlocal"; "not"; "or";
   "pass"; "raise"; "return"; "try"; "while"; "with"; "yield"]%string.

(** A decimal integer literal: zeros may lead only a zero. *)
Definition int_token (ds : list N) : step_result :=
  if (4300 <? length ds)%nat then Unknown
  else
    match rev ds with
    | 0%N :: _ :: _ =>
        if forallb (N.eqb 0) ds then Go [NUMBER (ast.CInt 0)] Start else Bad
    | _ => Go [NUMBER (ast.CInt (Z.of_N (digits_value ds)))] Start
    end.

(** A point-float literal: the decimal fraction it writes, correctly
    rounded. *)
Definition float_token (ip fp : list N) : step_result :=
  let x :=
    match digits_value (fp ++ ip) with
    | N0 => S754_zero false
    | Npos m => ratio_to_float false m (Z.to_pos (10 ^ Z.of_nat (length fp)))
    end in
  Go [NUMBER (ast.CFloat x)] Start.

Definition name_token (id : str) : step_result :=
  if str_eqb id (of_string "True") then Go [KEYWORD (ast.CBool true)] Start
  else if str_eqb id (of_string "False") then Go [KEYWORD (ast.CBool false)] Start
  else if str_eqb id (of_string "None") then Go [KEYWORD ast.CNone] Start
  else if existsb (fun k => str_eqb id (of_string k)) keywords then Unknown
  else Go [NAME id] Start.

(** The token a state holds when the input, or the token, ends. *)
Definition finish (st : lex_state) : step_result :=
  match st with
  | Start => Go [] Start
  | InInt ds => int_token ds
  | InFrac ip fp => float_token ip fp
  | AfterDot => Unknown
  | InName cs => name_token (rev cs)
  | InStr _ _ => Bad
  | AfterEmpty _ => Go [STRING []] Start
  | AfterStar => Go [STAR] Start
  | AfterSlash => Go [SLASH] Start
  end.

(** A character met between tokens. *)
Definition start (c : char) : step_result :=
  if is_ascii_digit c then Go [] (InInt [(c - 48)%N])
  else if (c =? chr ".")%N then Go [] AfterDot
  else if is_name_start c then Go [] (InName [c])
  else if is_quote c then Go [] (InStr c [])
  else if ((c =? 32) || (c =? 9))%N then Go [] Start
  else if (c =? chr "+")%N then Go [PLUS] Start
  else if (c =? chr "-")%N then Go [MINUS] Start
  else if (c =? chr "(")%N then Go [LPAR] Start
  else if (c =? chr ")")%N then Go [RPAR] Start
  else if (c =? chr ",")%N then Go [COMMA] Start
  else if (c =? chr "*")%N then Go [] AfterStar
  else if (c =? chr "/")%N then Go [] AfterSlash
  else Unknown.

(** End the pending token, then read [c] afresh. *)
Definition finish_then_start (st : lex_state) (c : char) : step_result :=
  match finish st with
  | Go ts _ =>
      match start c with
      | Go ts' st' => Go (ts ++ ts') st'
      | r => r
      end
  | r => r
  end.

Definition step (st : lex_state) (c : char) : step_result :=
  match st with
  | Start => start c
  | InInt ds =>
      if is_ascii_digit c then Go [] (InInt ((c - 48)%N :: ds))
      else if (c =? chr ".")%N then Go [] (InFrac ds [])
      else if is_name_start c || is_quote c then Unknown
      else finish_then_start st c
  | InFrac ip fp =>
      if is_ascii_digit c then Go [] (InFrac ip ((c - 48)%N :: fp))
      else if is_name_start c || is_quote c then Unknown
      else finish_then_start st c
  | AfterDot =>
      if is_ascii_digit c then Go [] (InFrac [] [(c - 48)%N]) else Unknown
  | InName cs =>
      if is_name_start c || is_ascii_digit c then Go [] (InName (c :: cs))
      else if is_quote c || (128 <=? c)%N then Unknown
      else finish_then_start st c
  | InStr q cs =>
      if ((c <? 32) || (c =? 92) || (127 <=? c))%N then Unknown
      else if (c =? q)%N then
        match cs with
        | [] => Go [] (AfterEmpty q)
        | _ => Go [STRING (rev cs)] Start
        end
      else Go [] (InStr q (c :: cs))
  | AfterEmpty q =>
      if (c =? q)%N then Unknown else finish_then_start st c
  | AfterStar =>
      if (c =? chr "*")%N then Go [DOUBLESTAR] Start
      else finish_then_start st c
  | AfterSlash =>
      if (c =? chr "/")%N then Go [DOUBLESLASH] Start
      else finish_then_start st c
  end.

Inductive lexed :=
| Tokens (ts : list token)
| LexInvalid
| LexUnmodelled.

Fixpoint lex (st : lex_state) (s : str) : lexed :=
  match s with
  | [] =>
      match finish st with
      | Go ts _ => Tokens ts
      | Bad => LexInvalid
      | Unknown => LexUnmodelled
      end
  | c :: s' =>
      match step st c with
      | Go ts st' =>
          match lex st' s' with
          | Tokens ts' => Tokens (ts ++ ts')
          | r => r
          end
      | Bad => LexInvalid
      | Unknown => LexUnmodelled
      end
  end.

(** *** Expressions *)

Inductive parsed (A : Type) :=
| Ok (a : A) (rest : list token)
| Invalid
| Unmodelled.
Arguments Ok {A} a rest.
Arguments Invalid {A}.
Arguments Unmodelled {A}.

Definition andthen {A B : Type} (m : parsed A)
  (k : A -> list token -> parsed B) : parsed B :=
  match m with
  | Ok a rest => k a rest
  | Invalid => Invalid
  | Unmodelled => Unmodelled
  end.

(** The rules [sum], [term], [factor], [power], [primary] and [atom] of
    the grammar, by recursive descent; the left-recursive rules loop over
    their operators.  [fuel] bounds the descent. *)
Fixpoint sum (fuel : nat) (ts : list token) : parsed ast.expr :=
  match fuel with
  | O => Unmodelled
  | S n => andthen (term n ts) (sum_rest n)
  end
with sum_rest (fuel : nat) (l : ast.expr) (ts : list token)
  : parsed ast.expr :=
  match fuel with
  | O => Unmodelled
  | S n =>
      match ts with
      | PLUS :: ts' =>
          andthen (term n ts') (fun r => sum_rest n (ast.BinOp l ast.Add r))
      | MINUS :: ts' =>
          andthen (term n ts') (fun r => sum_rest n (ast.BinOp l ast.Sub r))
      | _ => Ok l ts
      end
  end
with term (fuel : nat) (ts : list token) : parsed ast.expr :=
  match fuel with
  | O => Unmodelled
  | S n => andthen (factor n ts) (term_rest n)
  end
with term_rest (fuel : nat) (l : ast.expr) (ts : list token)
  : parsed ast.expr :=
  match fuel with
  | O => Unmodelled
  | S n =>
      match ts with
      | STAR :: ts' =>
          andthen (factor n ts') (fun r => term_rest n (ast.BinOp l ast.Mult r))
      | SLASH :: ts' =>
          andthen (factor n ts') (fun r => term_rest n (ast.BinOp l ast.Div r))
      | DOUBLESLASH :: ts' =>
          andthen (factor n ts')
            (fun r => term_rest n (ast.BinOp l ast.FloorDiv r))
      | _ => Ok l ts
      end
  end
with factor (fuel : nat) (ts : list token) : parsed ast.expr :=
  match fuel with
  | O => Unmodelled
  | S n =>
      match ts with
      | PLUS :: ts' =>
          andthen (factor n ts') (fun e => Ok (ast.UnaryOp ast.UAdd e))
      | MINUS :: ts' =>
          andthen (factor n ts') (fun e => Ok (ast.UnaryOp ast.USub e))
      | _ => power n ts
      end
  end
with power (fuel : nat) (ts : list token) : parsed ast.expr :=
  match fuel with
  | O => Unmodelled
  | S n =>
      andthen (primary n ts) (fun b rest =>
        match rest with
        | DOUBLESTAR :: ts' =>
            andthen (factor n ts') (fun e => Ok (ast.BinOp b ast.Pow e))
        | _ => Ok b rest
        end)
  end
with primary (fuel : nat) (ts : list token) : parsed ast.expr :=
  match fuel with
  | O => Unmodelled
  | S n => andthen (atom n ts) (primary_rest n)
  end
with primary_rest (fuel : nat) (a : ast.expr) (ts : list token)
  : parsed ast.expr :=
  match fuel with
  | O => Unmodelled
  | S n =>
      match ts with
      | LPAR :: ts' =>
          andthen (elements n ts') (fun args => primary_rest n (ast.Call a args))
      | _ => Ok a ts
      end
  end
with atom (fuel : nat) (ts : list token) : parsed ast.expr :=
  match fuel with
  | O => Unmodelled
  | S n =>
      match ts with
      | NUMBER c :: ts' => Ok (ast.Constant c) ts'
      | KEYWORD c :: ts' => Ok (ast.Constant c) ts'
      | NAME id :: ts' => Ok (ast.Name id) ts'
      | STRING _ :: STRING _ :: _ => Unmodelled
      | STRING s :: ts' => Ok (ast.Constant (ast.CStr s)) ts'
      | LPAR :: RPAR :: ts' => Ok (ast.Tuple []) ts'
      | LPAR :: ts' =>
          andthen (sum n ts') (fun e rest =>
            match rest with
            | RPAR :: ts'' => Ok e ts''
            | COMMA :: ts'' =>
                andthen (elements n ts'') (fun es => Ok (ast.Tuple (e :: es)))
            | _ => Invalid
            end)
      | STAR :: _ | DOUBLESTAR :: _ => Unmodelled
      | _ => Invalid
      end
  end
(** Expressions separated by commas up to the closing parenthesis, the
    last comma optional: the arguments of a call, the rest of a tuple. *)
with elements (fuel : nat) (ts : list token) : parsed (list ast.expr) :=
  match fuel with
  | O => Unmodelled
  | S n =>
      match ts with
      | RPAR :: ts' => Ok [] ts'
      | _ =>
          andthen (sum n ts) (fun e rest =>
            match rest with
            | RPAR :: ts' => Ok [e] ts'
            | COMMA :: ts' =>
                andthen (elements n ts') (fun es => Ok (e :: es))
            | _ => Invalid
            end)
      end
  end.

(** The rule [expressions] at the top: one expression, or a tuple written
    without parentheses. *)
Fixpoint top_rest (fuel : nat) (ts : list token) : parsed (list ast.expr) :=
  match fuel with
  | O => Unmodelled
  | S n =>
      match ts with
      | [] => Ok [] []
      | _ =>
          andthen (sum n ts) (fun e rest =>
            match rest with
            | [] => Ok [e] []
            | COMMA :: ts' => andthen (top_rest n ts') (fun es => Ok (e :: es))
            | _ => Invalid
            end)
      end
  end.

Definition expressions (fuel : nat) (ts : list token) : parsed ast.expr :=
  andthen (sum fuel ts) (fun e rest =>
    match rest with
    | [] => Ok e []
    | COMMA :: ts' =>
        andthen (top_rest fuel ts') (fun es => Ok (ast.Tuple (e :: es)))
    | _ => Invalid
    end).

(** How deep the parentheses of a token list nest. *)
Fixpoint nesting (open deepest : nat) (ts : list token) : nat :=
  match ts with
  | [] => deepest
  | LPAR :: ts' => nesting (S open) (Nat.max deepest (S open)) ts'
  | RPAR :: ts' => nesting (Nat.pred open) deepest ts'
  | _ :: ts' => nesting open deepest ts'
  end.

Inductive verdict :=
| Tree (e : ast.expr)
| Rejected
| NotModelled.

(** Printable ASCII, and the tab. *)
Definition plain (c : char) : bool :=
  (((32 <=? c) && (c <=? 126)) || (c =? 9))%N.

(** What [ast.parse(s, mode="eval")] does: [Tree e] when it returns a tree
    of body [e], [Rejected] when it raises [SyntaxError] (an input that
    starts with a blank is an [IndentationError], a subclass).  Inputs
    with a character that is not plain are left out (the parser refuses
    some of them before it reads a token), and so are inputs of more than
    1000 tokens or with parentheses nested more than 100 deep, which come
    near the parser's own limits. *)
Definition parse (s : str) : verdict :=
  match s with
  | [] => Rejected
  | c :: _ =>
      if negb (forallb plain s) then NotModelled
      else if ((c =? 32) || (c =? 9))%N then
        match lex Start s with
        | LexUnmodelled => NotModelled
        | _ => Rejected
        end
      else
        match lex Start s with
        | LexUnmodelled => NotModelled
        | LexInvalid => Rejected
        | Tokens ts =>
            if (1000 <? length ts)%nat || (100 <? nesting 0 0 ts)%nat
            then NotModelled
            else
              match expressions (10 * length ts + 10) ts with
              | Ok e _ => Tree e
              | Invalid => Rejected
              | Unmodelled => NotModelled
              end
        end
  end.

End grammar.

(** ** The platform

    What the program takes from CPython and cannot be read off its own
    source: the parser behind [ast.parse], the C library behind [float]
    and [complex] powers and quotients, where the stack of calls
    overflows, which integers the memory holds, and how numbers are
    printed.  Objects of bounded size (a syntax node, a float, a short
    string, an integer of at most 64 bits) are taken to find the memory
    they need. *)
Record runtime := {
  (** the Unicode tables behind [str.isdigit] and [\d] *)
  unicode : unicode_db;
  (** [ast.parse(s, mode="eval").body] *)
  ast_parse : str -> outcome ast.expr;
  (** [float.__pow__]: a float, or a [complex] for a negative base with a
      fractional exponent *)
  float_pow : float -> float -> outcome (float + complex);
  c_sum : complex -> complex -> outcome complex;
  c_diff : complex -> complex -> outcome complex;
  c_prod : complex -> complex -> outcome complex;
  c_quot : complex -> complex -> outcome complex;
  c_pow : complex -> complex -> outcome complex;
  (** the message of the [RecursionError] that stops a call of [_eval]
      nested [level] deep (0 for the call made by [safe_eval]) on [node],
      if the stack overflows in that call: when [_eval] is entered or in
      its first instance check, which runs Python code of [ast] and needs
      more of the stack for some nodes than for others *)
  stack_overflow : nat -> ast.expr -> option string;
  (** whether the memory holds an [int] of this value; one of at most 64
      bits is always built *)
  builds_int : Z -> bool;
  (** [sys.get_int_max_str_digits()]; 0 is no limit *)
  int_max_str_digits : nat;
  (** [str] of a float and of a complex number *)
  float_str : float -> str;
  complex_str : complex -> str
}.

(** A callable taking positional arguments. *)
Definition pyfun := list value -> outcome value.

(** ** The functions of [operator] *)

Module op.
Section Operators.

Variable rt : runtime.

(** [float(n)] for an [int]: the nearest float, [OverflowError] beyond
    the largest one. *)
Definition int_to_float (n : Z) : outcome float :=
  match binary_normalize 53 1024 n 0 false with
  | S754_infinity _ => raise OverflowError "int too large to convert to float"
  | x => Return x
  end.

Definition as_int (v : value) : Z :=
  match v with
  | VBool b => Z.b2z b
  | VInt n => n
  | _ => 0%Z
  end.

Definition to_float (v : value) : outcome float :=
  match v with
  | VFloat x => Return x
  | _ => int_to_float (as_int v)
  end.

Definition to_complex (v : value) : outcome complex :=
  match v with
  | VComplex z => Return z
  | _ => x <- to_float v ;; Return (x, S754_zero false)
  end.

(** Whether the memory holds the [int] [n]. *)
Definition built (n : Z) : bool :=
  (Z.abs n <? 2 ^ 64)%Z || builds_int rt n.

(** The [int] an operation makes: [MemoryError] when the memory does not
    hold it. *)
Definition new_int (n : Z) : outcome value :=
  if built n then Return (VInt n) else raise MemoryError "".

Definition float_or_complex (r : float + complex) : value :=
  match r with
  | inl x => VFloat x
  | inr z => VComplex z
  end.

(** Binary arithmetic of the numeric tower: a [complex] operand makes the
    operation complex, otherwise a [float] operand makes it float,
    otherwise both are integers ([bool] counting as [int]). *)
Definition arith
  (int_op : Z -> Z -> outcome value)
  (float_op : float -> float -> outcome value)
  (complex_op : complex -> complex -> outcome complex)
  (a b : value) : outcome value :=
  match a, b with
  | VComplex _, _ | _, VComplex _ =>
      x <- to_complex a ;; y <- to_complex b ;;
      z <- complex_op x y ;; Return (VComplex z)
  | VFloat _, _ | _, VFloat _ =>
      x <- to_float a ;; y <- to_float b ;; float_op x y
  | _, _ => int_op (as_int a) (as_int b)
  end.

(** [int / int]: the correctly rounded quotient. *)
Definition int_truediv (a b : Z) : outcome value :=
  match a, b with
  | _, Z0 => raise ZeroDivisionError "division by zero"
  | Z0, _ => Return (VFloat (S754_zero (b <? 0)%Z))
  | _, _ =>
      match ratio_to_float (xorb (a <? 0)%Z (b <? 0)%Z)
              (Z.to_pos (Z.abs a)) (Z.to_pos (Z.abs b)) with
      | S754_infinity _ =>
          raise OverflowError "integer division result too large for a float"
      | x => Return (VFloat x)
      end
  end.

Definition float_truediv (x y : float) : outcome value :=
  if float_is_zero y then raise ZeroDivisionError "float division by zero"
  else Return (VFloat (fdiv x y)).

(** [int ** int]: exact for an exponent that is not negative, a float
    power otherwise. *)
Definition int_pow (a b : Z) : outcome value :=
  if (b <? 0)%Z then
    x <- int_to_float a ;; y <- int_to_float b ;;
    r <- float_pow rt x y ;; Return (float_or_complex r)
  else new_int (a ^ b).

Definition binary (f : value -> value -> outcome value) : pyfun :=
  fun args =>
    match args with
    | [a; b] => f a b
    | _ => raise TypeError "expected 2 arguments"
    end.

Definition unary (f : value -> outcome value) : pyfun :=
  fun args =>
    match args with
    | [a] => f a
    | _ => raise TypeError "expected 1 argument"
    end.

Definition add : pyfun :=
  binary (arith (fun a b => new_int (a + b))
                (fun x y => Return (VFloat (fadd x y))) (c_sum rt)).

Definition sub : pyfun :=
  binary (arith (fun a b => new_int (a - b))
                (fun x y => Return (VFloat (fsub x y))) (c_diff rt)).

Definition mul : pyfun :=
  binary (arith (fun a b => new_int (a * b))
                (fun x y => Return (VFloat (fmul x y))) (c_prod rt)).

Definition truediv : pyfun :=
  binary (arith int_truediv float_truediv (c_quot rt)).

Definition pow : pyfun :=
  binary (arith int_pow
            (fun x y => r <- float_pow rt x y ;; Return (float_or_complex r))
            (c_pow rt)).

Definition neg : pyfun :=
  unary (fun v =>
    match v with
    | VFloat x => Return (VFloat (SFopp x))
    | VComplex (re, im) => Return (VComplex (SFopp re, SFopp im))
    | _ => new_int (- as_int v)
    end).

Definition pos : pyfun :=
  unary (fun v =>
    Return match v with
           | VBool b => VInt (Z.b2z b)
           | _ => v
           end).

End Operators.
End op.

(** ** [calculator/evaluator.py] *)

(** The argument of a call: [None], an instance of [str] itself, or an
    object of another class.  [safe_eval] tests its truth, asks whether it
    is a [str] and then calls its [replace]; an object of another class
    brings its own truth test ([__bool__] or [__len__]), which returns or
    raises, and an instance of a subclass of [str] its own [replace],
    which returns a [str] or raises.  (The instance check is taken to
    return, and a [replace] to return a [str] when it returns.) *)
Inductive pyobj :=
| PyNone
| PyStr (s : str)
| PyObject (truth : outcome bool)
| PyStrSubclass (truth : outcome bool) (replaced : outcome str).

(** [bool(o)], as [not o] computes it *)
Definition truth_test (o : pyobj) : outcome bool :=
  match o with
  | PyNone => Return false
  | PyStr s => Return (negb (str_eqb s []))
  | PyObject t => t
  | PyStrSubclass t _ => t
  end.

Definition isinstance_str (o : pyobj) : bool :=
  match o with
  | PyStr _ | PyStrSubclass _ _ => true
  | _ => false
  end.

(** [s.replace(old, new)] for a one-character [old]. *)
Definition replace (old : char) (new : str) (s : str) : str :=
  flat_map (fun c => if (c =? old)%N then new else [c]) s.

(** [o.replace("^", "**")] *)
Definition replace_caret (o : pyobj) : outcome str :=
  match o with
  | PyStr s => Return (replace (chr "^") (of_string "**") s)
  | PyStrSubclass _ r => r
  | _ => raise (OtherException "AttributeError") "replace"
  end.

Section Evaluator.

Variable rt : runtime.

Definition _ALLOWED : list (ast.op_type * pyfun) :=
  [ (ast.BinaryType ast.Add, op.add rt);
    (ast.BinaryType ast.Sub, op.sub rt);
    (ast.BinaryType ast.Mult, op.mul rt);
    (ast.BinaryType ast.Div, op.truediv rt);
    (ast.BinaryType ast.Pow, op.pow rt);
    (ast.UnaryType ast.USub, op.neg rt);
    (ast.UnaryType ast.UAdd, op.pos) ].

(** [_ALLOWED[k]] when [k in _ALLOWED] *)
Fixpoint dict_get (k : ast.op_type) (d : list (ast.op_type * pyfun))
  : option pyfun :=
  match d with
  | [] => None
  | (k', f) :: d' => if ast.op_type_eqb k k' then Some f else dict_get k d'
  end.

Definition unsupported : exn :=
  mk_exn EvalError "Unsupported operation or structure.".

(** The whitelist walk.  Each call is nested one level deeper than the
    call that made it; where the stack overflows the call raises
    [RecursionError] before it has looked at the node. *)
Fixpoint _eval (level : nat) (node : ast.expr) : outcome value :=
  match stack_overflow rt level node with
  | Some msg => raise RecursionError msg
  | None =>
      match ast.Num_n node with
      | Some n => Return n
      | None =>
      match ast.Constant_int_or_float node with
      | Some value => Return value
      | None =>
      match node with
      | ast.BinOp lhs o rhs =>
          match dict_get (ast.BinaryType o) _ALLOWED with
          | Some f =>
              l <- _eval (S level) lhs ;;
              r <- _eval (S level) rhs ;;
              f [l; r]
          | None => Raise unsupported
          end
      | ast.UnaryOp o operand =>
          match dict_get (ast.UnaryType o) _ALLOWED with
          | Some f => v <- _eval (S level) operand ;; f [v]
          | None => Raise unsupported
          end
      | _ => Raise unsupported
      end end end
  end.

(** The three [except] clauses.  Everything the parser and the arithmetic
    raise derives from [Exception]: [SyntaxError], [ValueError],
    [OverflowError], [ZeroDivisionError], [RecursionError], [MemoryError]. *)
Definition handle (e : exn) : outcome value :=
  match exn_class_of e with
  | EvalError => Raise e
  | ZeroDivisionError => raise EvalError "Division by zero."
  | _ => raise EvalError ("Invalid expression: " ++ exn_msg e)
  end.

(** The guard and the replacement stand before the [try]: what they
    raise leaves [safe_eval] as it is. *)
Definition safe_eval (expr : pyobj) : outcome value :=
  truth <- truth_test expr ;;
  if negb truth || negb (isinstance_str expr) then
    raise EvalError "Empty or invalid expression."
  else
    expr <- replace_caret expr ;;
    match parsed <- ast_parse rt expr ;; _eval 0 parsed with
    | Return v => Return v
    | Raise e => handle e
    end.

(** ** [main.py]: the calculator handler *)

(** [str(n)] for an [int]: its decimal digits, refused when there are
    more of them than the interpreter's limit. *)
Definition int_str (n : Z) : outcome str :=
  let d := Z.to_int n in
  let limit := int_max_str_digits rt in
  if negb (limit =? 0)%nat && (limit <? Decimal.nb_digits (Decimal.abs d))%nat
  then raise ValueError "Exceeds the limit for integer string conversion"
  else Return (of_string (NilZero.string_of_int d)).

(** [format(v, "")] inside an f-string *)
Definition value_str (v : value) : outcome str :=
  match v with
  | VBool true => Return (of_string "True")
  | VBool false => Return (of_string "False")
  | VInt n => int_str n
  | VFloat x => Return (float_str rt x)
  | VComplex z => Return (complex_str rt z)
  end.

Definition handle_math (question : str) : outcome str :=
  match extract_expression (unicode rt) (Some question) with
  | None | Some [] =>
      raise EvalError "Could not extract a valid math expression."
  | Some expr =>
      result <- safe_eval (PyStr expr) ;;
      let result :=
        match result with
        | VFloat x => if float_is_integer x then VInt (float_to_int x) else result
        | _ => result
        end in
      shown <- value_str result ;;
      Return (expr ++ of_string " = " ++ shown)
  end.

End Evaluator.

(** ** Text outside ASCII *)

(** The code points a UTF-8 byte sequence writes; the string literals of
    this file are UTF-8. *)
Fixpoint utf8_decode (fuel : nat) (bs : list N) : str :=
  match fuel with
  | O => []
  | S fuel =>
      match bs with
      | [] => []
      | b :: bs' =>
          if (b <? 128)%N then b :: utf8_decode fuel bs'
          else if (b <? 224)%N then
            match bs' with
            | b1 :: r => ((b - 192) * 64 + (b1 - 128))%N :: utf8_decode fuel r
            | _ => []
            end
          else if (b <? 240)%N then
            match bs' with
            | b1 :: b2 :: r =>
                ((b - 224) * 4096 + (b1 - 128) * 64 + (b2 - 128))%N
                :: utf8_decode fuel r
            | _ => []
            end
          else
            match bs' with
            | b1 :: b2 :: b3 :: r =>
                ((b - 240) * 262144 + (b1 - 128) * 4096 + (b2 - 128) * 64
                 + (b3 - 128))%N :: utf8_decode fuel r
            | _ => []
            end
      end
  end.

Definition of_utf8 (s : string) : str :=
  let bs := of_string s in utf8_decode (length bs) bs.

(** The character a literal writes. *)
Definition uchr (s : string) : char := hd 0%N (of_utf8 s).

Definition utf8_encode (c : char) : list N :=
  if (c <? 128)%N then [c]
  else if (c <? 2048)%N then [192 + c / 64; 128 + c mod 64]%N
  else if (c <? 65536)%N then
    [224 + c / 4096; 128 + (c / 64) mod 64; 128 + c mod 64]%N
  else
    [240 + c / 262144; 128 + (c / 4096) mod 64; 128 + (c / 64) mod 64;
     128 + c mod 64]%N.

(** A [str] as a string of this file: its UTF-8 bytes. *)
Definition to_utf8 (s : str) : string :=
  string_of_list_ascii (map ascii_of_N (flat_map utf8_encode s)).

Definition is_ascii (s : str) : bool := forallb (fun c => c <? 128)%N s.

Definition ascii_lower (c : char) : char :=
  if ((65 <=? c) && (c <=? 90))%N then (c + 32)%N else c.

Definition ascii_upper (c : char) : char :=
  if ((97 <=? c) && (c <=? 122))%N then (c - 32)%N else c.

(** What the program takes from the Unicode tables and from [float]
    beyond what is spelled out here. *)
Record unicode_case := {
  (** [s.lower()] and [s.upper()] of a string with a character outside
      ASCII *)
  ucd_lower : str -> str;
  ucd_upper : str -> str;
  (** whether a character outside ASCII matches a literal or a range
      that reaches outside ASCII, in a pattern compiled with
      [re.IGNORECASE] *)
  ucd_caseless : set_item -> char -> bool;
  (** [c.isalnum()] outside ASCII: the word characters of [\b] *)
  ucd_isalnum : char -> bool;
  (** the digit a decimal character outside ASCII stands for *)
  ucd_decimal_value : char -> N;
  (** [float(s)] of a string that is not decimal digits with an optional
      fraction *)
  ucd_float : str -> outcome float
}.

Section Strings.

Variable ucd : unicode_db.
Variable uc : unicode_case.

(** [s.lower()]: CPython maps an ASCII string letter by letter. *)
Definition lower (s : str) : str :=
  if is_ascii s then map ascii_lower s else ucd_lower uc s.

(** [s.upper()] *)
Definition upper (s : str) : str :=
  if is_ascii s then map ascii_upper s else ucd_upper uc s.

(** [s.startswith(prefix)] *)
Fixpoint startswith (prefix s : str) : bool :=
  match prefix, s with
  | [], _ => true
  | p :: prefix', c :: s' => (p =? c)%N && startswith prefix' s'
  | _ :: _, [] => false
  end.

(** [sub in s] *)
Fixpoint is_in (sub s : str) : bool :=
  startswith sub s
  || match s with
     | [] => false
     | _ :: s' => is_in sub s'
     end.

(** [s.strip(chars)] *)
Fixpoint lstrip_chars (chars s : str) : str :=
  match s with
  | c :: s' => if existsb (N.eqb c) chars then lstrip_chars chars s' else s
  | [] => []
  end.

Definition strip_chars (chars s : str) : str :=
  rev (lstrip_chars chars (rev (lstrip_chars chars s))).

(** *** Regular expressions with groups

    The patterns of [services/]: character sets once or repeated,
    sequences, alternatives, optional parts, numbered groups, [\b] and
    [$]. *)
Inductive regex :=
| Eps
| Chars (cs : charset) (q : quantifier)
| Seq (r1 r2 : regex)
| Alt (r1 r2 : regex)
| Opt (r : regex)
| Group (i : nat) (r : regex)
| WordBoundary
| EndOfString.

Definition cat (rs : list regex) : regex := fold_right Seq Eps rs.

(** A literal string of a pattern. *)
Definition lit (s : string) : regex :=
  cat (map (fun c => Chars [Lit c] Once) (of_utf8 s)).

(** The characters that are one letter with [c] when case is ignored:
    for an ASCII character its two cases, and four characters outside
    ASCII for the letters i, s and k; for those four, the letter. *)
Definition caseless_variants (c : char) : list char :=
  if (c <? 128)%N then
    [ascii_lower c; ascii_upper c]
    ++ (if (ascii_lower c =? chr "i")%N then [304; 305]
        else if (ascii_lower c =? chr "s")%N then [383]
        else if (ascii_lower c =? chr "k")%N then [8490]
        else [])%N
  else if ((c =? 304) || (c =? 305))%N then [chr "i"; chr "I"]
  else if (c =? 383)%N then [chr "s"; chr "S"]
  else if (c =? 8490)%N then [chr "k"; chr "K"]
  else [].

(** A literal or a range inside ASCII. *)
Definition ascii_item (i : set_item) : bool :=
  match i with
  | Lit c => (c <? 128)%N
  | Range _ hi => (hi <? 128)%N
  | _ => true
  end.

(** Membership in a set of a pattern compiled with [re.IGNORECASE]. *)
Definition caseless_item (i : set_item) (c : char) : bool :=
  match i with
  | ClassSpace | ClassDigit => item_mem ucd i c
  | _ =>
      if (c <? 128)%N || ascii_item i then
        existsb (item_mem ucd i) (caseless_variants c)
      else ucd_caseless uc i c
  end.

Section Engine.

(** [re.IGNORECASE] *)
Variable ignorecase : bool.

Definition in_set (cs : charset) (c : char) : bool :=
  if ignorecase then existsb (fun i => caseless_item i c) cs
  else set_mem ucd cs c.

(** [\w], for [\b] *)
Definition is_word (c : char) : bool :=
  if (c <? 128)%N then
    is_ascii_digit c || ((65 <=? c) && (c <=? 90))%N
    || ((97 <=? c) && (c <=? 122))%N || (c =? 95)%N
  else ucd_isalnum uc c.

Definition is_word_at (c : option char) : bool :=
  match c with
  | Some c => is_word c
  | None => false
  end.

(** A position in the subject: the character before it, if any, and
    what follows. *)
Definition cursor := (option char * str)%type.

(** The groups closed so far, the latest first. *)
Definition groups := list (nat * str).

Context {R : Type}.

(** Greedy repetition of a set, giving characters back one by one until
    the rest of the pattern matches. *)
Fixpoint repeat_set (cs : charset) (k : cursor -> option R)
  (prev : option char) (s : str) : option R :=
  match s with
  | c :: s' =>
      if in_set cs c then
        match repeat_set cs k (Some c) s' with
        | Some r => Some r
        | None => k (prev, s)
        end
      else k (prev, s)
  | [] => k (prev, s)
  end.

(** Match [r] at the cursor and go on with [k]; alternatives are tried
    in order, and a failure of [k] makes the match back up. *)
Fixpoint re_run (r : regex) (k : cursor -> groups -> option R)
  (cur : cursor) (g : groups) : option R :=
  match r with
  | Eps => k cur g
  | Chars cs Once =>
      match snd cur with
      | c :: s' => if in_set cs c then k (Some c, s') g else None
      | [] => None
      end
  | Chars cs Star => repeat_set cs (fun cur' => k cur' g) (fst cur) (snd cur)
  | Chars cs Plus =>
      match snd cur with
      | c :: s' =>
          if in_set cs c then repeat_set cs (fun cur' => k cur' g) (Some c) s'
          else None
      | [] => None
      end
  | Seq r1 r2 => re_run r1 (re_run r2 k) cur g
  | Alt r1 r2 =>
      match re_run r1 k cur g with
      | Some x => Some x
      | None => re_run r2 k cur g
      end
  | Opt r1 =>
      match re_run r1 k cur g with
      | Some x => Some x
      | None => k cur g
      end
  | Group i r1 =>
      re_run r1
        (fun cur' g' => k cur' ((i, matched (snd cur) (snd cur')) :: g'))
        cur g
  | WordBoundary =>
      if xorb (is_word_at (fst cur)) (is_word_at (hd_error (snd cur)))
      then k cur g else None
  | EndOfString =>
      match snd cur with
      | [] => k cur g
      | [c] => if (c =? 10)%N then k cur g else None
      | _ => None
      end
  end.

End Engine.

(** The leftmost match of [re.search]: its groups. *)
Fixpoint search_groups (ignorecase : bool) (r : regex) (prev : option char)
  (s : str) : option groups :=
  match re_run ignorecase r (fun _ g => Some g) (prev, s) [] with
  | Some g => Some g
  | None =>
      match s with
      | [] => None
      | c :: s' => search_groups ignorecase r (Some c) s'
      end
  end.

(** [re.search(r, s, flags)] *)
Definition regex_search (ignorecase : bool) (r : regex) (s : str)
  : option groups :=
  search_groups ignorecase r None s.

(** [m.group(i)] of a group that took part in the match *)
Fixpoint group (i : nat) (g : groups) : str :=
  match g with
  | [] => []
  | (j, w) :: g' => if (i =? j)%nat then w else group i g'
  end.

(** *** Numbers in text *)

Definition digit_value (c : char) : N :=
  if (c <? 128)%N then (c - 48)%N else ucd_decimal_value uc c.

(** The number a string of digits writes. *)
Definition decimal_value (ds : str) : N :=
  fold_left (fun acc c => (10 * acc + digit_value c)%N) ds 0%N.

(** Digits, then optionally a point and more digits. *)
Fixpoint split_decimal (s : str) : option (str * str) :=
  match s with
  | [] => Some ([], [])
  | c :: s' =>
      if py_isdecimal ucd c then
        match split_decimal s' with
        | Some (ip, fp) => Some (c :: ip, fp)
        | None => None
        end
      else if (c =? chr ".")%N then
        match s' with
        | [] => None
        | _ => if forallb (py_isdecimal ucd) s' then Some ([], s') else None
        end
      else None
  end.

(** [float(s)]: digits with an optional fraction are a decimal number,
    rounded to the nearest float; any other string is the platform's
    affair. *)
Definition py_float (s : str) : outcome float :=
  match split_decimal s with
  | Some (c :: ip, fp) =>
      Return
        match decimal_value ((c :: ip) ++ fp) with
        | N0 => S754_zero false
        | Npos m =>
            ratio_to_float false m (Z.to_pos (10 ^ Z.of_nat (length fp)))
        end
  | _ => ucd_float uc s
  end.

End Strings.

(** ** [utils/config.py] *)

(** What [json.load] returns: [None], a [bool], an [int], a [float], a
    [str], a [list] or a [dict] with [str] keys.  A [dict] keeps its items
    in insertion order, one item for a key. *)
Inductive json :=
| JNull
| JBool (b : bool)
| JInt (n : Z)
| JFloat (x : float)
| JStr (s : str)
| JList (items : list json)
| JDict (items : list (str * json)).

Definition dict := list (str * json).

(** [d.get(k)] *)
Fixpoint json_get (k : str) (d : dict) : option json :=
  match d with
  | [] => None
  | (k', v) :: d' => if str_eqb k k' then Some v else json_get k d'
  end.

(** [d[k] = v]: the value changes where the key is, a new key goes
    last. *)
Fixpoint json_set (k : str) (v : json) (d : dict) : dict :=
  match d with
  | [] => [(k, v)]
  | (k', v') :: d' =>
      if str_eqb k k' then (k', v) :: d' else (k', v') :: json_set k v d'
  end.

(** [bool(j)] *)
Definition json_truthy (j : json) : bool :=
  match j with
  | JNull => false
  | JBool b => b
  | JInt n => negb (n =? 0)%Z
  | JFloat x => negb (float_is_zero x)
  | JStr s => negb (str_eqb s [])
  | JList l => match l with [] => false | _ => true end
  | JDict d => match d with [] => false | _ => true end
  end.

(** [type(j).__name__] *)
Definition type_name (j : json) : string :=
  match j with
  | JNull => "NoneType"
  | JBool _ => "bool"
  | JInt _ => "int"
  | JFloat _ => "float"
  | JStr _ => "str"
  | JList _ => "list"
  | JDict _ => "dict"
  end.

Definition AttributeError : exn_class := OtherException "AttributeError".

Definition _DEFAULTS : dict :=
  [ (of_string "llm",
     JDict [ (of_string "model", JStr (of_string "compound-beta-mini"));
             (of_string "temperature", JFloat (S754_zero false));
             (of_string "max_tokens", JInt 512) ]);
    (of_string "ui",
     JDict [ (of_string "math_message",
              JStr (of_string "Math expression detected, using calculator..."));
             (of_string "llm_message",
              JStr (of_string "Fetching information via LLM..."));
             (of_string "weather_message",
              JStr (of_string "Fetching weather via API...")) ]);
    (of_string "weather",
     JDict [ (of_string "provider", JStr (of_string "open-meteo"));
             (of_string "geocoding_url",
              JStr (of_string "https://geocoding-api.open-meteo.com/v1/search"));
             (of_string "forecast_url",
              JStr (of_string "https://api.open-meteo.com/v1/forecast"));
             (of_string "timeout_seconds", JInt 30) ]) ].

(** The loop of [_deep_merge] over [b.items()], [out] being the copy of
    [a] it updates; [rec] is the nested call. *)
Definition merge_items (rec : dict -> json -> outcome dict)
  : dict -> dict -> outcome dict :=
  fix loop (out items : dict) : outcome dict :=
    match items with
    | [] => Return out
    | (k, v) :: items' =>
        match v, json_get k out with
        | JDict _, Some (JDict sub) =>
            merged <- rec sub v ;;
            loop (json_set k (JDict merged) out) items'
        | _, _ => loop (json_set k v out) items'
        end
    end.

(** [_deep_merge(a, b)] for a [dict] [a]; every activation takes one of
    the [frames] the interpreter has left. *)
Fixpoint _deep_merge (frames : nat) (a : dict) (b : json) : outcome dict :=
  match frames with
  | O => raise RecursionError "maximum recursion depth exceeded"
  | S frames =>
      match b with
      | JDict items => merge_items (_deep_merge frames) a items
      | _ =>
          raise AttributeError
            ("'" ++ type_name b ++ "' object has no attribute 'items'")
      end
  end.

(** The file at [path]: absent, or what opening and [json.load] make of
    it. *)
Inductive config_file :=
| Missing
| Loaded (data : outcome json).

Definition load_config (frames : nat) (path : config_file) : outcome dict :=
  match path with
  | Missing => Return _DEFAULTS
  | Loaded loaded =>
      data <- loaded ;;
      _deep_merge frames _DEFAULTS (if json_truthy data then data else JDict [])
  end.

(** ** Formatting and exceptions *)

(** [num / den] rounded to the nearest integer, a tie to the even one. *)
Definition round_half_even (num den : Z) : Z :=
  let n := (num / den)%Z in
  let r := (num mod den)%Z in
  if (2 * r <? den)%Z then n
  else if (den <? 2 * r)%Z then (n + 1)%Z
  else if Z.even n then n else (n + 1)%Z.

(** The digits of [n], a count of hundredths when [p] is 2, with the
    point [p] digits from the end. *)
Definition fixed_digits (p : nat) (n : Z) : str :=
  let ds := of_string (NilZero.string_of_int (Z.to_int n)) in
  let ds := repeat (chr "0") (S p - length ds) ++ ds in
  match p with
  | O => ds
  | _ => firstn (length ds - p) ds ++ chr "." :: skipn (length ds - p) ds
  end.

(** [format(x, ".pf")]: the exact value of the float rounded to [p]
    decimals. *)
Definition format_f (p : nat) (x : float) : str :=
  match x with
  | S754_nan => of_string "nan"
  | S754_infinity s => of_string (if s then "-inf" else "inf")
  | S754_zero s => of_string (if s then "-" else "") ++ fixed_digits p 0
  | S754_finite s m e =>
      let scaled := (Zpos m * 10 ^ Z.of_nat p)%Z in
      let n :=
        match e with
        | Zneg k => round_half_even scaled (2 ^ Zpos k)
        | _ => (scaled * 2 ^ e)%Z
        end in
      of_string (if s then "-" else "") ++ fixed_digits p n
  end.

(** The classes that do not derive from [Exception]: an [except
    Exception] clause lets them pass. *)
Definition outside_Exception : list string :=
  ["BaseException"; "KeyboardInterrupt"; "SystemExit"; "GeneratorExit";
   "BaseExceptionGroup"; "CancelledError"]%string.

(** [isinstance(e, Exception)] *)
Definition is_Exception (e : exn) : bool :=
  match exn_class_of e with
  | OtherException name => negb (existsb (String.eqb name) outside_Exception)
  | _ => true
  end.

(** The float 1.0, what the [int] 1 is in float arithmetic. *)
Definition float_one : float := S754_finite false 4503599627370496 (-52).

(** [x / y] on floats *)
Definition float_quotient (x y : float) : outcome float :=
  if float_is_zero y then raise ZeroDivisionError "float division by zero"
  else Return (fdiv x y).

(** A float literal of the source with [k] decimals: [m / 10^k]
    rounded. *)
Definition decimal_literal (m : positive) (k : nat) : float :=
  ratio_to_float false m (Z.to_pos (10 ^ Z.of_nat k)).

(** ** [services/currency.py] *)

Definition CurrencyError : exn_class := OtherException "CurrencyError".

Definition spaces : regex := Chars [ClassSpace] Plus.
Definition digits : regex := Chars [ClassDigit] Plus.

(** [[a-z]{3}] *)
Definition three_lower : regex :=
  let c := Chars [Range (chr "a") (chr "z")] Once in cat [c; c; c].

(** [[A-Za-z]{3}] *)
Definition three_letters : regex :=
  let c := Chars [Range (chr "A") (chr "Z"); Range (chr "a") (chr "z")] Once in
  cat [c; c; c].

(** [(\d+(?:\.\d+)?)], the first group *)
Definition amount_group : regex :=
  Group 1 (cat [digits; Opt (cat [Chars [Lit (chr ".")] Once; digits])]).

(** The patterns of [is_currency_query]. *)
Definition query_patterns : list regex :=
  [ cat [lit "convert"; spaces; digits];
    cat [digits; spaces; three_lower; spaces; Alt (lit "to") (lit "in");
         spaces; three_lower];
    cat [lit "how"; spaces; lit "much"; spaces; lit "is"; spaces; digits];
    cat [lit "quanto"; spaces; Alt (lit "é") (lit "vale"); spaces; digits];
    cat [lit "converter"; spaces; digits] ].

(** The patterns of [extract_conversion_data]. *)
Definition conversion_patterns : list regex :=
  [ cat [Opt (cat [lit "convert"; spaces]); amount_group; spaces;
         Group 2 three_letters; spaces; Alt (lit "to") (lit "in"); spaces;
         Group 3 three_letters];
    cat [lit "how"; spaces; lit "much"; spaces; lit "is"; spaces;
         amount_group; spaces; Group 2 three_letters; spaces; lit "in";
         spaces; Group 3 three_letters];
    cat [lit "quanto"; spaces; Alt (lit "é") (lit "vale"); spaces;
         amount_group; spaces; Group 2 three_letters; spaces; lit "em";
         spaces; Group 3 three_letters];
    cat [lit "converter"; spaces; amount_group; spaces;
         Group 2 three_letters; spaces; lit "para"; spaces;
         Group 3 three_letters] ].

(** The rates of [_try_hardcoded_rates], to the dollar. *)
Definition usd_rates : list (str * float) :=
  [ (of_string "USD", decimal_literal 10 1);
    (of_string "EUR", decimal_literal 85 2);
    (of_string "GBP", decimal_literal 73 2);
    (of_string "JPY", decimal_literal 1100 1);
    (of_string "BRL", decimal_literal 50 1);
    (of_string "CAD", decimal_literal 125 2);
    (of_string "AUD", decimal_literal 135 2);
    (of_string "CHF", decimal_literal 92 2);
    (of_string "CNY", decimal_literal 64 1);
    (of_string "INR", decimal_literal 740 1) ].

(** [usd_rates[k]] when [k in usd_rates] *)
Fixpoint rate_of (k : str) (d : list (str * float)) : option float :=
  match d with
  | [] => None
  | (k', r) :: d' => if str_eqb k k' then Some r else rate_of k d'
  end.

(** A conversion method: amount, source and target currency. *)
Definition method := float -> str -> str -> outcome str.

Section CurrencyClient.

Variable rt : runtime.
Variable uc : unicode_case.

(** The three methods that ask a server on the network; what they return
    or raise is the network's affair. *)
Variable _try_exchangerate_api : method.
Variable _try_fixer_free : method.
Variable _try_currencyapi_free : method.

Definition is_currency_query (text : str) : bool :=
  let text_lower := lower uc text in
  existsb
    (fun pattern =>
       match regex_search (unicode rt) uc false pattern text_lower with
       | Some _ => true
       | None => false
       end)
    query_patterns.

(** The first pattern that matches gives the amount and the two
    codes. *)
Fixpoint first_conversion (patterns : list regex) (text : str)
  : outcome (option (float * str * str)) :=
  match patterns with
  | [] => Return None
  | pattern :: patterns' =>
      match regex_search (unicode rt) uc true pattern text with
      | Some m =>
          amount <- py_float (unicode rt) uc (group 1 m) ;;
          let from_cur := upper uc (group 2 m) in
          let to_cur := upper uc (group 3 m) in
          Return (Some (amount, from_cur, to_cur))
      | None => first_conversion patterns' text
      end
  end.

Definition extract_conversion_data (text : str)
  : outcome (option (float * str * str)) :=
  first_conversion conversion_patterns text.

Definition _try_hardcoded_rates : method :=
  fun amount from_cur to_cur =>
    match rate_of from_cur usd_rates, rate_of to_cur usd_rates with
    | Some from_rate, Some usd_to_to =>
        from_to_usd <- float_quotient float_one from_rate ;;
        let rate := fmul from_to_usd usd_to_to in
        let result := fmul amount rate in
        Return
          (float_str rt amount ++ of_string " " ++ from_cur
           ++ of_string " = " ++ format_f 2 result ++ of_string " "
           ++ to_cur ++ of_string " (Approx. rate: " ++ format_f 6 rate
           ++ of_string ") [OFFLINE]")
    | _, _ =>
        raise CurrencyError
          ("Currency pair " ++ to_utf8 from_cur ++ "/" ++ to_utf8 to_cur
           ++ " not supported in fallback rates")
    end.

(** The loop of [convert] over the methods: the first that returns
    answers; an exception of a method is kept as [last_error]. *)
Fixpoint try_methods (apis : list method) (last_error : string)
  (amount : float) (from_currency to_currency : str) : outcome str :=
  match apis with
  | [] =>
      raise CurrencyError
        ("All currency conversion methods failed. Last error: " ++ last_error)
  | api_func :: apis' =>
      match api_func amount from_currency to_currency with
      | Return answer => Return answer
      | Raise e =>
          if is_Exception e then
            try_methods apis' (exn_msg e) amount from_currency to_currency
          else Raise e
      end
  end.

Definition convert (amount : float) (from_currency to_currency : str)
  : outcome str :=
  let from_currency := upper uc from_currency in
  let to_currency := upper uc to_currency in
  if str_eqb from_currency to_currency then
    Return
      (float_str rt amount ++ of_string " " ++ from_currency
       ++ of_string " = " ++ float_str rt amount ++ of_string " "
       ++ to_currency ++ of_string " (Same currency)")
  else
    try_methods
      [_try_exchangerate_api; _try_fixer_free; _try_currencyapi_free;
       _try_hardcoded_rates]
      "None" amount from_currency to_currency.

Definition handle_query (text : str) : outcome str :=
  conversion_data <- extract_conversion_data text ;;
  match conversion_data with
  | None =>
      raise CurrencyError
        ("Could not parse currency query. "
         ++ "Try formats like: 'convert 100 USD to BRL' or '100 USD to EUR'")
  | Some (amount, from_cur, to_cur) => convert amount from_cur to_cur
  end.

End CurrencyClient.

(** ** [services/weather.py] *)

Definition WeatherError : exn_class := OtherException "WeatherError".

Definition weather_keywords : list str :=
  map of_utf8
    ["weather"; "forecast"; "temperature"; "tempo"; "clima"; "pronóstico";
     "pronostico"]%string.

(** [\b(?:in|em|en)\s+([A-Za-zÀ-ÿ0-9\.\-\,\s]+)\??$] *)
Definition location_pattern : regex :=
  cat [ WordBoundary;
        Alt (lit "in") (Alt (lit "em") (lit "en"));
        spaces;
        Group 1
          (Chars [Range (chr "A") (chr "Z"); Range (chr "a") (chr "z");
                  Range (uchr "À") (uchr "ÿ"); Range (chr "0") (chr "9"); Lit (chr ".");
                  Lit (chr "-"); Lit (chr ","); ClassSpace] Plus);
        Opt (Chars [Lit (chr "?")] Once);
        EndOfString ].

Definition location_leads : list str :=
  map of_utf8
    ["weather in"; "weather at"; "tempo em"; "clima em"; "pronóstico en";
     "pronostico en"; "forecast in"]%string.

Section WeatherClient.

Variable ucd : unicode_db.
Variable uc : unicode_case.

Definition is_weather_query (text : str) : bool :=
  match text with
  | [] => false
  | _ =>
      let t := lower uc text in
      existsb (fun k => is_in k t) weather_keywords
  end.

(** The loop of [extract_location] over the leads. *)
Fixpoint after_lead (leads : list str) (t : str) : option str :=
  match leads with
  | [] => None
  | lead :: leads' =>
      if startswith lead (lower uc t) then
        Some (strip_chars (of_string " ?") (skipn (length lead) t))
      else after_lead leads' t
  end.

Definition extract_location (text : str) : option str :=
  match text with
  | [] => None
  | _ =>
      let t := strip text in
      match regex_search ucd uc true location_pattern t with
      | Some m => Some (strip (group 1 m))
      | None => after_lead location_leads t
      end
  end.

End WeatherClient.

(** ** [main.py] *)

Definition KeyError : exn_class := OtherException "KeyError".

(** [obj[key]] for a key that the source writes out, on a value that
    came from JSON; the messages are those of CPython 3.11. *)
Definition subscript (obj : json) (key : string) : outcome json :=
  match obj with
  | JDict d =>
      match json_get (of_string key) d with
      | Some v => Return v
      | None => raise KeyError ("'" ++ key ++ "'")
      end
  | JStr _ => raise TypeError "string indices must be integers, not 'str'"
  | JList _ =>
      raise TypeError "list indices must be integers or slices, not str"
  | _ => raise TypeError ("'" ++ type_name obj ++ "' object is not subscriptable")
  end.

(** The four module variables of the section "UI messages". *)
Record messages := {
  UI_MATH_MSG : json;
  UI_LLM_MSG : json;
  UI_WEATHER_MSG : json;
  UI_CURRENCY_MSG : json
}.

(** The four assignments [UI_..._MSG = cfg["ui"][...]], in their
    order. *)
Definition ui_messages (cfg : dict) : outcome messages :=
  math <- (ui <- subscript (JDict cfg) "ui" ;; subscript ui "math_message") ;;
  llm <- (ui <- subscript (JDict cfg) "ui" ;; subscript ui "llm_message") ;;
  weather <-
    (ui <- subscript (JDict cfg) "ui" ;; subscript ui "weather_message") ;;
  currency <-
    (ui <- subscript (JDict cfg) "ui" ;; subscript ui "currency_message") ;;
  Return {| UI_MATH_MSG := math; UI_LLM_MSG := llm;
            UI_WEATHER_MSG := weather; UI_CURRENCY_MSG := currency |}.

Definition RuntimeError : exn_class := OtherException "RuntimeError".

(** What the module takes from outside while it sets itself up, after
    its imports: what [load_dotenv] does with [.env]; the environment
    variables once it has; [str] of a value of the configuration and
    [int] of a text, as the interpreter computes them; and the
    constructor of the client of [openai]. *)
Record environment := {
  load_dotenv : outcome unit;
  getenv : string -> option str;
  py_str : json -> outcome str;
  int_of_str : str -> outcome Z;
  OpenAI : str -> str -> outcome unit
}.

(** [os.getenv(key, default)] *)
Definition getenv_or (env : environment) (key : string) (default : str)
  : str :=
  match getenv env key with
  | Some v => v
  | None => default
  end.

(** [int(v)] for a value that came from JSON; the messages are those of
    CPython 3.11. *)
Definition py_int (env : environment) (v : json) : outcome Z :=
  match v with
  | JInt n => Return n
  | JBool b => Return (Z.b2z b)
  | JFloat (S754_infinity _) =>
      raise OverflowError "cannot convert float infinity to integer"
  | JFloat S754_nan => raise ValueError "cannot convert float NaN to integer"
  | JFloat x => Return (float_to_int x)
  | JStr s => int_of_str env s
  | _ =>
      raise TypeError
        ("int() argument must be a string, a bytes-like object or a real number, not '"
         ++ type_name v ++ "'")
  end.

(** [v.rstrip("/")] for a value that came from JSON *)
Definition rstrip_slash (v : json) : outcome str :=
  match v with
  | JStr s =>
      Return
        (rev ((fix drop (r : str) : str :=
                 match r with
                 | c :: r' => if (c =? chr "/")%N then drop r' else r
                 | [] => []
                 end) (rev s)))
  | _ =>
      raise AttributeError
        ("'" ++ type_name v ++ "' object has no attribute 'rstrip'")
  end.

(** [cfg[section][key]] *)
Definition setting (cfg : dict) (section key : string) : outcome json :=
  s <- subscript (JDict cfg) section ;; subscript s key.

Section Setup.

Variable rt : runtime.
Variable uc : unicode_case.
Variable env : environment.

(** The statements between the loading of the configuration and the
    four messages: the settings of the language model, the check of the
    key, and the three clients.  They read [cfg] and leave it as it
    is. *)
Definition clients (cfg : dict) : outcome unit :=
  _ <- setting cfg "llm" "model" ;;
  temperature <- setting cfg "llm" "temperature" ;;
  default <- py_str env temperature ;;
  _ <- py_float (unicode rt) uc (getenv_or env "LLM_TEMPERATURE" default) ;;
  max_tokens <- setting cfg "llm" "max_tokens" ;;
  _ <- py_int env max_tokens ;;
  match getenv env "GROQ_API_KEY" with
  | None | Some [] => raise RuntimeError "Missing GROQ_API_KEY in .env"
  | Some key =>
      _ <- OpenAI env key
             (getenv_or env "GROQ_API_BASE"
                (of_string "https://api.groq.com/openai/v1")) ;;
      geocoding_url <- setting cfg "weather" "geocoding_url" ;;
      forecast_url <- setting cfg "weather" "forecast_url" ;;
      timeout <- setting cfg "weather" "timeout_seconds" ;;
      _ <- py_int env timeout ;;
      _ <- rstrip_slash geocoding_url ;;
      _ <- rstrip_slash forecast_url ;;
      Return tt
  end.

(** What the module does when it is loaded, up to its four messages:
    [load_dotenv(...)], [cfg = load_config(config_path)], the settings
    and the clients, then the messages. *)
Definition configure (frames : nat) (config_path : config_file)
  : outcome messages :=
  _ <- load_dotenv env ;;
  cfg <- load_config frames config_path ;;
  _ <- clients cfg ;;
  ui_messages cfg.

End Setup.

(** [timed(func, q)]: [call] is what [func(q)] does, [start] and [stop]
    are the two readings of [time.perf_counter()].  An exception
    that is no [Exception] passes through. *)
Definition timed {A : Type} (start stop : float) (call : outcome A)
  : outcome ((A + exn) * bool * float) :=
  match call with
  | Return out => Return (inl out, true, fsub stop start)
  | Raise e =>
      if is_Exception e then Return (inr e, false, fsub stop start)
      else Raise e
  end.

(** The text of the lines of a literal, a newline between two of
    them. *)
Fixpoint lines (l : list string) : str :=
  match l with
  | [] => []
  | [s] => of_utf8 s
  | s :: l' => of_utf8 s ++ 10%N :: lines l'
  end.

(** The float 1000.0, what the [int] 1000 is in float arithmetic. *)
Definition float_thousand : float := decimal_literal 1000 0.

Definition format_response (source content : str) (elapsed_time : float)
  : str :=
  lines [""; "------------------------------------"; ""; "Assistant Response";
         ""; "Source: "]%string
  ++ source
  ++ lines [""; ""; ""]%string
  ++ content
  ++ lines [""; ""; "(response time: "]%string
  ++ format_f 0 (fmul elapsed_time float_thousand)
  ++ lines [" ms)"; ""; "------------------------------------"; ""]%string.

(** The [Location] of [services/weather.py]. *)
Record Location := {
  name : str;
  country : option str;
  latitude : float;
  longitude : float
}.

(** What lies outside the program while it answers one question: the
    servers behind the three conversion methods, behind [geocode] and
    [current_weather] and behind the chat completion of [ask_llm], and
    the clock that [timed] reads before and after. *)
Record world := {
  _try_exchangerate_api : method;
  _try_fixer_free : method;
  _try_currencyapi_free : method;
  geocode : str -> outcome Location;
  current_weather : Location -> outcome str;
  ask_llm : str -> outcome str;
  start : float;
  stop : float
}.

Definition WELCOME_BANNER : str :=
  lines
    [ "";
      "╔══════════════════════════════════════════════╗";
      "║       Welcome to the AI Assistant!           ║";
      "╠══════════════════════════════════════════════╣";
      "║ You can ask questions, perform calculations, ║";
      "║ convert currencies, or check the weather.    ║";
      "║                                              ║";
      "║ Examples:                                    ║";
      "║ • Who was Albert Einstein?                   ║";
      "║ • What is 128 * 46?                          ║";
      "║ • Weather in New York                        ║";
      "║ • Convert 100 USD to BRL                     ║";
      "╠══════════════════════════════════════════════╣";
      "║ Type 'exit', 'quit', or 'sair' to leave.     ║";
      "╚══════════════════════════════════════════════╝";
      "" ]%string.

(** What the program writes to the terminal: the prompt of [input], and
    the argument of a [print], a [str] or a value of the
    configuration. *)
Inductive output :=
| Prompt (text : str)
| Print (text : str)
| PrintValue (v : json).

(** How an iteration of the loop ends. *)
Inductive step :=
| Continue
| Break
| Crash (e : exn).

(** How far the program got on the events it was given. *)
Inductive ending :=
| Waiting
| Left
| Crashed (e : exn).

Section Main.

Variable rt : runtime.
Variable uc : unicode_case.
Variable ui : messages.

(** What the terminal makes of an output: the exception
    ([UnicodeEncodeError], when its encoding lacks a character of the
    text) that [print] or [input] raises instead of writing it, if
    any. *)
Variable terminal : output -> option exn.

Section Turn.

Variable w : world.

Definition handle_weather (question : str) : outcome str :=
  match extract_location (unicode rt) uc question with
  | None | Some [] =>
      raise WeatherError
        "Could not detect a location. Try: 'weather in <City>'."
  | Some loc_query =>
      loc <- geocode w loc_query ;;
      current_weather w loc
  end.

Definition handle_currency (question : str) : outcome str :=
  handle_query rt uc (_try_exchangerate_api w) (_try_fixer_free w)
    (_try_currencyapi_free w) question.

(** One of the four paths: the message, the timed call of the handler
    and the response, which shows the result or, after the label of the
    path, the exception. *)
Definition path (message : json) (source error : string)
  (call : outcome str) : list output * step :=
  match timed (start w) (stop w) call with
  | Return (result, ok, dt) =>
      let content :=
        match result with
        | inl out => out
        | inr e => of_utf8 error ++ of_utf8 (exn_msg e)
        end in
      ([PrintValue message;
        Print (format_response (of_utf8 source) content dt)],
       Continue)
  | Raise e => ([PrintValue message], Crash e)
  end.

(** The body of the loop, [typed] being what [input("You: ")] does. *)
Definition turn (typed : outcome str) : list output * step :=
  let prompt := Prompt (of_string "You: ") in
  match typed with
  | Raise e =>
      match exn_class_of e with
      | OtherException "KeyboardInterrupt" | OtherException "EOFError" =>
          ([prompt; Print (lines [""; "Exiting."]%string)], Break)
      | _ => ([prompt], Crash e)
      end
  | Return line =>
      let q := strip line in
      let (out, next) :=
        match q with
        | [] => ([], Continue)
        | _ =>
            if existsb (str_eqb (lower uc q))
                 [of_string "exit"; of_string "quit"; of_string "sair"]
            then ([], Break)
            else if is_math_question (unicode rt) (Some q) then
              path (UI_MATH_MSG ui) "🧮 Calculator" "Math error — "
                (handle_math rt q)
            else if is_weather_query uc q then
              path (UI_WEATHER_MSG ui) "☁️ Weather API" "Weather error — "
                (handle_weather q)
            else if is_currency_query rt uc q then
              path (UI_CURRENCY_MSG ui) "💱 Currency API"
                "Currency error — " (handle_currency q)
            else
              path (UI_LLM_MSG ui) "💡 LLM" "LLM error — " (ask_llm w q)
        end in
      (prompt :: out, next)
  end.

End Turn.

(** The outputs up to the first one that the terminal refuses. *)
Fixpoint shown (outs : list output) : list output * option exn :=
  match outs with
  | [] => ([], None)
  | o :: outs' =>
      match terminal o with
      | Some e => ([], Some e)
      | None => let (out, r) := shown outs' in (o :: out, r)
      end
  end.

(** The loop, on what happens at the terminal and outside: for each
    [input], what it does and the world during the answer.  [turn] says
    what an iteration writes; an output that the terminal refuses stops
    the program there, none of the [print]s standing in a [try].  At the
    end of the events the program has written its prompt and waits. *)
Fixpoint loop (events : list (outcome str * world)) : list output * ending :=
  match events with
  | [] =>
      match shown [Prompt (of_string "You: ")] with
      | (out, Some e) => (out, Crashed e)
      | (out, None) => (out, Waiting)
      end
  | (typed, w) :: events' =>
      let (out, next) := turn w typed in
      match shown out with
      | (out, Some e) => (out, Crashed e)
      | (out, None) =>
          match next with
          | Continue => let (out', e) := loop events' in (out ++ out', e)
          | Break => (out, Left)
          | Crash e => (out, Crashed e)
          end
      end
  end.

(** The block under [if __name__ == "__main__"]. *)
Definition main (events : list (outcome str * world)) : list output * ending :=
  match shown [Print WELCOME_BANNER] with
  | (out, Some e) => (out, Crashed e)
  | (out, None) => let (out', e) := loop events in (out ++ out', e)
  end.

End Main.

(** * Specification

    The vocabulary of the properties: what the specification's words
    mean, and the auxiliary notions of the proofs. *)

(** ** The words of a pattern *)

Section Words.

Variable ucd : unicode_db.

(** The words a pattern matches. *)
Fixpoint lang (p : pattern) (m : str) : Prop :=
  match p with
  | [] => m = []
  | (cs, Once) :: p' =>
      exists c m', m = c :: m' /\ set_mem ucd cs c = true /\ lang p' m'
  | (cs, Star) :: p' =>
      exists w m', m = w ++ m' /\ forallb (set_mem ucd cs) w = true /\ lang p' m'
  | (cs, Plus) :: p' =>
      exists c w m',
        m = c :: w ++ m' /\ set_mem ucd cs c = true /\ forallb (set_mem ucd cs) w = true
        /\ lang p' m'
  end.

End Words.

(** ** Runs of a character set *)

Section RunFunctions.

Variable ucd : unicode_db.
Variable cs : charset.

(** The longest prefix in the set, and what follows it. *)
Fixpoint take_run (s : str) : str :=
  match s with
  | c :: s' => if set_mem ucd cs c then c :: take_run s' else []
  | [] => []
  end.

Fixpoint drop_run (s : str) : str :=
  match s with
  | c :: s' => if set_mem ucd cs c then drop_run s' else s
  | [] => []
  end.

(** The leftmost character of the set, as [search_from] finds it. *)
Fixpoint find_run (s : str) : option (str * str) :=
  match s with
  | [] => None
  | c :: s' => if set_mem ucd cs c then Some (s, drop_run s') else find_run s'
  end.

End RunFunctions.

(** [r] is a maximal contiguous run of characters of the class in [text],
    between [pre] and [post]: it is not empty, lies in the class, and the
    characters next to it, if any, do not. *)
Definition maximal_run (cls : char -> bool) (text pre r post : str) : Prop :=
  text = pre ++ r ++ post /\ r <> [] /\ forallb cls r = true
  /\ (forall pre' c, pre = pre' ++ [c] -> cls c = false)
  /\ (forall c post', post = c :: post' -> cls c = false).

(** The longest run, the first of them when several are as long. *)
Definition longest_first_run (cls : char -> bool) (text pre r post : str)
  : Prop :=
  maximal_run cls text pre r post
  /\ forall pre' r' post',
       maximal_run cls text pre' r' post' ->
       (length r' <= length r)%nat
       /\ (length r' = length r -> (length pre <= length pre')%nat).

(** All whitespace removed. *)
Definition strip_whitespace (s : str) : str :=
  filter (fun c => negb (py_isspace c)) s.

(** The order of the offsets of located runs. *)
Definition offset_lt (a b : str * str) : Prop :=
  (length (fst a) < length (fst b))%nat.

(** The class [[0-9.\s+\-*/^()]] of both patterns. *)
Definition math_class (c : char) : bool :=
  is_ascii_digit c || existsb (N.eqb c) (of_string ".+-*/^()")
  || py_isspace c.

(** The character set of [block_pattern]. *)
Definition block_set : charset :=
  [Range (chr "0") (chr "9"); Lit (chr "."); ClassSpace; Lit (chr "+");
   Lit (chr "-"); Lit (chr "*"); Lit (chr "/"); Lit (chr "^");
   Lit (chr "("); Lit (chr ")")].

(** The strict heuristic: only characters of the class, a digit among
    them, and one of the operator characters. *)
Definition strict_heuristic (ucd : unicode_db) (text : str) : bool :=
  forallb math_class text
  && existsb (py_isdigit ucd) text
  && existsb (fun op => contains op text) (of_string "+-*/^").

(** The loose heuristic: somewhere in the text, digits, optional
    whitespace, one operator, optional whitespace, digits. *)
Definition loose_heuristic (ucd : unicode_db) (text : str) : Prop :=
  exists pre d1 w1 o w2 d2 post,
    text = pre ++ d1 ++ w1 ++ o :: w2 ++ d2 ++ post
    /\ d1 <> [] /\ forallb (py_isdecimal ucd) d1 = true
    /\ forallb py_isspace w1 = true
    /\ In o (of_string "+-*/^")
    /\ forallb py_isspace w2 = true
    /\ d2 <> [] /\ forallb (py_isdecimal ucd) d2 = true.

(** Unicode tables in which only ASCII has digits. *)
Definition ascii_only : unicode_db :=
  {| ucd_isdigit := fun _ => false; ucd_isdecimal := fun _ => false |}.

(** ** Standard precedence

    What it means for a list of tokens to be an arithmetic expression
    read with the standard conventions: [*] and [/] bind tighter than [+]
    and [-], all four associate to the left, [**] binds tighter still,
    associates to the right, and takes a signed exponent; a sign in front
    applies to the whole power. *)

Inductive level := LSum | LTerm | LFactor | LPower | LAtom.

Inductive derives : level -> list grammar.token -> ast.expr -> Prop :=
| d_number c : derives LAtom [grammar.NUMBER c] (ast.Constant c)
| d_paren ts e :
    derives LSum ts e ->
    derives LAtom (grammar.LPAR :: ts ++ [grammar.RPAR]) e
| d_atom ts e : derives LAtom ts e -> derives LPower ts e
| d_pow ts1 ts2 b e :
    derives LAtom ts1 b -> derives LFactor ts2 e ->
    derives LPower (ts1 ++ grammar.DOUBLESTAR :: ts2) (ast.BinOp b ast.Pow e)
| d_power ts e : derives LPower ts e -> derives LFactor ts e
| d_uplus ts e :
    derives LFactor ts e ->
    derives LFactor (grammar.PLUS :: ts) (ast.UnaryOp ast.UAdd e)
| d_uminus ts e :
    derives LFactor ts e ->
    derives LFactor (grammar.MINUS :: ts) (ast.UnaryOp ast.USub e)
| d_factor ts e : derives LFactor ts e -> derives LTerm ts e
| d_times ts1 ts2 l r :
    derives LTerm ts1 l -> derives LFactor ts2 r ->
    derives LTerm (ts1 ++ grammar.STAR :: ts2) (ast.BinOp l ast.Mult r)
| d_over ts1 ts2 l r :
    derives LTerm ts1 l -> derives LFactor ts2 r ->
    derives LTerm (ts1 ++ grammar.SLASH :: ts2) (ast.BinOp l ast.Div r)
| d_term ts e : derives LTerm ts e -> derives LSum ts e
| d_add ts1 ts2 l r :
    derives LSum ts1 l -> derives LTerm ts2 r ->
    derives LSum (ts1 ++ grammar.PLUS :: ts2) (ast.BinOp l ast.Add r)
| d_sub ts1 ts2 l r :
    derives LSum ts1 l -> derives LTerm ts2 r ->
    derives LSum (ts1 ++ grammar.MINUS :: ts2) (ast.BinOp l ast.Sub r).

(** The input starts with a space or a tab. *)
Definition leading_blank (s : str) : bool :=
  match s with
  | c :: _ => ((c =? 32) || (c =? 9))%N
  | [] => false
  end.

(** The tokens after which a rule of the parser stops. *)
Definition no_call (rest : list grammar.token) : Prop :=
  match rest with
  | grammar.LPAR :: _ => False
  | _ => True
  end.

Definition stop_power (rest : list grammar.token) : Prop :=
  match rest with
  | grammar.LPAR :: _ | grammar.DOUBLESTAR :: _ => False
  | _ => True
  end.

Definition stop_term (rest : list grammar.token) : Prop :=
  match rest with
  | grammar.LPAR :: _ | grammar.DOUBLESTAR :: _ | grammar.STAR :: _
  | grammar.SLASH :: _ | grammar.DOUBLESLASH :: _ => False
  | _ => True
  end.

Definition stop_sum (rest : list grammar.token) : Prop :=
  match rest with
  | grammar.LPAR :: _ | grammar.DOUBLESTAR :: _ | grammar.STAR :: _
  | grammar.SLASH :: _ | grammar.DOUBLESLASH :: _
  | grammar.PLUS :: _ | grammar.MINUS :: _ => False
  | _ => True
  end.

(** The tokens an atom, and an expression, can start with. *)
Definition opens (t : grammar.token) : Prop :=
  match t with
  | grammar.NUMBER _ | grammar.LPAR => True
  | _ => False
  end.

Definition begins (t : grammar.token) : Prop :=
  match t with
  | grammar.NUMBER _ | grammar.LPAR | grammar.PLUS | grammar.MINUS => True
  | _ => False
  end.

(** What the parser does on a derivable token list followed by [rest],
    given fuel in proportion. *)
Definition parses (lvl : level) (ts : list grammar.token) (e : ast.expr)
  : Prop :=
  match lvl with
  | LAtom =>
      forall rest n, no_call rest -> (10 * length ts <= n + 4)%nat ->
        grammar.primary n (ts ++ rest) = grammar.Ok e rest
  | LPower =>
      forall rest n, stop_power rest -> (10 * length ts <= n + 3)%nat ->
        grammar.power n (ts ++ rest) = grammar.Ok e rest
  | LFactor =>
      forall rest n, stop_power rest -> (10 * length ts <= n + 2)%nat ->
        grammar.factor n (ts ++ rest) = grammar.Ok e rest
  | LTerm =>
      forall rest n, stop_power rest -> (10 * length ts <= n + 1)%nat ->
        exists n', (n <= n' + length ts)%nat
                   /\ grammar.term n (ts ++ rest) = grammar.term_rest n' e rest
  | LSum =>
      forall rest n, stop_term rest -> (10 * length ts <= n)%nat ->
        exists n', (n <= n' + length ts)%nat
                   /\ grammar.sum n (ts ++ rest) = grammar.sum_rest n' e rest
  end.

(** ** The evaluator's platform *)

Definition out_of_range {A : Type} : outcome A :=
  raise OverflowError "Result too large".

(** A runtime to run the statements on: the grammar for parser; digit
    tables that know ASCII only; a stack that overflows where CPython
    3.11's does when the loop of [main.py] runs with the default limit of
    1000 (a constant node takes one more call than another node); memory
    for integers of up to 2^36 bits; the default limit on printed digits;
    and a C library that reports every power and every complex operation
    as out of range (no input used below gets there). *)
Definition sample_runtime : runtime :=
  {| unicode := ascii_only;
     ast_parse := fun s =>
       match grammar.parse s with
       | grammar.Tree e => Return e
       | _ => raise SyntaxError "invalid syntax"
       end;
     float_pow := fun _ _ => out_of_range;
     c_sum := fun _ _ => out_of_range;
     c_diff := fun _ _ => out_of_range;
     c_prod := fun _ _ => out_of_range;
     c_quot := fun _ _ => out_of_range;
     c_pow := fun _ _ => out_of_range;
     stack_overflow := fun level node =>
       match node with
       | ast.Constant _ =>
           if (level <? 993)%nat then None
           else if (level =? 993)%nat then
             Some "maximum recursion depth exceeded in __instancecheck__"%string
           else Some "maximum recursion depth exceeded"%string
       | _ =>
           if (level <? 994)%nat then None
           else Some "maximum recursion depth exceeded"%string
       end;
     builds_int := fun n => (Z.log2 (Z.abs n) <? 2 ^ 36)%Z;
     int_max_str_digits := 4300;
     float_str := fun _ => of_string "<float>";
     complex_str := fun _ => of_string "<complex>" |}.

(** The input handed to the parser. *)
Definition source (s : str) : str := replace (chr "^") (of_string "**") s.

(** ** The whitelist *)

Definition allowed_binary (o : ast.operator) : bool :=
  match o with
  | ast.Add | ast.Sub | ast.Mult | ast.Div | ast.Pow => true
  | _ => false
  end.

Definition allowed_unary (o : ast.unaryop) : bool :=
  match o with
  | ast.USub | ast.UAdd => true
  | _ => false
  end.

(** A numeric literal: an integer, a float or an imaginary number. *)
Definition numeric_literal (c : ast.constant) : bool :=
  match c with
  | ast.CInt _ | ast.CFloat _ | ast.CComplex _ => true
  | _ => false
  end.

(** A node of a shape the walk recognises: a numeric literal or one of
    the constants [True] and [False], a binary operation with one of the
    five operators, a unary operation with one of the two. *)
Definition recognised (node : ast.expr) : bool :=
  match node with
  | ast.Constant (ast.CInt _ | ast.CFloat _ | ast.CComplex _ | ast.CBool _) =>
      true
  | ast.BinOp _ o _ => allowed_binary o
  | ast.UnaryOp o _ => allowed_unary o
  | _ => false
  end.

(** A tree all of whose nodes are recognised. *)
Fixpoint whitelisted (node : ast.expr) : bool :=
  recognised node
  && match node with
     | ast.BinOp l _ r => whitelisted l && whitelisted r
     | ast.UnaryOp _ e => whitelisted e
     | _ => true
     end.

(** [u] is [t] or an operand inside it. *)
Inductive operand_of (u : ast.expr) : ast.expr -> Prop :=
| operand_self : operand_of u u
| operand_left l o r : operand_of u l -> operand_of u (ast.BinOp l o r)
| operand_right l o r : operand_of u r -> operand_of u (ast.BinOp l o r)
| operand_unary o e : operand_of u e -> operand_of u (ast.UnaryOp o e).

(** The walk of [t], entered [level] deep, stays within the stack. *)
Fixpoint within_stack (rt : runtime) (level : nat) (t : ast.expr) : bool :=
  match stack_overflow rt level t with
  | Some _ => false
  | None =>
      match t with
      | ast.BinOp l _ r =>
          within_stack rt (S level) l && within_stack rt (S level) r
      | ast.UnaryOp _ e => within_stack rt (S level) e
      | _ => true
      end
  end.

(** What the walk computes when the stack does not overflow. *)
Fixpoint walk (rt : runtime) (node : ast.expr) : outcome value :=
  match ast.Num_n node with
  | Some n => Return n
  | None =>
  match ast.Constant_int_or_float node with
  | Some value => Return value
  | None =>
  match node with
  | ast.BinOp lhs o rhs =>
      match dict_get (ast.BinaryType o) (_ALLOWED rt) with
      | Some f => l <- walk rt lhs ;; r <- walk rt rhs ;; f [l; r]
      | None => Raise unsupported
      end
  | ast.UnaryOp o operand =>
      match dict_get (ast.UnaryType o) (_ALLOWED rt) with
      | Some f => v <- walk rt operand ;; f [v]
      | None => Raise unsupported
      end
  | _ => Raise unsupported
  end end end.

(** The parser's answer for the text [s] is the tree [t], and the walk
    of [t] stays within the stack. *)
Definition reads (rt : runtime) (s : string) (t : ast.expr) : Prop :=
  ast_parse rt (of_string s) = Return t /\ within_stack rt 0 t = true.

(** The operations that [safe_eval] asks of its argument before the
    [try] return: the truth test and, when the argument passes the guard,
    its [replace]. *)
Definition guard_returns (expr : pyobj) : Prop :=
  match truth_test expr with
  | Raise _ => False
  | Return false => True
  | Return true =>
      isinstance_str expr = true -> exists s, replace_caret expr = Return s
  end.

(** ** Arithmetic *)

(** The integer a rational is, when it is one. *)
Definition Q_integer (q : Q) : option Z :=
  let r := Qred q in
  if (Qden r =? 1)%positive then Some (Qnum r) else None.

(** The mathematical value of an expression over integer literals, in
    the rationals; undefined where a division is by zero, where an
    exponent is not an integer, or where zero is raised to a negative
    power.  (A decimal literal is held rounded in the tree, so it has no
    place here.) *)
Fixpoint exact_value (t : ast.expr) : option Q :=
  match t with
  | ast.Constant (ast.CInt n) => Some (inject_Z n)
  | ast.BinOp l o r =>
      match exact_value l, exact_value r with
      | Some a, Some b =>
          match o with
          | ast.Add => Some (a + b)%Q
          | ast.Sub => Some (a - b)%Q
          | ast.Mult => Some (a * b)%Q
          | ast.Div => if Qeq_bool b 0 then None else Some (a / b)%Q
          | ast.Pow =>
              match Q_integer b with
              | Some n =>
                  if Qeq_bool a 0 && (n <? 0)%Z then None else Some (a ^ n)%Q
              | None => None
              end
          | _ => None
          end
      | _, _ => None
      end
  | ast.UnaryOp ast.USub e => option_map Qopp (exact_value e)
  | ast.UnaryOp ast.UAdd e => exact_value e
  | _ => None
  end.

(** The value of an expression of integer arithmetic: integer literals,
    [+], [-], [*], unary signs, and powers whose exponent is not
    negative. *)
Fixpoint int_value (t : ast.expr) : option Z :=
  match t with
  | ast.Constant (ast.CInt n) => Some n
  | ast.BinOp l o r =>
      match int_value l, int_value r with
      | Some a, Some b =>
          match o with
          | ast.Add => Some (a + b)%Z
          | ast.Sub => Some (a - b)%Z
          | ast.Mult => Some (a * b)%Z
          | ast.Pow => if (0 <=? b)%Z then Some (a ^ b)%Z else None
          | _ => None
          end
      | _, _ => None
      end
  | ast.UnaryOp ast.USub e => option_map Z.opp (int_value e)
  | ast.UnaryOp ast.UAdd e => int_value e
  | _ => None
  end.

(** The memory holds every integer that the evaluation of a tree of
    integer arithmetic makes: the result of each operation. *)
Definition holds (rt : runtime) (t : ast.expr) : bool :=
  match int_value t with
  | Some n => op.built rt n
  | None => true
  end.

Fixpoint roomy (rt : runtime) (t : ast.expr) : bool :=
  match t with
  | ast.BinOp l _ r => roomy rt l && roomy rt r && holds rt t
  | ast.UnaryOp ast.USub e => roomy rt e && holds rt t
  | ast.UnaryOp _ e => roomy rt e
  | _ => true
  end.

(** A tree of arithmetic: integer and float literals under the five
    operators and the two signs. *)
Fixpoint arithmetic (t : ast.expr) : bool :=
  match t with
  | ast.Constant (ast.CInt _ | ast.CFloat _) => true
  | ast.BinOp l o r => allowed_binary o && arithmetic l && arithmetic r
  | ast.UnaryOp o e => allowed_unary o && arithmetic e
  | _ => false
  end.

Definition is_int (v : value) : bool :=
  match v with
  | VInt _ => true
  | _ => false
  end.

(** A number held in floating point. *)
Definition inexact (v : value) : Prop :=
  match v with
  | VFloat _ | VComplex _ => True
  | _ => False
  end.

(** The kind of number a tree of arithmetic evaluates to: an [int] when
    the tree is one of integer arithmetic, and then its value; a [float]
    or a [complex] when it is not. *)
Definition kind_of (t : ast.expr) (v : value) : Prop :=
  match v with
  | VInt n => int_value t = Some n
  | VBool _ => False
  | VFloat _ | VComplex _ => int_value t = None
  end.

(** [s] is a well-formed arithmetic string and [e] its standard reading:
    once [^] is replaced, the tokens of [s] are numbers, operators and
    parentheses that form [e] under the standard precedence. *)
Definition well_formed (s : str) (e : ast.expr) : Prop :=
  exists ts,
    grammar.lex grammar.Start (source s) = grammar.Tokens ts
    /\ derives LSum ts e.

(** The tokens of a number hold an integer or a float. *)
Definition number_token (t : grammar.token) : Prop :=
  match t with
  | grammar.NUMBER (ast.CInt _ | ast.CFloat _) => True
  | grammar.NUMBER _ => False
  | _ => True
  end.

(** The float [x] is finite and its value is the integer [z]: it has a
    zero fractional part. *)
Definition whole (x : float) (z : Z) : Prop :=
  exists q, float_to_Q x = Some q /\ (q == inject_Z z)%Q.

(** ** Configuration *)

Definition is_dict (j : json) : bool :=
  match j with
  | JDict _ => true
  | _ => false
  end.

(** The value a path of keys leads to. *)
Fixpoint get_path (p : list str) (j : json) : option json :=
  match p with
  | [] => Some j
  | k :: p' =>
      match j with
      | JDict d =>
          match json_get k d with
          | Some v => get_path p' v
          | None => None
          end
      | _ => None
      end
  end.

(** A [dict] holds one item for a key, at every level. *)
Inductive unique_keys : json -> Prop :=
| uk_null : unique_keys JNull
| uk_bool b : unique_keys (JBool b)
| uk_int n : unique_keys (JInt n)
| uk_float x : unique_keys (JFloat x)
| uk_str s : unique_keys (JStr s)
| uk_list l : (forall v, In v l -> unique_keys v) -> unique_keys (JList l)
| uk_dict d :
    NoDup (map fst d) -> (forall k v, In (k, v) d -> unique_keys v) ->
    unique_keys (JDict d).

(** How deep the dicts of a value nest. *)
Fixpoint dict_depth (j : json) : nat :=
  match j with
  | JDict d =>
      S ((fix deepest (items : list (str * json)) : nat :=
            match items with
            | [] => 0%nat
            | (_, v) :: items' => Nat.max (dict_depth v) (deepest items')
            end) d)
  | _ => 0
  end.

(** The overriding value [j] says nothing about the path: it has no item
    on the way, only dicts that lead further. *)
Fixpoint silent_on (p : list str) (j : json) : Prop :=
  match p, j with
  | k :: p', JDict d =>
      match json_get k d with
      | None => True
      | Some v => p' <> [] /\ is_dict v = true /\ silent_on p' v
      end
  | _, _ => False
  end.

(** The value an item of the overriding dict leaves at its key. *)
Definition merged_value (rec : dict -> json -> outcome dict)
  (old : option json) (v new : json) : Prop :=
  match v, old with
  | JDict _, Some (JDict sub) =>
      exists merged, rec sub v = Return merged /\ new = JDict merged
  | _, _ => new = v
  end.

(** Two small dicts to run the statements on. *)
Definition sample_base : dict :=
  [ (of_string "name", JStr (of_string "base"));
    (of_string "limits",
     JDict [(of_string "low", JInt 1); (of_string "high", JInt 9)]) ].

Definition sample_overrides : dict :=
  [ (of_string "limits", JDict [(of_string "high", JInt 5)]);
    (of_string "extra", JBool true) ].

(** ** What a pattern with groups matches *)

(** The character before the position reached after [w]. *)
Definition last_of (prev : option char) (w : str) : option char :=
  fold_left (fun _ c => Some c) w prev.

Section Matches.

Variable ucd : unicode_db.
Variable uc : unicode_case.
Variable ignorecase : bool.

(** [matches r prev w next g g']: the pattern matches the word [w]
    between the character [prev] and the text [next], and closes the
    groups that [g'] has more than [g]. *)
Inductive matches
  : regex -> option char -> str -> str -> groups -> groups -> Prop :=
| m_eps prev next g : matches Eps prev [] next g g
| m_once cs c prev next g :
    in_set ucd uc ignorecase cs c = true ->
    matches (Chars cs Once) prev [c] next g g
| m_star cs w prev next g :
    forallb (in_set ucd uc ignorecase cs) w = true ->
    matches (Chars cs Star) prev w next g g
| m_plus cs c w prev next g :
    in_set ucd uc ignorecase cs c = true ->
    forallb (in_set ucd uc ignorecase cs) w = true ->
    matches (Chars cs Plus) prev (c :: w) next g g
| m_seq r1 r2 prev w1 w2 next g g1 g2 :
    matches r1 prev w1 (w2 ++ next) g g1 ->
    matches r2 (last_of prev w1) w2 next g1 g2 ->
    matches (Seq r1 r2) prev (w1 ++ w2) next g g2
| m_alt_left r1 r2 prev w next g g' :
    matches r1 prev w next g g' -> matches (Alt r1 r2) prev w next g g'
| m_alt_right r1 r2 prev w next g g' :
    matches r2 prev w next g g' -> matches (Alt r1 r2) prev w next g g'
| m_opt_some r prev w next g g' :
    matches r prev w next g g' -> matches (Opt r) prev w next g g'
| m_opt_none r prev next g : matches (Opt r) prev [] next g g
| m_group i r prev w next g g' :
    matches r prev w next g g' ->
    matches (Group i r) prev w next g ((i, w) :: g')
| m_boundary prev next g :
    xorb (is_word_at uc prev) (is_word_at uc (hd_error next)) = true ->
    matches WordBoundary prev [] next g g
| m_end prev next g :
    next = [] \/ next = [10%N] -> matches EndOfString prev [] next g g.

End Matches.

(** The ASCII characters. *)
Definition ascii_table : list char := map N.of_nat (seq 0 128).

Definition is_letter (c : char) : bool :=
  (((65 <=? c) && (c <=? 90)) || ((97 <=? c) && (c <=? 122)))%N.

Definition is_capital (c : char) : bool := ((65 <=? c) && (c <=? 90))%N.

(** No group is closed inside the pattern. *)
Fixpoint groupless (r : regex) : bool :=
  match r with
  | Group _ _ => false
  | Seq r1 r2 | Alt r1 r2 => groupless r1 && groupless r2
  | Opt r1 => groupless r1
  | _ => true
  end.

(** The pattern looks at nothing but the characters it matches. *)
Fixpoint anchor_free (r : regex) : bool :=
  match r with
  | WordBoundary | EndOfString => false
  | Seq r1 r2 | Alt r1 r2 => anchor_free r1 && anchor_free r2
  | Opt r1 | Group _ r1 => anchor_free r1
  | _ => true
  end.

Section Lowering.

Variable ucd : unicode_db.
Variable uc : unicode_case.

(** Every ASCII character that the set [cs] takes when case is ignored
    is, in lower case, taken by [cs'] as it stands. *)
Definition lowers_set (cs cs' : charset) : bool :=
  forallb
    (fun c =>
       implb (in_set ucd uc true cs c)
         (in_set ucd uc false cs' (ascii_lower c)))
    ascii_table.

(** [r'] is [r] without its groups, each set replaced by one that takes
    the lower-case forms: what [r] matches with case ignored, [r']
    matches in the text put in lower case. *)
Fixpoint lowers (r r' : regex) : bool :=
  match r, r' with
  | Eps, Eps => true
  | Chars cs Once, Chars cs' Once | Chars cs Star, Chars cs' Star
  | Chars cs Plus, Chars cs' Plus => lowers_set cs cs'
  | Seq r1 r2, Seq r1' r2' => lowers r1 r1' && lowers r2 r2'
  | Alt r1 r2, Alt r1' r2' => lowers r1 r1' && lowers r2 r2'
  | Opt r1, Opt r1' => lowers r1 r1'
  | Group _ r1, _ => lowers r1 r'
  | _, _ => false
  end.

End Lowering.

(** A currency code as [extract_conversion_data] returns it: three
    capital letters. *)
Definition currency_code (s : str) : Prop :=
  length s = 3%nat /\ forallb is_capital s = true.

(** The float carries a minus sign. *)
Definition is_negative (x : float) : bool :=
  match x with
  | S754_zero s | S754_infinity s | S754_finite s _ _ => s
  | S754_nan => false
  end.

(** ** Currency conversion *)

Section ConvertWords.

Variable rt : runtime.

(** What the fallback answers for a pair of its table. *)
Definition offline_answer (amount : float) (from_cur to_cur : str)
  (from_rate to_rate : float) : str :=
  let rate := fmul (fdiv float_one from_rate) to_rate in
  float_str rt amount ++ of_string " " ++ from_cur ++ of_string " = "
  ++ format_f 2 (fmul amount rate) ++ of_string " " ++ to_cur
  ++ of_string " (Approx. rate: " ++ format_f 6 rate
  ++ of_string ") [OFFLINE]".

Definition unsupported_pair (from_cur to_cur : str) : string :=
  "Currency pair " ++ to_utf8 from_cur ++ "/" ++ to_utf8 to_cur
  ++ " not supported in fallback rates".

End ConvertWords.

(** Tables that know no letter, digit or case outside ASCII, to run the
    statements on. *)
Definition sample_case : unicode_case :=
  {| ucd_lower := fun s => s;
     ucd_upper := fun s => s;
     ucd_caseless := fun _ _ => false;
     ucd_isalnum := fun _ => false;
     ucd_decimal_value := fun _ => 0%N;
     ucd_float := fun _ =>
       raise ValueError "could not convert string to float" |}.

(** A method whose server cannot be reached. *)
Definition unreachable : method :=
  fun _ _ _ => raise (OtherException "ConnectionError") "Connection refused".

(** The float 100.0 *)
Definition float_hundred : float := decimal_literal 100 0.

(** The patterns of [extract_conversion_data] are a lead, the amount,
    and a tail that differs in one word. *)
Definition conversion_tail (word : regex) : list regex :=
  [spaces; Group 2 three_letters; spaces; word; spaces; Group 3 three_letters].

Definition conversion_shapes : list (list regex * regex) :=
  [ ([Opt (cat [lit "convert"; spaces])], Alt (lit "to") (lit "in"));
    ([lit "how"; spaces; lit "much"; spaces; lit "is"; spaces], lit "in");
    ([lit "quanto"; spaces; Alt (lit "é") (lit "vale"); spaces], lit "em");
    ([lit "converter"; spaces], lit "para") ].

Definition shaped (shape : list regex * regex) : regex :=
  cat (fst shape ++ amount_group :: conversion_tail (snd shape)).

(** Three letters of either case. *)
Definition three_of_letters (ucd : unicode_db) (uc : unicode_case) (w : str)
  : Prop :=
  exists x y z,
    w = [x; y; z]
    /\ Forall
         (fun c =>
            in_set ucd uc true
              [Range (chr "A") (chr "Z"); Range (chr "a") (chr "z")] c = true)
         w.

(** The float that a string of ASCII digits writes: the nearest to the
    whole number. *)
Definition whole_amount (ds : str) : float :=
  match fold_left (fun acc c => (10 * acc + (c - 48))%N) ds 0%N with
  | N0 => S754_zero false
  | Npos m => ratio_to_float false m 1
  end.

(** ** Weather queries *)

(** The characters of a place name written in ASCII: letters, digits,
    point, hyphen, comma and blank. *)
Definition place_char (c : char) : bool :=
  is_letter c || is_ascii_digit c || existsb (N.eqb c) (of_string ".-, ").

(** The leads of the documented queries that are ASCII and end in a
    preposition the pattern knows. *)
Definition place_leads : list str :=
  map of_string
    ["weather in"; "forecast in"; "tempo em"; "clima em"; "pronostico en"]%string.

(** ** The program *)

(** A configuration file that says no more than the message of the
    currency path. *)
Definition sample_config : config_file :=
  Loaded
    (Return
       (JDict
          [ (of_string "ui",
             JDict [ (of_string "currency_message",
                      JStr (of_string "Converting...")) ]) ])).

(** An environment in which the set-up goes through on the defaults:
    the key of the language model is set, and so is the temperature. *)
Definition sample_environment : environment :=
  {| load_dotenv := Return tt;
     getenv := fun key =>
       if String.eqb key "GROQ_API_KEY" then Some (of_string "gsk_sample")
       else if String.eqb key "LLM_TEMPERATURE" then Some (of_string "0.2")
       else None;
     py_str := fun _ => Return (of_string "<value>");
     int_of_str := fun _ => raise ValueError "invalid literal for int()";
     OpenAI := fun _ _ => Return tt |}.

(** The same environment without the key. *)
Definition keyless_environment : environment :=
  {| load_dotenv := Return tt;
     getenv := fun key =>
       if String.eqb key "LLM_TEMPERATURE" then Some (of_string "0.2")
       else None;
     py_str := fun _ => Return (of_string "<value>");
     int_of_str := fun _ => raise ValueError "invalid literal for int()";
     OpenAI := fun _ _ => Return tt |}.

(** A terminal that writes every output, as one in UTF-8 does. *)
Definition writes_all : output -> option exn := fun _ => None.

(** A terminal that has no box-drawing characters: it refuses the banner
    and writes what is in ASCII. *)
Definition ascii_terminal : output -> option exn :=
  fun o =>
    match o with
    | Prompt text | Print text =>
        if forallb (fun c => (c <? 128)%N) text then None
        else
          Some (mk_exn (OtherException "UnicodeEncodeError")
                  "'ascii' codec can't encode characters")
    | PrintValue _ => None
    end.

(** The call raises nothing that an [except Exception] would let
    pass. *)
Definition only_Exception {A : Type} (r : outcome A) : Prop :=
  forall e, r = Raise e -> is_Exception e = true.

(** A world whose servers fail, when they fail, with an [Exception]. *)
Definition calm (w : world) : Prop :=
  (forall amount f t, only_Exception (_try_exchangerate_api w amount f t))
  /\ (forall amount f t, only_Exception (_try_fixer_free w amount f t))
  /\ (forall amount f t, only_Exception (_try_currencyapi_free w amount f t))
  /\ (forall place, only_Exception (geocode w place))
  /\ (forall loc, only_Exception (current_weather w loc))
  /\ (forall question, only_Exception (ask_llm w question)).

(** What [input] raises at a terminal: the interrupt key and the end of
    the input. *)
Definition at_keyboard (typed : outcome str) : Prop :=
  forall e, typed = Raise e ->
  exn_class_of e = OtherException "KeyboardInterrupt"
  \/ exn_class_of e = OtherException "EOFError".

Definition exit_words : list str :=
  [of_string "exit"; of_string "quit"; of_string "sair"].

(** The user leaves: by the keyboard, or by one of the three words, in
    any case and with blanks around. *)
Definition leaves (uc : unicode_case) (typed : outcome str) : bool :=
  match typed with
  | Raise _ => true
  | Return line => existsb (str_eqb (lower uc (strip line))) exit_words
  end.

(** The decimal writing of an integer, and when the interpreter agrees
    to print it. *)
Definition decimal (n : Z) : str :=
  of_string (NilZero.string_of_int (Z.to_int n)).

Definition printable (rt : runtime) (n : Z) : Prop :=
  int_max_str_digits rt = 0%nat
  \/ (Decimal.nb_digits (Decimal.abs (Z.to_int n)) <= int_max_str_digits rt)%nat.

(** A method whose server always fails with an [Exception]. *)
Definition down (m : method) : Prop :=
  forall amount f t, exists e, m amount f t = Raise e /\ is_Exception e = true.

(** A world without network, in which an answer takes a millisecond and
    a quarter. *)
Definition no_network {A B : Type} : A -> outcome B :=
  fun _ => raise (OtherException "ConnectionError") "Connection refused".

Definition offline : world :=
  {| _try_exchangerate_api := unreachable;
     _try_fixer_free := unreachable;
     _try_currencyapi_free := unreachable;
     geocode := no_network;
     current_weather := no_network;
     ask_llm := no_network;
     start := S754_zero false;
     stop := decimal_literal 125 5 |}.

Definition sample_messages : messages :=
  {| UI_MATH_MSG := JStr (of_string "Math expression detected, using calculator...");
     UI_LLM_MSG := JStr (of_string "Fetching information via LLM...");
     UI_WEATHER_MSG := JStr (of_string "Fetching weather via API...");
     UI_CURRENCY_MSG := JStr (of_string "Converting...") |}.

(** The documented question "convert N AAA to BBB". *)
Definition conversion_question (ds c1 c2 : str) : str :=
  of_string "convert " ++ ds ++ of_string " " ++ c1 ++ of_string " to " ++ c2.

(** The documented question "weather in PLACE", with the leads that
    [place_leads] lists. *)
Definition weather_question (lead place q : str) : str :=
  lead ++ of_string " " ++ place ++ q.

(** A world whose weather service knows every place, under a clear
    sky. *)
Definition fair : world :=
  {| _try_exchangerate_api := unreachable;
     _try_fixer_free := unreachable;
     _try_currencyapi_free := unreachable;
     geocode := fun place =>
       Return {| name := place; country := None;
                 latitude := S754_zero false; longitude := S754_zero false |};
     current_weather := fun loc =>
       Return (of_string "Weather in " ++ name loc ++ of_string ": Clear sky");
     ask_llm := no_network;
     start := S754_zero false;
     stop := decimal_literal 125 5 |}.

(** The message that the configuration gives for a key of ["ui"]: the
    one of the file, or else the default, if there is one. *)
Definition message_of (ui : dict) (key : string) : option json :=
  match json_get (of_string key) ui with
  | Some v => Some v
  | None => get_path [of_string "ui"; of_string key] (JDict _DEFAULTS)
  end.

(** ** Arithmetic as it is typed *)

(** The number that decimal digits write. *)
Definition number (ds : str) : Z :=
  Z.of_N (fold_left (fun acc c => (10 * acc + (c - 48))%N) ds 0%N).

(** Decimal digits that Python reads as an [int]: no zero in front of
    another digit, unless all are zeros, and no more digits than the
    interpreter converts. *)
Definition numeral (ds : str) : Prop :=
  ds <> [] /\ forallb is_ascii_digit ds = true
  /\ (hd 0%N ds <> chr "0" \/ forallb (N.eqb (chr "0")) ds = true)
  /\ (length ds <= 4300)%nat.

(** How a token of integer arithmetic is typed; the power is typed [^]
    or [**]. *)
Inductive spelled : grammar.token -> str -> Prop :=
| sp_number ds :
    numeral ds -> spelled (grammar.NUMBER (ast.CInt (number ds))) ds
| sp_plus : spelled grammar.PLUS (of_string "+")
| sp_minus : spelled grammar.MINUS (of_string "-")
| sp_star : spelled grammar.STAR (of_string "*")
| sp_slash : spelled grammar.SLASH (of_string "/")
| sp_caret : spelled grammar.DOUBLESTAR (of_string "^")
| sp_stars : spelled grammar.DOUBLESTAR (of_string "**")
| sp_lpar : spelled grammar.LPAR (of_string "(")
| sp_rpar : spelled grammar.RPAR (of_string ")").

(** An expression typed without blanks: its tokens one after the
    other. *)
Inductive written : list grammar.token -> str -> Prop :=
| w_nil : written [] []
| w_cons t ts p s :
    spelled t p -> written ts s -> written (t :: ts) (p ++ s).

(** The tokens [ts], then what [r] holds. *)
Definition emitted (ts : list grammar.token) (r : grammar.lexed)
  : grammar.lexed :=
  match r with
  | grammar.Tokens ts' => grammar.Tokens (ts ++ ts')
  | _ => r
  end.

(** What may follow an expression: nothing, an operator or a closing
    parenthesis. *)
Definition stops (rest : str) : Prop :=
  match rest with
  | [] => True
  | c :: _ => In c (of_string "+-*/)")
  end.

(** The tokens and the tree of [12*(3+4)^2]. *)
Definition sample_tokens : list grammar.token :=
  [ grammar.NUMBER (ast.CInt 12); grammar.STAR; grammar.LPAR;
    grammar.NUMBER (ast.CInt 3); grammar.PLUS; grammar.NUMBER (ast.CInt 4);
    grammar.RPAR; grammar.DOUBLESTAR; grammar.NUMBER (ast.CInt 2) ].

Definition sample_tree : ast.expr :=
  ast.BinOp (ast.Constant (ast.CInt 12)) ast.Mult
    (ast.BinOp
       (ast.BinOp (ast.Constant (ast.CInt 3)) ast.Add
          (ast.Constant (ast.CInt 4)))
       ast.Pow (ast.Constant (ast.CInt 2))).

(** * Properties *)

(** ** What the patterns match *)

Section RegexFacts.

Variable ucd : unicode_db.

Lemma repeat_greedy_sound cs k s rest :
  repeat_greedy ucd cs k s = Some rest ->
  exists w s', s = w ++ s' /\ forallb (set_mem ucd cs) w = true /\ k s' = Some rest.
Proof.
  revert rest. induction s as [|c s IH]; intros rest H; simpl in H.
  - exists [], []. auto.
  - destruct (set_mem ucd cs c) eqn:Hc.
    + destruct (repeat_greedy ucd cs k s) as [r|] eqn:Hr.
      * inversion H; subst r.
        destruct (IH rest eq_refl) as (w & s' & -> & Hw & Hk).
        exists (c :: w), s'. simpl. rewrite Hc, Hw. auto.
      * exists [], (c :: s). auto.
    + exists [], (c :: s). auto.
Qed.

Lemma repeat_greedy_complete cs k w s' r :
  forallb (set_mem ucd cs) w = true -> k s' = Some r ->
  exists r', repeat_greedy ucd cs k (w ++ s') = Some r'.
Proof.
  induction w as [|c w IH]; simpl; intros Hw Hk.
  - destruct s' as [|c s']; simpl.
    + eauto.
    + destruct (set_mem ucd cs c); [|eauto].
      destruct (repeat_greedy ucd cs k s'); eauto.
  - apply andb_true_iff in Hw as [Hc Hw]. rewrite Hc.
    destruct (IH Hw Hk) as [r' ->]. eauto.
Qed.

Lemma match_here_sound p ok s rest :
  match_here ucd p ok s = Some rest ->
  exists m, s = m ++ rest /\ lang ucd p m /\ ok rest = true.
Proof.
  revert s rest. induction p as [|[cs q] p IH]; intros s rest H; simpl in H.
  - destruct (ok s) eqn:Hok; inversion H; subst. exists []. repeat split; auto.
  - destruct q.
    + destruct s as [|c s]; [discriminate|].
      destruct (set_mem ucd cs c) eqn:Hc; [|discriminate].
      destruct (IH _ _ H) as (m & -> & Hm & Hok).
      exists (c :: m). simpl. eauto 8.
    + destruct (repeat_greedy_sound _ _ _ _ H) as (w & s' & -> & Hw & Hk).
      destruct (IH _ _ Hk) as (m & -> & Hm & Hok).
      exists (w ++ m). rewrite <- app_assoc. simpl. eauto 8.
    + destruct s as [|c s]; [discriminate|].
      destruct (set_mem ucd cs c) eqn:Hc; [|discriminate].
      destruct (repeat_greedy_sound _ _ _ _ H) as (w & s' & -> & Hw & Hk).
      destruct (IH _ _ Hk) as (m & -> & Hm & Hok).
      exists (c :: w ++ m). simpl. rewrite <- app_assoc. eauto 10.
Qed.

Lemma match_here_complete p ok m rest :
  lang ucd p m -> ok rest = true ->
  exists rest', match_here ucd p ok (m ++ rest) = Some rest'.
Proof.
  revert m. induction p as [|[cs q] p IH]; intros m Hm Hok; simpl in Hm.
  - subst m. simpl. rewrite Hok. eauto.
  - destruct q.
    + destruct Hm as (c & m' & -> & Hc & Hm). simpl. rewrite Hc. auto.
    + destruct Hm as (w & m' & -> & Hw & Hm). simpl.
      destruct (IH _ Hm Hok) as [r Hr].
      rewrite <- app_assoc. eapply repeat_greedy_complete; eauto.
    + destruct Hm as (c & w & m' & -> & Hc & Hw & Hm). simpl. rewrite Hc.
      destruct (IH _ Hm Hok) as [r Hr].
      rewrite <- app_assoc. eapply repeat_greedy_complete; eauto.
Qed.

Lemma search_from_sound p ma s start rest :
  search_from ucd p ma s = Some (start, rest) ->
  exists pre m, s = pre ++ start /\ start = m ++ rest /\ lang ucd p m.
Proof.
  revert ma. induction s as [|c s IH]; intros ma H; simpl in H.
  - destruct (match_here ucd p _ []) as [r|] eqn:Hm; [|discriminate].
    inversion H; subst. apply match_here_sound in Hm as (m & Hs & Hl & _).
    exists [], m. auto.
  - destruct (match_here ucd p _ (c :: s)) as [r|] eqn:Hm.
    + inversion H; subst. apply match_here_sound in Hm as (m & Hs & Hl & _).
      exists [], m. auto.
    + destruct (IH _ H) as (pre & m & -> & Hst & Hl).
      exists (c :: pre), m. auto.
Qed.

Lemma search_from_complete p pre m post :
  lang ucd p m ->
  exists r, search_from ucd p false (pre ++ m ++ post) = Some r.
Proof.
  intros Hm. induction pre as [|c pre IH].
  - simpl. destruct (match_here_complete p (fun _ => negb false || true) m post Hm eq_refl)
      as [r Hr].
    destruct (m ++ post) as [|c s] eqn:E; simpl.
    + destruct (match_here_complete p
        (fun rest => negb false || (length rest <? length (@nil char))%nat) m post Hm)
        as [r' Hr']; [reflexivity|].
      rewrite E in Hr'. simpl in Hr'. rewrite Hr'. eauto.
    + destruct (match_here_complete p
        (fun rest => negb false || (length rest <? length (c :: s))%nat) m post Hm)
        as [r' Hr']; [reflexivity|].
      rewrite E in Hr'. simpl in Hr'. rewrite Hr'. eauto.
  - simpl. destruct (match_here ucd p _ (c :: pre ++ m ++ post)); eauto.
Qed.

Lemma re_search_iff p s :
  re_search ucd p s = true <->
  exists pre m post, s = pre ++ m ++ post /\ lang ucd p m.
Proof.
  unfold re_search. split.
  - destruct (search_from ucd p false s) as [[start rest]|] eqn:H; [|discriminate].
    intros _. apply search_from_sound in H as (pre & m & -> & -> & Hl). eauto.
  - intros (pre & m & post & -> & Hl).
    destruct (search_from_complete p pre m post Hl) as [r ->]. reflexivity.
Qed.

End RegexFacts.

(** ** Patterns of the form [[set]+] *)

Section Runs.

Variable ucd : unicode_db.
Variable cs : charset.

Let cls := set_mem ucd cs.

Lemma take_drop_run s : take_run ucd cs s ++ drop_run ucd cs s = s.
Proof.
  induction s as [|c s IH]; simpl; [reflexivity|].
  destruct (set_mem ucd cs c); simpl; [now rewrite IH | reflexivity].
Qed.

Lemma take_run_all s : forallb cls (take_run ucd cs s) = true.
Proof.
  induction s as [|c s IH]; simpl; [reflexivity|].
  destruct (set_mem ucd cs c) eqn:E; simpl; [|reflexivity].
  unfold cls at 1. now rewrite E.
Qed.

Lemma drop_run_outside s :
  forall c s', drop_run ucd cs s = c :: s' -> cls c = false.
Proof.
  induction s as [|c s IH]; simpl.
  - intros ? ? H. discriminate.
  - destruct (set_mem ucd cs c) eqn:E; [exact IH|].
    intros c' s' H. inversion H; subst. exact E.
Qed.

Lemma drop_run_length s : (length (drop_run ucd cs s) <= length s)%nat.
Proof.
  induction s as [|c s IH]; simpl; [lia|].
  destruct (set_mem ucd cs c); simpl; lia.
Qed.

Lemma repeat_greedy_run (ok : str -> bool) s :
  ok (drop_run ucd cs s) = true ->
  repeat_greedy ucd cs (fun r => if ok r then Some r else None) s
  = Some (drop_run ucd cs s).
Proof.
  induction s as [|c s IH]; simpl; intros H.
  - now rewrite H.
  - destruct (set_mem ucd cs c).
    + now rewrite (IH H).
    + now rewrite H.
Qed.

Lemma search_from_run ma s :
  search_from ucd [(cs, Plus)] ma s = find_run ucd cs s.
Proof.
  revert ma. induction s as [|c s IH]; intros ma; [reflexivity|].
  cbn [search_from match_here find_run].
  destruct (set_mem ucd cs c) eqn:E.
  - rewrite (repeat_greedy_run
      (fun rest => negb ma || (length rest <? length (c :: s))%nat)).
    + reflexivity.
    + apply orb_true_iff. right. apply Nat.ltb_lt.
      pose proof (drop_run_length s). simpl. lia.
  - apply IH.
Qed.

(** What [find_run] says about the text: nothing of the set before the
    match, which is a longest run. *)
Lemma find_run_some s start rest :
  find_run ucd cs s = Some (start, rest) ->
  exists p0 c,
    s = p0 ++ start /\ forallb (fun x => negb (cls x)) p0 = true
    /\ start = take_run ucd cs start ++ rest /\ rest = drop_run ucd cs start
    /\ take_run ucd cs start = c :: take_run ucd cs (tl start) /\ cls c = true.
Proof.
  revert start rest.
  induction s as [|c s IH]; intros start rest; simpl; [discriminate|].
  destruct (set_mem ucd cs c) eqn:E.
  - intros H. inversion H; subst. exists [], c. simpl. rewrite E.
    rewrite <- app_comm_cons, take_drop_run. repeat split; auto.
  - intros H. destruct (IH _ _ H) as (p0 & c0 & -> & Hp & Hs & Hr & Ht & Hc).
    exists (c :: p0), c0. simpl. unfold cls at 1. rewrite E. simpl.
    repeat split; auto.
Qed.

Lemma find_run_none s :
  find_run ucd cs s = None -> forallb (fun x => negb (cls x)) s = true.
Proof.
  induction s as [|c s IH]; simpl; [reflexivity|].
  destruct (set_mem ucd cs c) eqn:E; [discriminate|].
  intros H. unfold cls at 1. rewrite E. simpl. auto.
Qed.

Lemma matched_app m rest : matched (m ++ rest) rest = m.
Proof.
  unfold matched. rewrite length_app.
  replace (length m + length rest - length rest)%nat with (length m) by lia.
  rewrite firstn_app, Nat.sub_diag, firstn_all. simpl. apply app_nil_r.
Qed.

Lemma skipped_app p0 start : skipped (p0 ++ start) start = p0.
Proof.
  unfold skipped. rewrite length_app.
  replace (length p0 + length start - length start)%nat with (length p0) by lia.
  rewrite firstn_app, Nat.sub_diag, firstn_all. simpl. apply app_nil_r.
Qed.

End Runs.

(** ** Maximal runs, as the specification words them *)

Section Enumeration.

Variable ucd : unicode_db.
Variable cs : charset.

Let cls := set_mem ucd cs.

Lemma run_prefix_unique r post run rest :
  forallb cls r = true -> forallb cls run = true ->
  (forall c s', post = c :: s' -> cls c = false) ->
  (forall c s', rest = c :: s' -> cls c = false) ->
  r ++ post = run ++ rest -> r = run /\ post = rest.
Proof.
  revert run. induction r as [|a r IH]; intros run Hr Hrun Hp Hq E.
  - destruct run as [|b run]; [auto|]. simpl in *.
    apply andb_true_iff in Hrun as [Hb _].
    rewrite (Hp _ _ E) in Hb. discriminate.
  - simpl in Hr. apply andb_true_iff in Hr as [Ha Hr].
    destruct run as [|b run]; simpl in *.
    + symmetry in E. rewrite (Hq _ _ E) in Ha. discriminate.
    + apply andb_true_iff in Hrun as [_ Hrun].
      inversion E; subst b.
      destruct (IH run Hr Hrun Hp Hq H1) as [-> ->]. auto.
Qed.

Lemma none_in_class_last (l : str) l' c :
  forallb (fun x => negb (cls x)) l = true -> l = l' ++ [c] -> cls c = false.
Proof.
  intros H ->. rewrite forallb_app in H. apply andb_true_iff in H as [_ H].
  simpl in H. destruct (cls c); [discriminate|reflexivity].
Qed.

Lemma all_in_class_last (l : str) l' c :
  forallb cls l = true -> l = l' ++ [c] -> cls c = true.
Proof.
  intros H ->. rewrite forallb_app in H. apply andb_true_iff in H as [_ H].
  simpl in H. destruct (cls c); [reflexivity|discriminate].
Qed.

(** The runs of a text whose leftmost run is [run], between [p0] and
    [rest]: that one, and the runs of [rest]. *)
Lemma run_decompose p0 run rest pre r post :
  forallb (fun x => negb (cls x)) p0 = true ->
  run <> [] -> forallb cls run = true ->
  (forall c s', rest = c :: s' -> cls c = false) ->
  maximal_run cls (p0 ++ run ++ rest) pre r post <->
  (pre = p0 /\ r = run /\ post = rest)
  \/ (exists pre', pre = p0 ++ run ++ pre' /\ maximal_run cls rest pre' r post).
Proof.
  intros Hp0 Hne Hrun Hrest. split.
  - intros (Hs & Hr & Hall & Hend & Hstart).
    symmetry in Hs. apply app_eq_app in Hs as [l [[-> E] | [-> E]]].
    + apply app_eq_app in E as [l2 [[-> E] | [-> E]]].
      * destruct l as [|x l].
        -- simpl in *. rewrite app_nil_r.
           destruct (run_prefix_unique _ _ _ _ Hall Hrun Hstart Hrest E)
             as [-> ->]. auto.
        -- exfalso. destruct (exists_last (l := x :: l)) as (l' & c & El);
             [discriminate|].
           assert (cls c = false) as Hc.
           { apply (Hend (p0 ++ l')). rewrite El, app_assoc. reflexivity. }
           rewrite forallb_app in Hrun. apply andb_true_iff in Hrun as [Hl _].
           rewrite (all_in_class_last _ _ _ Hl El) in Hc. discriminate.
      * right. exists l2. split; [reflexivity|].
        repeat split; auto.
        intros pre' c ->. apply (Hend (p0 ++ run ++ pre')).
        now rewrite <- !app_assoc.
    + destruct l as [|x l].
      * simpl in E. rewrite app_nil_r in *.
        destruct (run_prefix_unique _ _ _ _ Hall Hrun Hstart Hrest E)
          as [-> ->]. auto.
      * exfalso. destruct r as [|a r]; [congruence|].
        simpl in E. inversion E; subst a.
        simpl in Hall. apply andb_true_iff in Hall as [Hx _].
        rewrite forallb_app in Hp0. apply andb_true_iff in Hp0 as [_ Hp0].
        simpl in Hp0. rewrite Hx in Hp0. discriminate.
  - intros [(-> & -> & ->) | (pre' & -> & Hs & Hr & Hall & Hend & Hstart)].
    + repeat split; auto.
      intros pre' c E. eapply none_in_class_last; eauto.
    + subst rest. repeat split; auto.
      * now rewrite <- !app_assoc.
      * intros q c E. destruct pre' as [|x pre'].
        -- exfalso. destruct r as [|a r]; [congruence|].
           simpl in Hall. apply andb_true_iff in Hall as [Ha _].
           rewrite (Hrest a (r ++ post)) in Ha; [discriminate|reflexivity].
        -- destruct (exists_last (l := x :: pre')) as (l' & c' & El);
             [discriminate|].
           rewrite El in E. rewrite !app_assoc in E.
           apply app_inj_tail in E as [_ <-].
           eapply Hend; eauto.
Qed.

Lemma shifted_sorted (d : str) locs :
  StronglySorted offset_lt locs ->
  StronglySorted offset_lt (map (fun loc => (d ++ fst loc, snd loc)) locs).
Proof.
  induction 1 as [|a l Hs IH Ha]; simpl; constructor; auto.
  rewrite Forall_map. eapply Forall_impl; [|exact Ha].
  intros b Hb. unfold offset_lt in *. simpl. rewrite !length_app.
  apply Nat.add_lt_mono_l. exact Hb.
Qed.

(** [findall] lists the maximal runs, from left to right. *)
Lemma findall_enumerates fuel s ma :
  (length s < fuel)%nat ->
  exists locs : list (str * str),
    findall_loop ucd fuel [(cs, Plus)] ma s = map snd locs
    /\ (forall pre r,
          In (pre, r) locs <-> exists post, maximal_run cls s pre r post)
    /\ StronglySorted offset_lt locs.
Proof.
  revert s ma. induction fuel as [|fuel IH]; intros s ma Hf; [lia|].
  cbn [findall_loop]. rewrite search_from_run.
  destruct (find_run ucd cs s) as [[start rest]|] eqn:F.
  - destruct (find_run_some _ _ _ _ _ F)
      as (p0 & c0 & -> & Hp0 & Hst & Hrest & Hrun & Hc0).
    assert (Hall : forallb cls (take_run ucd cs start) = true)
      by apply take_run_all.
    remember (take_run ucd cs start) as run eqn:Erun.
    assert (Hne : run <> []) by (rewrite Hrun; discriminate).
    assert (Hpos : (1 <= length run)%nat) by (rewrite Hrun; simpl; lia).
    assert (Hout : forall c s', rest = c :: s' -> cls c = false).
    { rewrite Hrest. apply drop_run_outside. }
    assert (Hlen : (length rest < fuel)%nat).
    { rewrite length_app in Hf. rewrite Hst in Hf. rewrite length_app in Hf.
      lia. }
    destruct (IH rest (length start =? length rest)%nat Hlen)
      as (locs & Hmap & Hin & Hsorted).
    exists ((p0, run) :: map (fun loc => (p0 ++ run ++ fst loc, snd loc)) locs).
    split; [|split].
    + simpl. rewrite map_map. simpl. rewrite Hmap. f_equal.
      rewrite Hst at 1. apply matched_app.
    + intros pre r. rewrite Hst.
      setoid_rewrite (run_decompose p0 run rest pre r) ; auto.
      simpl. rewrite in_map_iff. split.
      * intros [E | ((pre' & r') & E & Hi)].
        -- injection E as <- <-. exists rest. auto.
        -- simpl in E. injection E as <- <-.
           apply Hin in Hi as [post Hm]. exists post. right. eauto.
      * intros (post & [(-> & -> & ->) | (pre' & -> & Hm)]); [auto|].
        right. exists (pre', r). split; [reflexivity|].
        apply Hin. eauto.
    + constructor.
      * replace (map (fun loc => (p0 ++ run ++ fst loc, snd loc)) locs)
          with (map (fun loc => (p0 ++ fst loc, snd loc))
                  (map (fun loc => (run ++ fst loc, snd loc)) locs)).
        -- apply shifted_sorted, shifted_sorted, Hsorted.
        -- rewrite map_map. reflexivity.
      * rewrite Forall_map. apply Forall_forall. intros loc _.
        unfold offset_lt. simpl. rewrite !length_app. lia.
  - exists []. split; [reflexivity|]. split; [|constructor].
    intros pre r. split; [intros []|].
    intros (post & -> & Hr & Hall & _). exfalso.
    apply find_run_none in F. destruct r as [|a r]; [congruence|].
    rewrite !forallb_app in F. simpl in *.
    apply andb_true_iff in Hall as [Ha _].
    apply andb_true_iff in F as [_ F]. apply andb_true_iff in F as [F _].
    apply andb_true_iff in F as [F _].
    fold cls in F. rewrite Ha in F. discriminate.
Qed.

End Enumeration.

(** ** Substitution, stripping and the longest match *)

Section Cleaning.

Variable ucd : unicode_db.
Variable cs : charset.

Lemma filter_keep_all (f : char -> bool) (l : str) :
  forallb f l = true -> filter f l = l.
Proof.
  induction l as [|a l IH]; simpl; [reflexivity|].
  intros H. apply andb_true_iff in H as [-> H]. now rewrite IH.
Qed.

Lemma filter_drop_all (f : char -> bool) (l : str) :
  forallb f l = true -> filter (fun c => negb (f c)) l = [].
Proof.
  induction l as [|a l IH]; simpl; [reflexivity|].
  intros H. apply andb_true_iff in H as [-> H]. simpl. now apply IH.
Qed.

(** Replacing every run by nothing removes the characters of the set. *)
Lemma sub_loop_filter fuel ma s :
  (length s < fuel)%nat ->
  sub_loop ucd fuel [(cs, Plus)] [] ma s
  = filter (fun c => negb (set_mem ucd cs c)) s.
Proof.
  revert s ma. induction fuel as [|fuel IH]; intros s ma Hf; [lia|].
  cbn [sub_loop]. rewrite search_from_run.
  destruct (find_run ucd cs s) as [[start rest]|] eqn:F.
  - destruct (find_run_some _ _ _ _ _ F)
      as (p0 & c0 & -> & Hp0 & Hst & Hrest & Hrun & Hc0).
    assert (Hall : forallb (set_mem ucd cs) (take_run ucd cs start) = true)
      by apply take_run_all.
    remember (take_run ucd cs start) as run eqn:Erun.
    assert (Hpos : (1 <= length run)%nat) by (rewrite Hrun; simpl; lia).
    rewrite skipped_app. simpl. rewrite IH.
    + rewrite Hst. rewrite !filter_app.
      rewrite (filter_keep_all _ p0 Hp0), (filter_drop_all _ run Hall).
      reflexivity.
    + rewrite length_app in Hf. rewrite Hst in Hf.
      rewrite length_app in Hf. lia.
  - symmetry. apply filter_keep_all. now apply find_run_none.
Qed.

End Cleaning.

Lemma re_sub_spaces ucd s :
  re_sub ucd spaces_pattern [] s = strip_whitespace s.
Proof.
  unfold re_sub, spaces_pattern. rewrite sub_loop_filter by lia.
  unfold strip_whitespace. apply filter_ext. intros c. simpl.
  now rewrite orb_false_r.
Qed.

Lemma strip_whitespace_lstrip s :
  strip_whitespace (lstrip s) = strip_whitespace s.
Proof.
  induction s as [|c s IH]; simpl; [reflexivity|].
  destruct (py_isspace c) eqn:E; simpl; [exact IH|].
  now rewrite E.
Qed.

Lemma strip_whitespace_rev s :
  strip_whitespace (rev s) = rev (strip_whitespace s).
Proof.
  unfold strip_whitespace. induction s as [|c s IH]; simpl; [reflexivity|].
  rewrite filter_app, IH. simpl.
  destruct (negb (py_isspace c)); simpl; [reflexivity|apply app_nil_r].
Qed.

Lemma strip_whitespace_strip s :
  strip_whitespace (strip s) = strip_whitespace s.
Proof.
  unfold strip.
  rewrite strip_whitespace_rev, strip_whitespace_lstrip, strip_whitespace_rev,
    rev_involutive.
  apply strip_whitespace_lstrip.
Qed.

(** [max] with [key=len] returns an element no other is longer than, and
    those before it are strictly shorter. *)
Lemma max_by_len_split best l :
  (length best <= length (max_by_len best l))%nat
  /\ ((max_by_len best l = best
       /\ Forall (fun y => (length y <= length best)%nat) l)
      \/ exists l1 l2,
           l = l1 ++ max_by_len best l :: l2
           /\ (length best < length (max_by_len best l))%nat
           /\ Forall (fun y => (length y < length (max_by_len best l))%nat) l1
           /\ Forall (fun y => (length y <= length (max_by_len best l))%nat) l2).
Proof.
  revert best. induction l as [|y l IH]; intros best; simpl.
  - split; [lia|]. left. auto.
  - destruct (length best <? length y)%nat eqn:E.
    + apply Nat.ltb_lt in E.
      destruct (IH y) as [Hle [[Heq Hall] | (l1 & l2 & Hl & Hlt & H1 & H2)]].
      * split; [lia|]. right. exists [], l. rewrite Heq.
        repeat split; auto.
      * split; [lia|]. right. exists (y :: l1), l2.
        repeat split; auto; [simpl; congruence | lia].
    + apply Nat.ltb_ge in E.
      destruct (IH best) as [Hle [[Heq Hall] | (l1 & l2 & Hl & Hlt & H1 & H2)]].
      * split; [lia|]. left. split; [exact Heq|]. constructor; auto.
      * split; [lia|]. right. exists (y :: l1), l2.
        repeat split; auto; [simpl; congruence |].
        constructor; auto. lia.
Qed.

Lemma max_by_len_in best l : In (max_by_len best l) (best :: l).
Proof.
  revert best. induction l as [|y l IH]; intros best; simpl; [auto|].
  destruct (length best <? length y)%nat.
  - right. apply IH.
  - destruct (IH best) as [H|H]; auto.
Qed.

(** Every element of [findall] is a word of the pattern. *)
Lemma findall_loop_lang ucd fuel p ma s x :
  In x (findall_loop ucd fuel p ma s) -> lang ucd p x.
Proof.
  revert ma s. induction fuel as [|fuel IH]; intros ma s; simpl; [intros []|].
  destruct (search_from ucd p ma s) as [[start rest]|] eqn:F; [|intros []].
  apply search_from_sound in F as (pre & m & -> & -> & Hl).
  rewrite matched_app. intros [<- | H]; [exact Hl|]. eapply IH; eauto.
Qed.

Lemma max_by_len_first_longest x xs :
  exists l1 l2,
    x :: xs = l1 ++ max_by_len x xs :: l2
    /\ Forall (fun y => (length y < length (max_by_len x xs))%nat) l1
    /\ Forall (fun y => (length y <= length (max_by_len x xs))%nat) l2.
Proof.
  destruct (max_by_len_split x xs)
    as [_ [[Heq Hall] | (l1 & l2 & Hl & Hlt & H1 & H2)]].
  - exists [], xs. rewrite Heq. simpl. auto.
  - exists (x :: l1), l2. simpl. rewrite <- Hl. auto.
Qed.

Lemma sorted_after (R : str * str -> str * str -> Prop) l1 x l2 :
  StronglySorted R (l1 ++ x :: l2) -> Forall (R x) l2.
Proof.
  induction l1 as [|a l1 IH]; simpl; intros H;
    apply StronglySorted_inv in H as [H1 H2]; auto.
Qed.

Lemma sorted_before (R : str * str -> str * str -> Prop) l1 x l2 :
  StronglySorted R (l1 ++ x :: l2) -> Forall (fun y => R y x) l1.
Proof.
  induction l1 as [|a l1 IH]; simpl; intros H; [constructor|].
  apply StronglySorted_inv in H as [H1 H2]. constructor; auto.
  rewrite Forall_app in H2. destruct H2 as [_ H2].
  now apply Forall_inv in H2.
Qed.

Lemma block_set_class ucd c : set_mem ucd block_set c = math_class c.
Proof.
  unfold math_class, is_ascii_digit. cbn.
  destruct (48 <=? c)%N, (c <=? 57)%N, (py_isspace c), (c =? 46)%N,
    (c =? 43)%N, (c =? 45)%N, (c =? 42)%N, (c =? 47)%N, (c =? 94)%N,
    (c =? 40)%N, (c =? 41)%N; reflexivity.
Qed.

Lemma math_chars_class ucd c :
  re_match ucd _MATH_CHARS [c] = math_class c.
Proof.
  unfold re_match, _MATH_CHARS. cbn [match_here].
  rewrite <- (block_set_class ucd c).
  unfold block_set. cbn.
  destruct (48 <=? c)%N, (c <=? 57)%N, (py_isspace c), (c =? 46)%N,
    (c =? 43)%N, (c =? 45)%N, (c =? 42)%N, (c =? 47)%N, (c =? 94)%N,
    (c =? 40)%N, (c =? 41)%N; reflexivity.
Qed.

Lemma maximal_run_ext (f g : char -> bool) text pre r post :
  (forall c, f c = g c) ->
  maximal_run f text pre r post -> maximal_run g text pre r post.
Proof.
  intros E (Hs & Hr & Hall & Hend & Hstart). repeat split; auto.
  - rewrite <- Hall. clear -E. induction r as [|a r IH]; simpl; [reflexivity|].
    now rewrite IH, E.
  - intros pre' c H. rewrite <- E. eauto.
  - intros c post' H. rewrite <- E. eauto.
Qed.

(** What [extract_expression] computes on a text, in terms of the list
    of matches. *)
Lemma extract_expression_unfold ucd text :
  extract_expression ucd (Some text) =
  match re_findall ucd block_pattern text with
  | [] => None
  | m :: matches =>
      match strip_whitespace (max_by_len m matches) with
      | [] => None
      | cleaned => Some cleaned
      end
  end.
Proof.
  destruct text as [|c text]; [reflexivity|].
  unfold extract_expression.
  destruct (re_findall ucd block_pattern (c :: text)) as [|m matches];
    [reflexivity|].
  rewrite re_sub_spaces, strip_whitespace_strip.
  destruct (strip_whitespace (max_by_len m matches)); reflexivity.
Qed.

Lemma findall_block_runs ucd text :
  exists locs : list (str * str),
    re_findall ucd block_pattern text = map snd locs
    /\ (forall pre r,
          In (pre, r) locs <-> exists post, maximal_run math_class text pre r post)
    /\ StronglySorted offset_lt locs.
Proof.
  destruct (findall_enumerates ucd block_set (2 * length text + 2) text false)
    as (locs & Hmap & Hin & Hs); [lia|].
  exists locs. split; [exact Hmap|]. split; [|exact Hs].
  intros pre r. rewrite Hin. split; intros [post H]; exists post;
    eapply maximal_run_ext; try exact H; intros c;
    [|symmetry]; apply block_set_class.
Qed.

Lemma extract_expression_runs ucd text :
  ((~ exists pre r post, maximal_run math_class text pre r post)
   /\ extract_expression ucd (Some text) = None)
  \/ (exists pre r post,
        longest_first_run math_class text pre r post
        /\ extract_expression ucd (Some text)
           = match strip_whitespace r with
             | [] => None
             | cleaned => Some cleaned
             end).
Proof.
  rewrite extract_expression_unfold.
  destruct (findall_block_runs ucd text) as (locs & Hmap & Hin & Hsorted).
  rewrite Hmap. destruct locs as [|loc locs].
  - left. split; [|reflexivity].
    intros (pre & r & post & H). apply (Hin pre r). eauto.
  - right. cbn [map].
    destruct (max_by_len_first_longest (snd loc) (map snd locs))
      as (l1 & l2 & Hl & H1 & H2).
    set (chosen := max_by_len (snd loc) (map snd locs)) in *.
    change (snd loc :: map snd locs) with (map snd (loc :: locs)) in Hl.
    apply map_eq_app in Hl as (k1 & k' & Hk & Hk1 & Hk').
    apply map_eq_cons in Hk' as (lc & k2 & -> & Hlc & Hk2).
    destruct lc as [pre c]. simpl in Hlc. subst c.
    assert (In (pre, chosen) (loc :: locs)) as Hc.
    { rewrite Hk. apply in_or_app. right. left. reflexivity. }
    apply Hin in Hc as [post Hrun].
    exists pre, chosen, post. split; [|reflexivity].
    split; [exact Hrun|].
    intros pre' r' post' Hrun'.
    assert (In (pre', r') (loc :: locs)) as Hi by (apply Hin; eauto).
    rewrite Hk in Hi, Hsorted.
    apply in_app_or in Hi as [Hi | [Hi | Hi]].
    + assert (length r' < length chosen)%nat as Hlt.
      { rewrite Forall_forall in H1. apply H1. rewrite <- Hk1.
        change r' with (snd (pre', r')). now apply in_map. }
      lia.
    + injection Hi as <- <-. lia.
    + split.
      * rewrite Forall_forall in H2. apply H2. rewrite <- Hk2.
        change r' with (snd (pre', r')). now apply in_map.
      * intros _. apply sorted_after in Hsorted.
        rewrite Forall_forall in Hsorted. apply Hsorted in Hi.
        unfold offset_lt in Hi. simpl in Hi. lia.
Qed.

(** C6.  For every text, [extract_expression] takes the maximal
    contiguous runs of characters of the class [[0-9.\s+\-*/^()]], picks
    the longest, the first among equally long ones, removes all
    whitespace from it and returns the result; it returns [None] when
    there is no run or nothing is left of the chosen one, and also for
    [None]; from "what is 2 + 2 please" it extracts "2+2". *)
Theorem extract_expression_longest_run ucd :
  (forall text,
     ((~ exists pre r post, maximal_run math_class text pre r post)
      /\ extract_expression ucd (Some text) = None)
     \/ (exists pre r post,
           longest_first_run math_class text pre r post
           /\ extract_expression ucd (Some text)
              = match strip_whitespace r with
                | [] => None
                | cleaned => Some cleaned
                end))
  /\ extract_expression ucd None = None
  /\ extract_expression ucd (Some (of_string "what is 2 + 2 please"))
     = Some (of_string "2+2").
Proof.
  split; [apply extract_expression_runs|split; reflexivity].
Qed.

(** ** The heuristics of [is_math_question] *)

Lemma forallb_eq (f g : char -> bool) (l : str) :
  (forall c, f c = g c) -> forallb f l = forallb g l.
Proof.
  intros E. induction l as [|a l IH]; simpl; [reflexivity|].
  now rewrite IH, E.
Qed.

Lemma operator_set_mem ucd c :
  set_mem ucd operator_set c = true <-> In c (of_string "+-*/^").
Proof.
  cbn. rewrite !orb_true_iff, !N.eqb_eq. intuition congruence.
Qed.

Lemma loose_pattern_lang ucd m :
  lang ucd loose_pattern m <->
  exists d1 w1 o w2 d2,
    m = d1 ++ w1 ++ o :: w2 ++ d2
    /\ d1 <> [] /\ forallb (py_isdecimal ucd) d1 = true
    /\ forallb py_isspace w1 = true
    /\ In o (of_string "+-*/^")
    /\ forallb py_isspace w2 = true
    /\ d2 <> [] /\ forallb (py_isdecimal ucd) d2 = true.
Proof.
  assert (Hd : forall c, set_mem ucd [ClassDigit] c = py_isdecimal ucd c)
    by (intros c; simpl; apply orb_false_r).
  assert (Hs : forall c, set_mem ucd [ClassSpace] c = py_isspace c)
    by (intros c; simpl; apply orb_false_r).
  unfold loose_pattern. cbn [lang]. split.
  - intros (c1 & x1 & m1 & -> & Hc1 & Hx1 & s1 & m2 & -> & Hs1
            & o & m3 & -> & Ho & s2 & m4 & -> & Hs2
            & c2 & x2 & m5 & -> & Hc2 & Hx2 & ->).
    exists (c1 :: x1), s1, o, s2, (c2 :: x2).
    rewrite (forallb_eq _ _ x1 Hd) in Hx1. rewrite (forallb_eq _ _ x2 Hd) in Hx2.
    rewrite (forallb_eq _ _ s1 Hs) in Hs1. rewrite (forallb_eq _ _ s2 Hs) in Hs2.
    rewrite Hd in Hc1, Hc2. apply operator_set_mem in Ho.
    simpl. rewrite Hc1, Hc2, app_nil_r.
    repeat split; auto; discriminate.
  - intros (d1 & w1 & o & w2 & d2 & -> & Hn1 & Hd1 & Hw1 & Ho & Hw2 & Hn2 & Hd2).
    destruct d1 as [|c1 x1]; [congruence|].
    destruct d2 as [|c2 x2]; [congruence|].
    simpl in Hd1, Hd2.
    apply andb_true_iff in Hd1 as [Hc1 Hx1].
    apply andb_true_iff in Hd2 as [Hc2 Hx2].
    exists c1, x1, (w1 ++ o :: w2 ++ c2 :: x2).
    rewrite Hd, (forallb_eq _ _ _ Hd). repeat split; auto.
    exists w1, (o :: w2 ++ c2 :: x2).
    rewrite (forallb_eq _ _ _ Hs). repeat split; auto.
    exists o, (w2 ++ c2 :: x2). split; [reflexivity|].
    split; [now apply operator_set_mem|].
    exists w2, (c2 :: x2). rewrite (forallb_eq _ _ _ Hs). repeat split; auto.
    exists c2, x2, []. rewrite Hd, (forallb_eq _ _ _ Hd), app_nil_r. auto.
Qed.

(** C7.  [is_math_question] answers true exactly when the strict or the
    loose heuristic holds, and false for [None] and for the empty text;
    it accepts "what is 2+2" and refuses "hello world". *)
Theorem is_math_question_heuristics ucd :
  (forall text,
     is_math_question ucd (Some text) = true <->
     strict_heuristic ucd text = true \/ loose_heuristic ucd text)
  /\ is_math_question ucd None = false
  /\ is_math_question ucd (Some []) = false
  /\ is_math_question ucd (Some (of_string "what is 2+2")) = true
  /\ is_math_question ucd (Some (of_string "hello world")) = false.
Proof.
  split; [|repeat split; reflexivity].
  intros text.
  assert (Hloose : re_search ucd loose_pattern text = true
                   <-> loose_heuristic ucd text).
  { rewrite re_search_iff. unfold loose_heuristic. split.
    - intros (pre & m & post & -> & Hm).
      apply loose_pattern_lang in Hm
        as (d1 & w1 & o & w2 & d2 & -> & H).
      exists pre, d1, w1, o, w2, d2, post. split; [|exact H].
      rewrite <- !app_assoc. simpl. now rewrite <- !app_assoc.
    - intros (pre & d1 & w1 & o & w2 & d2 & post & -> & H).
      exists pre, (d1 ++ w1 ++ o :: w2 ++ d2), post. split.
      + rewrite <- !app_assoc. simpl. now rewrite <- !app_assoc.
      + apply loose_pattern_lang. exists d1, w1, o, w2, d2. auto. }
  destruct text as [|c text].
  - split; [discriminate|]. intros [H | H]; [discriminate|].
    apply Hloose in H. discriminate.
  - unfold is_math_question, strict_heuristic.
    rewrite (forallb_eq _ math_class) by apply math_chars_class.
    rewrite orb_true_iff, Hloose. reflexivity.
Qed.

(** ** What extraction returns *)

Lemma operator_not_space c :
  In c (of_string "+-*/^") -> py_isspace c = false.
Proof.
  simpl. intros [<- | [<- | [<- | [<- | [<- | []]]]]]; reflexivity.
Qed.

Lemma contains_in c s : contains c s = true -> In c s.
Proof.
  unfold contains. rewrite existsb_exists.
  intros (x & Hx & E). apply N.eqb_eq in E. now subst x.
Qed.

Lemma all_class_run (text pre r post : str) :
  forallb math_class text = true ->
  maximal_run math_class text pre r post -> pre = [] /\ r = text /\ post = [].
Proof.
  intros Hall (-> & Hr & _ & Hend & Hstart).
  rewrite !forallb_app in Hall.
  apply andb_true_iff in Hall as [Hpre Hall].
  apply andb_true_iff in Hall as [_ Hpost].
  assert (pre = []) as ->.
  { destruct pre as [|x pre]; [reflexivity|].
    destruct (exists_last (l := x :: pre)) as (l' & c & El); [discriminate|].
    rewrite El, forallb_app in Hpre. apply andb_true_iff in Hpre as [_ Hc].
    simpl in Hc. rewrite (Hend _ _ El) in Hc. discriminate. }
  assert (post = []) as ->.
  { destruct post as [|x post]; [reflexivity|].
    simpl in Hpost. rewrite (Hstart _ _ eq_refl) in Hpost. discriminate. }
  rewrite app_nil_r. auto.
Qed.

(** C8.  A non-empty text on which the strict heuristic holds is as a
    whole one maximal run of the class, and [extract_expression] returns
    a string for it: the text without its whitespace. *)
Theorem strict_text_is_extracted ucd (text : str) :
  text <> [] ->
  strict_heuristic ucd text = true ->
  maximal_run math_class text [] text []
  /\ extract_expression ucd (Some text) = Some (strip_whitespace text)
  /\ strip_whitespace text <> [].
Proof.
  intros Hne H. unfold strict_heuristic in H.
  apply andb_true_iff in H as [H Hop]. apply andb_true_iff in H as [Hall _].
  assert (Hrun : maximal_run math_class text [] text []).
  { repeat split; auto.
    - now rewrite app_nil_r.
    - intros pre' c E. destruct pre'; discriminate.
    - intros c post' E. discriminate. }
  assert (Hclean : strip_whitespace text <> []).
  { apply existsb_exists in Hop as (o & Ho & Hc).
    apply contains_in in Hc.
    assert (In o (strip_whitespace text)) as Hi.
    { apply filter_In. split; [exact Hc|].
      now rewrite (operator_not_space o Ho). }
    intros E. rewrite E in Hi. destruct Hi. }
  split; [exact Hrun|]. split; [|exact Hclean].
  destruct (extract_expression_runs ucd text)
    as [[Hno _] | (pre & r & post & [Hr _] & Heq)].
  - exfalso. apply Hno. eauto.
  - rewrite Heq.
    destruct (all_class_run _ _ _ _ Hall Hr) as (_ & -> & _).
    destruct (strip_whitespace text); [congruence|reflexivity].
Qed.

(** C9.  A string returned by [extract_expression] is not empty, holds
    no whitespace, and consists of digits and the characters
    [. + - * / ^ ( )]. *)
Theorem extract_expression_clean ucd text s :
  extract_expression ucd text = Some s ->
  s <> []
  /\ Forall (fun c => py_isspace c = false
                      /\ (is_ascii_digit c = true
                          \/ In c (of_string ".+-*/^()"))) s.
Proof.
  destruct text as [text|]; [|discriminate].
  rewrite extract_expression_unfold.
  destruct (re_findall ucd block_pattern text) as [|m matches] eqn:F;
    [discriminate|].
  pose proof (max_by_len_in m matches) as Hin. rewrite <- F in Hin.
  apply findall_loop_lang in Hin.
  destruct Hin as (c & w & m' & Hc & Hcc & Hw & ->).
  rewrite app_nil_r in Hc.
  remember (max_by_len m matches) as chosen.
  assert (Hall : forallb math_class chosen = true).
  { rewrite Hc. simpl. rewrite <- !(block_set_class ucd).
    fold block_set in Hcc, Hw. rewrite Hcc. simpl.
    rewrite <- Hw. apply forallb_eq. intros x. symmetry.
    apply block_set_class. }
  destruct (strip_whitespace chosen) as [|a l] eqn:E; [discriminate|].
  intros H. injection H as <-. split; [discriminate|].
  rewrite <- E. apply Forall_forall. intros x Hx.
  apply filter_In in Hx as [Hx Hsp].
  apply negb_true_iff in Hsp. split; [exact Hsp|].
  rewrite forallb_forall in Hall. specialize (Hall x Hx).
  unfold math_class in Hall. rewrite Hsp, orb_false_r in Hall.
  apply orb_true_iff in Hall as [Hd | Hp]; [left; exact Hd|].
  right. apply existsb_exists in Hp as (y & Hy & Exy).
  apply N.eqb_eq in Exy. now subst y.
Qed.

Lemma strict_text_is_extracted_witness :
  of_string "2 + 2" <> []
  /\ strict_heuristic ascii_only (of_string "2 + 2") = true
  /\ extract_expression ascii_only (Some (of_string "2 + 2"))
     = Some (of_string "2+2").
Proof.
  split; [discriminate|]. split; [reflexivity|].
  apply (strict_text_is_extracted ascii_only (of_string "2 + 2"));
    [discriminate | reflexivity].
Defined.

Lemma extract_expression_clean_witness :
  extract_expression ascii_only (Some (of_string "what is 2 + 2 please"))
  = Some (of_string "2+2")
  /\ of_string "2+2" <> [].
Proof.
  split; [reflexivity|].
  apply (extract_expression_clean ascii_only
           (Some (of_string "what is 2 + 2 please")) (of_string "2+2")).
  reflexivity.
Defined.

(** ** The parser reads arithmetic with the standard precedence *)

Lemma derives_first lvl ts e :
  derives lvl ts e ->
  exists t ts', ts = t :: ts' /\ begins t
    /\ match lvl with LAtom | LPower => opens t | _ => True end.
Proof.
  induction 1; simpl;
    repeat match goal with
    | H : exists _, _ |- _ => destruct H as (? & ? & -> & ? & ?)
    end; simpl; eauto 10.
  all: try (eexists; eexists; split; [reflexivity|]; split; simpl; auto;
            match goal with |- begins ?t => destruct t; simpl in *; auto end).
Qed.

Lemma derives_nonempty lvl ts e : derives lvl ts e -> (1 <= length ts)%nat.
Proof.
  intros H. destruct (derives_first _ _ _ H) as (t & ts' & -> & _). simpl. lia.
Qed.

Lemma term_rest_stop n e rest :
  stop_term rest -> grammar.term_rest (S n) e rest = grammar.Ok e rest.
Proof.
  destruct rest as [|[] rest]; simpl; intros H; try reflexivity; destruct H.
Qed.

Lemma sum_rest_stop n e rest :
  stop_sum rest -> grammar.sum_rest (S n) e rest = grammar.Ok e rest.
Proof.
  destruct rest as [|[] rest]; simpl; intros H; try reflexivity; destruct H.
Qed.

Lemma primary_rest_stop n e rest :
  no_call rest -> grammar.primary_rest (S n) e rest = grammar.Ok e rest.
Proof.
  destruct rest as [|[] rest]; simpl; intros H; try reflexivity; destruct H.
Qed.

Lemma stop_power_no_call rest : stop_power rest -> no_call rest.
Proof. destruct rest as [|[] rest]; simpl; auto. Qed.

Lemma stop_term_power rest : stop_term rest -> stop_power rest.
Proof. destruct rest as [|[] rest]; simpl; auto. Qed.

Lemma derives_parses lvl ts e : derives lvl ts e -> parses lvl ts e.
Proof.
  induction 1; unfold parses in *.
  - (* number *)
    intros rest n Hr Hn. simpl in Hn.
    destruct n as [|[|n]]; try lia.
    cbn [grammar.primary app grammar.andthen grammar.atom].
    now apply primary_rest_stop.
  - (* paren *)
    intros rest n Hr Hn. rewrite length_cons, length_app in Hn. simpl in Hn.
    destruct (derives_first _ _ _ H) as (t & ts' & E & Hb & _).
    destruct n as [|[|n]]; try lia.
    destruct (IHderives (grammar.RPAR :: rest) n I) as (n' & Hn' & Es); [lia|].
    cbn [grammar.primary]. rewrite <- app_comm_cons, <- app_assoc. cbn [app].
    assert (Ea : grammar.atom (S n)
                   (grammar.LPAR :: ts ++ grammar.RPAR :: rest)
                 = grammar.Ok e rest).
    { cbn [grammar.atom]. rewrite E in *. destruct t; try destruct Hb;
        cbn [app]; cbn [app] in Es; rewrite Es;
        (destruct n' as [|n']; [lia|]);
        rewrite sum_rest_stop by exact I; reflexivity. }
    rewrite Ea. cbn [grammar.andthen]. now apply primary_rest_stop.
  - (* atom as power *)
    intros rest n Hr Hn. pose proof (derives_nonempty _ _ _ H).
    destruct n as [|n]; [lia|]. cbn [grammar.power].
    rewrite IHderives; [|now apply stop_power_no_call|lia].
    cbn [grammar.andthen]. destruct rest as [|[] rest]; try reflexivity; destruct Hr.
  - (* power *)
    intros rest n Hr Hn. rewrite length_app, length_cons in Hn.
    destruct n as [|n]; [lia|]. cbn [grammar.power].
    rewrite <- app_assoc. cbn [app].
    rewrite IHderives1; [|exact I|lia].
    cbn [grammar.andthen]. rewrite IHderives2; [|exact Hr|lia]. reflexivity.
  - (* power as factor *)
    intros rest n Hr Hn. pose proof (derives_nonempty _ _ _ H).
    destruct (derives_first _ _ _ H) as (t & ts' & E & _ & Ho).
    destruct n as [|n]; [lia|].
    assert (Ef : grammar.factor (S n) (ts ++ rest) = grammar.power n (ts ++ rest)).
    { rewrite E. destruct t; try destruct Ho; reflexivity. }
    rewrite Ef. apply IHderives; [exact Hr|lia].
  - intros rest n Hr Hn. rewrite length_cons in Hn.
    destruct n as [|n]; [lia|]. cbn [grammar.factor app].
    rewrite IHderives; [reflexivity|exact Hr|lia].
  - intros rest n Hr Hn. rewrite length_cons in Hn.
    destruct n as [|n]; [lia|]. cbn [grammar.factor app].
    rewrite IHderives; [reflexivity|exact Hr|lia].
  - (* factor as term *)
    intros rest n Hr Hn. pose proof (derives_nonempty _ _ _ H).
    destruct n as [|n]; [lia|]. exists n. split; [lia|].
    cbn [grammar.term]. rewrite IHderives; [reflexivity|exact Hr|lia].
  - (* times *)
    intros rest n Hr Hn. rewrite length_app, length_cons in *.
    destruct (IHderives1 (grammar.STAR :: ts2 ++ rest) n I) as (n1 & Hn1 & E1); [lia|].
    destruct n1 as [|n2]; [lia|]. exists n2. split; [lia|].
    rewrite <- app_assoc. cbn [app]. rewrite E1. cbn [grammar.term_rest].
    rewrite IHderives2; [reflexivity|exact Hr|lia].
  - (* over *)
    intros rest n Hr Hn. rewrite length_app, length_cons in *.
    destruct (IHderives1 (grammar.SLASH :: ts2 ++ rest) n I) as (n1 & Hn1 & E1); [lia|].
    destruct n1 as [|n2]; [lia|]. exists n2. split; [lia|].
    rewrite <- app_assoc. cbn [app]. rewrite E1. cbn [grammar.term_rest].
    rewrite IHderives2; [reflexivity|exact Hr|lia].
  - (* term as sum *)
    intros rest n Hr Hn. pose proof (derives_nonempty _ _ _ H).
    destruct n as [|n]; [lia|]. exists n. split; [lia|].
    destruct (IHderives rest n (stop_term_power _ Hr)) as (n' & Hn' & Et); [lia|].
    cbn [grammar.sum]. rewrite Et.
    destruct n' as [|n']; [lia|].
    rewrite term_rest_stop by exact Hr. reflexivity.
  - (* add *)
    intros rest n Hr Hn. rewrite length_app, length_cons in *.
    pose proof (derives_nonempty _ _ _ H0).
    destruct (IHderives1 (grammar.PLUS :: ts2 ++ rest) n I) as (n1 & Hn1 & E1); [lia|].
    destruct n1 as [|n2]; [lia|]. exists n2. split; [lia|].
    rewrite <- app_assoc. cbn [app]. rewrite E1. cbn [grammar.sum_rest].
    destruct (IHderives2 rest n2 (stop_term_power _ Hr)) as (n3 & Hn3 & Et); [lia|].
    rewrite Et. destruct n3 as [|n3]; [lia|].
    rewrite term_rest_stop by exact Hr. reflexivity.
  - (* sub *)
    intros rest n Hr Hn. rewrite length_app, length_cons in *.
    pose proof (derives_nonempty _ _ _ H0).
    destruct (IHderives1 (grammar.MINUS :: ts2 ++ rest) n I) as (n1 & Hn1 & E1); [lia|].
    destruct n1 as [|n2]; [lia|]. exists n2. split; [lia|].
    rewrite <- app_assoc. cbn [app]. rewrite E1. cbn [grammar.sum_rest].
    destruct (IHderives2 rest n2 (stop_term_power _ Hr)) as (n3 & Hn3 & Et); [lia|].
    rewrite Et. destruct n3 as [|n3]; [lia|].
    rewrite term_rest_stop by exact Hr. reflexivity.
Qed.

Lemma derives_expressions ts e :
  derives LSum ts e ->
  grammar.expressions (10 * length ts + 10) ts = grammar.Ok e [].
Proof.
  intros H. pose proof (derives_parses _ _ _ H) as P. simpl in P.
  destruct (P [] (10 * length ts + 10)%nat I) as (n' & Hn' & E); [lia|].
  pose proof (derives_nonempty _ _ _ H).
  unfold grammar.expressions. rewrite app_nil_r in E. rewrite E.
  destruct n' as [|n']; [lia|]. reflexivity.
Qed.

(** Comparisons of code points, from booleans to arithmetic. *)
Ltac code_points :=
  repeat match goal with
  | H : (_ && _) = true |- _ => apply andb_true_iff in H; destruct H
  | H : (_ || _) = false |- _ => apply orb_false_iff in H; destruct H
  | H : (_ || _) = true |- _ => apply orb_true_iff in H; destruct H
  | H : (_ && _) = false |- _ => apply andb_false_iff in H; destruct H
  | H : (_ =? _)%N = true |- _ => apply N.eqb_eq in H
  | H : (_ =? _)%N = false |- _ => apply N.eqb_neq in H
  | H : (_ <=? _)%N = true |- _ => apply N.leb_le in H
  | H : (_ <=? _)%N = false |- _ => apply N.leb_gt in H
  | H : (_ <? _)%N = true |- _ => apply N.ltb_lt in H
  | H : (_ <? _)%N = false |- _ => apply N.ltb_ge in H
  end.

Lemma plain_range c :
  (32 <= c <= 126)%N -> grammar.plain c = true.
Proof.
  intros H. unfold grammar.plain. apply orb_true_iff. left.
  apply andb_true_iff. split; apply N.leb_le; lia.
Qed.

Lemma start_plain c ts st :
  grammar.start c = grammar.Go ts st -> grammar.plain c = true.
Proof.
  unfold grammar.start, is_ascii_digit, grammar.is_name_start,
    grammar.is_quote.
  change (chr ".") with 46%N; change (chr "+") with 43%N;
  change (chr "-") with 45%N; change (chr "(") with 40%N;
  change (chr ")") with 41%N; change (chr ",") with 44%N;
  change (chr "*") with 42%N; change (chr "/") with 47%N.
  repeat match goal with
  | |- context [if ?b then _ else _] =>
      let E := fresh "E" in destruct b eqn:E
  end; intros H; try discriminate; clear H;
  try (apply plain_range; code_points; lia).
  code_points; subst; reflexivity.
Qed.

Lemma finish_then_start_plain st c ts st' :
  grammar.finish_then_start st c = grammar.Go ts st' ->
  grammar.plain c = true.
Proof.
  unfold grammar.finish_then_start.
  destruct (grammar.finish st); try discriminate.
  destruct (grammar.start c) eqn:E; try discriminate.
  intros _. eapply start_plain. exact E.
Qed.

Lemma step_plain st c ts st' :
  grammar.step st c = grammar.Go ts st' -> grammar.plain c = true.
Proof.
  destruct st as [|ds|ip fp| |cs|q cs|q| |]; cbn [grammar.step].
  - apply start_plain.
  - destruct (is_ascii_digit c) eqn:D.
    { intros _. unfold is_ascii_digit in D. apply plain_range.
      code_points; lia. }
    destruct (c =? chr ".")%N eqn:P.
    { intros _. change (chr ".") with 46%N in P. apply plain_range.
      code_points; lia. }
    destruct (grammar.is_name_start c || grammar.is_quote c); [discriminate|].
    apply finish_then_start_plain.
  - destruct (is_ascii_digit c) eqn:D.
    { intros _. unfold is_ascii_digit in D. apply plain_range.
      code_points; lia. }
    destruct (grammar.is_name_start c || grammar.is_quote c); [discriminate|].
    apply finish_then_start_plain.
  - destruct (is_ascii_digit c) eqn:D; [|discriminate].
    intros _. unfold is_ascii_digit in D. apply plain_range.
    code_points; lia.
  - destruct (grammar.is_name_start c || is_ascii_digit c) eqn:D.
    { intros _. unfold is_ascii_digit, grammar.is_name_start in D.
      apply plain_range. code_points; lia. }
    destruct (grammar.is_quote c || (128 <=? c)%N); [discriminate|].
    apply finish_then_start_plain.
  - destruct ((c <? 32) || (c =? 92) || (127 <=? c))%N eqn:D; [discriminate|].
    intros _. apply plain_range. code_points; lia.
  - destruct (c =? q)%N; [discriminate|]. apply finish_then_start_plain.
  - destruct (c =? chr "*")%N eqn:P.
    { intros _. change (chr "*") with 42%N in P. apply plain_range.
      code_points; lia. }
    apply finish_then_start_plain.
  - destruct (c =? chr "/")%N eqn:P.
    { intros _. change (chr "/") with 47%N in P. apply plain_range.
      code_points; lia. }
    apply finish_then_start_plain.
Qed.

(** What the lexer reads to the end is plain text. *)
Lemma lex_plain s : forall st ts,
  grammar.lex st s = grammar.Tokens ts -> forallb grammar.plain s = true.
Proof.
  induction s as [|c s IH]; intros st ts H; [reflexivity|].
  cbn [grammar.lex] in H.
  destruct (grammar.step st c) as [ts0 st'| |] eqn:E; try discriminate.
  destruct (grammar.lex st' s) as [ts1| |] eqn:L; try discriminate.
  cbn [forallb]. rewrite (step_plain _ _ _ _ E), (IH _ _ L). reflexivity.
Qed.

Lemma derives_parse (s : str) ts e :
  leading_blank s = false ->
  grammar.lex grammar.Start s = grammar.Tokens ts ->
  (length ts <= 1000)%nat ->
  (grammar.nesting 0 0 ts <= 100)%nat ->
  derives LSum ts e ->
  grammar.parse s = grammar.Tree e.
Proof.
  intros Hb Hl Hlen Hnest Hd.
  destruct s as [|c s].
  - simpl in Hl. injection Hl as <-.
    apply derives_nonempty in Hd. simpl in Hd. lia.
  - unfold grammar.parse. rewrite (lex_plain _ _ _ Hl). cbn [negb].
    simpl in Hb. rewrite Hb, Hl.
    replace (1000 <? length ts)%nat with false
      by (symmetry; apply Nat.ltb_ge; exact Hlen).
    replace (100 <? grammar.nesting 0 0 ts)%nat with false
      by (symmetry; apply Nat.ltb_ge; exact Hnest).
    simpl orb. cbv iota.
    now rewrite (derives_expressions ts e Hd).
Qed.

(** ** The evaluator *)

Lemma safe_eval_str rt c s :
  safe_eval rt (PyStr (c :: s)) =
  match parsed <- ast_parse rt (source (c :: s)) ;; _eval rt 0 parsed with
  | Return v => Return v
  | Raise e => handle e
  end.
Proof. reflexivity. Qed.

Lemma handle_raises e : exists msg, handle e = raise EvalError msg.
Proof.
  destruct e as [cls msg]. unfold handle. simpl.
  destruct cls; eexists; reflexivity.
Qed.

Lemma safe_eval_tree rt (s : str) t :
  s <> [] ->
  ast_parse rt (source s) = Return t ->
  safe_eval rt (PyStr s) =
  match _eval rt 0 t with
  | Return v => Return v
  | Raise e => handle e
  end.
Proof.
  intros Hs Hp. destruct s as [|c s]; [congruence|].
  rewrite safe_eval_str, Hp. reflexivity.
Qed.

Lemma safe_eval_parse_error rt (s : str) e :
  s <> [] ->
  ast_parse rt (source s) = Raise e ->
  safe_eval rt (PyStr s) = handle e.
Proof.
  intros Hs Hp. destruct s as [|c s]; [congruence|].
  rewrite safe_eval_str, Hp. reflexivity.
Qed.

(** What a [str] makes [safe_eval] do: return a value or raise
    [EvalError]. *)
Lemma safe_eval_str_outcome rt (s : str) :
  (exists v, safe_eval rt (PyStr s) = Return v)
  \/ (exists msg, safe_eval rt (PyStr s) = raise EvalError msg).
Proof.
  destruct s as [|c s].
  - right. eexists. reflexivity.
  - rewrite safe_eval_str.
    destruct (parsed <- ast_parse rt (source (c :: s)) ;; _eval rt 0 parsed)
      as [v|e].
    + left. eauto.
    + right. apply handle_raises.
Qed.

Lemma within_stack_root rt level t :
  within_stack rt level t = true -> stack_overflow rt level t = None.
Proof.
  destruct t; cbn [within_stack];
    destruct (stack_overflow rt level _); congruence.
Qed.

(** Within the stack the walk is the one of a stack without end. *)
Lemma _eval_walk rt t : forall level,
  within_stack rt level t = true -> _eval rt level t = walk rt t.
Proof.
  induction t as [c | l IHl o r IHr | o e IHe | | | | | | | | ];
    intros level H; pose proof (within_stack_root _ _ _ H) as R;
    cbn [_eval walk]; rewrite R; try reflexivity.
  - cbn [within_stack] in H. rewrite R in H.
    apply andb_true_iff in H as [Hl Hr].
    rewrite (IHl _ Hl), (IHr _ Hr). reflexivity.
  - cbn [within_stack] in H. rewrite R in H.
    rewrite (IHe _ H). reflexivity.
Qed.

(** The outcome of [safe_eval] on the text [typed], which reaches the
    parser as [text]. *)
Lemma safe_eval_reads rt (typed : str) text t :
  typed <> [] ->
  source typed = of_string text ->
  reads rt text t ->
  safe_eval rt (PyStr typed) =
  match walk rt t with
  | Return v => Return v
  | Raise e => handle e
  end.
Proof.
  intros Hn Hs [Hp Hw]. rewrite <- Hs in Hp.
  rewrite (safe_eval_tree rt typed t Hn Hp), (_eval_walk rt t 0 Hw).
  reflexivity.
Qed.

(** C3, as the code has it.  On [None], on a [str], and on any other
    object whose truth test and [replace] return, [safe_eval] returns a
    number or raises [EvalError]: what the parser raises and what the
    walk raises come out as [EvalError], so does the [SyntaxError] of
    ["2+"], and the empty string, [None] and an object that is not a
    [str] are refused with the empty-or-invalid message.  The guard runs
    before the [try]: what the truth test or the [replace] of the
    argument raises leaves [safe_eval] unchanged. *)
Theorem safe_eval_single_error rt :
  (forall expr : pyobj,
     guard_returns expr ->
     (exists v, safe_eval rt expr = Return v)
     \/ (exists msg, safe_eval rt expr = raise EvalError msg))
  /\ (forall (s : str) e,
        s <> [] ->
        ast_parse rt (source s) = Raise e ->
        exists msg, safe_eval rt (PyStr s) = raise EvalError msg)
  /\ (forall (s : str) t e,
        s <> [] ->
        ast_parse rt (source s) = Return t ->
        _eval rt 0 t = Raise e ->
        exists msg, safe_eval rt (PyStr s) = raise EvalError msg)
  /\ (forall msg,
        ast_parse rt (of_string "2+") = raise SyntaxError msg ->
        safe_eval rt (PyStr (of_string "2+"))
        = raise EvalError ("Invalid expression: " ++ msg))
  /\ safe_eval rt (PyStr []) = raise EvalError "Empty or invalid expression."
  /\ safe_eval rt PyNone = raise EvalError "Empty or invalid expression."
  /\ (forall truth,
        safe_eval rt (PyObject (Return truth))
        = raise EvalError "Empty or invalid expression.")
  /\ (forall e, safe_eval rt (PyObject (Raise e)) = Raise e)
  /\ (forall e replaced,
        safe_eval rt (PyStrSubclass (Raise e) replaced) = Raise e)
  /\ (forall e,
        safe_eval rt (PyStrSubclass (Return true) (Raise e)) = Raise e).
Proof.
  repeat split; try reflexivity.
  - intros expr G. destruct expr as [|s|[b|e]|[b|e] r]; cbn in G.
    + right. eexists. reflexivity.
    + apply safe_eval_str_outcome.
    + right. eexists. destruct b; reflexivity.
    + destruct G.
    + destruct b.
      * destruct (G eq_refl) as [s E]. cbn in E. subst r.
        unfold safe_eval. cbn [truth_test bind negb isinstance_str orb
                                replace_caret].
        destruct (parsed <- ast_parse rt s ;; _eval rt 0 parsed) as [v|e].
        -- left. eauto.
        -- right. apply handle_raises.
      * right. eexists. reflexivity.
    + destruct G.
  - intros s e Hs Hp. rewrite (safe_eval_parse_error rt s e Hs Hp).
    apply handle_raises.
  - intros s t e Hs Hp He. rewrite (safe_eval_tree rt s t Hs Hp), He.
    apply handle_raises.
  - intros msg Hp.
    rewrite (safe_eval_parse_error rt (of_string "2+")
               (mk_exn SyntaxError msg)); [reflexivity|discriminate|exact Hp].
  - intros truth. destruct truth; reflexivity.
Qed.

Lemma safe_eval_single_error_witness :
  (guard_returns (PyStr (of_string "2+"))
   /\ exists msg,
        safe_eval sample_runtime (PyStr (of_string "2+"))
        = raise EvalError msg)
  /\ (guard_returns (PyStrSubclass (Return true) (Return (of_string "1+1")))
      /\ exists v,
           safe_eval sample_runtime
             (PyStrSubclass (Return true) (Return (of_string "1+1")))
           = Return v)
  /\ (ast_parse sample_runtime (of_string "2+")
      = raise SyntaxError "invalid syntax"
      /\ safe_eval sample_runtime (PyStr (of_string "2+"))
         = raise EvalError "Invalid expression: invalid syntax")
  /\ (ast_parse sample_runtime (source (of_string "1/0"))
      = Return (ast.BinOp (ast.Constant (ast.CInt 1)) ast.Div
                  (ast.Constant (ast.CInt 0)))
      /\ _eval sample_runtime 0
           (ast.BinOp (ast.Constant (ast.CInt 1)) ast.Div
              (ast.Constant (ast.CInt 0)))
         = raise ZeroDivisionError "division by zero"
      /\ exists msg,
           safe_eval sample_runtime (PyStr (of_string "1/0"))
           = raise EvalError msg).
Proof.
  split; [|split; [|split]].
  - assert (G : guard_returns (PyStr (of_string "2+"))).
    { cbn. intros _. eexists. reflexivity. }
    split; [exact G|].
    destruct (proj1 (safe_eval_single_error sample_runtime) _ G)
      as [[v E]|E]; [discriminate E|exact E].
  - assert (G : guard_returns
                  (PyStrSubclass (Return true) (Return (of_string "1+1")))).
    { cbn. intros _. eexists. reflexivity. }
    split; [exact G|].
    destruct (proj1 (safe_eval_single_error sample_runtime) _ G)
      as [E|[msg E]]; [exact E|discriminate E].
  - split; [reflexivity|].
    apply (proj1 (proj2 (proj2 (proj2
             (safe_eval_single_error sample_runtime))))).
    reflexivity.
  - split; [reflexivity|]. split; [reflexivity|].
    apply (proj1 (proj2 (proj2 (safe_eval_single_error sample_runtime)))
             (of_string "1/0")
             (ast.BinOp (ast.Constant (ast.CInt 1)) ast.Div
                (ast.Constant (ast.CInt 0)))
             (mk_exn ZeroDivisionError "division by zero"));
      [discriminate | reflexivity | reflexivity].
Defined.

(** C3 as stated fails.  The truth test of the argument runs before the
    [try]: an object whose [__bool__] raises [ValueError] makes
    [safe_eval] raise that [ValueError], not [EvalError]; and so does the
    [replace] of an instance of a subclass of [str]. *)
Lemma native_exception_counterexample :
  safe_eval sample_runtime (PyObject (raise ValueError "no truth value"))
  = raise ValueError "no truth value"
  /\ exn_class_of (mk_exn ValueError "no truth value") <> EvalError
  /\ safe_eval sample_runtime
       (PyStrSubclass (Return true) (raise TypeError "no replace"))
     = raise TypeError "no replace"
  /\ exn_class_of (mk_exn TypeError "no replace") <> EvalError.
Proof.
  split; [reflexivity|]. split; [discriminate|].
  split; [reflexivity|]. discriminate.
Qed.

(** ** Integer arithmetic *)

Lemma roomy_holds rt t : roomy rt t = true ->
  match t with
  | ast.BinOp _ _ _ | ast.UnaryOp ast.USub _ => holds rt t = true
  | _ => True
  end.
Proof.
  destruct t as [c | l o r | o e | | | | | | | | ]; try exact (fun _ => I).
  - cbn [roomy]. intros H. now apply andb_true_iff in H as [_ H].
  - destruct o; try exact (fun _ => I).
    cbn [roomy]. intros H. now apply andb_true_iff in H as [_ H].
Qed.

Lemma new_int_built rt n : op.built rt n = true -> op.new_int rt n = Return (VInt n).
Proof. unfold op.new_int. now intros ->. Qed.

(** Integer arithmetic on a stack without end. *)
Lemma walk_int rt t : forall n,
  int_value t = Some n -> roomy rt t = true -> walk rt t = Return (VInt n).
Proof.
  induction t as [c | l IHl o r IHr | o e IHe | | | | | | | | ];
    intros n H R; try discriminate.
  - destruct c; try discriminate. injection H as <-. reflexivity.
  - pose proof (roomy_holds rt _ R) as B. cbn beta iota in B.
    unfold holds in B. rewrite H in B.
    cbn [roomy] in R. apply andb_true_iff in R as [R _].
    apply andb_true_iff in R as [Rl Rr].
    cbn [int_value] in H.
    destruct (int_value l) as [a|]; [|discriminate].
    destruct (int_value r) as [b|]; [|discriminate].
    cbn [walk ast.Num_n ast.Constant_int_or_float].
    rewrite (IHl a eq_refl Rl), (IHr b eq_refl Rr).
    destruct o; try discriminate;
      cbn [dict_get _ALLOWED ast.op_type_eqb ast.operator_eqb bind
           op.add op.sub op.mul op.pow op.binary op.arith op.as_int].
    + injection H as <-. now apply new_int_built.
    + injection H as <-. now apply new_int_built.
    + injection H as <-. now apply new_int_built.
    + destruct (0 <=? b)%Z eqn:E; [|discriminate]. injection H as <-.
      apply Z.leb_le in E. unfold op.int_pow.
      replace (b <? 0)%Z with false by (symmetry; apply Z.ltb_ge; exact E).
      now apply new_int_built.
  - cbn [walk ast.Num_n ast.Constant_int_or_float].
    destruct o; try discriminate;
      cbn [dict_get _ALLOWED ast.op_type_eqb ast.unaryop_eqb].
    + cbn [int_value] in H. cbn [roomy] in R.
      rewrite (IHe n H R). reflexivity.
    + pose proof (roomy_holds rt _ R) as B. cbn beta iota in B.
      unfold holds in B. rewrite H in B.
      cbn [roomy] in R. apply andb_true_iff in R as [R _].
      cbn [int_value] in H.
      destruct (int_value e) as [a|]; [|discriminate]. injection H as <-.
      rewrite (IHe a eq_refl R).
      cbn [bind op.neg op.unary op.as_int]. now apply new_int_built.
Qed.

(** Integer arithmetic is exact: within the stack and the memory the
    walk returns the value of the tree. *)
Lemma _eval_int rt t n level :
  int_value t = Some n ->
  within_stack rt level t = true ->
  roomy rt t = true ->
  _eval rt level t = Return (VInt n).
Proof.
  intros H W R. rewrite (_eval_walk rt t level W). now apply walk_int.
Qed.

(** ** Division by zero *)

Lemma handle_division_label e :
  handle e = raise EvalError "Division by zero."
  <-> exn_class_of e = ZeroDivisionError
      \/ e = mk_exn EvalError "Division by zero.".
Proof.
  destruct e as [cls msg]. unfold handle. cbn [exn_class_of exn_msg].
  split.
  - destruct cls; intros H; try discriminate; auto.
    right. unfold raise in H. now injection H as ->.
  - intros [->|E]; [reflexivity|].
    injection E as -> ->. reflexivity.
Qed.

(** C4.  A [ZeroDivisionError] raised while the tree is evaluated comes
    out of [safe_eval] as [EvalError("Division by zero.")].  The label is
    its own: a failure of the parser comes out as ["Invalid expression:
    ..."], never under the division label, and [safe_eval] gives the
    division label to no other exception of the parser or of the walk
    (but to an [EvalError] that carries it already, which the evaluator
    never makes).  Dividing an integer or a float by zero raises
    [ZeroDivisionError], so a quotient of integer expressions whose
    divisor is zero gets the label, as does ["5/0"]. *)
Theorem division_by_zero_labelled rt :
  (forall (s : str) t e,
     s <> [] ->
     ast_parse rt (source s) = Return t ->
     _eval rt 0 t = Raise e ->
     exn_class_of e = ZeroDivisionError ->
     safe_eval rt (PyStr s) = raise EvalError "Division by zero.")
  /\ (forall (s : str) e,
        s <> [] ->
        ast_parse rt (source s) = Raise e ->
        exn_class_of e = SyntaxError ->
        safe_eval rt (PyStr s)
        = raise EvalError ("Invalid expression: " ++ exn_msg e)
        /\ safe_eval rt (PyStr s) <> raise EvalError "Division by zero.")
  /\ (forall (s : str) e,
        s <> [] ->
        ast_parse rt (source s) = Raise e
        \/ (exists t, ast_parse rt (source s) = Return t
                      /\ _eval rt 0 t = Raise e) ->
        (safe_eval rt (PyStr s) = raise EvalError "Division by zero."
         <-> exn_class_of e = ZeroDivisionError
             \/ e = mk_exn EvalError "Division by zero."))
  /\ (forall (s : str) l r a,
        s <> [] ->
        ast_parse rt (source s) = Return (ast.BinOp l ast.Div r) ->
        int_value l = Some a ->
        int_value r = Some 0%Z ->
        within_stack rt 0 (ast.BinOp l ast.Div r) = true ->
        roomy rt l = true -> roomy rt r = true ->
        safe_eval rt (PyStr s) = raise EvalError "Division by zero.")
  /\ (forall a,
        op.truediv rt [VInt a; VInt 0]
        = raise ZeroDivisionError "division by zero")
  /\ (forall x sign,
        op.truediv rt [VFloat x; VFloat (S754_zero sign)]
        = raise ZeroDivisionError "float division by zero")
  /\ (reads rt "5/0"
        (ast.BinOp (ast.Constant (ast.CInt 5)) ast.Div
           (ast.Constant (ast.CInt 0))) ->
      safe_eval rt (PyStr (of_string "5/0"))
      = raise EvalError "Division by zero.").
Proof.
  split; [|split; [|split; [|split; [|split; [|split]]]]].
  - intros s t e Hs Hp He Hc.
    rewrite (safe_eval_tree rt s t Hs Hp), He.
    unfold handle. now rewrite Hc.
  - intros s e Hs Hp Hc.
    rewrite (safe_eval_parse_error rt s e Hs Hp).
    unfold handle. rewrite Hc. split; [reflexivity|discriminate].
  - intros s e Hs [Hp|(t & Hp & He)].
    + rewrite (safe_eval_parse_error rt s e Hs Hp).
      apply handle_division_label.
    + rewrite (safe_eval_tree rt s t Hs Hp), He.
      apply handle_division_label.
  - intros s l r a Hs Hp Hl Hr W Rl Rr.
    rewrite (safe_eval_tree rt s _ Hs Hp), (_eval_walk rt _ 0 W).
    cbn [walk ast.Num_n ast.Constant_int_or_float dict_get _ALLOWED
         ast.op_type_eqb ast.operator_eqb].
    rewrite (walk_int rt l a Hl Rl), (walk_int rt r 0%Z Hr Rr).
    destruct a; reflexivity.
  - intros a. destruct a; reflexivity.
  - intros x sign. reflexivity.
  - intros R.
    rewrite (safe_eval_reads rt (of_string "5/0") "5/0" _
               ltac:(discriminate) eq_refl R).
    reflexivity.
Qed.

Lemma division_by_zero_labelled_witness :
  (reads sample_runtime "5/0"
     (ast.BinOp (ast.Constant (ast.CInt 5)) ast.Div
        (ast.Constant (ast.CInt 0)))
   /\ safe_eval sample_runtime (PyStr (of_string "5/0"))
      = raise EvalError "Division by zero.")
  /\ (of_string "1/(2-2)" <> []
      /\ _eval sample_runtime 0
           (ast.BinOp (ast.Constant (ast.CInt 1)) ast.Div
              (ast.BinOp (ast.Constant (ast.CInt 2)) ast.Sub
                 (ast.Constant (ast.CInt 2))))
         = raise ZeroDivisionError "division by zero"
      /\ safe_eval sample_runtime (PyStr (of_string "1/(2-2)"))
         = raise EvalError "Division by zero.")
  /\ (ast_parse sample_runtime (source (of_string "5/"))
      = raise SyntaxError "invalid syntax"
      /\ safe_eval sample_runtime (PyStr (of_string "5/"))
         = raise EvalError "Invalid expression: invalid syntax"
      /\ safe_eval sample_runtime (PyStr (of_string "5/"))
         <> raise EvalError "Division by zero.")
  /\ (ast_parse sample_runtime (source (of_string "7/(3-3)"))
      = Return (ast.BinOp (ast.Constant (ast.CInt 7)) ast.Div
                  (ast.BinOp (ast.Constant (ast.CInt 3)) ast.Sub
                     (ast.Constant (ast.CInt 3))))
      /\ int_value (ast.BinOp (ast.Constant (ast.CInt 3)) ast.Sub
                      (ast.Constant (ast.CInt 3))) = Some 0%Z
      /\ safe_eval sample_runtime (PyStr (of_string "7/(3-3)"))
         = raise EvalError "Division by zero.").
Proof.
  assert (R : reads sample_runtime "5/0"
                (ast.BinOp (ast.Constant (ast.CInt 5)) ast.Div
                   (ast.Constant (ast.CInt 0)))).
  { split; reflexivity. }
  split; [|split; [|split]].
  - split; [exact R|].
    exact (proj2 (proj2 (proj2 (proj2 (proj2 (proj2
             (division_by_zero_labelled sample_runtime)))))) R).
  - split; [discriminate|]. split; [reflexivity|].
    apply (proj1 (division_by_zero_labelled sample_runtime)
             (of_string "1/(2-2)")
             (ast.BinOp (ast.Constant (ast.CInt 1)) ast.Div
                (ast.BinOp (ast.Constant (ast.CInt 2)) ast.Sub
                   (ast.Constant (ast.CInt 2))))
             (mk_exn ZeroDivisionError "division by zero"));
      [discriminate | reflexivity | reflexivity | reflexivity].
  - split; [reflexivity|].
    apply (proj1 (proj2 (division_by_zero_labelled sample_runtime))
             (of_string "5/") (mk_exn SyntaxError "invalid syntax"));
      [discriminate | reflexivity | reflexivity].
  - split; [reflexivity|]. split; [reflexivity|].
    apply (proj1 (proj2 (proj2 (proj2
             (division_by_zero_labelled sample_runtime))))
             (of_string "7/(3-3)")
             (ast.Constant (ast.CInt 7))
             (ast.BinOp (ast.Constant (ast.CInt 3)) ast.Sub
                (ast.Constant (ast.CInt 3)))
             7%Z);
      [discriminate | reflexivity | reflexivity | reflexivity
       | reflexivity | reflexivity | reflexivity].
Defined.

(** ** The whitelist *)

Lemma binary_lookup rt o :
  allowed_binary o = false ->
  dict_get (ast.BinaryType o) (_ALLOWED rt) = None.
Proof. destruct o; simpl; intros H; try discriminate; reflexivity. Qed.

Lemma unary_lookup rt o :
  allowed_unary o = false ->
  dict_get (ast.UnaryType o) (_ALLOWED rt) = None.
Proof. destruct o; simpl; intros H; try discriminate; reflexivity. Qed.

(** A node that is not recognised raises at once, whatever it holds. *)
Lemma unrecognised_raises rt level node :
  recognised node = false ->
  stack_overflow rt level node = None ->
  _eval rt level node = Raise unsupported.
Proof.
  destruct node as [[]| l o r | o e | | | | | | | | ]; intros H S;
    try discriminate; cbn [_eval]; rewrite S; try reflexivity;
    cbn [recognised] in H;
    cbn [ast.Num_n ast.Constant_int_or_float].
  - now rewrite (binary_lookup rt o H).
  - now rewrite (unary_lookup rt o H).
Qed.

(** The walk over a tree that is not whitelisted ends in the
    unsupported-structure error, unless the stack overflowed or a
    whitelisted operand raised before the walk got to the offending
    node. *)
Lemma not_whitelisted_raises rt t : forall level,
  whitelisted t = false ->
  _eval rt level t = Raise unsupported
  \/ (exists msg, _eval rt level t = raise RecursionError msg)
  \/ exists u level' e,
       operand_of u t /\ whitelisted u = true
       /\ _eval rt level' u = Raise e /\ _eval rt level t = Raise e.
Proof.
  induction t as [c | l IHl o r IHr | o e IHe | | | | | | | | ];
    intros level Hw;
    match goal with
    | |- _eval rt level ?t = _ \/ _ =>
        destruct (stack_overflow rt level t) as [msg|] eqn:So;
        [right; left; exists msg; cbn [_eval]; rewrite So; reflexivity|]
    end;
    try (left; apply unrecognised_raises; [reflexivity|exact So]).
  - left. apply unrecognised_raises; [|exact So].
    destruct c; try discriminate; reflexivity.
  - destruct (allowed_binary o) eqn:Ho.
    2:{ left. apply unrecognised_raises; [exact Ho|exact So]. }
    cbn [whitelisted recognised] in Hw. rewrite Ho in Hw. simpl in Hw.
    cbn [_eval]. rewrite So.
    cbn [ast.Num_n ast.Constant_int_or_float].
    destruct (dict_get (ast.BinaryType o) (_ALLOWED rt)) as [f|];
      [|left; reflexivity].
    destruct (whitelisted l) eqn:Hl.
    + destruct (_eval rt (S level) l) as [a|e0] eqn:El.
      * simpl in Hw.
        destruct (IHr (S level) Hw)
          as [E | [[msg E] | (u & k' & e0 & Hu & Hwu & Eu & E)]];
          rewrite E; simpl.
        -- left. reflexivity.
        -- right. left. exists msg. reflexivity.
        -- right. right. exists u, k', e0. auto using operand_right.
      * right. right. exists l, (S level), e0. simpl.
        auto using operand_self, operand_left.
    + destruct (IHl (S level) eq_refl)
        as [E | [[msg E] | (u & k' & e0 & Hu & Hwu & Eu & E)]];
        rewrite E; simpl.
      * left. reflexivity.
      * right. left. exists msg. reflexivity.
      * right. right. exists u, k', e0. auto using operand_left.
  - destruct (allowed_unary o) eqn:Ho.
    2:{ left. apply unrecognised_raises; [exact Ho|exact So]. }
    cbn [whitelisted recognised] in Hw. rewrite Ho in Hw. simpl in Hw.
    cbn [_eval]. rewrite So.
    cbn [ast.Num_n ast.Constant_int_or_float].
    destruct (dict_get (ast.UnaryType o) (_ALLOWED rt)) as [f|];
      [|left; reflexivity].
    destruct (IHe (S level) Hw)
      as [E | [[msg E] | (u & k' & e0 & Hu & Hwu & Eu & E)]];
      rewrite E; simpl.
    + left. reflexivity.
    + right. left. exists msg. reflexivity.
    + right. right. exists u, k', e0. auto using operand_unary.
Qed.

(** C1, as the code has it.  A tree with a node outside the whitelist
    (numeric literals and the constants [True] and [False]; binary
    operations with [+ - * / **]; unary [-] and [+]) never yields a
    value: [safe_eval] raises [EvalError].  Such a node is never
    evaluated: the walk raises the unsupported-structure error as soon as
    it enters it, whatever the node holds, and it does nothing else (the
    walk is a function of the tree: it calls the operator of a recognised
    node and nothing more).  The error that comes out is that one,
    unless the stack overflowed or a whitelisted operand evaluated before
    raised first.  ["__import__('os')"] and ["open('f')"], which the
    parser reads as calls, raise the unsupported-structure error. *)
Theorem whitelist_guard rt :
  (forall (s : str) t,
     s <> [] ->
     ast_parse rt (source s) = Return t ->
     whitelisted t = false ->
     exists msg, safe_eval rt (PyStr s) = raise EvalError msg)
  /\ (forall level node,
        recognised node = false ->
        stack_overflow rt level node = None ->
        _eval rt level node = Raise unsupported)
  /\ (forall level t,
        whitelisted t = false ->
        _eval rt level t = Raise unsupported
        \/ (exists msg, _eval rt level t = raise RecursionError msg)
        \/ exists u level' e,
             operand_of u t /\ whitelisted u = true
             /\ _eval rt level' u = Raise e /\ _eval rt level t = Raise e)
  /\ (reads rt "__import__('os')"
        (ast.Call (ast.Name (of_string "__import__"))
           [ast.Constant (ast.CStr (of_string "os"))]) ->
      safe_eval rt (PyStr (of_string "__import__('os')")) = Raise unsupported)
  /\ (reads rt "open('f')"
        (ast.Call (ast.Name (of_string "open"))
           [ast.Constant (ast.CStr (of_string "f"))]) ->
      safe_eval rt (PyStr (of_string "open('f')")) = Raise unsupported).
Proof.
  split; [|split; [|split; [|split]]].
  - intros s t Hs Hp Hw. rewrite (safe_eval_tree rt s t Hs Hp).
    destruct (not_whitelisted_raises rt t 0 Hw)
      as [E | [[msg E] | (u & k' & e & _ & _ & _ & E)]];
      rewrite E; apply handle_raises.
  - intros level node. apply unrecognised_raises.
  - intros level t. apply not_whitelisted_raises.
  - intros R.
    rewrite (safe_eval_reads rt (of_string "__import__('os')")
               "__import__('os')" _ ltac:(discriminate) eq_refl R).
    reflexivity.
  - intros R.
    rewrite (safe_eval_reads rt (of_string "open('f')")
               "open('f')" _ ltac:(discriminate) eq_refl R).
    reflexivity.
Qed.

Lemma whitelist_guard_witness :
  (of_string "2+x" <> []
   /\ ast_parse sample_runtime (source (of_string "2+x"))
      = Return (ast.BinOp (ast.Constant (ast.CInt 2)) ast.Add
                  (ast.Name (of_string "x")))
   /\ exists msg,
        safe_eval sample_runtime (PyStr (of_string "2+x")) = raise EvalError msg)
  /\ _eval sample_runtime 0 (ast.Name (of_string "x")) = Raise unsupported
  /\ (reads sample_runtime "__import__('os')"
        (ast.Call (ast.Name (of_string "__import__"))
           [ast.Constant (ast.CStr (of_string "os"))])
      /\ safe_eval sample_runtime (PyStr (of_string "__import__('os')"))
         = Raise unsupported)
  /\ (reads sample_runtime "open('f')"
        (ast.Call (ast.Name (of_string "open"))
           [ast.Constant (ast.CStr (of_string "f"))])
      /\ safe_eval sample_runtime (PyStr (of_string "open('f')"))
         = Raise unsupported).
Proof.
  split; [|split; [|split]].
  - split; [discriminate|]. split; [reflexivity|].
    apply (proj1 (whitelist_guard sample_runtime) (of_string "2+x")
             (ast.BinOp (ast.Constant (ast.CInt 2)) ast.Add
                (ast.Name (of_string "x"))));
      [discriminate | reflexivity | reflexivity].
  - apply (proj1 (proj2 (whitelist_guard sample_runtime)) 0%nat
             (ast.Name (of_string "x"))); reflexivity.
  - assert (R : reads sample_runtime "__import__('os')"
                  (ast.Call (ast.Name (of_string "__import__"))
                     [ast.Constant (ast.CStr (of_string "os"))])).
    { split; reflexivity. }
    split; [exact R|].
    exact (proj1 (proj2 (proj2 (proj2 (whitelist_guard sample_runtime)))) R).
  - assert (R : reads sample_runtime "open('f')"
                  (ast.Call (ast.Name (of_string "open"))
                     [ast.Constant (ast.CStr (of_string "f"))])).
    { split; reflexivity. }
    split; [exact R|].
    exact (proj2 (proj2 (proj2 (proj2 (whitelist_guard sample_runtime)))) R).
Defined.

(** C1 as stated fails twice.  The tree of ["1/0+x"] holds a name, which
    is outside the whitelist, and [safe_eval] reports a division by zero,
    not an unsupported structure.  And the tree of ["True"] is a constant
    that is no numeric literal, yet [safe_eval] returns its value. *)
Lemma unsupported_error_counterexample :
  (exists t,
     ast_parse sample_runtime (source (of_string "1/0+x")) = Return t
     /\ operand_of (ast.Name (of_string "x")) t
     /\ whitelisted t = false
     /\ safe_eval sample_runtime (PyStr (of_string "1/0+x"))
        = raise EvalError "Division by zero."
     /\ safe_eval sample_runtime (PyStr (of_string "1/0+x"))
        <> Raise unsupported)
  /\ ast_parse sample_runtime (source (of_string "True"))
     = Return (ast.Constant (ast.CBool true))
  /\ numeric_literal (ast.CBool true) = false
  /\ safe_eval sample_runtime (PyStr (of_string "True"))
     = Return (VBool true).
Proof.
  split.
  - exists (ast.BinOp
              (ast.BinOp (ast.Constant (ast.CInt 1)) ast.Div
                 (ast.Constant (ast.CInt 0)))
              ast.Add (ast.Name (of_string "x"))).
    split; [reflexivity|]. split; [apply operand_right, operand_self|].
    split; [reflexivity|]. split; [reflexivity|]. discriminate.
  - split; [reflexivity|]. split; reflexivity.
Qed.

(** C10.  The literal check lets [bool] constants through: they are not
    [ast.Num], and they are [Constant]s whose value is an [int].  So a
    text that the parser reads as [True] or [False] evaluates to that
    [bool]: ["True"], which holds no digit, evaluates to [True],
    ["True+1"] to 2 and ["True+True"], which holds no digit either, to
    2. *)
Theorem boolean_literals_accepted rt :
  (forall b,
     ast.Num_n (ast.Constant (ast.CBool b)) = None
     /\ ast.Constant_int_or_float (ast.Constant (ast.CBool b))
        = Some (VBool b))
  /\ (forall (s : str) b,
        s <> [] ->
        ast_parse rt (source s) = Return (ast.Constant (ast.CBool b)) ->
        stack_overflow rt 0 (ast.Constant (ast.CBool b)) = None ->
        safe_eval rt (PyStr s) = Return (VBool b))
  /\ existsb is_ascii_digit (of_string "True") = false
  /\ existsb is_ascii_digit (of_string "True+True") = false
  /\ (reads rt "True" (ast.Constant (ast.CBool true)) ->
      safe_eval rt (PyStr (of_string "True")) = Return (VBool true))
  /\ (reads rt "True+1"
        (ast.BinOp (ast.Constant (ast.CBool true)) ast.Add
           (ast.Constant (ast.CInt 1))) ->
      safe_eval rt (PyStr (of_string "True+1")) = Return (VInt 2))
  /\ (reads rt "True+True"
        (ast.BinOp (ast.Constant (ast.CBool true)) ast.Add
           (ast.Constant (ast.CBool true))) ->
      safe_eval rt (PyStr (of_string "True+True")) = Return (VInt 2)).
Proof.
  split; [|split; [|split; [|split; [|split; [|split]]]]]; try reflexivity.
  - intros b. split; reflexivity.
  - intros s b Hs Hp S. rewrite (safe_eval_tree rt s _ Hs Hp).
    cbn [_eval]. rewrite S. reflexivity.
  - intros R.
    rewrite (safe_eval_reads rt (of_string "True") "True" _
               ltac:(discriminate) eq_refl R).
    reflexivity.
  - intros R.
    rewrite (safe_eval_reads rt (of_string "True+1") "True+1" _
               ltac:(discriminate) eq_refl R).
    reflexivity.
  - intros R.
    rewrite (safe_eval_reads rt (of_string "True+True") "True+True" _
               ltac:(discriminate) eq_refl R).
    reflexivity.
Qed.

Lemma boolean_literals_accepted_witness :
  (reads sample_runtime "True" (ast.Constant (ast.CBool true))
   /\ safe_eval sample_runtime (PyStr (of_string "True")) = Return (VBool true))
  /\ (reads sample_runtime "True+1"
        (ast.BinOp (ast.Constant (ast.CBool true)) ast.Add
           (ast.Constant (ast.CInt 1)))
      /\ safe_eval sample_runtime (PyStr (of_string "True+1"))
         = Return (VInt 2))
  /\ (reads sample_runtime "True+True"
        (ast.BinOp (ast.Constant (ast.CBool true)) ast.Add
           (ast.Constant (ast.CBool true)))
      /\ safe_eval sample_runtime (PyStr (of_string "True+True"))
         = Return (VInt 2))
  /\ (of_string "False" <> []
      /\ ast_parse sample_runtime (source (of_string "False"))
         = Return (ast.Constant (ast.CBool false))
      /\ safe_eval sample_runtime (PyStr (of_string "False"))
         = Return (VBool false)).
Proof.
  assert (R1 : reads sample_runtime "True" (ast.Constant (ast.CBool true)))
    by (split; reflexivity).
  assert (R2 : reads sample_runtime "True+1"
                 (ast.BinOp (ast.Constant (ast.CBool true)) ast.Add
                    (ast.Constant (ast.CInt 1))))
    by (split; reflexivity).
  assert (R3 : reads sample_runtime "True+True"
                 (ast.BinOp (ast.Constant (ast.CBool true)) ast.Add
                    (ast.Constant (ast.CBool true))))
    by (split; reflexivity).
  pose proof (boolean_literals_accepted sample_runtime)
    as (_ & G & _ & _ & E1 & E2 & E3).
  split; [|split; [|split]].
  - split; [exact R1|]. exact (E1 R1).
  - split; [exact R2|]. exact (E2 R2).
  - split; [exact R3|]. exact (E3 R3).
  - split; [discriminate|]. split; [reflexivity|].
    apply G; [discriminate | reflexivity | reflexivity].
Defined.

(** ** The kind of the result *)

(** What [_eval] returns, the walk on a stack without end returns. *)
Lemma _eval_returns rt t : forall level v,
  _eval rt level t = Return v -> walk rt t = Return v.
Proof.
  induction t as [c | l IHl o r IHr | o e IHe | | | | | | | | ];
    intros level v; cbn [_eval walk];
    destruct (stack_overflow rt level _); try discriminate; try exact id.
  - cbn [ast.Num_n ast.Constant_int_or_float].
    destruct (dict_get (ast.BinaryType o) (_ALLOWED rt)); [|exact id].
    destruct (_eval rt (S level) l) as [a|] eqn:El; [|discriminate].
    rewrite (IHl _ _ El).
    destruct (_eval rt (S level) r) as [b|] eqn:Er; [|discriminate].
    rewrite (IHr _ _ Er). exact id.
  - cbn [ast.Num_n ast.Constant_int_or_float].
    destruct (dict_get (ast.UnaryType o) (_ALLOWED rt)); [|exact id].
    destruct (_eval rt (S level) e) as [a|] eqn:Ee; [|discriminate].
    rewrite (IHe _ _ Ee). exact id.
Qed.

Lemma float_or_complex_inexact r : inexact (op.float_or_complex r).
Proof. destruct r; exact I. Qed.

(** The numeric tower: two integers stay with the integer operation, and
    otherwise the result is what the float operation returns, or a
    complex number. *)
Lemma arith_cases int_op float_op complex_op a b v :
  op.arith int_op float_op complex_op a b = Return v ->
  (exists x y, a = VInt x /\ b = VInt y /\ int_op x y = Return v)
  \/ ((exists x, a = VBool x) \/ (exists y, b = VBool y))
  \/ ((is_int a = false \/ is_int b = false)
      /\ ((exists x y, float_op x y = Return v) \/ inexact v)).
Proof.
  destruct a as [p|x|x|z], b as [q|y|y|w]; cbn [op.arith op.as_int];
    intros H; eauto 6;
    right; right; (split; [auto|]);
    repeat match type of H with
    | bind ?m _ = Return _ =>
        let E := fresh "E" in destruct m eqn:E; cbn [bind] in H;
        [|discriminate]
    end;
    try (left; eauto; fail);
    right; injection H as <-; exact I.
Qed.

Lemma new_int_returns rt n v : op.new_int rt n = Return v -> v = VInt n.
Proof.
  unfold op.new_int. destruct (op.built rt n); [|discriminate].
  now intros [= <-].
Qed.

Ltac bind_returns H :=
  repeat match type of H with
  | bind ?m _ = Return _ =>
      let E := fresh "E" in destruct m eqn:E; cbn [bind] in H;
      [|discriminate]
  end.

(** An arithmetic tree evaluates to an [int] exactly when it is a tree of
    integer arithmetic, and the [int] is then its value. *)
Lemma walk_kind rt t : forall v,
  arithmetic t = true -> walk rt t = Return v -> kind_of t v.
Proof.
  induction t as [c | l IHl o r IHr | o e IHe | | | | | | | | ];
    intros v A H; try discriminate.
  - destruct c; try discriminate; cbn in H; injection H as <-; reflexivity.
  - cbn [arithmetic] in A. apply andb_true_iff in A as [A Ar].
    apply andb_true_iff in A as [Ao Al].
    cbn [walk ast.Num_n ast.Constant_int_or_float] in H.
    destruct (walk rt l) as [a|] eqn:El.
    2:{ destruct (dict_get _ _); discriminate. }
    destruct (walk rt r) as [b|] eqn:Er.
    2:{ destruct (dict_get _ _); discriminate. }
    specialize (IHl a Al eq_refl). specialize (IHr b Ar eq_refl).
    assert (K : forall int_op float_op complex_op,
              op.arith int_op float_op complex_op a b = Return v ->
              (forall x y, float_op x y = Return v -> inexact v) ->
              (exists x y, int_value l = Some x /\ int_value r = Some y
                           /\ int_op x y = Return v)
              \/ (inexact v /\ (int_value l = None \/ int_value r = None))).
    { intros int_op float_op complex_op Ha Hf.
      destruct (arith_cases _ _ _ _ _ _ Ha)
        as [(x & y & -> & -> & E) | [[[x ->]|[y ->]] | [N I]]].
      - left. exists x, y. auto.
      - destruct IHl.
      - destruct IHr.
      - right. split.
        + destruct I as [(x & y & E)|I]; [exact (Hf _ _ E)|exact I].
        + destruct N as [N|N]; [left; destruct a|right; destruct b];
            try discriminate; try assumption;
            match goal with F : kind_of _ (VBool _) |- _ => destruct F end. }
    assert (D : inexact v /\ (int_value l = None \/ int_value r = None) ->
                kind_of (ast.BinOp l o r) v).
    { intros [I N]. destruct v; try destruct I;
        cbn [kind_of int_value];
        destruct N as [-> | ->]; try reflexivity;
        destruct (int_value l); reflexivity. }
    destruct o; try discriminate;
      cbn [dict_get _ALLOWED ast.op_type_eqb ast.operator_eqb bind
           op.add op.sub op.mul op.truediv op.pow op.binary] in H;
      (destruct (K _ _ _ H) as [(x & y & Hx & Hy & E) | N];
       [ intros ? ? F; first [ injection F as <-; exact I
                             | unfold op.float_truediv in F;
                               destruct (float_is_zero _); [discriminate|];
                               injection F as <-; exact I
                             | bind_returns F; injection F as <-;
                               apply float_or_complex_inexact ]
       | | exact (D N) ]).
    + apply new_int_returns in E. subst v.
      cbn [kind_of int_value]. now rewrite Hx, Hy.
    + apply new_int_returns in E. subst v.
      cbn [kind_of int_value]. now rewrite Hx, Hy.
    + apply new_int_returns in E. subst v.
      cbn [kind_of int_value]. now rewrite Hx, Hy.
    + assert (I : inexact v).
      { unfold op.int_truediv in E.
        destruct x, y; try discriminate;
          try (injection E as <-; exact I);
          match type of E with
          | context [ratio_to_float ?s ?p ?q] =>
              destruct (ratio_to_float s p q); try discriminate;
              injection E as <-; exact I
          end. }
      destruct v; try destruct I; cbn [kind_of int_value];
        now rewrite Hx, Hy.
    + unfold op.int_pow in E. destruct (y <? 0)%Z eqn:Ey.
      * bind_returns E. injection E as <-.
        assert (Ey' : (0 <=? y)%Z = false) by (apply Z.leb_gt; lia).
        match goal with
        | |- kind_of _ (op.float_or_complex ?r) =>
            destruct r; cbn [op.float_or_complex kind_of int_value];
            now rewrite Hx, Hy, Ey'
        end.
      * apply new_int_returns in E. subst v.
        assert (Ey' : (0 <=? y)%Z = true) by (apply Z.leb_le; lia).
        cbn [kind_of int_value]. now rewrite Hx, Hy, Ey'.
  - cbn [arithmetic] in A. apply andb_true_iff in A as [Ao Ae].
    cbn [walk ast.Num_n ast.Constant_int_or_float] in H.
    destruct (walk rt e) as [a|] eqn:Ee.
    2:{ destruct (dict_get _ _); discriminate. }
    specialize (IHe a Ae eq_refl).
    destruct o; try discriminate;
      cbn [dict_get _ALLOWED ast.op_type_eqb ast.unaryop_eqb bind
           op.neg op.pos op.unary] in H.
    + destruct a as [p|x|x|z]; [destruct IHe| | |];
        injection H as <-; cbn [kind_of int_value] in *; assumption.
    + destruct a as [p|x|x|[re im]]; [destruct IHe| | |].
      * apply new_int_returns in H. subst v.
        cbn [kind_of int_value op.as_int] in *. now rewrite IHe.
      * injection H as <-. cbn [kind_of int_value] in *. now rewrite IHe.
      * injection H as <-. cbn [kind_of int_value] in *. now rewrite IHe.
Qed.

(** ** Presentation of the result *)

(** The integer shown for an integral float is the float's value. *)
Lemma float_to_int_exact x q :
  float_is_integer x = true ->
  float_to_Q x = Some q ->
  (q == inject_Z (float_to_int x))%Q.
Proof.
  destruct x as [s | s | | s m e];
    cbn [float_is_integer float_to_Q float_to_int]; try discriminate.
  - intros _ H. injection H as <-. reflexivity.
  - destruct e as [|p|k]; intros Hi H; injection H as <-;
      unfold Qeq; cbn [Qnum Qden inject_Z].
    + destruct s; lia.
    + destruct s; lia.
    + apply Z.eqb_eq in Hi.
      assert (Hpow : (Zpos (2 ^ k) = 2 ^ Zpos k)%Z) by apply Pos2Z.inj_pow.
      assert (Hm : (Zpos m = 2 ^ Zpos k * (Zpos m / 2 ^ Zpos k))%Z).
      { apply Z_div_exact_full_2; [|exact Hi]. rewrite <- Hpow. discriminate. }
      rewrite Hpow.
      destruct s; nia.
Qed.

(** A float has a zero fractional part exactly when [is_integer] says
    so, and [int] then gives its value. *)
Lemma whole_iff x z :
  whole x z <-> float_is_integer x = true /\ float_to_int x = z.
Proof.
  split.
  - intros (q & Hq & E).
    destruct x as [s | s | | s m e];
      cbn [float_is_integer float_to_Q float_to_int] in *; try discriminate.
    + injection Hq as <-. split; [reflexivity|].
      unfold Qeq in E. cbn in E. lia.
    + injection Hq as <-. destruct e as [|p|k];
        unfold Qeq in E; cbn [Qnum Qden inject_Z] in E.
      * split; [reflexivity|]. destruct s; lia.
      * split; [reflexivity|]. destruct s; lia.
      * assert (Hpow : (Zpos (2 ^ k) = 2 ^ Zpos k)%Z)
          by apply Pos2Z.inj_pow.
        rewrite Hpow in E.
        assert (P : (0 < 2 ^ Zpos k)%Z) by (rewrite <- Hpow; lia).
        assert (M : (Zpos m = Z.abs z * 2 ^ Zpos k)%Z) by (destruct s; nia).
        split.
        -- apply Z.eqb_eq. rewrite M. apply Z.mod_mul. lia.
        -- rewrite M, Z.div_mul by lia. destruct s; nia.
  - intros [Hi <-].
    destruct (float_to_Q x) as [q|] eqn:Hq.
    + exists q. split; [exact Hq|]. now apply float_to_int_exact.
    + destruct x; try discriminate.
Qed.

Lemma int_str_small rt n :
  (Decimal.nb_digits (Decimal.abs (Z.to_int n)) <= 1)%nat ->
  int_str rt n = Return (of_string (NilZero.string_of_int (Z.to_int n))).
Proof.
  intros H. unfold int_str. destruct (int_max_str_digits rt) as [|limit].
  - reflexivity.
  - simpl negb. simpl andb.
    destruct (S limit <? _)%nat eqn:E; [|reflexivity].
    apply Nat.ltb_lt in E. lia.
Qed.

Lemma handle_math_extracted rt question (expr : str) :
  extract_expression (unicode rt) (Some question) = Some expr ->
  expr <> [] ->
  handle_math rt question =
  (result <- safe_eval rt (PyStr expr) ;;
   shown <- value_str rt
              match result with
              | VFloat x =>
                  if float_is_integer x then VInt (float_to_int x) else result
              | _ => result
              end ;;
   Return (expr ++ of_string " = " ++ shown)).
Proof.
  intros He Hn. unfold handle_math. rewrite He.
  destruct expr; [congruence|reflexivity].
Qed.

Lemma extracted_nonempty rt question expr :
  extract_expression (unicode rt) (Some question) = Some expr -> expr <> [].
Proof.
  unfold extract_expression. destruct question; [discriminate|].
  destruct (re_findall _ _ _); [discriminate|].
  destruct (re_sub _ _ _ _); [discriminate|].
  intros [= <-]. discriminate.
Qed.

(** C5.  When the expression of a question evaluates to a float with a
    zero fractional part, the float being the integer [z], [handle_math]
    shows [z] printed as an [int]; a float with a fractional part, an
    infinity or a NaN is shown as a float.  The test the code makes,
    [is_integer], holds exactly of the floats with a zero fractional
    part, and [int] gives their value.  ["2+2"] evaluates to the integer
    4 and is shown as ["2+2 = 4"], and ["4/2"], which evaluates to the
    float 2.0, is shown as ["4/2 = 2"]. *)
Theorem integral_float_shown_as_int rt :
  (forall question expr x z,
     extract_expression (unicode rt) (Some question) = Some expr ->
     safe_eval rt (PyStr expr) = Return (VFloat x) ->
     whole x z ->
     handle_math rt question
     = (shown <- int_str rt z ;;
        Return (expr ++ of_string " = " ++ shown)))
  /\ (forall question expr x,
        extract_expression (unicode rt) (Some question) = Some expr ->
        safe_eval rt (PyStr expr) = Return (VFloat x) ->
        (forall z, ~ whole x z) ->
        handle_math rt question
        = Return (expr ++ of_string " = " ++ float_str rt x))
  /\ (forall x z,
        whole x z <-> float_is_integer x = true /\ float_to_int x = z)
  /\ (forall z,
        int_max_str_digits rt = 0%nat
        \/ (Decimal.nb_digits (Decimal.abs (Z.to_int z))
            <= int_max_str_digits rt)%nat ->
        int_str rt z
        = Return (of_string (NilZero.string_of_int (Z.to_int z))))
  /\ (reads rt "2+2"
        (ast.BinOp (ast.Constant (ast.CInt 2)) ast.Add
           (ast.Constant (ast.CInt 2))) ->
      safe_eval rt (PyStr (of_string "2+2")) = Return (VInt 4)
      /\ handle_math rt (of_string "2+2") = Return (of_string "2+2 = 4"))
  /\ (reads rt "4/2"
        (ast.BinOp (ast.Constant (ast.CInt 4)) ast.Div
           (ast.Constant (ast.CInt 2))) ->
      safe_eval rt (PyStr (of_string "4/2"))
      = Return (VFloat (S754_finite false 4503599627370496 (-51)))
      /\ whole (S754_finite false 4503599627370496 (-51)) 2
      /\ handle_math rt (of_string "what is 4/2")
         = Return (of_string "4/2 = 2")).
Proof.
  assert (Shown : forall question expr x z,
     extract_expression (unicode rt) (Some question) = Some expr ->
     safe_eval rt (PyStr expr) = Return (VFloat x) ->
     whole x z ->
     handle_math rt question
     = (shown <- int_str rt z ;;
        Return (expr ++ of_string " = " ++ shown))).
  { intros question expr x z He Hv Hw.
    apply whole_iff in Hw as [Hi <-].
    rewrite (handle_math_extracted rt question expr He
               (extracted_nonempty _ _ _ He)).
    rewrite Hv. cbn [bind]. rewrite Hi. reflexivity. }
  split; [exact Shown|]. split; [|split; [|split; [|split]]].
  - intros question expr x He Hv Hw.
    rewrite (handle_math_extracted rt question expr He
               (extracted_nonempty _ _ _ He)).
    rewrite Hv. cbn [bind].
    destruct (float_is_integer x) eqn:Hi.
    + exfalso. apply (Hw (float_to_int x)). apply whole_iff. auto.
    + reflexivity.
  - apply whole_iff.
  - intros z H. unfold int_str.
    destruct H as [-> | H]; [reflexivity|].
    replace (int_max_str_digits rt
             <? Decimal.nb_digits (Decimal.abs (Z.to_int z)))%nat
      with false by (symmetry; apply Nat.ltb_ge; exact H).
    now rewrite andb_false_r.
  - intros R.
    assert (E : safe_eval rt (PyStr (of_string "2+2")) = Return (VInt 4)).
    { rewrite (safe_eval_reads rt (of_string "2+2") "2+2" _
                 ltac:(discriminate) eq_refl R).
      reflexivity. }
    split; [exact E|].
    rewrite (handle_math_extracted rt _ (of_string "2+2"));
      [|reflexivity|discriminate].
    rewrite E. cbn [bind]. unfold value_str.
    rewrite int_str_small by (simpl; lia). reflexivity.
  - intros R.
    assert (E : safe_eval rt (PyStr (of_string "4/2"))
                = Return (VFloat (S754_finite false 4503599627370496 (-51)))).
    { rewrite (safe_eval_reads rt (of_string "4/2") "4/2" _
                 ltac:(discriminate) eq_refl R).
      reflexivity. }
    assert (W : whole (S754_finite false 4503599627370496 (-51)) 2).
    { apply whole_iff. split; reflexivity. }
    split; [exact E|]. split; [exact W|].
    rewrite (Shown (of_string "what is 4/2") (of_string "4/2") _ 2%Z
               eq_refl E W).
    rewrite int_str_small by (simpl; lia). reflexivity.
Qed.

Lemma integral_float_shown_as_int_witness :
  (extract_expression (unicode sample_runtime) (Some (of_string "what is 4/2"))
   = Some (of_string "4/2")
   /\ safe_eval sample_runtime (PyStr (of_string "4/2"))
      = Return (VFloat (S754_finite false 4503599627370496 (-51)))
   /\ whole (S754_finite false 4503599627370496 (-51)) 2
   /\ handle_math sample_runtime (of_string "what is 4/2")
      = Return (of_string "4/2 = 2"))
  /\ (extract_expression (unicode sample_runtime) (Some (of_string "7/2 ?"))
      = Some (of_string "7/2")
      /\ safe_eval sample_runtime (PyStr (of_string "7/2"))
         = Return (VFloat (S754_finite false 7881299347898368 (-51)))
      /\ (forall z, ~ whole (S754_finite false 7881299347898368 (-51)) z)
      /\ handle_math sample_runtime (of_string "7/2 ?")
         = Return (of_string "7/2 = <float>"))
  /\ (reads sample_runtime "2+2"
        (ast.BinOp (ast.Constant (ast.CInt 2)) ast.Add
           (ast.Constant (ast.CInt 2)))
      /\ handle_math sample_runtime (of_string "2+2")
         = Return (of_string "2+2 = 4")).
Proof.
  pose proof (integral_float_shown_as_int sample_runtime)
    as (Shown & Kept & _ & _ & Four & _).
  assert (W : whole (S754_finite false 4503599627370496 (-51)) 2).
  { apply whole_iff. split; reflexivity. }
  assert (F : forall z, ~ whole (S754_finite false 7881299347898368 (-51)) z).
  { intros z Hz. apply whole_iff in Hz as [Hz _]. discriminate Hz. }
  split; [|split].
  - split; [reflexivity|]. split; [reflexivity|]. split; [exact W|].
    exact (Shown (of_string "what is 4/2") (of_string "4/2") _ 2%Z
             eq_refl eq_refl W).
  - split; [reflexivity|]. split; [reflexivity|]. split; [exact F|].
    exact (Kept (of_string "7/2 ?") (of_string "7/2") _ eq_refl eq_refl F).
  - assert (R : reads sample_runtime "2+2"
                  (ast.BinOp (ast.Constant (ast.CInt 2)) ast.Add
                     (ast.Constant (ast.CInt 2))))
      by (split; reflexivity).
    split; [exact R|]. exact (proj2 (Four R)).
Defined.

(** ** Arithmetic *)

Lemma Q_integer_inject q n : (q == inject_Z n)%Q -> Q_integer q = Some n.
Proof.
  intros H. unfold Q_integer. rewrite (Qred_complete _ _ H).
  rewrite Qred_identity; [reflexivity|]. simpl. apply Z.gcd_1_r.
Qed.

Lemma int_value_exact t : forall n,
  int_value t = Some n ->
  exists q, exact_value t = Some q /\ (q == inject_Z n)%Q.
Proof.
  induction t as [c | l IHl o r IHr | o e IHe | | | | | | | | ];
    intros n H; try discriminate.
  - destruct c; try discriminate. injection H as <-.
    eexists. split; reflexivity.
  - cbn [int_value] in H.
    destruct (int_value l) as [a|]; [|discriminate].
    destruct (int_value r) as [b|]; [|discriminate].
    destruct (IHl a eq_refl) as (qa & Ea & Ha).
    destruct (IHr b eq_refl) as (qb & Eb & Hb).
    cbn [exact_value]. rewrite Ea, Eb.
    destruct o; try discriminate.
    + injection H as <-. eexists. split; [reflexivity|].
      now rewrite Ha, Hb, inject_Z_plus.
    + injection H as <-. eexists. split; [reflexivity|].
      rewrite Ha, Hb. unfold Z.sub, Qminus.
      now rewrite inject_Z_plus, inject_Z_opp.
    + injection H as <-. eexists. split; [reflexivity|].
      now rewrite Ha, Hb, inject_Z_mult.
    + destruct (0 <=? b)%Z eqn:E; [|discriminate]. injection H as <-.
      apply Z.leb_le in E. rewrite (Q_integer_inject qb b Hb).
      replace (b <? 0)%Z with false by (symmetry; apply Z.ltb_ge; exact E).
      rewrite andb_false_r. eexists. split; [reflexivity|].
      rewrite Ha. symmetry. now apply Zpower_Qpower.
  - cbn [int_value] in H. destruct o; try discriminate.
    + exact (IHe n H).
    + destruct (int_value e) as [a|]; [|discriminate]. injection H as <-.
      destruct (IHe a eq_refl) as (qa & Ea & Ha).
      cbn [exact_value]. rewrite Ea. eexists. split; [reflexivity|].
      now rewrite Ha, inject_Z_opp.
Qed.

Lemma source_caret a b :
  source (a ++ chr "^" :: b) = source a ++ of_string "**" ++ source b.
Proof.
  unfold source, replace. rewrite flat_map_app. reflexivity.
Qed.

(** [int / int] is a float, unless the quotient is beyond the floats. *)
Lemma int_truediv_float rt a b :
  b <> 0%Z ->
  (exists x, op.truediv rt [VInt a; VInt b] = Return (VFloat x))
  \/ op.truediv rt [VInt a; VInt b]
     = raise OverflowError "integer division result too large for a float".
Proof.
  intros Hb. cbn. unfold op.int_truediv.
  destruct a, b; try congruence; eauto;
    match goal with
    | |- context [ratio_to_float ?s ?p ?q] =>
        destruct (ratio_to_float s p q); eauto
    end.
Qed.

(** *** The numbers of a well-formed string *)

Lemma finish_numbers st ts st' :
  grammar.finish st = grammar.Go ts st' -> Forall number_token ts.
Proof.
  destruct st as [|ds|ip fp| |cs|q cs|q| |]; cbn [grammar.finish];
    intros H;
    try (injection H as <- <-; repeat constructor); try discriminate.
  - unfold grammar.int_token in H.
    destruct (4300 <? length ds)%nat; [discriminate|].
    destruct (rev ds) as [|[|p] [|d ds']];
      try (injection H as <- <-; repeat constructor).
    destruct (forallb (N.eqb 0) ds); [|discriminate].
    injection H as <- <-. repeat constructor.
  - unfold grammar.name_token in H.
    repeat match type of H with
    | (if ?b then _ else _) = _ => destruct b
    end; try discriminate; injection H as <- <-; repeat constructor.
Qed.

Lemma start_numbers c ts st :
  grammar.start c = grammar.Go ts st -> Forall number_token ts.
Proof.
  unfold grammar.start.
  repeat match goal with
  | |- context [if ?b then _ else _] => destruct b
  end; intros H; try discriminate; injection H as <- <-;
    repeat constructor.
Qed.

Lemma finish_then_start_numbers st c ts st' :
  grammar.finish_then_start st c = grammar.Go ts st' ->
  Forall number_token ts.
Proof.
  unfold grammar.finish_then_start.
  destruct (grammar.finish st) as [ts1 st1| |] eqn:F; try discriminate.
  destruct (grammar.start c) as [ts2 st2| |] eqn:S; try discriminate.
  intros H. injection H as <- <-. apply Forall_app. split.
  - eapply finish_numbers. exact F.
  - eapply start_numbers. exact S.
Qed.

Lemma step_numbers st c ts st' :
  grammar.step st c = grammar.Go ts st' -> Forall number_token ts.
Proof.
  destruct st as [|ds|ip fp| |cs|q cs|q| |]; cbn [grammar.step];
    try apply start_numbers;
    repeat match goal with
    | |- context [if ?b then _ else _] => destruct b
    | |- context [match ?l with [] => _ | _ :: _ => _ end] => destruct l
    end;
    try apply finish_then_start_numbers;
    intros H; try discriminate; injection H as <- <-; repeat constructor.
Qed.

Lemma lex_numbers s : forall st ts,
  grammar.lex st s = grammar.Tokens ts -> Forall number_token ts.
Proof.
  induction s as [|c s IH]; intros st ts H; cbn [grammar.lex] in H.
  - destruct (grammar.finish st) as [ts0 st0| |] eqn:F; try discriminate.
    injection H as <-. eapply finish_numbers. exact F.
  - destruct (grammar.step st c) as [ts0 st'| |] eqn:E; try discriminate.
    destruct (grammar.lex st' s) as [ts1| |] eqn:L; try discriminate.
    injection H as <-. apply Forall_app. split.
    + eapply step_numbers. exact E.
    + eapply IH. exact L.
Qed.

(** The standard reading of tokens whose numbers are integers and floats
    is a tree of arithmetic. *)
Lemma derives_arithmetic lvl ts e :
  derives lvl ts e -> Forall number_token ts -> arithmetic e = true.
Proof.
  induction 1; intros F; try (apply IHderives; exact F).
  - inversion F as [|? ? N _]; subst. destruct c; try destruct N; reflexivity.
  - apply IHderives. inversion F as [|? ? _ F']; subst.
    apply Forall_app in F'. tauto.
  - apply Forall_app in F as [F1 F2]. inversion F2; subst.
    cbn [arithmetic allowed_binary]. rewrite IHderives1, IHderives2; auto.
  - inversion F; subst. cbn [arithmetic allowed_unary]. auto.
  - inversion F; subst. cbn [arithmetic allowed_unary]. auto.
  - apply Forall_app in F as [F1 F2]. inversion F2; subst.
    cbn [arithmetic allowed_binary]. rewrite IHderives1, IHderives2; auto.
  - apply Forall_app in F as [F1 F2]. inversion F2; subst.
    cbn [arithmetic allowed_binary]. rewrite IHderives1, IHderives2; auto.
  - apply Forall_app in F as [F1 F2]. inversion F2; subst.
    cbn [arithmetic allowed_binary]. rewrite IHderives1, IHderives2; auto.
  - apply Forall_app in F as [F1 F2]. inversion F2; subst.
    cbn [arithmetic allowed_binary]. rewrite IHderives1, IHderives2; auto.
Qed.

Lemma well_formed_arithmetic s e : well_formed s e -> arithmetic e = true.
Proof.
  intros (ts & L & D). eapply derives_arithmetic; [exact D|].
  eapply lex_numbers. exact L.
Qed.

Lemma well_formed_nonempty s e : well_formed s e -> s <> [].
Proof.
  intros (ts & L & D) ->. cbn in L. injection L as <-.
  apply derives_nonempty in D. simpl in D. lia.
Qed.

(** What [safe_eval] returns on a [str], the walk of the tree returned. *)
Lemma safe_eval_returns rt (s : str) t v :
  s <> [] ->
  ast_parse rt (source s) = Return t ->
  safe_eval rt (PyStr s) = Return v ->
  walk rt t = Return v.
Proof.
  intros Hs Hp H. rewrite (safe_eval_tree rt s t Hs Hp) in H.
  destruct (_eval rt 0 t) as [v'|e] eqn:E.
  - injection H as <-. eapply _eval_returns. exact E.
  - destruct (handle_raises e) as [msg Hm]. rewrite Hm in H. discriminate.
Qed.

(** C2, as the code has it.  On a tree of integer arithmetic (integer
    literals, [+ - *], unary signs, powers with an exponent that is not
    negative), within the stack and the memory, [safe_eval] returns
    exactly the mathematical value.  On a well-formed arithmetic string
    of which the parser returns the standard reading, every [int] that
    [safe_eval] returns is the mathematical value of the string, and the
    result is an [int] only when the string is one of integer arithmetic:
    with a division, a decimal point or a negative exponent it is a
    [float] or a [complex].  The standard reading is the one of Python's
    grammar, which the grammar model returns: [*] binds tighter than [+],
    [-] associates to the left, [**] to the right and tighter than a sign
    before it.  Every [^] of the input reaches the parser as [**], so
    ["2^10"] is 1024.  [/] on integers gives a float or overflows, so
    ["10/4"] is exactly 2.5; and ["1.5+2.25"] is 3.75. *)
Theorem arithmetic_value rt :
  (forall (s : str) t n,
     s <> [] ->
     ast_parse rt (source s) = Return t ->
     int_value t = Some n ->
     within_stack rt 0 t = true ->
     roomy rt t = true ->
     safe_eval rt (PyStr s) = Return (VInt n)
     /\ exists q, exact_value t = Some q /\ (q == inject_Z n)%Q)
  /\ (forall (s : str) e v,
        well_formed s e ->
        ast_parse rt (source s) = Return e ->
        safe_eval rt (PyStr s) = Return v ->
        kind_of e v
        /\ forall n, v = VInt n ->
             exists q, exact_value e = Some q /\ (q == inject_Z n)%Q)
  /\ (forall (s : str) ts e,
        grammar.lex grammar.Start (source s) = grammar.Tokens ts ->
        derives LSum ts e ->
        leading_blank (source s) = false ->
        (length ts <= 1000)%nat ->
        (grammar.nesting 0 0 ts <= 100)%nat ->
        ast_parse sample_runtime (source s) = Return e)
  /\ (forall a b,
        source (a ++ chr "^" :: b) = source a ++ of_string "**" ++ source b)
  /\ (forall a b,
        b <> 0%Z ->
        (exists x, op.truediv rt [VInt a; VInt b] = Return (VFloat x))
        \/ op.truediv rt [VInt a; VInt b]
           = raise OverflowError
               "integer division result too large for a float")
  /\ (reads rt "2**10"
        (ast.BinOp (ast.Constant (ast.CInt 2)) ast.Pow
           (ast.Constant (ast.CInt 10))) ->
      safe_eval rt (PyStr (of_string "2^10")) = Return (VInt 1024))
  /\ (reads rt "2+3*4"
        (ast.BinOp (ast.Constant (ast.CInt 2)) ast.Add
           (ast.BinOp (ast.Constant (ast.CInt 3)) ast.Mult
              (ast.Constant (ast.CInt 4)))) ->
      safe_eval rt (PyStr (of_string "2+3*4")) = Return (VInt 14))
  /\ (reads rt "10-4-3"
        (ast.BinOp
           (ast.BinOp (ast.Constant (ast.CInt 10)) ast.Sub
              (ast.Constant (ast.CInt 4)))
           ast.Sub (ast.Constant (ast.CInt 3))) ->
      safe_eval rt (PyStr (of_string "10-4-3")) = Return (VInt 3))
  /\ (reads rt "2**3**2"
        (ast.BinOp (ast.Constant (ast.CInt 2)) ast.Pow
           (ast.BinOp (ast.Constant (ast.CInt 3)) ast.Pow
              (ast.Constant (ast.CInt 2)))) ->
      safe_eval rt (PyStr (of_string "2^3^2")) = Return (VInt 512))
  /\ (reads rt "-2**2"
        (ast.UnaryOp ast.USub
           (ast.BinOp (ast.Constant (ast.CInt 2)) ast.Pow
              (ast.Constant (ast.CInt 2)))) ->
      safe_eval rt (PyStr (of_string "-2^2")) = Return (VInt (-4)))
  /\ (reads rt "10/4"
        (ast.BinOp (ast.Constant (ast.CInt 10)) ast.Div
           (ast.Constant (ast.CInt 4))) ->
      safe_eval rt (PyStr (of_string "10/4"))
      = Return (VFloat (S754_finite false 5629499534213120 (-51)))
      /\ float_to_Q (S754_finite false 5629499534213120 (-51))
         = Some (5629499534213120 # 2251799813685248)
      /\ (5629499534213120 # 2251799813685248 == 5 # 2)%Q)
  /\ (reads rt "1.5+2.25"
        (ast.BinOp
           (ast.Constant
              (ast.CFloat (S754_finite false 6755399441055744 (-52))))
           ast.Add
           (ast.Constant
              (ast.CFloat (S754_finite false 5066549580791808 (-51))))) ->
      safe_eval rt (PyStr (of_string "1.5+2.25"))
      = Return (VFloat (S754_finite false 8444249301319680 (-51)))
      /\ float_to_Q (S754_finite false 8444249301319680 (-51))
         = Some (8444249301319680 # 2251799813685248)
      /\ (8444249301319680 # 2251799813685248 == 15 # 4)%Q).
Proof.
  split; [|split; [|split; [|split; [|split]]]].
  - intros s t n Hs Hp Hv W R. split.
    + rewrite (safe_eval_tree rt s t Hs Hp).
      now rewrite (_eval_int rt t n 0 Hv W R).
    + now apply int_value_exact.
  - intros s e v Hw Hp H.
    pose proof (safe_eval_returns rt s e v
                  (well_formed_nonempty _ _ Hw) Hp H) as E.
    pose proof (walk_kind rt e v (well_formed_arithmetic _ _ Hw) E) as K.
    split; [exact K|].
    intros n ->. now apply int_value_exact.
  - intros s ts e L D B Hlen Hnest. cbn [ast_parse sample_runtime].
    now rewrite (derives_parse _ _ _ B L Hlen Hnest D).
  - apply source_caret.
  - apply int_truediv_float.
  - repeat match goal with
           | |- _ /\ _ => split
           | |- reads _ _ _ -> _ => intros R
           end;
      try reflexivity;
      match goal with
      | R : reads rt ?text ?t |- safe_eval rt (PyStr ?typed) = _ =>
          rewrite (safe_eval_reads rt typed text t
                     ltac:(discriminate) eq_refl R); reflexivity
      end.
Qed.

Lemma arithmetic_value_witness :
  (of_string "2^3^2" <> []
   /\ ast_parse sample_runtime (source (of_string "2^3^2"))
      = Return (ast.BinOp (ast.Constant (ast.CInt 2)) ast.Pow
                  (ast.BinOp (ast.Constant (ast.CInt 3)) ast.Pow
                     (ast.Constant (ast.CInt 2))))
   /\ int_value (ast.BinOp (ast.Constant (ast.CInt 2)) ast.Pow
                   (ast.BinOp (ast.Constant (ast.CInt 3)) ast.Pow
                      (ast.Constant (ast.CInt 2)))) = Some 512%Z
   /\ safe_eval sample_runtime (PyStr (of_string "2^3^2")) = Return (VInt 512))
  /\ (well_formed (of_string "2 + 3*4")
        (ast.BinOp (ast.Constant (ast.CInt 2)) ast.Add
           (ast.BinOp (ast.Constant (ast.CInt 3)) ast.Mult
              (ast.Constant (ast.CInt 4))))
      /\ ast_parse sample_runtime (source (of_string "2 + 3*4"))
         = Return (ast.BinOp (ast.Constant (ast.CInt 2)) ast.Add
                     (ast.BinOp (ast.Constant (ast.CInt 3)) ast.Mult
                        (ast.Constant (ast.CInt 4))))
      /\ safe_eval sample_runtime (PyStr (of_string "2 + 3*4"))
         = Return (VInt 14)
      /\ kind_of
           (ast.BinOp (ast.Constant (ast.CInt 2)) ast.Add
              (ast.BinOp (ast.Constant (ast.CInt 3)) ast.Mult
                 (ast.Constant (ast.CInt 4))))
           (VInt 14))
  /\ (well_formed (of_string "10/4")
        (ast.BinOp (ast.Constant (ast.CInt 10)) ast.Div
           (ast.Constant (ast.CInt 4)))
      /\ safe_eval sample_runtime (PyStr (of_string "10/4"))
         = Return (VFloat (S754_finite false 5629499534213120 (-51)))
      /\ kind_of
           (ast.BinOp (ast.Constant (ast.CInt 10)) ast.Div
              (ast.Constant (ast.CInt 4)))
           (VFloat (S754_finite false 5629499534213120 (-51))))
  /\ (reads sample_runtime "2**10"
        (ast.BinOp (ast.Constant (ast.CInt 2)) ast.Pow
           (ast.Constant (ast.CInt 10)))
      /\ safe_eval sample_runtime (PyStr (of_string "2^10"))
         = Return (VInt 1024))
  /\ (7%Z <> 0%Z
      /\ op.truediv sample_runtime [VInt 22; VInt 7]
         = Return (VFloat (S754_finite false 7077085128725065 (-51)))).
Proof.
  pose proof (arithmetic_value sample_runtime)
    as (Exact & Kind & _ & _ & Quot & Caret & _).
  assert (W1 : well_formed (of_string "2 + 3*4")
                 (ast.BinOp (ast.Constant (ast.CInt 2)) ast.Add
                    (ast.BinOp (ast.Constant (ast.CInt 3)) ast.Mult
                       (ast.Constant (ast.CInt 4))))).
  { eexists. split; [reflexivity|].
    apply (d_add [grammar.NUMBER _]
             [grammar.NUMBER _; grammar.STAR; grammar.NUMBER _]).
    - repeat constructor.
    - apply (d_times [grammar.NUMBER _] [grammar.NUMBER _]);
        repeat constructor. }
  assert (W2 : well_formed (of_string "10/4")
                 (ast.BinOp (ast.Constant (ast.CInt 10)) ast.Div
                    (ast.Constant (ast.CInt 4)))).
  { eexists. split; [reflexivity|].
    apply d_term.
    apply (d_over [grammar.NUMBER _] [grammar.NUMBER _]);
      repeat constructor. }
  split; [|split; [|split; [|split]]].
  - split; [discriminate|]. split; [reflexivity|]. split; [reflexivity|].
    apply (Exact (of_string "2^3^2")
             (ast.BinOp (ast.Constant (ast.CInt 2)) ast.Pow
                (ast.BinOp (ast.Constant (ast.CInt 3)) ast.Pow
                   (ast.Constant (ast.CInt 2))))
             512%Z);
      [discriminate | reflexivity | reflexivity | reflexivity | reflexivity].
  - split; [exact W1|]. split; [reflexivity|]. split; [reflexivity|].
    exact (proj1 (Kind (of_string "2 + 3*4") _ (VInt 14) W1
                    eq_refl eq_refl)).
  - split; [exact W2|]. split; [reflexivity|].
    exact (proj1 (Kind (of_string "10/4") _ _ W2 eq_refl eq_refl)).
  - assert (R : reads sample_runtime "2**10"
                  (ast.BinOp (ast.Constant (ast.CInt 2)) ast.Pow
                     (ast.Constant (ast.CInt 10))))
      by (split; reflexivity).
    split; [exact R|]. exact (Caret R).
  - split; [discriminate|].
    destruct (Quot 22%Z 7%Z ltac:(discriminate)) as [[x E]|E].
    + vm_compute. reflexivity.
    + discriminate E.
Defined.

(** C2 as stated fails.  The mathematical value of ["10^20+1/2-10^20"]
    is one half; [safe_eval] returns the float zero, the half being lost
    when it is added to the float nearest to 10^20.  ["1/3"] comes out as
    a float that is not one third.  And a well-formed string need not
    get a number at all: [" 2+2"], which starts with a blank, is refused
    by the parser, and ["10^400*1.0"] overflows. *)
Lemma exact_result_counterexample :
  (exists t q x y,
     ast_parse sample_runtime (source (of_string "10^20+1/2-10^20")) = Return t
     /\ exact_value t = Some q /\ (q == 1 # 2)%Q
     /\ safe_eval sample_runtime (PyStr (of_string "10^20+1/2-10^20"))
        = Return (VFloat (S754_zero false))
     /\ float_to_Q (S754_zero false) = Some 0%Q
     /\ ~ (0 == 1 # 2)%Q
     /\ safe_eval sample_runtime (PyStr (of_string "1/3")) = Return (VFloat x)
     /\ float_to_Q x = Some y
     /\ ~ (y == 1 # 3)%Q)
  /\ grammar.parse (of_string " 2+2") = grammar.Rejected
  /\ safe_eval sample_runtime (PyStr (of_string " 2+2"))
     = raise EvalError "Invalid expression: invalid syntax"
  /\ safe_eval sample_runtime (PyStr (of_string "10^400*1.0"))
     = raise EvalError "Invalid expression: int too large to convert to float".
Proof.
  split.
  - eexists. eexists. eexists. eexists.
    split; [reflexivity|]. split; [vm_compute; reflexivity|].
    split; [vm_compute; reflexivity|].
    split; [vm_compute; reflexivity|]. split; [reflexivity|].
    split; [discriminate|].
    split; [vm_compute; reflexivity|]. split; [reflexivity|].
    discriminate.
  - split; [reflexivity|]. split; [reflexivity|]. vm_compute. reflexivity.
Qed.

(** ** The calculator, further *)

Lemma flat_map_fixed {A} (f : A -> list A) (s : list A) :
  (forall c, flat_map f (f c) = f c) -> flat_map f (flat_map f s) = flat_map f s.
Proof.
  intros H. induction s as [|c s IH]; [reflexivity|].
  cbn [flat_map]. now rewrite flat_map_app, IH, H.
Qed.

Lemma source_idempotent (s : str) : source (source s) = source s.
Proof.
  unfold source, replace. apply flat_map_fixed. intros c.
  destruct (c =? chr "^")%N eqn:E; [reflexivity|].
  cbn [flat_map]. rewrite E. reflexivity.
Qed.

(** X1.  [safe_eval] makes no difference between the two ways of
    writing a power: a string and the same string with every [^] written
    as [**] have the same result or the same error. *)
Theorem safe_eval_caret_or_stars rt (s : str) :
  safe_eval rt (PyStr (source s)) = safe_eval rt (PyStr s).
Proof.
  destruct s as [|c s]; [reflexivity|].
  assert (exists c' s', source (c :: s) = c' :: s') as (c' & s' & E).
  { unfold source, replace. cbn [flat_map].
    destruct (c =? chr "^")%N; simpl; eauto. }
  rewrite E, !safe_eval_str, <- E, source_idempotent. reflexivity.
Qed.

Lemma safe_eval_raises rt (s : str) e :
  safe_eval rt (PyStr s) = Raise e -> exn_class_of e = EvalError.
Proof.
  destruct (safe_eval_str_outcome rt s) as [[v ->]|[msg ->]].
  - discriminate.
  - intros H. now injection H as <-.
Qed.

Lemma int_str_raises rt n e :
  int_str rt n = Raise e ->
  exn_class_of e = ValueError /\ int_max_str_digits rt <> 0%nat.
Proof.
  unfold int_str. destruct (int_max_str_digits rt) as [|limit].
  - discriminate.
  - destruct (negb _ && _); [|discriminate].
    intros H. injection H as <-. split; [reflexivity|discriminate].
Qed.

Lemma value_str_raises rt v e :
  value_str rt v = Raise e ->
  exn_class_of e = ValueError /\ int_max_str_digits rt <> 0%nat.
Proof.
  destruct v as [[]|n|x|z]; try discriminate. apply int_str_raises.
Qed.

(** X2.  Whatever the question, an exception that [handle_math]
    raises is an [EvalError], with one exception: a [ValueError] when
    the result is an [int] with more digits than the interpreter agrees
    to print, which cannot happen when that limit is switched off. *)
Theorem handle_math_errors rt question e :
  handle_math rt question = Raise e ->
  exn_class_of e = EvalError
  \/ (exn_class_of e = ValueError /\ int_max_str_digits rt <> 0%nat).
Proof.
  unfold handle_math.
  destruct (extract_expression (unicode rt) (Some question)) as [[|c expr]|].
  - intros H. injection H as <-. now left.
  - destruct (safe_eval rt (PyStr (c :: expr))) as [v|e0] eqn:E.
    + cbn [bind].
      destruct (value_str rt _) as [shown|e1] eqn:V; [discriminate|].
      cbn [bind]. intros H. injection H as <-. right.
      now apply value_str_raises in V.
    + cbn [bind]. intros H. injection H as <-. left.
      now apply safe_eval_raises in E.
  - intros H. injection H as <-. now left.
Qed.

Lemma handle_math_errors_witness :
  handle_math sample_runtime (of_string "10^4300")
  = raise ValueError "Exceeds the limit for integer string conversion"
  /\ (ValueError = EvalError
      \/ (ValueError = ValueError
          /\ int_max_str_digits sample_runtime <> 0%nat)).
Proof.
  assert (H : handle_math sample_runtime (of_string "10^4300")
              = raise ValueError
                  "Exceeds the limit for integer string conversion")
    by (vm_compute; reflexivity).
  split; [exact H|].
  exact (handle_math_errors sample_runtime (of_string "10^4300") _ H).
Defined.

Lemma strip_whitespace_clean (s : str) :
  forallb (fun c => negb (py_isspace c)) s = true -> strip_whitespace s = s.
Proof.
  unfold strip_whitespace. induction s as [|c s IH]; [reflexivity|].
  cbn [forallb filter]. intros H. apply andb_true_iff in H as [Hc H].
  now rewrite Hc, IH.
Qed.

Lemma strip_whitespace_no_space (s : str) :
  forallb (fun c => negb (py_isspace c)) (strip_whitespace s) = true.
Proof.
  unfold strip_whitespace. apply forallb_forall. intros c Hc.
  now apply filter_In in Hc as [_ Hc].
Qed.

Lemma strip_whitespace_class (s : str) :
  forallb math_class s = true ->
  forallb math_class (strip_whitespace s) = true.
Proof.
  unfold strip_whitespace. intros H. apply forallb_forall. intros c Hc.
  apply filter_In in Hc as [Hc _]. rewrite forallb_forall in H. now apply H.
Qed.

(** A text of the class without whitespace is extracted whole. *)
Lemma extract_expression_whole ucd (s : str) :
  s <> [] -> forallb math_class s = true ->
  forallb (fun c => negb (py_isspace c)) s = true ->
  extract_expression ucd (Some s) = Some s.
Proof.
  intros Hn Hc Hw.
  destruct (extract_expression_runs ucd s)
    as [[Hno _] | (pre & r & post & [Hr _] & E)].
  - exfalso. apply Hno. exists [], s, []. repeat split; auto.
    + now rewrite app_nil_r.
    + intros pre' c E. destruct pre'; discriminate.
    + intros c post' E. discriminate.
  - rewrite E. destruct (all_class_run _ _ _ _ Hc Hr) as (_ & -> & _).
    rewrite (strip_whitespace_clean s Hw).
    destruct s; [congruence|reflexivity].
Qed.

(** What [extract_expression] returns is a string that it returns
    unchanged. *)
Lemma extract_expression_fixed ucd text (s : str) :
  extract_expression ucd (Some text) = Some s ->
  extract_expression ucd (Some s) = Some s.
Proof.
  intros H.
  assert (Hs : s <> [] /\ forallb math_class s = true
               /\ forallb (fun c => negb (py_isspace c)) s = true).
  { destruct (extract_expression_runs ucd text)
      as [[_ E] | (pre & r & post & [Hr _] & E)]; rewrite E in H;
      [discriminate|].
    destruct Hr as (_ & _ & Hall & _).
    destruct (strip_whitespace r) as [|a l] eqn:S; [discriminate|].
    injection H as <-. rewrite <- S. split; [rewrite S; discriminate|].
    split; [now apply strip_whitespace_class|].
    apply strip_whitespace_no_space. }
  destruct Hs as (Hn & Hc & Hw). now apply extract_expression_whole.
Qed.

(** X3.  Extraction is idempotent: the expression that
    [extract_expression] finds in a text is a text in which it finds
    that same expression; so [handle_math] answers the extracted
    expression as it answers the question it came from. *)
Theorem extract_expression_idempotent rt question expr :
  extract_expression (unicode rt) (Some question) = Some expr ->
  extract_expression (unicode rt) (Some expr) = Some expr
  /\ handle_math rt expr = handle_math rt question.
Proof.
  intros H. pose proof (extract_expression_fixed _ _ _ H) as F.
  split; [exact F|]. unfold handle_math. now rewrite H, F.
Qed.

Lemma extract_expression_idempotent_witness :
  extract_expression (unicode sample_runtime)
    (Some (of_string "how much is 2 + 3 * 4 ?"))
  = Some (of_string "2+3*4")
  /\ extract_expression (unicode sample_runtime) (Some (of_string "2+3*4"))
     = Some (of_string "2+3*4")
  /\ handle_math sample_runtime (of_string "2+3*4")
     = handle_math sample_runtime (of_string "how much is 2 + 3 * 4 ?").
Proof.
  assert (H : extract_expression (unicode sample_runtime)
                (Some (of_string "how much is 2 + 3 * 4 ?"))
              = Some (of_string "2+3*4")) by reflexivity.
  split; [exact H|].
  exact (extract_expression_idempotent sample_runtime _ _ H).
Defined.

(** ** Configuration *)

Lemma str_eqb_eq (a b : str) : str_eqb a b = true <-> a = b.
Proof.
  unfold str_eqb. destruct (list_eq_dec N.eq_dec a b); split; congruence.
Qed.

Lemma str_eqb_refl (a : str) : str_eqb a a = true.
Proof. now apply str_eqb_eq. Qed.

Lemma str_eqb_neq (a b : str) : a <> b -> str_eqb a b = false.
Proof.
  intros H. destruct (str_eqb a b) eqn:E; [|reflexivity].
  apply str_eqb_eq in E. contradiction.
Qed.

Lemma json_get_set_same k v d : json_get k (json_set k v d) = Some v.
Proof.
  induction d as [|[k' v'] d IH]; simpl.
  - now rewrite str_eqb_refl.
  - destruct (str_eqb k k') eqn:E; simpl; rewrite E; auto.
Qed.

Lemma json_get_set_other k k' v d :
  k <> k' -> json_get k' (json_set k v d) = json_get k' d.
Proof.
  intros Hne. induction d as [|[k0 v0] d IH]; simpl.
  - rewrite str_eqb_neq; auto.
  - destruct (str_eqb k k0) eqn:E; simpl.
    + apply str_eqb_eq in E. subst k0. rewrite str_eqb_neq; auto.
    + destruct (str_eqb k' k0); auto.
Qed.

Lemma json_set_unchanged k v d : json_get k d = Some v -> json_set k v d = d.
Proof.
  induction d as [|[k' v'] d IH]; simpl; [discriminate|].
  destruct (str_eqb k k'); intros H.
  - now injection H as ->.
  - now rewrite IH.
Qed.

Lemma json_get_none k (d : dict) : ~ In k (map fst d) -> json_get k d = None.
Proof.
  induction d as [|[k' v'] d IH]; simpl; [reflexivity|].
  intros H. rewrite str_eqb_neq; [apply IH|]; intuition.
Qed.

Lemma json_get_in k v (d : dict) : json_get k d = Some v -> In (k, v) d.
Proof.
  induction d as [|[k' v'] d IH]; simpl; [discriminate|].
  destruct (str_eqb k k') eqn:E.
  - apply str_eqb_eq in E. subst k'. intros H. injection H as ->. now left.
  - auto.
Qed.

Lemma in_json_get k v (d : dict) :
  NoDup (map fst d) -> In (k, v) d -> json_get k d = Some v.
Proof.
  induction d as [|[k' v'] d IH]; simpl; [contradiction|].
  intros Hn [H | H].
  - injection H as -> ->. now rewrite str_eqb_refl.
  - inversion Hn as [|? ? Hnot Hn']. subst.
    rewrite str_eqb_neq; [auto|].
    intros ->. apply Hnot. change k' with (fst (k', v)). now apply in_map.
Qed.

Lemma dict_depth_in k v (d : dict) :
  In (k, v) d -> (dict_depth v < dict_depth (JDict d))%nat.
Proof.
  cbn [dict_depth]. induction d as [|[k' v'] d IH]; simpl; [contradiction|].
  intros [H | H].
  - injection H as -> ->. lia.
  - specialize (IH H). lia.
Qed.

Lemma merge_items_step rec k v out items :
  merge_items rec out ((k, v) :: items) =
  match v, json_get k out with
  | JDict _, Some (JDict sub) =>
      merged <- rec sub v ;;
      merge_items rec (json_set k (JDict merged) out) items
  | _, _ => merge_items rec (json_set k v out) items
  end.
Proof. destruct v; reflexivity. Qed.

Lemma merge_items_first rec k v out items m :
  merge_items rec out ((k, v) :: items) = Return m ->
  exists new,
    merged_value rec (json_get k out) v new
    /\ merge_items rec (json_set k new out) items = Return m.
Proof.
  rewrite merge_items_step. unfold merged_value.
  destruct v; try (intros H; eexists; split; [reflexivity|exact H]).
  destruct (json_get k out) as [[]|];
    try (intros H; eexists; split; [reflexivity|exact H]).
  destruct (rec items1 (JDict items0)) as [merged|e] eqn:E; [|discriminate].
  simpl. intros H. exists (JDict merged). split; [|exact H]. eauto.
Qed.

Lemma merge_items_get rec : forall items out m,
  NoDup (map fst items) ->
  merge_items rec out items = Return m ->
  forall k,
    match json_get k items with
    | None => json_get k m = json_get k out
    | Some v =>
        exists new,
          json_get k m = Some new /\ merged_value rec (json_get k out) v new
    end.
Proof.
  induction items as [|[k0 v0] items IH]; intros out m Hn H k.
  - simpl in H. injection H as <-. reflexivity.
  - apply merge_items_first in H as (new & Hnew & H).
    inversion Hn as [|? ? Hnot Hn']. subst.
    specialize (IH _ _ Hn' H). cbn [json_get].
    destruct (str_eqb k k0) eqn:E.
    + apply str_eqb_eq in E. subst k0.
      specialize (IH k). rewrite (json_get_none k items Hnot) in IH.
      rewrite json_get_set_same in IH. eauto.
    + assert (k0 <> k) as Hne.
      { intros ->. rewrite str_eqb_refl in E. discriminate. }
      specialize (IH k). rewrite (json_get_set_other _ _ _ _ Hne) in IH.
      exact IH.
Qed.

Lemma merge_items_returns rec : forall items out,
  NoDup (map fst items) ->
  (forall k vb sub,
     In (k, JDict vb) items -> json_get k out = Some (JDict sub) ->
     exists m, rec sub (JDict vb) = Return m) ->
  exists m, merge_items rec out items = Return m.
Proof.
  induction items as [|[k0 v0] items IH]; intros out Hn Hrec.
  - simpl. eauto.
  - inversion Hn as [|? ? Hnot Hn']. subst.
    assert (Hnext : forall new,
              exists m, merge_items rec (json_set k0 new out) items = Return m).
    { intros new. apply IH; [exact Hn'|].
      intros k vb sub Hin Hget. apply (Hrec k vb sub); [now right|].
      rewrite json_get_set_other in Hget; [exact Hget|].
      intros ->. apply Hnot. change k with (fst (k, JDict vb)).
      now apply in_map. }
    rewrite merge_items_step.
    destruct v0; try apply Hnext.
    destruct (json_get k0 out) as [[]|] eqn:G; try apply Hnext.
    destruct (Hrec k0 items0 items1) as [m Hm]; [now left|exact G|].
    rewrite Hm. simpl. apply Hnext.
Qed.

(** The merge returns when one of the two dicts nests no deeper than the
    frames left. *)
Lemma _deep_merge_returns : forall n a b,
  unique_keys (JDict b) ->
  (Nat.min (dict_depth (JDict a)) (dict_depth (JDict b)) <= n)%nat ->
  exists m, _deep_merge n a (JDict b) = Return m.
Proof.
  induction n as [|n IH]; intros a b Hu Hd.
  - simpl in Hd. lia.
  - inversion Hu as [| | | | | |? Hn Hv]. subst.
    cbn [_deep_merge]. apply merge_items_returns; [exact Hn|].
    intros k vb sub Hin Hget. apply IH; [eapply Hv; eauto|].
    apply json_get_in in Hget.
    pose proof (dict_depth_in _ _ _ Hin).
    pose proof (dict_depth_in _ _ _ Hget). lia.
Qed.

Lemma _deep_merge_items n a b m :
  _deep_merge n a (JDict b) = Return m ->
  exists n', n = S n' /\ merge_items (_deep_merge n') a b = Return m.
Proof.
  destruct n as [|n]; [discriminate|]. simpl. eauto.
Qed.

(** A setting of the overriding dict is in the result. *)
Lemma _deep_merge_override : forall p n a b m v,
  unique_keys (JDict b) ->
  _deep_merge n a (JDict b) = Return m ->
  p <> [] ->
  get_path p (JDict b) = Some v -> is_dict v = false ->
  get_path p (JDict m) = Some v.
Proof.
  induction p as [|k p IH]; intros n a b m v Hu H Hp Hb Hv; [congruence|].
  apply _deep_merge_items in H as (n' & -> & H).
  inversion Hu as [| | | | | |? Hn Hsub]. subst.
  pose proof (merge_items_get _ _ _ _ Hn H k) as G.
  cbn [get_path] in *.
  destruct (json_get k b) as [vb|] eqn:Eb; [|discriminate].
  destruct G as (new & -> & Hnew). unfold merged_value in Hnew.
  destruct vb; try (subst new; exact Hb).
  destruct (json_get k a) as [[]|]; try (subst new; exact Hb).
  destruct Hnew as (merged & Hm & ->).
  destruct p as [|k' p'].
  - simpl in Hb. injection Hb as <-. discriminate.
  - apply (IH n' items0 items merged v); auto; [|discriminate].
    apply (Hsub k). now apply json_get_in.
Qed.

(** A value of [a] on a path the overriding dict is silent on is in the
    result. *)
Lemma _deep_merge_default : forall p n a b m v,
  unique_keys (JDict b) ->
  _deep_merge n a (JDict b) = Return m ->
  get_path p (JDict a) = Some v -> silent_on p (JDict b) ->
  get_path p (JDict m) = Some v.
Proof.
  induction p as [|k p IH]; intros n a b m v Hu H Ha Hs; [destruct Hs|].
  apply _deep_merge_items in H as (n' & -> & H).
  inversion Hu as [| | | | | |? Hn Hsub]. subst.
  pose proof (merge_items_get _ _ _ _ Hn H k) as G.
  cbn [get_path silent_on] in *.
  destruct (json_get k b) as [vb|] eqn:Eb.
  - destruct Hs as (Hp & Hd & Hs). destruct vb; try discriminate.
    destruct G as (new & -> & Hnew). unfold merged_value in Hnew.
    destruct (json_get k a) as [va|]; [|discriminate].
    destruct p as [|k' p']; [congruence|].
    destruct va; try discriminate.
    destruct Hnew as (merged & Hm & ->).
    apply (IH n' items0 items merged v); auto.
    apply (Hsub k). now apply json_get_in.
  - rewrite G. exact Ha.
Qed.

(** A setting of the result comes from one of the two dicts. *)
Lemma _deep_merge_origin : forall p n a b m v,
  unique_keys (JDict b) ->
  _deep_merge n a (JDict b) = Return m ->
  get_path p (JDict m) = Some v -> is_dict v = false ->
  get_path p (JDict a) = Some v \/ get_path p (JDict b) = Some v.
Proof.
  induction p as [|k p IH]; intros n a b m v Hu H Hm Hv.
  - simpl in Hm. injection Hm as <-. discriminate.
  - apply _deep_merge_items in H as (n' & -> & H).
    inversion Hu as [| | | | | |? Hn Hsub]. subst.
    pose proof (merge_items_get _ _ _ _ Hn H k) as G.
    cbn [get_path] in *.
    destruct (json_get k b) as [vb|] eqn:Eb.
    + destruct G as (new & G & Hnew). rewrite G in Hm.
      unfold merged_value in Hnew.
      destruct vb; try (subst new; right; exact Hm).
      destruct (json_get k a) as [[]|]; try (subst new; right; exact Hm).
      destruct Hnew as (merged & Hmg & ->).
      apply (IH n' items0 items merged v); auto.
      apply (Hsub k). now apply json_get_in.
    + rewrite G in Hm. left. exact Hm.
Qed.

(** The loop changes nothing when every item already has its value. *)
Lemma merge_items_fixed rec (m : dict) : forall items,
  (forall k v, In (k, v) items ->
     match v, json_get k m with
     | JDict _, Some (JDict sub) => rec sub v = Return sub
     | _, _ => json_get k m = Some v
     end) ->
  merge_items rec m items = Return m.
Proof.
  induction items as [|[k v] items IH]; intros H; [reflexivity|].
  rewrite merge_items_step.
  pose proof (H k v (or_introl eq_refl)) as Hk.
  assert (IH' : merge_items rec m items = Return m).
  { apply IH. intros k' v' Hin. apply H. now right. }
  destruct v; try (rewrite (json_set_unchanged _ _ _ Hk); exact IH').
  destruct (json_get k m) as [[]|] eqn:G; try discriminate.
  rewrite Hk. simpl. rewrite (json_set_unchanged _ _ _ G). exact IH'.
Qed.

Lemma _deep_merge_self : forall n d,
  unique_keys (JDict d) -> (dict_depth (JDict d) <= n)%nat ->
  _deep_merge n d (JDict d) = Return d.
Proof.
  induction n as [|n IH]; intros d Hu Hd; [simpl in Hd; lia|].
  inversion Hu as [| | | | | |? Hn Hsub]. subst.
  cbn [_deep_merge]. apply merge_items_fixed.
  intros k v Hin. rewrite (in_json_get _ _ _ Hn Hin).
  destruct v; try reflexivity.
  apply IH; [eapply Hsub; eauto|].
  pose proof (dict_depth_in _ _ _ Hin). lia.
Qed.

Lemma _deep_merge_twice : forall n a b m,
  unique_keys (JDict b) -> (dict_depth (JDict b) <= n)%nat ->
  _deep_merge n a (JDict b) = Return m ->
  _deep_merge n m (JDict b) = Return m.
Proof.
  induction n as [|n IH]; intros a b m Hu Hd H; [discriminate|].
  inversion Hu as [| | | | | |? Hn Hsub]. subst.
  cbn [_deep_merge] in *. apply merge_items_fixed.
  intros k v Hin.
  pose proof (merge_items_get _ _ _ _ Hn H k) as G.
  rewrite (in_json_get _ _ _ Hn Hin) in G.
  destruct G as (new & G & Hnew). rewrite G. unfold merged_value in Hnew.
  pose proof (dict_depth_in _ _ _ Hin) as Hlt.
  specialize (Hsub _ _ Hin).
  destruct v; try (now subst new).
  destruct (json_get k a) as [[]|];
    try (subst new; apply _deep_merge_self; [exact Hsub|lia]).
  destruct Hnew as (merged & Hm & ->).
  apply (IH items0); [exact Hsub|lia|exact Hm].
Qed.

Lemma sample_overrides_unique : unique_keys (JDict sample_overrides).
Proof.
  apply uk_dict.
  - repeat constructor; simpl; intuition discriminate.
  - intros k v [H | [H | []]]; injection H as <- <-; [|constructor].
    apply uk_dict.
    + repeat constructor; simpl; intuition discriminate.
    + intros k v [H | []]. injection H as <- <-. constructor.
Qed.

(** X4.  When one of the two dicts nests no deeper than the frames
    left, [_deep_merge(a, b)] returns a dict in which every setting of
    [b] that is not itself a dict stands at its path, every value of [a]
    on a path that [b] is silent on stands at its path, and every
    setting that is not a dict comes from [a] or from [b]. *)
Theorem deep_merge_settings n a b :
  unique_keys (JDict b) ->
  (Nat.min (dict_depth (JDict a)) (dict_depth (JDict b)) <= n)%nat ->
  exists m,
    _deep_merge n a (JDict b) = Return m
    /\ (forall p v,
          p <> [] -> get_path p (JDict b) = Some v -> is_dict v = false ->
          get_path p (JDict m) = Some v)
    /\ (forall p v,
          get_path p (JDict a) = Some v -> silent_on p (JDict b) ->
          get_path p (JDict m) = Some v)
    /\ (forall p v,
          get_path p (JDict m) = Some v -> is_dict v = false ->
          get_path p (JDict a) = Some v \/ get_path p (JDict b) = Some v).
Proof.
  intros Hu Hd. destruct (_deep_merge_returns n a b Hu Hd) as [m Hm].
  exists m. split; [exact Hm|]. split; [|split].
  - intros p v. now apply _deep_merge_override with (n := n) (a := a).
  - intros p v. now apply _deep_merge_default with (n := n) (b := b).
  - intros p v. now apply _deep_merge_origin with (n := n).
Qed.

Lemma deep_merge_settings_witness :
  unique_keys (JDict sample_overrides)
  /\ (Nat.min (dict_depth (JDict sample_base))
        (dict_depth (JDict sample_overrides)) <= 2)%nat
  /\ exists m,
       _deep_merge 2 sample_base (JDict sample_overrides) = Return m
       /\ get_path [of_string "limits"; of_string "high"] (JDict m)
          = Some (JInt 5)
       /\ get_path [of_string "limits"; of_string "low"] (JDict m)
          = Some (JInt 1).
Proof.
  split; [exact sample_overrides_unique|]. split; [simpl; lia|].
  destruct (deep_merge_settings 2 sample_base sample_overrides
              sample_overrides_unique) as (m & Hm & Ho & Hd & _);
    [simpl; lia|].
  exists m. split; [exact Hm|]. split.
  - apply Ho; [discriminate|reflexivity|reflexivity].
  - apply Hd; [reflexivity|]. simpl. repeat split; auto. discriminate.
Defined.

(** X5.  Merging the same overrides into the result once more, with
    frames for their depth, changes nothing; and a dict merged with
    itself is returned as it is. *)
Theorem deep_merge_idempotent n a b m :
  unique_keys (JDict b) ->
  (dict_depth (JDict b) <= n)%nat ->
  _deep_merge n a (JDict b) = Return m ->
  _deep_merge n m (JDict b) = Return m
  /\ _deep_merge n b (JDict b) = Return b.
Proof.
  intros Hu Hd H. split.
  - now apply _deep_merge_twice with (a := a).
  - now apply _deep_merge_self.
Qed.

Lemma deep_merge_idempotent_witness :
  unique_keys (JDict sample_overrides)
  /\ (dict_depth (JDict sample_overrides) <= 2)%nat
  /\ exists m,
       _deep_merge 2 sample_base (JDict sample_overrides) = Return m
       /\ _deep_merge 2 m (JDict sample_overrides) = Return m.
Proof.
  split; [exact sample_overrides_unique|]. split; [simpl; lia|].
  eexists. split; [reflexivity|].
  apply (deep_merge_idempotent 2 sample_base sample_overrides);
    [exact sample_overrides_unique | simpl; lia | reflexivity].
Defined.

Lemma _DEFAULTS_depth : dict_depth (JDict _DEFAULTS) = 2%nat.
Proof. reflexivity. Qed.

(** X7.  With two frames left, [load_config] returns a
    configuration for every file that holds an object, however deep: the
    settings of the file that are not objects stand at their paths, the
    defaults on the paths the file is silent on stand at theirs, and
    every setting that is not an object is one of the file or a
    default. *)
Theorem load_config_settings n d :
  unique_keys (JDict d) ->
  (2 <= n)%nat ->
  exists cfg,
    load_config n (Loaded (Return (JDict d))) = Return cfg
    /\ (forall p v,
          p <> [] -> get_path p (JDict d) = Some v -> is_dict v = false ->
          get_path p (JDict cfg) = Some v)
    /\ (forall p v,
          get_path p (JDict _DEFAULTS) = Some v -> silent_on p (JDict d) ->
          get_path p (JDict cfg) = Some v)
    /\ (forall p v,
          get_path p (JDict cfg) = Some v -> is_dict v = false ->
          get_path p (JDict _DEFAULTS) = Some v
          \/ get_path p (JDict d) = Some v).
Proof.
  intros Hu Hn.
  assert (E : load_config n (Loaded (Return (JDict d)))
              = _deep_merge n _DEFAULTS (JDict d)).
  { unfold load_config. cbn [bind]. destruct d; reflexivity. }
  rewrite E.
  destruct (_deep_merge_returns n _DEFAULTS d Hu) as [m Hm].
  { rewrite _DEFAULTS_depth. lia. }
  exists m. split; [exact Hm|]. split; [|split].
  - intros p v. now apply _deep_merge_override with (n := n) (a := _DEFAULTS).
  - intros p v. now apply _deep_merge_default with (n := n) (b := d).
  - intros p v. now apply _deep_merge_origin with (n := n).
Qed.

Lemma load_config_settings_witness :
  unique_keys (JDict sample_overrides)
  /\ (2 <= 2)%nat
  /\ exists cfg,
       load_config 2 (Loaded (Return (JDict sample_overrides))) = Return cfg
       /\ get_path [of_string "extra"] (JDict cfg) = Some (JBool true)
       /\ get_path [of_string "llm"; of_string "max_tokens"] (JDict cfg)
          = Some (JInt 512).
Proof.
  split; [exact sample_overrides_unique|]. split; [lia|].
  destruct (load_config_settings 2 sample_overrides sample_overrides_unique)
    as (cfg & Hc & Ho & Hd & _); [lia|].
  exists cfg. split; [exact Hc|]. split.
  - apply Ho; [discriminate|reflexivity|reflexivity].
  - apply Hd; [reflexivity|]. simpl. auto.
Defined.

(** ** Patterns with groups *)

Lemma last_of_app prev (w1 w2 : str) :
  last_of prev (w1 ++ w2) = last_of (last_of prev w1) w2.
Proof. apply fold_left_app. Qed.

Lemma matched_word (w rest : str) : matched (w ++ rest) rest = w.
Proof.
  unfold matched. rewrite length_app, Nat.add_sub.
  rewrite firstn_app, Nat.sub_diag, firstn_all. simpl. apply app_nil_r.
Qed.

Section EngineFacts.

Variable ucd : unicode_db.
Variable uc : unicode_case.
Variable ic : bool.

Lemma repeat_set_sound {R} cs (k : cursor -> option R) : forall s prev x,
  repeat_set ucd uc ic cs k prev s = Some x ->
  exists w s',
    s = w ++ s' /\ forallb (in_set ucd uc ic cs) w = true
    /\ k (last_of prev w, s') = Some x.
Proof.
  induction s as [|c s IH]; intros prev x H; simpl in H.
  - exists [], []. auto.
  - destruct (in_set ucd uc ic cs c) eqn:Ec.
    + destruct (repeat_set ucd uc ic cs k (Some c) s) as [y|] eqn:E.
      * injection H as <-. apply IH in E as (w & s' & -> & Hw & Hk).
        exists (c :: w), s'. simpl. rewrite Ec. auto.
      * exists [], (c :: s). auto.
    + exists [], (c :: s). auto.
Qed.

Lemma repeat_set_complete {R} cs (k : cursor -> option R) : forall w prev s' x,
  forallb (in_set ucd uc ic cs) w = true ->
  k (last_of prev w, s') = Some x ->
  exists y, repeat_set ucd uc ic cs k prev (w ++ s') = Some y.
Proof.
  induction w as [|c w IH]; intros prev s' x Hw Hk.
  - simpl in *. destruct s' as [|c s']; simpl; [eauto|].
    destruct (in_set ucd uc ic cs c); [|eauto].
    destruct (repeat_set ucd uc ic cs k (Some c) s'); eauto.
  - simpl in Hw. apply andb_true_iff in Hw as [Hc Hw].
    simpl. rewrite Hc.
    destruct (IH (Some c) s' x Hw Hk) as [y ->]. eauto.
Qed.

(** The repetition takes the whole run when the rest matches after
    it. *)
Lemma repeat_set_run {R} cs (k : cursor -> option R) : forall w prev s' x,
  forallb (in_set ucd uc ic cs) w = true ->
  match s' with
  | c :: _ => in_set ucd uc ic cs c = false
  | [] => True
  end ->
  k (last_of prev w, s') = Some x ->
  repeat_set ucd uc ic cs k prev (w ++ s') = Some x.
Proof.
  induction w as [|c w IH]; intros prev s' x Hw Hs Hk.
  - simpl in *. destruct s' as [|c s']; simpl; [exact Hk|].
    now rewrite Hs.
  - simpl in Hw. apply andb_true_iff in Hw as [Hc Hw].
    simpl. rewrite Hc. now rewrite (IH (Some c) s' x Hw Hs Hk).
Qed.

Lemma re_run_sound {R} : forall r (k : cursor -> groups -> option R) cur g x,
  re_run ucd uc ic r k cur g = Some x ->
  exists w s' g',
    snd cur = w ++ s'
    /\ matches ucd uc ic r (fst cur) w s' g g'
    /\ k (last_of (fst cur) w, s') g' = Some x.
Proof.
  induction r as [|cs q|r1 IH1 r2 IH2|r1 IH1 r2 IH2|r IH|i r IH| |];
    intros k [prev s] g x H; cbn [re_run fst snd] in *.
  - exists [], s, g. repeat split; auto. constructor.
  - destruct q.
    + destruct s as [|c s]; [discriminate|].
      destruct (in_set ucd uc ic cs c) eqn:Ec; [|discriminate].
      exists [c], s, g. repeat split; auto. now constructor.
    + apply repeat_set_sound in H as (w & s' & -> & Hw & Hk).
      exists w, s', g. repeat split; auto. now constructor.
    + destruct s as [|c s]; [discriminate|].
      destruct (in_set ucd uc ic cs c) eqn:Ec; [|discriminate].
      apply repeat_set_sound in H as (w & s' & -> & Hw & Hk).
      exists (c :: w), s', g. repeat split; auto. now constructor.
  - apply IH1 in H as (w1 & s1 & g1 & E1 & M1 & H). cbn [fst snd] in *.
    apply IH2 in H as (w2 & s2 & g2 & E2 & M2 & H). cbn [fst snd] in *.
    subst s s1. exists (w1 ++ w2), s2, g2. repeat split.
    + now rewrite app_assoc.
    + econstructor; eauto.
    + now rewrite last_of_app.
  - destruct (re_run ucd uc ic r1 k (prev, s) g) as [y|] eqn:E.
    + injection H as <-.
      apply IH1 in E as (w & s' & g' & E1 & M & H). cbn [fst snd] in *.
      exists w, s', g'. repeat split; auto. now apply m_alt_left.
    + apply IH2 in H as (w & s' & g' & E1 & M & H). cbn [fst snd] in *.
      exists w, s', g'. repeat split; auto. now apply m_alt_right.
  - destruct (re_run ucd uc ic r k (prev, s) g) as [y|] eqn:E.
    + injection H as <-.
      apply IH in E as (w & s' & g' & E1 & M & H). cbn [fst snd] in *.
      exists w, s', g'. repeat split; auto. now apply m_opt_some.
    + exists [], s, g. repeat split; auto. apply m_opt_none.
  - apply IH in H as (w & s' & g' & E1 & M & H). cbn [fst snd] in *.
    subst s. rewrite matched_word in H.
    exists w, s', ((i, w) :: g'). repeat split; auto. now constructor.
  - destruct (xorb _ _) eqn:E; [|discriminate].
    exists [], s, g. repeat split; auto. now constructor.
  - destruct s as [|c [|c' s]]; try discriminate.
    + exists [], [], g. repeat split; auto. constructor. now left.
    + destruct (c =? 10)%N eqn:E; [|discriminate].
      apply N.eqb_eq in E. subst c.
      exists [], [10%N], g. repeat split; auto. constructor. now right.
Qed.

Lemma re_run_complete {R} r prev w s' g g' :
  matches ucd uc ic r prev w s' g g' ->
  forall (k : cursor -> groups -> option R) x,
    k (last_of prev w, s') g' = Some x ->
    exists y, re_run ucd uc ic r k (prev, w ++ s') g = Some y.
Proof.
  induction 1 as [prev next g|cs c prev next g Hc|cs w prev next g Hw
    |cs c w prev next g Hc Hw|r1 r2 prev w1 w2 next g g1 g2 M1 IH1 M2 IH2
    |r1 r2 prev w next g g' M IH|r1 r2 prev w next g g' M IH
    |r prev w next g g' M IH|r prev next g|i r prev w next g g' M IH
    |prev next g Hb|prev next g He];
    intros k x Hk; cbn [re_run fst snd].
  - eauto.
  - simpl. rewrite Hc. eauto.
  - eapply repeat_set_complete; eauto.
  - simpl. rewrite Hc. eapply repeat_set_complete; eauto.
  - rewrite last_of_app in Hk.
    destruct (IH2 k x Hk) as [y Hy].
    rewrite <- app_assoc. eapply IH1. exact Hy.
  - destruct (IH k x Hk) as [y ->]. eauto.
  - destruct (re_run ucd uc ic r1 k (prev, w ++ next) g); eauto.
  - destruct (IH k x Hk) as [y ->]. eauto.
  - cbn [app last_of fold_left] in *.
    destruct (re_run _ _ _ _ _ _ _); eauto.
  - eapply IH. cbn [snd]. rewrite matched_word. exact Hk.
  - simpl in *. rewrite Hb. eauto.
  - simpl in *. destruct He as [-> | ->]; simpl; eauto.
Qed.

(** [re.search] finds a match exactly when some part of the text is
    matched by the pattern. *)
Lemma search_groups_sound r : forall s prev g,
  search_groups ucd uc ic r prev s = Some g ->
  exists pre w post,
    s = pre ++ w ++ post
    /\ matches ucd uc ic r (last_of prev pre) w post [] g.
Proof.
  induction s as [|c s IH]; intros prev g H; simpl in H.
  - destruct (re_run _ _ _ _ _ _ _) as [g0|] eqn:E; [|discriminate].
    injection H as <-.
    apply re_run_sound in E as (w & s' & g' & E & M & Hk).
    injection Hk as <-. exists [], w, s'. auto.
  - destruct (re_run _ _ _ _ _ _ _) as [g0|] eqn:E.
    + injection H as <-.
      apply re_run_sound in E as (w & s' & g' & E & M & Hk).
      injection Hk as <-. exists [], w, s'. auto.
    + apply IH in H as (pre & w & post & -> & M).
      exists (c :: pre), w, post. auto.
Qed.

Lemma search_groups_unfold r prev s :
  search_groups ucd uc ic r prev s =
  match re_run ucd uc ic r (fun _ g => Some g) (prev, s) [] with
  | Some g => Some g
  | None =>
      match s with
      | [] => None
      | c :: s' => search_groups ucd uc ic r (Some c) s'
      end
  end.
Proof. destruct s; reflexivity. Qed.

Lemma search_groups_here r prev s g :
  re_run ucd uc ic r (fun _ g => Some g) (prev, s) [] = Some g ->
  search_groups ucd uc ic r prev s = Some g.
Proof. rewrite search_groups_unfold. now intros ->. Qed.

Lemma search_groups_complete r : forall pre prev w post g,
  matches ucd uc ic r (last_of prev pre) w post [] g ->
  exists g', search_groups ucd uc ic r prev (pre ++ w ++ post) = Some g'.
Proof.
  induction pre as [|c pre IH]; intros prev w post g M.
  - simpl in M. cbn [app].
    destruct (re_run_complete _ _ _ _ _ _ M (fun _ g => Some g) g eq_refl)
      as [y Hy].
    exists y. apply search_groups_here. exact Hy.
  - cbn [app]. rewrite search_groups_unfold.
    destruct (re_run _ _ _ _ _ _ _); [eauto|].
    apply (IH (Some c) w post g). exact M.
Qed.

(** *** Matching along the first choice

    When the greedy choice of every step lets the rest of the pattern
    match, that match is the result. *)

Lemma run_once {R} cs (k : cursor -> groups -> option R) prev c s g x :
  in_set ucd uc ic cs c = true ->
  k (Some c, s) g = Some x ->
  re_run ucd uc ic (Chars cs Once) k (prev, c :: s) g = Some x.
Proof. intros Hc Hk. cbn [re_run snd]. now rewrite Hc. Qed.

Lemma run_plus {R} cs (k : cursor -> groups -> option R) prev c w s g x :
  in_set ucd uc ic cs c = true ->
  forallb (in_set ucd uc ic cs) w = true ->
  match s with
  | c' :: _ => in_set ucd uc ic cs c' = false
  | [] => True
  end ->
  k (last_of prev (c :: w), s) g = Some x ->
  re_run ucd uc ic (Chars cs Plus) k (prev, c :: w ++ s) g = Some x.
Proof.
  intros Hc Hw Hs Hk. cbn [re_run snd]. rewrite Hc.
  now apply repeat_set_run.
Qed.

Lemma run_plus_one {R} cs (k : cursor -> groups -> option R) prev c s g x :
  in_set ucd uc ic cs c = true ->
  match s with
  | c' :: _ => in_set ucd uc ic cs c' = false
  | [] => True
  end ->
  k (Some c, s) g = Some x ->
  re_run ucd uc ic (Chars cs Plus) k (prev, c :: s) g = Some x.
Proof.
  intros Hc Hs Hk. now apply (run_plus cs k prev c [] s g x).
Qed.

Lemma run_seq {R} r1 r2 (k : cursor -> groups -> option R) cur g x :
  re_run ucd uc ic r1 (re_run ucd uc ic r2 k) cur g = Some x ->
  re_run ucd uc ic (Seq r1 r2) k cur g = Some x.
Proof. intros H. exact H. Qed.

Lemma run_eps {R} (k : cursor -> groups -> option R) cur g x :
  k cur g = Some x -> re_run ucd uc ic Eps k cur g = Some x.
Proof. intros H. exact H. Qed.

Lemma run_end {R} (k : cursor -> groups -> option R) prev g x :
  k (prev, []) g = Some x ->
  re_run ucd uc ic EndOfString k (prev, []) g = Some x.
Proof. intros H. exact H. Qed.

Lemma run_boundary {R} (k : cursor -> groups -> option R) cur g x :
  xorb (is_word_at uc (fst cur)) (is_word_at uc (hd_error (snd cur))) = true ->
  k cur g = Some x ->
  re_run ucd uc ic WordBoundary k cur g = Some x.
Proof.
  intros H Hk. destruct cur as [prev s]. cbn [re_run fst snd] in *.
  now rewrite H.
Qed.

Lemma run_opt {R} r (k : cursor -> groups -> option R) cur g x :
  re_run ucd uc ic r k cur g = Some x ->
  re_run ucd uc ic (Opt r) k cur g = Some x.
Proof. intros H. cbn [re_run]. now rewrite H. Qed.

Lemma run_opt_skip {R} r (k : cursor -> groups -> option R) cur g x :
  re_run ucd uc ic r k cur g = None ->
  k cur g = Some x ->
  re_run ucd uc ic (Opt r) k cur g = Some x.
Proof. intros H Hk. cbn [re_run]. now rewrite H. Qed.

Lemma run_alt_left {R} r1 r2 (k : cursor -> groups -> option R) cur g x :
  re_run ucd uc ic r1 k cur g = Some x ->
  re_run ucd uc ic (Alt r1 r2) k cur g = Some x.
Proof. intros H. cbn [re_run]. now rewrite H. Qed.

Lemma run_alt_right {R} r1 r2 (k : cursor -> groups -> option R) cur g x :
  re_run ucd uc ic r1 k cur g = None ->
  re_run ucd uc ic r2 k cur g = Some x ->
  re_run ucd uc ic (Alt r1 r2) k cur g = Some x.
Proof. intros H H2. cbn [re_run]. now rewrite H. Qed.

Lemma run_group {R} i r (k : cursor -> groups -> option R) prev w s g x :
  (forall k' : cursor -> groups -> option R,
     k' (last_of prev w, s) g = Some x ->
     re_run ucd uc ic r k' (prev, w ++ s) g = Some x) ->
  k (last_of prev w, s) ((i, w) :: g) = Some x ->
  re_run ucd uc ic (Group i r) k (prev, w ++ s) g = Some x.
Proof.
  intros H Hk. cbn [re_run snd]. apply H. cbn [snd].
  rewrite matched_word. exact Hk.
Qed.

Lemma search_groups_skip r prev c s :
  re_run ucd uc ic r (fun _ g => Some g) (prev, c :: s) [] = None ->
  search_groups ucd uc ic r prev (c :: s)
  = search_groups ucd uc ic r (Some c) s.
Proof.
  intros H. rewrite search_groups_unfold.
  destruct (re_run _ _ _ _ _ _ _); [discriminate H|reflexivity].
Qed.

End EngineFacts.

(** ** Currency conversion *)

Lemma usd_rates_not_zero k r :
  rate_of k usd_rates = Some r -> float_is_zero r = false.
Proof.
  unfold usd_rates. cbn [rate_of].
  repeat match goal with
         | |- (if ?b then _ else _) = _ -> _ =>
             destruct b; [intros H; injection H as <-; reflexivity|]
         end.
  discriminate.
Qed.

Section Convert.

Variable rt : runtime.
Variable uc : unicode_case.
Variables m1 m2 m3 : method.

Lemma _try_hardcoded_rates_supported amount f t rf rt' :
  rate_of f usd_rates = Some rf -> rate_of t usd_rates = Some rt' ->
  _try_hardcoded_rates rt amount f t
  = Return (offline_answer rt amount f t rf rt').
Proof.
  intros Hf Ht. unfold _try_hardcoded_rates. rewrite Hf, Ht.
  unfold float_quotient. rewrite (usd_rates_not_zero _ _ Hf). reflexivity.
Qed.

Lemma _try_hardcoded_rates_unsupported amount f t :
  rate_of f usd_rates = None \/ rate_of t usd_rates = None ->
  _try_hardcoded_rates rt amount f t
  = raise CurrencyError (unsupported_pair f t).
Proof.
  unfold _try_hardcoded_rates.
  intros [H | H]; rewrite H; [reflexivity|].
  destruct (rate_of f usd_rates); reflexivity.
Qed.

Lemma convert_distinct amount f t :
  upper uc f <> upper uc t ->
  convert rt uc m1 m2 m3 amount f t
  = try_methods [m1; m2; m3; _try_hardcoded_rates rt] "None" amount
      (upper uc f) (upper uc t).
Proof.
  intros H. unfold convert. now rewrite (str_eqb_neq _ _ H).
Qed.

End Convert.

(** X9.  For two currencies of the fallback table, [convert]
    never raises an [Exception], whatever the three network methods do:
    it returns an answer, unless one of them raises something that is
    not an [Exception], which passes through. *)
Theorem convert_supported_pair rt uc (m1 m2 m3 : method) amount f t rf rt' :
  rate_of (upper uc f) usd_rates = Some rf ->
  rate_of (upper uc t) usd_rates = Some rt' ->
  (exists answer, convert rt uc m1 m2 m3 amount f t = Return answer)
  \/ (exists e,
        convert rt uc m1 m2 m3 amount f t = Raise e
        /\ is_Exception e = false
        /\ (m1 amount (upper uc f) (upper uc t) = Raise e
            \/ m2 amount (upper uc f) (upper uc t) = Raise e
            \/ m3 amount (upper uc f) (upper uc t) = Raise e)).
Proof.
  intros Hf Ht. unfold convert.
  destruct (str_eqb (upper uc f) (upper uc t)); [left; eauto|].
  cbn [try_methods].
  destruct (m1 amount _ _) as [a1|e1] eqn:E1; [left; eauto|].
  destruct (is_Exception e1) eqn:X1; [|right; exists e1; auto].
  destruct (m2 amount _ _) as [a2|e2] eqn:E2; [left; eauto|].
  destruct (is_Exception e2) eqn:X2; [|right; exists e2; auto].
  destruct (m3 amount _ _) as [a3|e3] eqn:E3; [left; eauto|].
  destruct (is_Exception e3) eqn:X3; [|right; exists e3; auto].
  rewrite (_try_hardcoded_rates_supported rt amount _ _ rf rt' Hf Ht).
  left. eauto.
Qed.

Lemma convert_supported_pair_witness :
  rate_of (upper sample_case (of_string "eur")) usd_rates
  = Some (decimal_literal 85 2)
  /\ rate_of (upper sample_case (of_string "gbp")) usd_rates
     = Some (decimal_literal 73 2)
  /\ convert sample_runtime sample_case unreachable unreachable unreachable
       float_hundred (of_string "eur") (of_string "gbp")
     = Return
         (of_string
            "<float> EUR = 85.88 GBP (Approx. rate: 0.858824) [OFFLINE]").
Proof.
  split; [reflexivity|]. split; [reflexivity|].
  destruct (convert_supported_pair sample_runtime sample_case
              unreachable unreachable unreachable float_hundred
              (of_string "eur") (of_string "gbp")
              (decimal_literal 85 2) (decimal_literal 73 2)
              eq_refl eq_refl) as [[answer H] | (e & H & _)].
  - reflexivity.
  - discriminate H.
Defined.

(** X10.  When the three network methods fail with an [Exception],
    [convert] answers from the fallback table if both currencies are in
    it, with the rate (1 / from) * to and the mark [OFFLINE]; otherwise
    it raises [CurrencyError], and the error it reports as the last one
    is the fallback's, not one of the network. *)
Theorem convert_network_down rt uc (m1 m2 m3 : method) amount f t e1 e2 e3 :
  upper uc f <> upper uc t ->
  m1 amount (upper uc f) (upper uc t) = Raise e1 -> is_Exception e1 = true ->
  m2 amount (upper uc f) (upper uc t) = Raise e2 -> is_Exception e2 = true ->
  m3 amount (upper uc f) (upper uc t) = Raise e3 -> is_Exception e3 = true ->
  convert rt uc m1 m2 m3 amount f t
  = match rate_of (upper uc f) usd_rates, rate_of (upper uc t) usd_rates with
    | Some from_rate, Some to_rate =>
        Return
          (offline_answer rt amount (upper uc f) (upper uc t)
             from_rate to_rate)
    | _, _ =>
        raise CurrencyError
          ("All currency conversion methods failed. Last error: "
           ++ unsupported_pair (upper uc f) (upper uc t))
    end.
Proof.
  intros Hne E1 X1 E2 X2 E3 X3.
  rewrite convert_distinct by exact Hne. cbn [try_methods].
  rewrite E1, X1, E2, X2, E3, X3.
  destruct (rate_of (upper uc f) usd_rates) as [rf|] eqn:Hf.
  - destruct (rate_of (upper uc t) usd_rates) as [rt'|] eqn:Ht.
    + now rewrite (_try_hardcoded_rates_supported rt amount _ _ rf rt' Hf Ht).
    + rewrite _try_hardcoded_rates_unsupported by (now right). reflexivity.
  - rewrite _try_hardcoded_rates_unsupported by (now left). reflexivity.
Qed.

Lemma convert_network_down_witness :
  upper sample_case (of_string "usd") <> upper sample_case (of_string "xau")
  /\ convert sample_runtime sample_case unreachable unreachable unreachable
       float_hundred (of_string "usd") (of_string "xau")
     = raise CurrencyError
         ("All currency conversion methods failed. Last error: "
          ++ "Currency pair USD/XAU not supported in fallback rates").
Proof.
  split; [discriminate|].
  apply (convert_network_down sample_runtime sample_case
           unreachable unreachable unreachable float_hundred
           (of_string "usd") (of_string "xau")
           (mk_exn (OtherException "ConnectionError") "Connection refused")
           (mk_exn (OtherException "ConnectionError") "Connection refused")
           (mk_exn (OtherException "ConnectionError") "Connection refused"));
    try reflexivity.
  discriminate.
Defined.

(** ** The patterns of the services *)

Lemma ascii_table_in c : (c <? 128)%N = true -> In c ascii_table.
Proof.
  intros H. apply N.ltb_lt in H. unfold ascii_table.
  rewrite <- (N2Nat.id c). apply in_map. apply in_seq. lia.
Qed.

Lemma ascii_forall (P : char -> bool) :
  forallb P ascii_table = true ->
  forall c, (c <? 128)%N = true -> P c = true.
Proof.
  intros H c Hc. rewrite forallb_forall in H. apply H.
  now apply ascii_table_in.
Qed.

Lemma is_ascii_app (a b : str) :
  is_ascii (a ++ b) = is_ascii a && is_ascii b.
Proof. apply forallb_app. Qed.

Section PatternFacts.

Variable ucd : unicode_db.
Variable uc : unicode_case.

Lemma matches_seq_inv ic r1 r2 prev w next g g' :
  matches ucd uc ic (Seq r1 r2) prev w next g g' ->
  exists w1 w2 g1,
    w = w1 ++ w2
    /\ matches ucd uc ic r1 prev w1 (w2 ++ next) g g1
    /\ matches ucd uc ic r2 (last_of prev w1) w2 next g1 g'.
Proof. intros H. inversion H; subst. eauto 7. Qed.

Lemma matches_eps_inv ic prev w next g g' :
  matches ucd uc ic Eps prev w next g g' -> w = [] /\ g' = g.
Proof. intros H. inversion H; subst. auto. Qed.

Lemma matches_once_inv ic cs prev w next g g' :
  matches ucd uc ic (Chars cs Once) prev w next g g' ->
  exists c, w = [c] /\ in_set ucd uc ic cs c = true /\ g' = g.
Proof. intros H. inversion H; subst. eauto. Qed.

Lemma matches_plus_inv ic cs prev w next g g' :
  matches ucd uc ic (Chars cs Plus) prev w next g g' ->
  exists c w',
    w = c :: w' /\ in_set ucd uc ic cs c = true
    /\ forallb (in_set ucd uc ic cs) w' = true /\ g' = g.
Proof. intros H. inversion H; subst. eauto 7. Qed.

Lemma matches_group_inv ic i r prev w next g g' :
  matches ucd uc ic (Group i r) prev w next g g' ->
  exists g1, g' = (i, w) :: g1 /\ matches ucd uc ic r prev w next g g1.
Proof. intros H. inversion H; subst. eauto. Qed.

Lemma matches_opt_inv ic r prev w next g g' :
  matches ucd uc ic (Opt r) prev w next g g' ->
  matches ucd uc ic r prev w next g g' \/ (w = [] /\ g' = g).
Proof. intros H. inversion H; subst; auto. Qed.

(** A pattern without groups closes none. *)
Lemma matches_groupless ic r prev w next g g' :
  matches ucd uc ic r prev w next g g' -> groupless r = true -> g' = g.
Proof.
  induction 1; cbn [groupless]; intros G; try reflexivity;
    try discriminate; try apply andb_true_iff in G as [G1 G2]; auto.
  rewrite IHmatches2 by exact G2. auto.
Qed.

(** A pattern without anchors matches its word wherever it stands. *)
Lemma matches_context ic r prev w next g g' :
  matches ucd uc ic r prev w next g g' -> anchor_free r = true ->
  forall prev' next', matches ucd uc ic r prev' w next' g g'.
Proof.
  induction 1; cbn [anchor_free]; intros A prev' next';
    try discriminate; try apply andb_true_iff in A as [A1 A2];
    first [ constructor; auto; fail
          | econstructor; eauto; fail
          | apply m_alt_right; auto ].
Qed.

Lemma cat_split ic : forall rs1 rs2 prev w next g g',
  matches ucd uc ic (cat (rs1 ++ rs2)) prev w next g g' ->
  exists w1 w2 g1,
    w = w1 ++ w2
    /\ matches ucd uc ic (cat rs1) prev w1 (w2 ++ next) g g1
    /\ matches ucd uc ic (cat rs2) (last_of prev w1) w2 next g1 g'.
Proof.
  induction rs1 as [|r rs1 IH]; intros rs2 prev w next g g' H.
  - exists [], w, g. repeat split; auto. constructor.
  - cbn [app cat fold_right] in H.
    apply matches_seq_inv in H as (w1 & w2 & g1 & -> & M1 & M2).
    apply IH in M2 as (w3 & w4 & g2 & -> & M3 & M4).
    exists (w1 ++ w3), w4, g2. repeat split.
    + now rewrite app_assoc.
    + cbn [cat fold_right]. econstructor; [|exact M3].
      rewrite app_assoc. exact M1.
    + now rewrite last_of_app.
Qed.

Lemma cat_join ic : forall rs1 rs2 prev w1 w2 next g g1 g',
  matches ucd uc ic (cat rs1) prev w1 (w2 ++ next) g g1 ->
  matches ucd uc ic (cat rs2) (last_of prev w1) w2 next g1 g' ->
  matches ucd uc ic (cat (rs1 ++ rs2)) prev (w1 ++ w2) next g g'.
Proof.
  induction rs1 as [|r rs1 IH]; intros rs2 prev w1 w2 next g g1 g' M1 M2.
  - apply matches_eps_inv in M1 as [-> ->]. exact M2.
  - cbn [cat fold_right] in M1.
    apply matches_seq_inv in M1 as (w3 & w4 & g2 & -> & M3 & M4).
    cbn [app cat fold_right]. rewrite <- app_assoc.
    econstructor.
    + rewrite <- app_assoc. exact M3.
    + eapply IH; [exact M4|]. now rewrite <- last_of_app.
Qed.

(** What the sets of the patterns take when case is ignored. *)
Lemma digit_set ic c : in_set ucd uc ic [ClassDigit] c = py_isdecimal ucd c.
Proof. destruct ic; simpl; apply orb_false_r. Qed.

Lemma space_set ic c : in_set ucd uc ic [ClassSpace] c = py_isspace c.
Proof. destruct ic; simpl; apply orb_false_r. Qed.

Lemma caseless_outside_ascii cs c :
  (c <? 128)%N = false ->
  forallb ascii_item cs = true ->
  forallb (fun i => match i with
                    | ClassSpace | ClassDigit => false
                    | _ => true
                    end) cs = true ->
  in_set ucd uc true cs c = true ->
  In c [304; 305; 383; 8490]%N.
Proof.
  intros Hc Ha Hs H. unfold in_set in H.
  apply existsb_exists in H as (i & Hi & H).
  rewrite forallb_forall in Ha, Hs.
  specialize (Ha i Hi). specialize (Hs i Hi).
  unfold caseless_item in H. rewrite Hc, Ha in H.
  assert (V : existsb (item_mem ucd i) (caseless_variants c) = true).
  { destruct i; try discriminate; exact H. }
  clear H. unfold caseless_variants in V. rewrite Hc in V.
  destruct ((c =? 304) || (c =? 305))%N eqn:E1.
  { apply orb_true_iff in E1 as [E | E]; apply N.eqb_eq in E; subst;
      simpl; auto. }
  destruct (c =? 383)%N eqn:E2.
  { apply N.eqb_eq in E2. subst. simpl. auto. }
  destruct (c =? 8490)%N eqn:E3.
  { apply N.eqb_eq in E3. subst. simpl. auto. }
  discriminate.
Qed.

Lemma dot_set c : in_set ucd uc true [Lit (chr ".")] c = true -> c = chr ".".
Proof.
  intros H. destruct (c <? 128)%N eqn:Hc.
  - revert H. generalize c Hc. clear c Hc.
    assert (forall c, (c <? 128)%N = true ->
              implb (in_set ucd uc true [Lit (chr ".")] c) (c =? chr ".")%N
              = true) as A.
    { apply ascii_forall. vm_compute. reflexivity. }
    intros c Hc H. specialize (A c Hc). rewrite H in A.
    now apply N.eqb_eq.
  - unfold in_set in H. cbn [existsb caseless_item ascii_item] in H.
    rewrite Hc in H. cbn [orb] in H.
    replace ((chr "." <? 128)%N) with true in H by reflexivity.
    rewrite orb_false_r in H. unfold caseless_variants in H.
    rewrite Hc in H.
    destruct ((c =? 304) || (c =? 305))%N; [discriminate|].
    destruct (c =? 383)%N; [discriminate|].
    destruct (c =? 8490)%N; discriminate.
Qed.

Lemma letter_set c :
  (c <? 128)%N = true ->
  in_set ucd uc true [Range (chr "A") (chr "Z"); Range (chr "a") (chr "z")] c
  = is_letter c.
Proof.
  revert c.
  assert (forall c, (c <? 128)%N = true ->
            Bool.eqb
              (in_set ucd uc true
                 [Range (chr "A") (chr "Z"); Range (chr "a") (chr "z")] c)
              (is_letter c) = true) as A.
  { apply ascii_forall. vm_compute. reflexivity. }
  intros c Hc. now apply Bool.eqb_prop, A.
Qed.

Lemma lowers_set_sound cs cs' :
  lowers_set ucd uc cs cs' = true ->
  forall c, (c <? 128)%N = true ->
    in_set ucd uc true cs c = true ->
    in_set ucd uc false cs' (ascii_lower c) = true.
Proof.
  intros H c Hc Hin. unfold lowers_set in H.
  pose proof (ascii_forall _ H c Hc) as A. cbv beta in A.
  now rewrite Hin in A.
Qed.

Lemma lowers_set_all cs cs' (w : str) :
  lowers_set ucd uc cs cs' = true ->
  is_ascii w = true ->
  forallb (in_set ucd uc true cs) w = true ->
  forallb (in_set ucd uc false cs') (map ascii_lower w) = true.
Proof.
  intros H. induction w as [|c w IH]; [reflexivity|].
  cbn [is_ascii forallb map]. intros Ha Hw.
  apply andb_true_iff in Ha as [Hc Ha].
  apply andb_true_iff in Hw as [Hin Hw].
  rewrite (lowers_set_sound _ _ H c Hc Hin). now apply IH.
Qed.

(** What a pattern matches in an ASCII text with case ignored, the
    lowered pattern matches in the text put in lower case. *)
Lemma lowers_matches r prev w next g g' :
  matches ucd uc true r prev w next g g' ->
  forall r', lowers ucd uc r r' = true ->
  is_ascii w = true ->
  forall prev' next' g0,
    matches ucd uc false r' prev' (map ascii_lower w) next' g0 g0.
Proof.
  induction 1 as [prev next g|cs c prev next g Hc|cs w prev next g Hw
    |cs c w prev next g Hc Hw|r1 r2 prev w1 w2 next g g1 g2 M1 IH1 M2 IH2
    |r1 r2 prev w next g g' M IH|r1 r2 prev w next g g' M IH
    |r prev w next g g' M IH|r prev next g|i r prev w next g g' M IH
    |prev next g Hb|prev next g He];
    intros r' L Ha prev' next' g0; cbn [lowers] in L.
  - destruct r'; try discriminate. constructor.
  - destruct r' as [|cs' q| | | | | |]; try discriminate.
    destruct q; try discriminate.
    cbn [is_ascii forallb] in Ha. apply andb_true_iff in Ha as [Ha _].
    constructor. now apply lowers_set_sound with (cs := cs).
  - destruct r' as [|cs' q| | | | | |]; try discriminate.
    destruct q; try discriminate.
    constructor. now apply lowers_set_all with (cs := cs).
  - destruct r' as [|cs' q| | | | | |]; try discriminate.
    destruct q; try discriminate.
    cbn [is_ascii forallb] in Ha. apply andb_true_iff in Ha as [Ha1 Ha2].
    cbn [map]. constructor.
    + now apply lowers_set_sound with (cs := cs).
    + now apply lowers_set_all with (cs := cs).
  - destruct r' as [| |r1' r2'| | | | |]; try discriminate.
    apply andb_true_iff in L as [L1 L2].
    rewrite is_ascii_app in Ha. apply andb_true_iff in Ha as [Ha1 Ha2].
    rewrite map_app. econstructor; [apply IH1|apply IH2]; auto.
  - destruct r' as [| | |r1' r2'| | | |]; try discriminate.
    apply andb_true_iff in L as [L1 L2]. apply m_alt_left. now apply IH.
  - destruct r' as [| | |r1' r2'| | | |]; try discriminate.
    apply andb_true_iff in L as [L1 L2]. apply m_alt_right. now apply IH.
  - destruct r' as [| | | |r1'| | |]; try discriminate.
    apply m_opt_some. now apply IH.
  - destruct r' as [| | | |r1'| | |]; try discriminate. apply m_opt_none.
  - now apply IH.
  - discriminate.
  - discriminate.
Qed.

End PatternFacts.

(** *** The patterns of [extract_conversion_data] *)

Lemma conversion_patterns_shaped :
  conversion_patterns = map shaped conversion_shapes.
Proof. reflexivity. Qed.

Section ConversionFacts.

Variable ucd : unicode_db.
Variable uc : unicode_case.

Lemma split_decimal_digits (ip : str) :
  forallb (py_isdecimal ucd) ip = true ->
  split_decimal ucd ip = Some (ip, []).
Proof.
  induction ip as [|c ip IH]; [reflexivity|].
  cbn [forallb split_decimal]. intros H.
  apply andb_true_iff in H as [Hc H]. now rewrite Hc, IH.
Qed.

Lemma split_decimal_point (ip fp : str) :
  forallb (py_isdecimal ucd) ip = true ->
  fp <> [] -> forallb (py_isdecimal ucd) fp = true ->
  split_decimal ucd (ip ++ chr "." :: fp) = Some (ip, fp).
Proof.
  intros Hi Hn Hf. induction ip as [|c ip IH].
  - cbn [app split_decimal].
    replace (py_isdecimal ucd (chr ".")) with false by reflexivity.
    replace ((chr "." =? chr ".")%N) with true by reflexivity.
    destruct fp; [congruence|]. now rewrite Hf.
  - cbn [forallb] in Hi. apply andb_true_iff in Hi as [Hc Hi].
    cbn [app split_decimal]. now rewrite Hc, IH.
Qed.

(** What [\d+(?:\.\d+)?] matches: digits, then possibly a point and
    digits; the word begins and ends with a run of digits. *)
Lemma amount_inv prev w next g g' :
  matches ucd uc true
    (cat [digits; Opt (cat [Chars [Lit (chr ".")] Once; digits])])
    prev w next g g' ->
  g' = g
  /\ (exists c ip fp, split_decimal ucd w = Some (c :: ip, fp))
  /\ (exists d rest,
        w = d ++ rest /\ d <> [] /\ forallb (py_isdecimal ucd) d = true)
  /\ (exists rest d,
        w = rest ++ d /\ d <> [] /\ forallb (py_isdecimal ucd) d = true).
Proof.
  intros H. cbn [cat fold_right] in H.
  apply matches_seq_inv in H as (w1 & w2 & g1 & -> & M1 & M2).
  apply matches_plus_inv in M1 as (c & ip & -> & Hc & Hip & ->).
  apply matches_seq_inv in M2 as (w3 & w4 & g2 & -> & M3 & M4).
  apply matches_eps_inv in M4 as [-> ->]. rewrite app_nil_r.
  rewrite digit_set in Hc.
  assert (Hd : forallb (py_isdecimal ucd) (c :: ip) = true).
  { cbn [forallb]. rewrite Hc. cbn [andb]. rewrite <- Hip.
    apply forallb_eq. intros x. symmetry. apply digit_set. }
  apply matches_opt_inv in M3 as [M3 | [-> ->]].
  - apply matches_seq_inv in M3 as (w5 & w6 & g3 & -> & M5 & M6).
    apply matches_once_inv in M5 as (p & -> & Hp & ->).
    apply dot_set in Hp. subst p.
    apply matches_seq_inv in M6 as (w7 & w8 & g4 & -> & M7 & M8).
    apply matches_eps_inv in M8 as [-> ->]. rewrite app_nil_r.
    apply matches_plus_inv in M7 as (c' & fp & -> & Hc' & Hfp & ->).
    rewrite digit_set in Hc'.
    assert (Hf : forallb (py_isdecimal ucd) (c' :: fp) = true).
    { cbn [forallb]. rewrite Hc'. cbn [andb]. rewrite <- Hfp.
      apply forallb_eq. intros x. symmetry. apply digit_set. }
    split; [reflexivity|]. split; [|split].
    + exists c, ip, (c' :: fp).
      change ([chr "."] ++ c' :: fp) with (chr "." :: c' :: fp).
      apply split_decimal_point; auto. discriminate.
    + exists (c :: ip), ([chr "."] ++ c' :: fp).
      repeat split; auto. discriminate.
    + exists ((c :: ip) ++ [chr "."]), (c' :: fp).
      repeat split; auto; [|discriminate]. now rewrite <- app_assoc.
  - rewrite app_nil_r. split; [reflexivity|]. split; [|split].
    + exists c, ip, []. now apply split_decimal_digits.
    + exists (c :: ip), []. rewrite app_nil_r. repeat split; auto.
      discriminate.
    + exists [], (c :: ip). repeat split; auto. discriminate.
Qed.

Lemma three_letters_inv prev w next g g' :
  matches ucd uc true three_letters prev w next g g' ->
  g' = g /\ three_of_letters ucd uc w.
Proof.
  intros H. unfold three_letters in H. cbn [cat fold_right] in H.
  apply matches_seq_inv in H as (w1 & w2 & g1 & -> & M1 & M2).
  apply matches_once_inv in M1 as (x & -> & Hx & ->).
  apply matches_seq_inv in M2 as (w3 & w4 & g2 & -> & M3 & M4).
  apply matches_once_inv in M3 as (y & -> & Hy & ->).
  apply matches_seq_inv in M4 as (w5 & w6 & g3 & -> & M5 & M6).
  apply matches_once_inv in M5 as (z & -> & Hz & ->).
  apply matches_eps_inv in M6 as [-> ->].
  split; [reflexivity|]. exists x, y, z. split; [reflexivity|].
  repeat constructor; assumption.
Qed.

(** What the tail matches, and the groups it closes. *)
Lemma conversion_tail_inv word prev w next g g' :
  groupless word = true ->
  matches ucd uc true (cat (conversion_tail word)) prev w next g g' ->
  exists u1 c2 u2 c3,
    w = u1 ++ c2 ++ u2 ++ c3
    /\ three_of_letters ucd uc c2 /\ three_of_letters ucd uc c3
    /\ g' = (3%nat, c3) :: (2%nat, c2) :: g.
Proof.
  intros G H. unfold conversion_tail in H. cbn [cat fold_right] in H.
  apply matches_seq_inv in H as (s1 & w1 & g1 & -> & M1 & H).
  apply matches_groupless in M1; [|reflexivity]. subst g1.
  apply matches_seq_inv in H as (c2 & w2 & g2 & -> & M2 & H).
  apply matches_group_inv in M2 as (g2' & -> & M2).
  apply three_letters_inv in M2 as [-> L2].
  apply matches_seq_inv in H as (s2 & w3 & g3 & -> & M3 & H).
  apply matches_groupless in M3; [|reflexivity]. subst g3.
  apply matches_seq_inv in H as (ww & w4 & g4 & -> & M4 & H).
  apply matches_groupless in M4; [|exact G]. subst g4.
  apply matches_seq_inv in H as (s3 & w5 & g5 & -> & M5 & H).
  apply matches_groupless in M5; [|reflexivity]. subst g5.
  apply matches_seq_inv in H as (c3 & w6 & g6 & -> & M6 & H).
  apply matches_group_inv in M6 as (g6' & -> & M6).
  apply three_letters_inv in M6 as [-> L3].
  apply matches_eps_inv in H as [-> ->].
  exists s1, c2, (s2 ++ ww ++ s3), c3. rewrite app_nil_r.
  repeat split; auto. now rewrite <- !app_assoc.
Qed.

(** A match of one of the four patterns: the lead, the amount, the tail
    and the three groups. *)
Lemma shaped_inv shape prev w next m :
  In shape conversion_shapes ->
  matches ucd uc true (shaped shape) prev w next [] m ->
  exists lead amount tail c2 c3 u1 u2,
    w = lead ++ amount ++ tail
    /\ tail = u1 ++ c2 ++ u2 ++ c3
    /\ m = [(3%nat, c3); (2%nat, c2); (1%nat, amount)]
    /\ three_of_letters ucd uc c2 /\ three_of_letters ucd uc c3
    /\ matches ucd uc true (cat (fst shape)) prev lead
         (amount ++ tail ++ next) [] []
    /\ matches ucd uc true
         (cat [digits; Opt (cat [Chars [Lit (chr ".")] Once; digits])])
         (last_of prev lead) amount (tail ++ next) [] []
    /\ matches ucd uc true (cat (conversion_tail (snd shape)))
         (last_of (last_of prev lead) amount) tail next
         [(1%nat, amount)] m.
Proof.
  intros Hin H. unfold shaped in H.
  apply cat_split in H as (lead & w2 & g1 & -> & M1 & M2).
  assert (Gl : groupless (cat (fst shape)) = true).
  { destruct Hin as [<- | [<- | [<- | [<- | []]]]]; reflexivity. }
  assert (Gw : groupless (snd shape) = true).
  { destruct Hin as [<- | [<- | [<- | [<- | []]]]]; reflexivity. }
  pose proof (matches_groupless _ _ _ _ _ _ _ _ _ M1 Gl) as ->.
  cbn [cat fold_right] in M2.
  apply matches_seq_inv in M2 as (amount & tail & g2 & -> & M3 & M4).
  apply matches_group_inv in M3 as (g3 & -> & M3).
  destruct (amount_inv _ _ _ _ _ M3) as (-> & _).
  destruct (conversion_tail_inv _ _ _ _ _ _ Gw M4)
    as (u1 & c2 & u2 & c3 & -> & L2 & L3 & ->).
  exists lead, amount, (u1 ++ c2 ++ u2 ++ c3), c2, c3, u1, u2.
  repeat split; auto.
  rewrite <- app_assoc in M1. exact M1.
Qed.

End ConversionFacts.

Lemma binary_round_aux_sign prec emax mx ex lx :
  is_negative (binary_round_aux prec emax false mx ex lx) = false.
Proof.
  unfold binary_round_aux.
  destruct (shr_fexp prec emax mx ex lx) as [mrs' e'].
  destruct (shr_fexp prec emax _ e' loc_Exact) as [mrs'' e''].
  destruct (shr_m mrs''); [reflexivity| |reflexivity].
  destruct (Z.leb _ _); reflexivity.
Qed.

Lemma ratio_to_float_sign a b : is_negative (ratio_to_float false a b) = false.
Proof.
  unfold ratio_to_float.
  destruct (SFdiv_core_binary 53 1024 (Z.pos a) 0 (Z.pos b) 0) as [[q e] l].
  apply binary_round_aux_sign.
Qed.

Lemma capital_of_letter c :
  (c <? 128)%N = true -> is_letter c = true ->
  is_capital (ascii_upper c) = true.
Proof.
  revert c.
  assert (forall c, (c <? 128)%N = true ->
            implb (is_letter c) (is_capital (ascii_upper c)) = true) as A.
  { apply ascii_forall. vm_compute. reflexivity. }
  intros c Hc Hl. specialize (A c Hc). now rewrite Hl in A.
Qed.

Section Extraction.

Variable rt : runtime.
Variable uc : unicode_case.

Lemma py_float_decimal (s : str) c ip fp :
  split_decimal (unicode rt) s = Some (c :: ip, fp) ->
  exists x,
    py_float (unicode rt) uc s = Return x /\ is_negative x = false.
Proof.
  intros H. unfold py_float. rewrite H. eexists. split; [reflexivity|].
  destruct (decimal_value uc _); [reflexivity|apply ratio_to_float_sign].
Qed.

Lemma upper_letters (w : str) :
  is_ascii w = true -> three_of_letters (unicode rt) uc w ->
  currency_code (upper uc w).
Proof.
  intros Ha (x & y & z & -> & Hl). unfold upper. rewrite Ha.
  split; [reflexivity|].
  cbn [is_ascii forallb] in Ha.
  apply andb_true_iff in Ha as [Hx Ha].
  apply andb_true_iff in Ha as [Hy Ha].
  apply andb_true_iff in Ha as [Hz _].
  inversion Hl as [|? ? Lx Hl1]; subst.
  inversion Hl1 as [|? ? Ly Hl2]; subst.
  inversion Hl2 as [|? ? Lz _]; subst.
  rewrite letter_set in Lx, Ly, Lz by assumption.
  cbn [map forallb].
  now rewrite !capital_of_letter.
Qed.

(** What the loop over the patterns returns comes from a match of one
    of them. *)
Lemma first_conversion_inv : forall shapes text amount f t,
  first_conversion rt uc (map shaped shapes) text
  = Return (Some (amount, f, t)) ->
  exists shape m,
    In shape shapes
    /\ regex_search (unicode rt) uc true (shaped shape) text = Some m
    /\ py_float (unicode rt) uc (group 1 m) = Return amount
    /\ f = upper uc (group 2 m) /\ t = upper uc (group 3 m).
Proof.
  induction shapes as [|shape shapes IH]; intros text amount f t H;
    [discriminate|].
  cbn [map first_conversion] in H.
  destruct (regex_search (unicode rt) uc true (shaped shape) text)
    as [m|] eqn:E.
  - destruct (py_float (unicode rt) uc (group 1 m)) as [x|e] eqn:F;
      [|discriminate].
    cbn [bind] in H. injection H as <- <- <-.
    exists shape, m. repeat split; auto. now left.
  - destruct (IH _ _ _ _ H) as (shape' & m & Hin & Hm).
    exists shape', m. split; [now right|exact Hm].
Qed.

Lemma first_conversion_returns : forall shapes text,
  (forall shape, In shape shapes -> In shape conversion_shapes) ->
  exists r, first_conversion rt uc (map shaped shapes) text = Return r.
Proof.
  induction shapes as [|shape shapes IH]; intros text Hs; [simpl; eauto|].
  cbn [map first_conversion].
  destruct (regex_search (unicode rt) uc true (shaped shape) text)
    as [m|] eqn:E.
  - apply search_groups_sound in E as (pre & w & post & -> & M).
    apply shaped_inv in M as (lead & amt & tail & c2 & c3 & u1 & u2 & _ & _
                              & -> & _ & _ & _ & Ma & _);
      [|apply Hs; now left].
    apply amount_inv in Ma as (_ & (c & ip & fp & Hd) & _).
    destruct (py_float_decimal _ _ _ _ Hd) as (x & Hx & _).
    cbn [group Nat.eqb]. rewrite Hx. cbn [bind]. eauto.
  - apply IH. intros s Hin. apply Hs. now right.
Qed.

End Extraction.

(** X11.  [extract_conversion_data] never raises: the amount it
    hands to [float] is always digits with an optional fraction.  On an
    ASCII text, what it returns is an amount without a minus sign and
    two codes of three capital letters each; from "convert 100 USD to
    BRL" it returns 100.0, USD and BRL. *)
Theorem extract_conversion_data_shape rt uc :
  (forall text, exists r, extract_conversion_data rt uc text = Return r)
  /\ (forall text amount f t,
        is_ascii text = true ->
        extract_conversion_data rt uc text = Return (Some (amount, f, t)) ->
        currency_code f /\ currency_code t /\ is_negative amount = false)
  /\ extract_conversion_data rt uc (of_string "convert 100 USD to BRL")
     = Return (Some (float_hundred, of_string "USD", of_string "BRL")).
Proof.
  split; [|split].
  - intros text. unfold extract_conversion_data.
    rewrite conversion_patterns_shaped.
    apply first_conversion_returns. auto.
  - intros text amount f t Ha H. unfold extract_conversion_data in H.
    rewrite conversion_patterns_shaped in H.
    apply first_conversion_inv in H as (shape & m & Hin & Hm & Hf & -> & ->).
    apply search_groups_sound in Hm as (pre & w & post & -> & M).
    apply shaped_inv in M as (lead & amt & tail & c2 & c3 & u1 & u2 & -> & ->
                              & -> & L2 & L3 & _ & Ma & _); [|exact Hin].
    cbn [group Nat.eqb] in *.
    rewrite !is_ascii_app in Ha.
    repeat match goal with
           | H : _ && _ = true |- _ => apply andb_true_iff in H as [? ?]
           end.
    split; [now apply (upper_letters rt)|].
    split; [now apply (upper_letters rt)|].
    apply amount_inv in Ma as (_ & (c & ip & fp & Hd) & _).
    destruct (py_float_decimal rt uc _ _ _ _ Hd) as (x & Hx & Hs).
    rewrite Hx in Hf. now injection Hf as <-.
  - vm_compute. reflexivity.
Qed.

(** *** The classifier and the parser of currency queries *)

Section Covering.

Variable rt : runtime.
Variable uc : unicode_case.

Lemma digits_run ic (d : str) prev next g :
  d <> [] -> forallb (py_isdecimal (unicode rt)) d = true ->
  matches (unicode rt) uc ic digits prev d next g g.
Proof.
  destruct d as [|c d]; [congruence|]. intros _ H.
  cbn [forallb] in H. apply andb_true_iff in H as [Hc Hd].
  apply m_plus.
  - now rewrite digit_set.
  - rewrite <- Hd. apply forallb_eq. intros x. apply digit_set.
Qed.

(** A match of a pattern with a lead holds a match of the lead followed
    by digits. *)
Lemma lead_covered shape q prev w next m :
  In shape conversion_shapes ->
  anchor_free (cat (fst shape)) = true ->
  lowers (unicode rt) uc (cat (fst shape ++ [digits])) q = true ->
  matches (unicode rt) uc true (shaped shape) prev w next [] m ->
  is_ascii w = true ->
  exists w1 w2,
    w = w1 ++ w2
    /\ forall prev' next',
         matches (unicode rt) uc false q prev' (map ascii_lower w1) next'
           [] [].
Proof.
  intros Hin Ha Hl M Hw.
  apply shaped_inv in M as (lead & amt & tail & c2 & c3 & u1 & u2 & -> & _
                            & _ & _ & _ & Ml & Ma & _); [|exact Hin].
  apply amount_inv in Ma as (_ & _ & (d & rest & -> & Hd & Hdd) & _).
  exists (lead ++ d), (rest ++ tail). split.
  { now rewrite <- !app_assoc. }
  intros prev' next'.
  apply lowers_matches
    with (r := cat (fst shape ++ [digits])) (prev := prev) (next := [])
         (g := []) (g' := []); [|exact Hl|].
  - eapply cat_join.
    + apply (matches_context _ _ _ _ _ _ _ _ _ Ml Ha).
    + cbn [cat fold_right]. rewrite <- (app_nil_r d).
      econstructor; [now apply digits_run|constructor].
  - rewrite !is_ascii_app in Hw.
    repeat match goal with
           | H : _ && _ = true |- _ => apply andb_true_iff in H as [? ?]
           end.
    rewrite is_ascii_app. now apply andb_true_iff.
Qed.

(** A match of the first pattern holds a match of digits followed by the
    tail. *)
Lemma tail_covered shape q prev w next m :
  In shape conversion_shapes ->
  anchor_free (cat (conversion_tail (snd shape))) = true ->
  lowers (unicode rt) uc (cat (digits :: conversion_tail (snd shape))) q
  = true ->
  matches (unicode rt) uc true (shaped shape) prev w next [] m ->
  is_ascii w = true ->
  exists w0 w1,
    w = w0 ++ w1
    /\ forall prev' next',
         matches (unicode rt) uc false q prev' (map ascii_lower w1) next'
           [] [].
Proof.
  intros Hin Ha Hl M Hw.
  apply shaped_inv in M as (lead & amt & tail & c2 & c3 & u1 & u2 & -> & _
                            & _ & _ & _ & _ & Ma & Mt); [|exact Hin].
  apply amount_inv in Ma as (_ & _ & _ & (rest & d & -> & Hd & Hdd)).
  exists (lead ++ rest), (d ++ tail). split.
  { now rewrite <- !app_assoc. }
  intros prev' next'.
  apply lowers_matches
    with (r := cat (digits :: conversion_tail (snd shape))) (prev := prev)
         (next := []) (g := [(1%nat, rest ++ d)]) (g' := m);
    [|exact Hl|].
  - cbn [cat fold_right]. econstructor.
    + now apply digits_run.
    + apply (matches_context _ _ _ _ _ _ _ _ _ Mt Ha).
  - rewrite !is_ascii_app in Hw.
    repeat match goal with
           | H : _ && _ = true |- _ => apply andb_true_iff in H as [? ?]
           end.
    rewrite is_ascii_app. now apply andb_true_iff.
Qed.

Lemma query_found q (a b c : str) :
  In q query_patterns ->
  is_ascii (a ++ b ++ c) = true ->
  (forall prev' next',
     matches (unicode rt) uc false q prev' (map ascii_lower b) next' [] []) ->
  is_currency_query rt uc (a ++ b ++ c) = true.
Proof.
  intros Hq Ha M. unfold is_currency_query, lower. rewrite Ha.
  apply existsb_exists. exists q. split; [exact Hq|].
  rewrite !map_app. unfold regex_search.
  destruct (search_groups_complete (unicode rt) uc false q
              (map ascii_lower a) None (map ascii_lower b)
              (map ascii_lower c) [] (M _ _)) as [g' ->].
  reflexivity.
Qed.

End Covering.

(** X12.  On an ASCII text, whatever [extract_conversion_data] can
    parse, [is_currency_query] accepts: a query that the parser
    understands is never turned away by the classifier. *)
Theorem parsed_query_is_currency_query rt uc text r :
  is_ascii text = true ->
  extract_conversion_data rt uc text = Return (Some r) ->
  is_currency_query rt uc text = true.
Proof.
  intros Ha H. destruct r as [[amount f] t].
  unfold extract_conversion_data in H.
  rewrite conversion_patterns_shaped in H.
  apply first_conversion_inv in H as (shape & m & Hin & Hm & _).
  apply search_groups_sound in Hm as (pre & w & post & -> & M).
  assert (Hw : is_ascii w = true).
  { rewrite !is_ascii_app in Ha.
    apply andb_true_iff in Ha as [_ Ha].
    now apply andb_true_iff in Ha as [Ha _]. }
  assert (C : exists q w0 w1 w2,
            In q query_patterns /\ w = w0 ++ w1 ++ w2
            /\ forall prev' next',
                 matches (unicode rt) uc false q prev' (map ascii_lower w1)
                   next' [] []).
  { pose proof Hin as Hin'.
    destruct Hin' as [<- | [<- | [<- | [<- | []]]]].
    - destruct (tail_covered rt uc _ (nth 1 query_patterns Eps) _ _ _ _
                  Hin eq_refl eq_refl M Hw) as (w0 & w1 & -> & Q).
      exists (nth 1 query_patterns Eps), w0, w1, [].
      rewrite app_nil_r. repeat split; auto. simpl. auto.
    - destruct (lead_covered rt uc _ (nth 2 query_patterns Eps) _ _ _ _
                  Hin eq_refl eq_refl M Hw) as (w1 & w2 & -> & Q).
      exists (nth 2 query_patterns Eps), [], w1, w2.
      repeat split; auto. simpl. auto.
    - destruct (lead_covered rt uc _ (nth 3 query_patterns Eps) _ _ _ _
                  Hin eq_refl eq_refl M Hw) as (w1 & w2 & -> & Q).
      exists (nth 3 query_patterns Eps), [], w1, w2.
      repeat split; auto. simpl. auto 6.
    - destruct (lead_covered rt uc _ (nth 4 query_patterns Eps) _ _ _ _
                  Hin eq_refl eq_refl M Hw) as (w1 & w2 & -> & Q).
      exists (nth 4 query_patterns Eps), [], w1, w2.
      repeat split; auto. simpl. auto 7. }
  destruct C as (q & w0 & w1 & w2 & Hq & -> & Q).
  replace (pre ++ (w0 ++ w1 ++ w2) ++ post)
    with ((pre ++ w0) ++ w1 ++ (w2 ++ post))
    by (now rewrite <- !app_assoc).
  apply (query_found rt uc q); [exact Hq| |exact Q].
  rewrite <- Ha. now rewrite <- !app_assoc.
Qed.

Lemma parsed_query_is_currency_query_witness :
  is_ascii (of_string "How much is 5 gbp IN jpy?") = true
  /\ is_currency_query sample_runtime sample_case
       (of_string "How much is 5 gbp IN jpy?") = true.
Proof.
  split; [reflexivity|].
  apply (parsed_query_is_currency_query sample_runtime sample_case
           (of_string "How much is 5 gbp IN jpy?")
           (decimal_literal 5 0, of_string "GBP", of_string "JPY"));
    reflexivity.
Defined.

(** *** A query in the documented form *)

Lemma ascii_digit_ascii c : is_ascii_digit c = true -> (c <? 128)%N = true.
Proof.
  unfold is_ascii_digit. intros H. apply andb_true_iff in H as [_ H].
  apply N.leb_le in H. apply N.ltb_lt. lia.
Qed.

Lemma letter_ascii c : is_letter c = true -> (c <? 128)%N = true.
Proof.
  unfold is_letter. intros H. apply N.ltb_lt.
  apply orb_true_iff in H as [H | H]; apply andb_true_iff in H as [_ H];
    apply N.leb_le in H; lia.
Qed.

Lemma digit_not_space c : is_ascii_digit c = true -> py_isspace c = false.
Proof.
  intros H. pose proof (ascii_digit_ascii c H) as Hc.
  revert H. generalize c Hc. clear c Hc.
  assert (forall c, (c <? 128)%N = true ->
            implb (is_ascii_digit c) (negb (py_isspace c)) = true) as A.
  { apply ascii_forall. vm_compute. reflexivity. }
  intros c Hc H. specialize (A c Hc). rewrite H in A.
  now apply negb_true_iff.
Qed.

Lemma letter_not_space c : is_letter c = true -> py_isspace c = false.
Proof.
  intros H. pose proof (letter_ascii c H) as Hc.
  revert H. generalize c Hc. clear c Hc.
  assert (forall c, (c <? 128)%N = true ->
            implb (is_letter c) (negb (py_isspace c)) = true) as A.
  { apply ascii_forall. vm_compute. reflexivity. }
  intros c Hc H. specialize (A c Hc). rewrite H in A.
  now apply negb_true_iff.
Qed.

Lemma is_ascii_forall (P : char -> bool) (s : str) :
  (forall c, P c = true -> (c <? 128)%N = true) ->
  forallb P s = true -> is_ascii s = true.
Proof.
  intros H. unfold is_ascii. induction s as [|c s IH]; [reflexivity|].
  cbn [forallb]. intros Hs.
  apply andb_true_iff in Hs as [Hc Hs]. now rewrite (H c Hc), IH.
Qed.

Section DocumentedForm.

Variable rt : runtime.
Variable uc : unicode_case.

Lemma ascii_digit_decimal c :
  is_ascii_digit c = true -> py_isdecimal (unicode rt) c = true.
Proof.
  intros H. unfold py_isdecimal. now rewrite (ascii_digit_ascii c H).
Qed.

Lemma ascii_digits_decimal (ds : str) :
  forallb is_ascii_digit ds = true ->
  forallb (py_isdecimal (unicode rt)) ds = true.
Proof.
  induction ds as [|c ds IH]; [reflexivity|]. cbn [forallb]. intros H.
  apply andb_true_iff in H as [Hc H].
  now rewrite (ascii_digit_decimal c Hc), IH.
Qed.

Lemma decimal_value_ascii (ds : str) : forall acc,
  forallb is_ascii_digit ds = true ->
  fold_left (fun acc c => (10 * acc + digit_value uc c)%N) ds acc
  = fold_left (fun acc c => (10 * acc + (c - 48))%N) ds acc.
Proof.
  induction ds as [|c ds IH]; intros acc H; [reflexivity|].
  cbn [forallb] in H. apply andb_true_iff in H as [Hc H].
  cbn [fold_left]. unfold digit_value at 2.
  rewrite (ascii_digit_ascii c Hc). now apply IH.
Qed.

Lemma py_float_digits (ds : str) :
  ds <> [] -> forallb is_ascii_digit ds = true ->
  py_float (unicode rt) uc ds = Return (whole_amount ds).
Proof.
  intros Hn Hd. unfold py_float.
  rewrite (split_decimal_digits _ _ (ascii_digits_decimal ds Hd)).
  destruct ds as [|c ds]; [congruence|].
  rewrite app_nil_r. unfold decimal_value, whole_amount.
  now rewrite decimal_value_ascii.
Qed.

Lemma convert_form_match d ds x y z x' y' z' :
  forallb is_ascii_digit (d :: ds) = true ->
  forallb is_letter [x; y; z] = true ->
  forallb is_letter [x'; y'; z'] = true ->
  regex_search (unicode rt) uc true (nth 0 conversion_patterns Eps)
    (of_string "convert " ++ (d :: ds) ++ of_string " " ++ [x; y; z]
     ++ of_string " to " ++ [x'; y'; z'])
  = Some [(3%nat, [x'; y'; z']); (2%nat, [x; y; z]); (1%nat, d :: ds)].
Proof.
  intros Hd Hl Hl'.
  cbn [forallb] in Hl, Hl'.
  repeat match goal with
         | H : _ && _ = true |- _ => apply andb_true_iff in H as [? ?]
         end.
  assert (Hd' := Hd). cbn [forallb] in Hd'.
  apply andb_true_iff in Hd' as [Hd0 Hds].
  unfold regex_search. apply search_groups_here.
  set (p := nth 0 conversion_patterns Eps). vm_compute in p. subst p.
  set (a := of_string "convert "). vm_compute in a. subst a.
  set (a := of_string " "). vm_compute in a. subst a.
  set (a := of_string " to "). vm_compute in a. subst a.
  cbn [app].
  apply run_seq. apply run_opt.
  repeat (apply run_seq; apply run_once; [reflexivity|]).
  apply run_seq. apply run_plus_one; [reflexivity| |].
  { rewrite space_set. now apply digit_not_space. }
  apply run_eps. apply run_seq.
  change (d :: ds ++ ?r) with ((d :: ds) ++ r).
  apply run_group.
  { intros k' Hk. apply run_seq. cbn [app]. apply run_plus.
    - rewrite digit_set. now apply ascii_digit_decimal.
    - rewrite <- (ascii_digits_decimal ds Hds). apply forallb_eq.
      intros c. apply digit_set.
    - reflexivity.
    - apply run_seq. apply run_opt_skip; [reflexivity|].
      apply run_eps. exact Hk. }
  apply run_seq. apply run_plus_one; [reflexivity| |].
  { rewrite space_set. now apply letter_not_space. }
  apply run_seq.
  change (x :: y :: z :: ?r) with ([x; y; z] ++ r).
  apply run_group.
  { intros k' Hk. cbn [app].
    repeat (apply run_seq; apply run_once;
            [rewrite letter_set; auto using letter_ascii|]).
    apply run_eps. exact Hk. }
  apply run_seq. apply run_plus_one; [reflexivity|reflexivity|].
  apply run_seq. apply run_alt_left.
  repeat (apply run_seq; apply run_once; [reflexivity|]).
  apply run_eps.
  apply run_seq. apply run_plus_one; [reflexivity| |].
  { rewrite space_set. now apply letter_not_space. }
  apply run_seq.
  change (x' :: y' :: z' :: ?r) with ([x'; y'; z'] ++ r).
  apply run_group.
  { intros k' Hk. cbn [app].
    repeat (apply run_seq; apply run_once;
            [rewrite letter_set; auto using letter_ascii|]).
    apply run_eps. exact Hk. }
  apply run_eps. reflexivity.
Qed.

End DocumentedForm.

Lemma extract_conversion_form rt uc (ds c1 c2 : str) :
  ds <> [] -> forallb is_ascii_digit ds = true ->
  length c1 = 3%nat -> forallb is_letter c1 = true ->
  length c2 = 3%nat -> forallb is_letter c2 = true ->
  extract_conversion_data rt uc
    (of_string "convert " ++ ds ++ of_string " " ++ c1 ++ of_string " to "
     ++ c2)
  = Return (Some (whole_amount ds, map ascii_upper c1, map ascii_upper c2)).
Proof.
  intros Hn Hd L1 H1 L2 H2.
  destruct ds as [|d ds]; [congruence|].
  destruct c1 as [|x [|y [|z [|]]]]; try discriminate.
  destruct c2 as [|x' [|y' [|z' [|]]]]; try discriminate.
  unfold extract_conversion_data, conversion_patterns.
  cbn [first_conversion].
  pose proof (convert_form_match rt uc d ds x y z x' y' z' Hd H1 H2) as M.
  cbn [nth conversion_patterns] in M. rewrite M.
  cbn [group Nat.eqb].
  rewrite (py_float_digits rt uc (d :: ds) Hn Hd). cbn [bind].
  unfold upper.
  rewrite (is_ascii_forall is_letter _ letter_ascii H1).
  rewrite (is_ascii_forall is_letter _ letter_ascii H2).
  reflexivity.
Qed.

(** X13.  A query "convert N AAA to BBB", N written in ASCII digits
    and the two codes in three letters of either case, is parsed as the
    amount N and the two codes in capitals, and [handle_query] answers
    it with [convert] of these. *)
Theorem convert_form_parses rt uc (m1 m2 m3 : method) (ds c1 c2 : str) :
  ds <> [] -> forallb is_ascii_digit ds = true ->
  length c1 = 3%nat -> forallb is_letter c1 = true ->
  length c2 = 3%nat -> forallb is_letter c2 = true ->
  extract_conversion_data rt uc
    (of_string "convert " ++ ds ++ of_string " " ++ c1 ++ of_string " to "
     ++ c2)
  = Return (Some (whole_amount ds, map ascii_upper c1, map ascii_upper c2))
  /\ handle_query rt uc m1 m2 m3
       (of_string "convert " ++ ds ++ of_string " " ++ c1
        ++ of_string " to " ++ c2)
     = convert rt uc m1 m2 m3 (whole_amount ds) (map ascii_upper c1)
         (map ascii_upper c2).
Proof.
  intros Hn Hd L1 H1 L2 H2.
  pose proof (extract_conversion_form rt uc ds c1 c2 Hn Hd L1 H1 L2 H2) as E.
  split; [exact E|].
  unfold handle_query. rewrite E. reflexivity.
Qed.

Lemma convert_form_parses_witness :
  extract_conversion_data sample_runtime sample_case
    (of_string "convert 250 eur to Gbp")
  = Return (Some (whole_amount (of_string "250"), of_string "EUR",
                  of_string "GBP"))
  /\ handle_query sample_runtime sample_case unreachable unreachable
       unreachable (of_string "convert 250 eur to Gbp")
     = Return
         (of_string
            "<float> EUR = 214.71 GBP (Approx. rate: 0.858824) [OFFLINE]").
Proof.
  destruct (convert_form_parses sample_runtime sample_case
              unreachable unreachable unreachable
              (of_string "250") (of_string "eur") (of_string "Gbp"))
    as [E H]; try reflexivity; [discriminate|].
  split; [exact E|]. refine (eq_trans H _). reflexivity.
Defined.

(** ** Weather queries *)

Lemma startswith_app (sub s : str) : startswith sub (sub ++ s) = true.
Proof.
  induction sub as [|c sub IH]; [reflexivity|].
  simpl. now rewrite N.eqb_refl, IH.
Qed.

Lemma startswith_inv (sub : str) : forall s,
  startswith sub s = true -> exists post, s = sub ++ post.
Proof.
  induction sub as [|c sub IH]; intros s H; [now exists s|].
  destruct s as [|c' s]; [discriminate|]. simpl in H.
  apply andb_true_iff in H as [Hc H]. apply N.eqb_eq in Hc. subst c'.
  destruct (IH s H) as [post ->]. now exists post.
Qed.

Lemma is_in_unfold (sub s : str) :
  is_in sub s
  = startswith sub s
    || match s with
       | [] => false
       | _ :: s' => is_in sub s'
       end.
Proof. destruct s; reflexivity. Qed.

(** [sub in s] holds exactly when [s] has [sub] somewhere. *)
Lemma is_in_iff (sub s : str) :
  is_in sub s = true <-> exists pre post, s = pre ++ sub ++ post.
Proof.
  split.
  - induction s as [|c s IH]; rewrite is_in_unfold; intros H.
    + rewrite orb_false_r in H. apply startswith_inv in H as [post ->].
      now exists [], post.
    + apply orb_true_iff in H as [H | H].
      * apply startswith_inv in H as [post ->]. now exists [], post.
      * destruct (IH H) as (pre & post & ->). now exists (c :: pre), post.
  - intros (pre & post & ->). induction pre as [|c pre IH].
    + rewrite is_in_unfold. cbn [app]. now rewrite startswith_app.
    + cbn [app]. rewrite is_in_unfold, IH. apply orb_true_r.
Qed.

(** X14.  [is_weather_query] refuses the empty text; an ASCII text
    is a weather query exactly when it holds, anywhere and in any mix of
    upper and lower case, one of the keywords (also inside a longer
    word). *)
Theorem is_weather_query_keywords uc :
  is_weather_query uc [] = false
  /\ forall text,
       is_ascii text = true ->
       (is_weather_query uc text = true
        <-> exists pre word post,
              text = pre ++ word ++ post
              /\ In (map ascii_lower word) weather_keywords).
Proof.
  split; [reflexivity|]. intros text Ha. split.
  - destruct text as [|c text]; [discriminate|].
    unfold is_weather_query, lower. rewrite Ha. intros H.
    apply existsb_exists in H as (k & Hk & H).
    apply is_in_iff in H as (pre' & post' & E).
    apply map_eq_app in E as (pre & rest & -> & <- & E).
    apply map_eq_app in E as (word & post & -> & <- & <-).
    exists pre, word, post. auto.
  - intros (pre & word & post & -> & Hk).
    assert (Hne : pre ++ word ++ post <> []).
    { intros E. apply app_eq_nil in E as [_ E].
      apply app_eq_nil in E as [-> _].
      revert Hk. vm_compute. intuition discriminate. }
    unfold is_weather_query, lower. rewrite Ha.
    destruct (pre ++ word ++ post) eqn:E; [congruence|]. rewrite <- E.
    apply existsb_exists. exists (map ascii_lower word). split; [exact Hk|].
    apply is_in_iff. exists (map ascii_lower pre), (map ascii_lower post).
    now rewrite !map_app.
Qed.

(** *** Stripping *)

Lemma lstrip_head (s : str) c r : lstrip s = c :: r -> py_isspace c = false.
Proof.
  induction s as [|a s IH]; [discriminate|]. simpl.
  destruct (py_isspace a) eqn:E; [exact IH|].
  intros H. injection H as <- _. exact E.
Qed.

Lemma lstrip_length (s : str) : (length (lstrip s) <= length s)%nat.
Proof.
  induction s as [|a s IH]; simpl; [lia|].
  destruct (py_isspace a); simpl; lia.
Qed.

Lemma lstrip_same_length (s : str) :
  length (lstrip s) = length s -> lstrip s = s.
Proof.
  destruct s as [|a s]; [reflexivity|]. simpl.
  destruct (py_isspace a); [|reflexivity].
  pose proof (lstrip_length s) as L. intros E. lia.
Qed.

Lemma lstrip_fixed (s : str) :
  match s with
  | c :: _ => py_isspace c = false
  | [] => True
  end -> lstrip s = s.
Proof. destruct s as [|c s]; [reflexivity|]. simpl. now intros ->. Qed.

(** A string that [strip] leaves as it is has no whitespace at either
    end. *)
Lemma strip_fixed_ends (s : str) :
  strip s = s -> lstrip s = s /\ lstrip (rev s) = rev s.
Proof.
  unfold strip. intros H.
  pose proof (lstrip_length s) as L1.
  pose proof (lstrip_length (rev (lstrip s))) as L2.
  assert (L : length (rev (lstrip (rev (lstrip s)))) = length s)
    by now rewrite H.
  rewrite !length_rev in *.
  assert (E1 : lstrip s = s).
  { apply lstrip_same_length. apply Nat.le_antisymm; [exact L1|].
    rewrite <- L. exact L2. }
  rewrite E1 in *. split; [reflexivity|].
  apply lstrip_same_length. rewrite L. symmetry. apply length_rev.
Qed.

Lemma strip_of_ends (s : str) :
  lstrip s = s -> lstrip (rev s) = rev s -> strip s = s.
Proof.
  intros H1 H2. unfold strip. now rewrite H1, H2, rev_involutive.
Qed.

(** *** A query in the documented form *)

Lemma place_char_ascii c : place_char c = true -> (c <? 128)%N = true.
Proof.
  unfold place_char. intros H.
  apply orb_true_iff in H as [H | H];
    [apply orb_true_iff in H as [H | H]|].
  - now apply letter_ascii.
  - now apply ascii_digit_ascii.
  - apply existsb_exists in H as (x & Hx & E). apply N.eqb_eq in E. subst x.
    simpl in Hx. destruct Hx as [<- | [<- | [<- | [<- | []]]]]; reflexivity.
Qed.

Section LocationForm.

Variable ucd : unicode_db.
Variable uc : unicode_case.

Lemma place_char_set c :
  place_char c = true ->
  in_set ucd uc true
    [Range 65 90; Range 97 122; Range 192 255; Range 48 57; Lit 46; Lit 45;
     Lit 44; ClassSpace]%N c = true.
Proof.
  intros H. pose proof (place_char_ascii c H) as Hc.
  revert H. generalize c Hc. clear c Hc.
  assert (forall c, (c <? 128)%N = true ->
            implb (place_char c)
              (in_set ucd uc true
                 [Range 65 90; Range 97 122; Range 192 255; Range 48 57;
                  Lit 46; Lit 45; Lit 44; ClassSpace]%N c) = true) as A.
  { apply ascii_forall. vm_compute. reflexivity. }
  intros c Hc H. specialize (A c Hc). now rewrite H in A.
Qed.

Lemma search_skip r prev c (s : str) m :
  re_run ucd uc true r (fun _ g => Some g) (prev, c :: s) [] = None ->
  search_groups ucd uc true r (Some c) s = Some m ->
  search_groups ucd uc true r prev (c :: s) = Some m.
Proof. intros H H'. now rewrite search_groups_skip. Qed.

Lemma location_form_match lead n0 (name q : str) :
  In lead place_leads ->
  py_isspace n0 = false ->
  forallb place_char (n0 :: name) = true ->
  q = [] \/ q = of_string "?" ->
  regex_search ucd uc true location_pattern
    (lead ++ of_string " " ++ (n0 :: name) ++ q)
  = Some [(1%nat, n0 :: name)].
Proof.
  intros Hin Hs Hp Hq. unfold regex_search.
  cbn [forallb] in Hp. apply andb_true_iff in Hp as [Hp0 Hp].
  assert (Hall : forallb
                   (in_set ucd uc true
                      [Range 65 90; Range 97 122; Range 192 255; Range 48 57;
                       Lit 46; Lit 45; Lit 44; ClassSpace]%N) name = true).
  { apply forallb_forall. intros x Hx. apply place_char_set.
    rewrite forallb_forall in Hp. now apply Hp. }
  set (p := location_pattern). vm_compute in p. subst p.
  set (a := of_string " "). vm_compute in a. subst a.
  assert (End : re_run ucd uc true
                  (Seq (Opt (Chars [Lit 63%N] Once)) (Seq EndOfString Eps))
                  (fun _ g => Some g)
                  (last_of (Some 32%N) (n0 :: name), q)
                  [(1%nat, n0 :: name)]
                = Some [(1%nat, n0 :: name)]).
  { apply run_seq. destruct Hq as [-> | ->].
    - apply run_opt_skip; [reflexivity|]. reflexivity.
    - apply run_opt. apply run_once; [reflexivity|]. reflexivity. }
  assert (Tail : forall prev,
            re_run ucd uc true (Chars [ClassSpace] Plus)
              (re_run ucd uc true
                 (Seq
                    (Group 1
                       (Chars
                          [Range 65 90; Range 97 122; Range 192 255;
                           Range 48 57; Lit 46; Lit 45; Lit 44; ClassSpace]%N
                          Plus))
                    (Seq (Opt (Chars [Lit 63%N] Once))
                       (Seq EndOfString Eps)))
                 (fun _ g => Some g))
              (prev, 32%N :: (n0 :: name) ++ q) []
            = Some [(1%nat, n0 :: name)]).
  { intros prev. apply run_plus_one; [reflexivity| |].
    { cbn [app]. now rewrite space_set. }
    apply run_seq. apply run_group; [|exact End].
    intros k' Hk'. cbn [app]. apply run_plus; auto.
    - now apply place_char_set.
    - destruct Hq as [-> | ->]; [exact I|reflexivity]. }
  unfold place_leads in Hin. simpl in Hin.
  destruct Hin as [<- | [<- | [<- | [<- | [<- | []]]]]];
    match goal with
    | |- context [of_string ?s] =>
        set (a := of_string s); vm_compute in a; subst a
    end;
    cbn [app];
    repeat (apply search_skip; [reflexivity|]);
    apply search_groups_here;
    apply run_seq; (apply run_boundary; [reflexivity|]);
    apply run_seq;
    first
      [ apply run_alt_left;
        repeat (apply run_seq; apply run_once; [reflexivity|]);
        apply run_eps; apply run_seq; apply Tail
      | apply run_alt_right; [reflexivity|]; apply run_alt_left;
        repeat (apply run_seq; apply run_once; [reflexivity|]);
        apply run_eps; apply run_seq; apply Tail
      | apply run_alt_right; [reflexivity|];
        apply run_alt_right; [reflexivity|];
        repeat (apply run_seq; apply run_once; [reflexivity|]);
        apply run_eps; apply run_seq; apply Tail ].
Qed.

End LocationForm.

Lemma stripped_head (n0 : char) (name : str) :
  strip (n0 :: name) = n0 :: name -> py_isspace n0 = false.
Proof.
  intros Hs. destruct (strip_fixed_ends _ Hs) as [Hl _].
  simpl in Hl. destruct (py_isspace n0) eqn:E; [|reflexivity].
  pose proof (lstrip_length name) as L. rewrite Hl in L. simpl in L. lia.
Qed.

(** A question of the documented form has no blank at either end. *)
Lemma location_form_stripped (lead name q : str) :
  In lead place_leads ->
  name <> [] -> strip name = name ->
  q = [] \/ q = of_string "?" ->
  strip (lead ++ of_string " " ++ name ++ q)
  = lead ++ of_string " " ++ name ++ q.
Proof.
  intros Hin Hn Hs Hq.
  destruct (strip_fixed_ends name Hs) as [Hl Hr].
  destruct name as [|n0 name]; [congruence|].
  apply strip_of_ends.
  - apply lstrip_fixed. unfold place_leads in Hin. simpl in Hin.
    destruct Hin as [<- | [<- | [<- | [<- | [<- | []]]]]]; reflexivity.
  - rewrite !rev_app_distr. apply lstrip_fixed.
    destruct Hq as [-> | ->]; [|reflexivity].
    cbn [rev app]. rewrite <- app_assoc.
    destruct (rev name ++ [n0]) as [|c r] eqn:E.
    + destruct (rev name); discriminate.
    + cbn [app]. eapply lstrip_head.
      cbn [rev] in Hr. rewrite E in Hr. exact Hr.
Qed.

(** X15.  From a query made of one of the leads "weather in",
    "forecast in", "tempo em", "clima em" or "pronostico en", a blank,
    and a place name written with ASCII letters, digits, points,
    hyphens, commas and blanks that neither starts nor ends with a
    blank, with or without a final question mark, [extract_location]
    returns the place name. *)
Theorem location_form_found ucd uc (lead name q : str) :
  In lead place_leads ->
  name <> [] -> forallb place_char name = true -> strip name = name ->
  q = [] \/ q = of_string "?" ->
  extract_location ucd uc (lead ++ of_string " " ++ name ++ q) = Some name.
Proof.
  intros Hin Hn Hp Hs Hq.
  pose proof (location_form_stripped lead name q Hin Hn Hs Hq) as Ht.
  destruct name as [|n0 name]; [congruence|].
  pose proof (stripped_head n0 name Hs) as Hn0.
  unfold extract_location.
  destruct (lead ++ of_string " " ++ (n0 :: name) ++ q) as [|c0 text'] eqn:Et.
  { unfold place_leads in Hin. simpl in Hin.
    destruct Hin as [<- | [<- | [<- | [<- | [<- | []]]]]]; discriminate. }
  rewrite Ht. rewrite <- Et.
  rewrite (location_form_match ucd uc lead n0 name q Hin Hn0 Hp Hq).
  cbn [group Nat.eqb]. now rewrite Hs.
Qed.

Lemma location_form_found_witness :
  extract_location ascii_only sample_case
    (of_string "clima em Rio de Janeiro?")
  = Some (of_string "Rio de Janeiro").
Proof.
  apply (location_form_found ascii_only sample_case (of_string "clima em")
           (of_string "Rio de Janeiro") (of_string "?")).
  - simpl. auto.
  - discriminate.
  - reflexivity.
  - reflexivity.
  - now right.
Defined.

(** ** The program: its configuration *)

Lemma json_get_some_in k (d : dict) :
  In k (map fst d) -> json_get k d <> None.
Proof.
  induction d as [|[k' v] d IH]; [intros []|]. cbn [map fst json_get].
  destruct (str_eqb k k') eqn:E; [discriminate|].
  intros [->|H]; [now rewrite str_eqb_refl in E|auto].
Qed.

(** The keys of a merged dict are keys of one of the two. *)
Lemma merge_items_domain rec : forall items out m,
  merge_items rec out items = Return m ->
  forall k, json_get k m <> None ->
  json_get k out <> None \/ In k (map fst items).
Proof.
  induction items as [|[k0 v] items IH]; intros out m H k Hk.
  - injection H as <-. now left.
  - apply merge_items_first in H as (new & _ & H).
    destruct (IH _ _ H k Hk) as [Ho|Hi]; [|right; now right].
    destruct (str_eqb k0 k) eqn:E.
    + apply str_eqb_eq in E as ->. right. now left.
    + left. rewrite json_get_set_other in Ho; [exact Ho|].
      intros ->. now rewrite str_eqb_refl in E.
Qed.

Lemma _deep_merge_domain n a b m k :
  _deep_merge n a b = Return m -> json_get k m <> None ->
  json_get k a <> None
  \/ exists items, b = JDict items /\ In k (map fst items).
Proof.
  intros H Hk. destruct n as [|n]; [discriminate|].
  destruct b; try discriminate. cbn [_deep_merge] in H.
  destruct (merge_items_domain _ _ _ _ H k Hk) as [Ha|Hb]; [now left|].
  right. eauto.
Qed.

(** A key that a merged dict has one level down is there in the first
    dict or in an item of the second. *)
Lemma merge_items_nested n k k2 : forall items out m d,
  merge_items (_deep_merge n) out items = Return m ->
  json_get k m = Some (JDict d) -> json_get k2 d <> None ->
  (exists d0, json_get k out = Some (JDict d0) /\ json_get k2 d0 <> None)
  \/ (exists d1, In (k, JDict d1) items /\ json_get k2 d1 <> None).
Proof.
  induction items as [|[k0 v] items IH]; intros out m d H G G2.
  - injection H as <-. left. eauto.
  - apply merge_items_first in H as (new & Hnew & H).
    destruct (IH _ _ _ H G G2) as [(d0 & Ho & Ho2)|(d1 & Hi & Hi2)];
      [|right; exists d1; split; [now right|exact Hi2]].
    destruct (str_eqb k0 k) eqn:E.
    + apply str_eqb_eq in E as ->. rewrite json_get_set_same in Ho.
      injection Ho as ->. unfold merged_value in Hnew.
      destruct v as [|b|z|x|s|l|vd]; try discriminate Hnew.
      destruct (json_get k out) as [[|b|z|x|s|l|sub]|] eqn:Go;
        try (injection Hnew as ->; right; exists vd;
             split; [now left|exact Ho2]).
      destruct Hnew as (merged & Hm & Hd). injection Hd as ->.
      destruct (_deep_merge_domain _ _ _ _ k2 Hm Ho2)
        as [Hs|(items' & Ei & Hin)].
      * left. eauto.
      * injection Ei as <-. right. exists vd. split; [now left|].
        now apply json_get_some_in.
    + left. exists d0. split; [|exact Ho2].
      rewrite json_get_set_other in Ho; [exact Ho|].
      intros ->. now rewrite str_eqb_refl in E.
Qed.

Lemma subscript_returns obj key v :
  subscript obj key = Return v ->
  exists d, obj = JDict d /\ json_get (of_string key) d = Some v.
Proof.
  destruct obj; try discriminate. cbn [subscript].
  destruct (json_get _ _) eqn:E; [|discriminate].
  intros H. injection H as <-. eauto.
Qed.

Lemma ui_messages_returns cfg msgs :
  ui_messages cfg = Return msgs ->
  exists ui,
    json_get (of_string "ui") cfg = Some (JDict ui)
    /\ json_get (of_string "currency_message") ui
       = Some (UI_CURRENCY_MSG msgs).
Proof.
  unfold ui_messages.
  destruct (subscript (JDict cfg) "ui") as [u|] eqn:U; [|discriminate].
  cbn [bind].
  destruct (subscript u "math_message"); [|discriminate].
  destruct (subscript u "llm_message"); [|discriminate].
  destruct (subscript u "weather_message"); [|discriminate].
  destruct (subscript u "currency_message") as [c|] eqn:C; [|discriminate].
  cbn [bind]. intros H. injection H as <-. cbn [UI_CURRENCY_MSG].
  apply subscript_returns in U as (d & Ed & U). injection Ed as <-.
  apply subscript_returns in C as (ui & -> & C). eauto.
Qed.

Lemma configure_returns rt uc env n file msgs :
  configure rt uc env n file = Return msgs ->
  exists cfg,
    load_config n file = Return cfg /\ ui_messages cfg = Return msgs.
Proof.
  unfold configure. destruct (load_dotenv env); [|discriminate].
  cbn [bind]. destruct (load_config n file) as [cfg|]; [|discriminate].
  cbn [bind]. destruct (clients rt uc env cfg); [|discriminate].
  cbn [bind]. eauto.
Qed.

Lemma ui_messages_defaults :
  ui_messages _DEFAULTS = raise KeyError "'currency_message'".
Proof. reflexivity. Qed.

(** X16.  The defaults do not hold the message of the currency
    path, which the module reads like the three others: the program gets
    past its configuration only when [config.json] is there, loads as a
    dict, and has under ["ui"] a dict with the key
    ["currency_message"].  Without the file it never starts: it stops on
    what the loading of [.env] or the set-up of its clients raises, which
    is the [RuntimeError] of the missing key when [GROQ_API_KEY] is not
    set, and after a set-up that went through, on the [KeyError] of
    ['currency_message']. *)
Theorem configure_needs_currency_message rt uc env n :
  (forall file msgs,
     configure rt uc env n file = Return msgs ->
     exists data ui,
       file = Loaded (Return (JDict data))
       /\ In (of_string "ui", JDict ui) data
       /\ json_get (of_string "currency_message") ui <> None)
  /\ (exists e, configure rt uc env n Missing = Raise e)
  /\ (load_dotenv env = Return tt ->
      clients rt uc env _DEFAULTS = Return tt ->
      configure rt uc env n Missing = raise KeyError "'currency_message'")
  /\ (forall text x,
        load_dotenv env = Return tt ->
        py_str env (JFloat (S754_zero false)) = Return text ->
        py_float (unicode rt) uc (getenv_or env "LLM_TEMPERATURE" text)
        = Return x ->
        getenv env "GROQ_API_KEY" = None
        \/ getenv env "GROQ_API_KEY" = Some [] ->
        configure rt uc env n Missing
        = raise RuntimeError "Missing GROQ_API_KEY in .env").
Proof.
  split; [|split; [|split]].
  - intros file msgs H.
    apply configure_returns in H as (cfg & L & H).
    apply ui_messages_returns in H as (ui & U & C).
    assert (C' : json_get (of_string "currency_message") ui <> None)
      by (rewrite C; discriminate).
    destruct file as [|[data|]]; cbn [load_config bind] in L.
    + injection L as <-. vm_compute in U. injection U as <-.
      vm_compute in C. discriminate.
    + destruct n as [|n]; [discriminate|].
      destruct (json_truthy data).
      * destruct data as [| | | | | |items]; try discriminate.
        cbn [_deep_merge] in L.
        destruct (merge_items_nested _ _ _ _ _ _ _ L U C')
          as [(d0 & D & D2)|(d1 & Hin & D2)].
        -- vm_compute in D. injection D as <-. now vm_compute in D2.
        -- eauto.
      * injection L as <-. vm_compute in U. injection U as <-.
        vm_compute in C. discriminate.
    + discriminate.
  - unfold configure.
    destruct (load_dotenv env) as [[]|e]; [|eexists; reflexivity].
    cbn [bind load_config].
    destruct (clients rt uc env _DEFAULTS) as [[]|e];
      [|eexists; reflexivity].
    cbn [bind]. rewrite ui_messages_defaults. eexists. reflexivity.
  - intros D C. unfold configure. rewrite D. cbn [bind load_config].
    rewrite C. reflexivity.
  - intros text x D T F K. unfold configure. rewrite D.
    cbn [bind load_config]. unfold clients.
    change (setting _DEFAULTS "llm" "model")
      with (@Return json (JStr (of_string "compound-beta-mini"))).
    change (setting _DEFAULTS "llm" "temperature")
      with (@Return json (JFloat (S754_zero false))).
    change (setting _DEFAULTS "llm" "max_tokens")
      with (@Return json (JInt 512)).
    cbn [bind]. rewrite T. cbn [bind]. rewrite F. cbn [bind py_int].
    destruct K as [-> | ->]; reflexivity.
Qed.

Lemma configure_needs_currency_message_witness :
  (exists msgs data ui,
     configure sample_runtime sample_case sample_environment 2 sample_config
     = Return msgs
     /\ sample_config = Loaded (Return (JDict data))
     /\ In (of_string "ui", JDict ui) data
     /\ json_get (of_string "currency_message") ui <> None)
  /\ (load_dotenv sample_environment = Return tt
      /\ clients sample_runtime sample_case sample_environment _DEFAULTS
         = Return tt
      /\ configure sample_runtime sample_case sample_environment 2 Missing
         = raise KeyError "'currency_message'")
  /\ (getenv keyless_environment "GROQ_API_KEY" = None
      /\ configure sample_runtime sample_case keyless_environment 2 Missing
         = raise RuntimeError "Missing GROQ_API_KEY in .env").
Proof.
  split; [|split].
  - eexists.
    destruct (proj1 (configure_needs_currency_message sample_runtime
                       sample_case sample_environment 2)
                sample_config _ eq_refl)
      as (data & ui & H).
    exists data, ui. split; [reflexivity|exact H].
  - split; [reflexivity|]. split; [reflexivity|].
    apply (proj1 (proj2 (proj2 (configure_needs_currency_message
                                  sample_runtime sample_case
                                  sample_environment 2))));
      reflexivity.
  - split; [reflexivity|].
    apply (proj2 (proj2 (proj2 (configure_needs_currency_message
                                  sample_runtime sample_case
                                  keyless_environment 2)))
             (of_string "<value>")
             (decimal_literal 2 1));
      [reflexivity | reflexivity | reflexivity | left; reflexivity].
Defined.

(** ** The program: a configuration that lets it start *)

Lemma merged_value_plain rec old v new :
  merged_value rec old v new ->
  match old with
  | Some (JDict _) => False
  | _ => True
  end ->
  new = v.
Proof.
  unfold merged_value.
  destruct v; try (intros ->; reflexivity);
    destruct old as [[]|]; try (intros ->; reflexivity).
  intros _ [].
Qed.

(** A key of ["ui"] after the merge: the file's value where the file has
    one, the default elsewhere. *)
Lemma merged_message n (defaults ui merged : dict) key :
  json_get (of_string "ui") _DEFAULTS = Some (JDict defaults) ->
  NoDup (map fst ui) ->
  merge_items (_deep_merge n) defaults ui = Return merged ->
  json_get (of_string key) merged = message_of ui key.
Proof.
  intros Hd Hu Hm.
  pose proof (merge_items_get _ _ _ _ Hu Hm (of_string key)) as G.
  unfold message_of.
  destruct (json_get (of_string key) ui) as [v|] eqn:E.
  - destruct G as (new & -> & Hv). f_equal.
    apply (merged_value_plain _ _ _ _ Hv).
    injection Hd as <-. cbn [json_get].
    repeat match goal with
           | |- context [str_eqb ?a ?b] => destruct (str_eqb a b)
           end; exact I.
  - rewrite G. cbn [get_path]. rewrite Hd.
    destruct (json_get (of_string key) defaults); reflexivity.
Qed.

(** X17.  With a [config.json] that holds a dict, one item for a
    key, in which ["ui"] is a dict with the key ["currency_message"],
    the configuration is loaded, two frames being enough; and when the
    loading of [.env] and the set-up of the clients on that configuration
    go through, the program gets past its configuration: each of its
    four messages is the one of the file where the file gives one, and
    the default otherwise. *)
Theorem configure_messages rt uc env n (d ui : dict) :
  unique_keys (JDict d) -> (2 <= n)%nat ->
  json_get (of_string "ui") d = Some (JDict ui) ->
  json_get (of_string "currency_message") ui <> None ->
  exists cfg,
    load_config n (Loaded (Return (JDict d))) = Return cfg
    /\ (load_dotenv env = Return tt ->
        clients rt uc env cfg = Return tt ->
        exists msgs,
    configure rt uc env n (Loaded (Return (JDict d))) = Return msgs
    /\ Some (UI_MATH_MSG msgs) = message_of ui "math_message"
    /\ Some (UI_LLM_MSG msgs) = message_of ui "llm_message"
    /\ Some (UI_WEATHER_MSG msgs) = message_of ui "weather_message"
    /\ Some (UI_CURRENCY_MSG msgs) = message_of ui "currency_message").
Proof.
  intros Hd Hn Hui Hc.
  assert (Some1 : forall key, message_of ui key <> None ->
                    exists v, message_of ui key = Some v).
  { intros key H. destruct (message_of ui key) as [v|]; [eauto|congruence]. }
  destruct (Some1 "math_message"%string) as [v1 E1].
  { unfold message_of.
    destruct (json_get (of_string "math_message") ui); [discriminate|].
    vm_compute. discriminate. }
  destruct (Some1 "llm_message"%string) as [v2 E2].
  { unfold message_of.
    destruct (json_get (of_string "llm_message") ui); [discriminate|].
    vm_compute. discriminate. }
  destruct (Some1 "weather_message"%string) as [v3 E3].
  { unfold message_of.
    destruct (json_get (of_string "weather_message") ui); [discriminate|].
    vm_compute. discriminate. }
  destruct (Some1 "currency_message"%string) as [v4 E4].
  { unfold message_of.
    destruct (json_get (of_string "currency_message") ui); [discriminate|].
    congruence. }
  assert (Hdepth : (Nat.min (dict_depth (JDict _DEFAULTS)) (dict_depth (JDict d))
                    <= n)%nat) by (rewrite _DEFAULTS_depth; lia).
  destruct (_deep_merge_returns n _DEFAULTS d Hd Hdepth) as [cfg Hcfg].
  pose proof Hcfg as Hcfg'.
  apply _deep_merge_items in Hcfg' as (n' & -> & Hitems).
  inversion Hd as [| | | | | |d' Hnd Hsub]; subst d'.
  pose proof (merge_items_get _ _ _ _ Hnd Hitems (of_string "ui")) as G.
  rewrite Hui in G. destruct G as (new & Gui & Hv).
  destruct (json_get (of_string "ui") _DEFAULTS) as [[| | | | | |defaults]|]
    eqn:Hdef; try discriminate Hdef.
  cbn [merged_value] in Hv. destruct Hv as (merged & Hm & ->).
  apply _deep_merge_items in Hm as (n'' & -> & Hm).
  assert (Hu : NoDup (map fst ui)).
  { pose proof (Hsub _ _ (json_get_in _ _ _ Hui)) as U.
    inversion U; assumption. }
  pose proof (merged_message n'' _ ui merged "math_message" Hdef Hu Hm) as M1.
  pose proof (merged_message n'' _ ui merged "llm_message" Hdef Hu Hm) as M2.
  pose proof (merged_message n'' _ ui merged "weather_message" Hdef Hu Hm) as M3.
  pose proof (merged_message n'' _ ui merged "currency_message" Hdef Hu Hm) as M4.
  rewrite E1 in *. rewrite E2 in *. rewrite E3 in *. rewrite E4 in *.
  assert (L : load_config (S (S n'')) (Loaded (Return (JDict d)))
              = Return cfg).
  { cbn [load_config bind json_truthy].
    destruct d as [|item d]; [discriminate Hui|]. exact Hcfg. }
  exists cfg. split; [exact L|].
  intros Hl Hs.
  exists {| UI_MATH_MSG := v1; UI_LLM_MSG := v2; UI_WEATHER_MSG := v3;
            UI_CURRENCY_MSG := v4 |}.
  split; [|repeat split].
  unfold configure. rewrite Hl. cbn [bind]. rewrite L. cbn [bind].
  rewrite Hs. cbn [bind]. unfold ui_messages.
  cbn [subscript]. rewrite Gui. cbn [bind subscript].
  rewrite M1, M2, M3, M4. reflexivity.
Qed.

Lemma configure_messages_witness :
  unique_keys
    (JDict
       [ (of_string "ui",
          JDict [ (of_string "currency_message",
                   JStr (of_string "Converting...")) ]) ])
  /\ (2 <= 2)%nat
  /\ exists cfg msgs,
       load_config 2 sample_config = Return cfg
       /\ load_dotenv sample_environment = Return tt
       /\ clients sample_runtime sample_case sample_environment cfg
          = Return tt
       /\ configure sample_runtime sample_case sample_environment 2
            sample_config
          = Return msgs
       /\ UI_CURRENCY_MSG msgs = JStr (of_string "Converting...")
       /\ UI_LLM_MSG msgs = JStr (of_string "Fetching information via LLM...").
Proof.
  assert (U : unique_keys
                (JDict
                   [ (of_string "ui",
                      JDict [ (of_string "currency_message",
                               JStr (of_string "Converting...")) ]) ])).
  { constructor.
    - repeat constructor. intros [].
    - intros k v [E|[]]. injection E as <- <-. constructor.
      + repeat constructor. intros [].
      + intros k' v' [E|[]]. injection E as <- <-. constructor. }
  split; [exact U|]. split; [lia|].
  destruct (configure_messages sample_runtime sample_case sample_environment
              2 _
              [ (of_string "currency_message",
                 JStr (of_string "Converting...")) ] U (le_n 2) eq_refl)
    as (cfg & L & H); [discriminate|].
  assert (C : clients sample_runtime sample_case sample_environment cfg
              = Return tt).
  { change (load_config 2 sample_config = Return cfg) in L.
    vm_compute in L. injection L as <-. reflexivity. }
  destruct (H eq_refl C) as (msgs & E & _ & M2 & _ & M4).
  exists cfg, msgs. split; [exact L|]. split; [reflexivity|].
  split; [exact C|]. split; [exact E|].
  split; [now injection M4|now injection M2].
Defined.

(** ** The program: its loop *)

Lemma only_Exception_bind {A B : Type} (m : outcome A) (k : A -> outcome B) :
  only_Exception m -> (forall a, only_Exception (k a)) ->
  only_Exception (bind m k).
Proof.
  intros Hm Hk e. destruct m as [a|e0]; cbn [bind].
  - apply Hk.
  - intros H. injection H as <-. now apply Hm.
Qed.

Lemma only_Exception_raise {A : Type} c msg :
  is_Exception (mk_exn c msg) = true -> only_Exception (@raise A c msg).
Proof. intros H e E. injection E as <-. exact H. Qed.

Lemma only_Exception_return {A : Type} (a : A) : only_Exception (Return a).
Proof. intros e E. discriminate E. Qed.

Lemma handle_math_only_Exception rt question :
  only_Exception (handle_math rt question).
Proof.
  intros e. unfold handle_math.
  destruct (extract_expression (unicode rt) (Some question)) as [[|c expr]|].
  - intros H. now injection H as <-.
  - destruct (safe_eval rt (PyStr (c :: expr))) as [v|e0] eqn:E; cbn [bind].
    + destruct (value_str rt _) as [shown|e1] eqn:V; [discriminate|].
      cbn [bind]. intros H. injection H as <-.
      apply value_str_raises in V as [V _].
      unfold is_Exception. now rewrite V.
    + intros H. injection H as <-. apply safe_eval_raises in E.
      unfold is_Exception. now rewrite E.
  - intros H. now injection H as <-.
Qed.

Lemma _try_hardcoded_rates_only_Exception rt amount f t :
  only_Exception (_try_hardcoded_rates rt amount f t).
Proof.
  unfold _try_hardcoded_rates.
  destruct (rate_of f usd_rates) as [rf|];
    [|now apply only_Exception_raise].
  destruct (rate_of t usd_rates) as [rt'|];
    [|now apply only_Exception_raise].
  apply only_Exception_bind; [|intros a; apply only_Exception_return].
  unfold float_quotient. destruct (float_is_zero rf).
  - now apply only_Exception_raise.
  - apply only_Exception_return.
Qed.

Lemma try_methods_only_Exception : forall apis last amount f t,
  (forall api, In api apis -> only_Exception (api amount f t)) ->
  only_Exception (try_methods apis last amount f t).
Proof.
  induction apis as [|api apis IH]; intros last amount f t H.
  - now apply only_Exception_raise.
  - cbn [try_methods].
    destruct (api amount f t) as [answer|e] eqn:E.
    + apply only_Exception_return.
    + assert (X : is_Exception e = true) by (apply (H api); [now left|exact E]).
      rewrite X. apply IH. intros api' Hin. apply H. now right.
Qed.

Lemma handle_query_only_Exception rt uc (m1 m2 m3 : method) text :
  (forall amount f t, only_Exception (m1 amount f t)) ->
  (forall amount f t, only_Exception (m2 amount f t)) ->
  (forall amount f t, only_Exception (m3 amount f t)) ->
  only_Exception (handle_query rt uc m1 m2 m3 text).
Proof.
  intros H1 H2 H3. unfold handle_query, extract_conversion_data.
  rewrite conversion_patterns_shaped.
  destruct (first_conversion_returns rt uc conversion_shapes text) as [r ->];
    [auto|].
  cbn [bind]. destruct r as [[[amount f] t]|];
    [|now apply only_Exception_raise].
  unfold convert. destruct (str_eqb _ _); [apply only_Exception_return|].
  apply try_methods_only_Exception.
  intros api [<-|[<-|[<-|[<-|[]]]]]; auto.
  apply _try_hardcoded_rates_only_Exception.
Qed.

Lemma handle_weather_only_Exception rt uc w question :
  calm w -> only_Exception (handle_weather rt uc w question).
Proof.
  intros (_ & _ & _ & Hg & Hc & _). unfold handle_weather.
  destruct (extract_location _ _ _) as [[|c place]|];
    try now apply only_Exception_raise.
  apply only_Exception_bind; auto.
Qed.

Lemma path_continues w message source error call :
  only_Exception call -> snd (path w message source error call) = Continue.
Proof.
  intros H. unfold path, timed. destruct call as [out|e]; [reflexivity|].
  now rewrite (H e eq_refl).
Qed.

Lemma lower_empty uc : lower uc [] = [].
Proof. reflexivity. Qed.

Lemma turn_step rt uc ui w typed :
  at_keyboard typed -> calm w ->
  snd (turn rt uc ui w typed) = if leaves uc typed then Break else Continue.
Proof.
  intros K C. destruct typed as [line|e]; cbn [turn leaves].
  - destruct (strip line) as [|c q] eqn:S; [reflexivity|].
    change (existsb (str_eqb (lower uc (c :: q)))
              [of_string "exit"; of_string "quit"; of_string "sair"])
      with (existsb (str_eqb (lower uc (c :: q))) exit_words).
    destruct (existsb (str_eqb (lower uc (c :: q))) exit_words);
      [reflexivity|].
    destruct (is_math_question _ _).
    { cbn [snd]. destruct (path _ _ _ _ _) as [out next] eqn:P.
      cbn [snd]. change next with (snd (out, next)). rewrite <- P.
      apply path_continues, handle_math_only_Exception. }
    destruct (is_weather_query _ _).
    { destruct (path _ _ _ _ _) as [out next] eqn:P.
      cbn [snd]. change next with (snd (out, next)). rewrite <- P.
      now apply path_continues, handle_weather_only_Exception. }
    destruct C as (C1 & C2 & C3 & _ & _ & CL).
    destruct (is_currency_query _ _ _).
    { destruct (path _ _ _ _ _) as [out next] eqn:P.
      cbn [snd]. change next with (snd (out, next)). rewrite <- P.
      apply path_continues. unfold handle_currency.
      now apply handle_query_only_Exception. }
    destruct (path _ _ _ _ _) as [out next] eqn:P.
    cbn [snd]. change next with (snd (out, next)). rewrite <- P.
    apply path_continues, CL.
  - destruct (K e eq_refl) as [-> | ->]; reflexivity.
Qed.

Lemma shown_all terminal outs :
  (forall o, terminal o = None) -> shown terminal outs = (outs, None).
Proof.
  intros H. induction outs as [|o outs IH]; [reflexivity|].
  cbn [shown]. now rewrite H, IH.
Qed.

Lemma shown_refused terminal outs out e :
  shown terminal outs = (out, Some e) ->
  exists o, In o outs /\ terminal o = Some e.
Proof.
  revert out. induction outs as [|o outs IH]; intros out; cbn [shown].
  - discriminate.
  - destruct (terminal o) as [e0|] eqn:T.
    + intros H. injection H as <- <-. exists o. split; [now left|exact T].
    + destruct (shown terminal outs) as [out' r].
      intros H. injection H as <- ->.
      destruct (IH _ eq_refl) as (o' & Hin & T'). exists o'.
      split; [now right|exact T'].
Qed.

Lemma loop_crash rt uc ui terminal events e :
  Forall (fun event => at_keyboard (fst event) /\ calm (snd event)) events ->
  snd (loop rt uc ui terminal events) = Crashed e ->
  exists o, terminal o = Some e.
Proof.
  induction 1 as [|[typed w] events [K C] _ IH]; cbn [loop].
  - destruct (shown terminal _) as [out [e0|]] eqn:S; cbn [snd];
      [|discriminate].
    intros H. injection H as <-.
    destruct (shown_refused _ _ _ _ S) as (o & _ & T). eauto.
  - cbn [fst snd] in *.
    pose proof (turn_step rt uc ui w typed K C) as T.
    destruct (turn rt uc ui w typed) as [out next]. cbn [snd] in T.
    destruct (shown terminal out) as [out1 [e0|]] eqn:S; cbn [snd].
    + intros H. injection H as <-.
      destruct (shown_refused _ _ _ _ S) as (o & _ & T'). eauto.
    + subst next. destruct (leaves uc typed); [discriminate|].
      destruct (loop rt uc ui terminal events) as [out' e']. exact IH.
Qed.

(** X18.  Nothing that goes wrong while a question is answered ends
    the program, as long as it is an [Exception]: with servers that fail
    in that way only and an [input] that raises for the interrupt key or
    the end of the input only, the program crashes only on an output that
    the terminal refuses to write.  On a terminal that writes every
    output it leaves at the first exit word or keyboard exception, and
    until then waits for the next question; on one that refuses the
    banner it stops before its first prompt. *)
Theorem main_survives_exceptions rt uc ui terminal events :
  Forall (fun event => at_keyboard (fst event) /\ calm (snd event)) events ->
  (forall e,
     snd (main rt uc ui terminal events) = Crashed e ->
     exists o, terminal o = Some e)
  /\ ((forall o, terminal o = None) ->
      snd (main rt uc ui terminal events)
      = if existsb (fun event => leaves uc (fst event)) events then Left
        else Waiting)
  /\ (forall e,
        terminal (Print WELCOME_BANNER) = Some e ->
        main rt uc ui terminal events = ([], Crashed e)).
Proof.
  intros H. split; [|split].
  - intros e. unfold main.
    destruct (shown terminal [Print WELCOME_BANNER]) as [out [e0|]] eqn:S;
      cbn [snd].
    + intros E. injection E as <-.
      destruct (shown_refused _ _ _ _ S) as (o & _ & T). eauto.
    + pose proof (loop_crash rt uc ui terminal events e H) as L.
      destruct (loop rt uc ui terminal events) as [out' e']. exact L.
  - intros W. unfold main. rewrite (shown_all terminal _ W).
    destruct (loop rt uc ui terminal events) as [out e] eqn:L. cbn [snd].
    change e with (snd (out, e)). rewrite <- L. clear L out e.
    induction H as [|[typed w] events [K C] _ IH].
    + cbn [loop]. rewrite (shown_all terminal _ W). reflexivity.
    + cbn [loop existsb fst snd] in *.
      pose proof (turn_step rt uc ui w typed K C) as T.
      destruct (turn rt uc ui w typed) as [out next]. cbn [snd] in T.
      rewrite (shown_all terminal _ W).
      subst next. destruct (leaves uc typed); [reflexivity|].
      cbn [orb]. destruct (loop rt uc ui terminal events) as [out' e].
      exact IH.
  - intros e T. unfold main. cbn [shown]. rewrite T. reflexivity.
Qed.

Lemma offline_calm : calm offline.
Proof. repeat split; intros; intros e H; now injection H as <-. Qed.

Lemma main_survives_exceptions_witness :
  Forall (fun event => at_keyboard (fst event) /\ calm (snd event))
    [(Return (of_string "1/0"), offline);
     (Return (of_string "weather in Paris"), offline);
     (Return (of_string " Quit "), offline);
     (Return (of_string "2+2"), offline)]
  /\ snd (main sample_runtime sample_case sample_messages writes_all
            [(Return (of_string "1/0"), offline);
             (Return (of_string "weather in Paris"), offline);
             (Return (of_string " Quit "), offline);
             (Return (of_string "2+2"), offline)])
     = Left
  /\ main sample_runtime sample_case sample_messages ascii_terminal
       [(Return (of_string "1/0"), offline);
        (Return (of_string "weather in Paris"), offline);
        (Return (of_string " Quit "), offline);
        (Return (of_string "2+2"), offline)]
     = ([], Crashed (mk_exn (OtherException "UnicodeEncodeError")
                       "'ascii' codec can't encode characters")).
Proof.
  assert (H : Forall
                (fun event => at_keyboard (fst event) /\ calm (snd event))
                [(Return (of_string "1/0"), offline);
                 (Return (of_string "weather in Paris"), offline);
                 (Return (of_string " Quit "), offline);
                 (Return (of_string "2+2"), offline)]).
  { repeat (apply Forall_cons;
            [split; [intros e E; discriminate E|apply offline_calm]|]).
    apply Forall_nil. }
  split; [exact H|]. split.
  - exact (proj1 (proj2 (main_survives_exceptions sample_runtime sample_case
                           sample_messages writes_all _ H))
             (fun _ => eq_refl)).
  - apply (proj2 (proj2 (main_survives_exceptions sample_runtime sample_case
                           sample_messages ascii_terminal _ H))).
    reflexivity.
Defined.

(** ** The program: a calculation, from the keyboard to the screen *)

Lemma int_str_printable rt n :
  printable rt n -> int_str rt n = Return (decimal n).
Proof.
  unfold printable, int_str, decimal.
  destruct (int_max_str_digits rt) as [|limit]; [reflexivity|].
  intros [H|H]; [discriminate|]. cbn [Nat.eqb negb andb].
  destruct (S limit <? _)%nat eqn:E; [|reflexivity].
  apply Nat.ltb_lt in E. lia.
Qed.

Lemma handle_math_int rt question (expr : str) t n :
  extract_expression (unicode rt) (Some question) = Some expr ->
  ast_parse rt (source expr) = Return t ->
  int_value t = Some n ->
  within_stack rt 0 t = true ->
  roomy rt t = true ->
  printable rt n ->
  handle_math rt question = Return (expr ++ of_string " = " ++ decimal n).
Proof.
  intros He Hp Hv Hw Hr Hn.
  pose proof (extracted_nonempty _ _ _ He) as Hne.
  rewrite (handle_math_extracted rt question expr He Hne).
  rewrite (safe_eval_tree rt expr t Hne Hp).
  rewrite (_eval_int rt t n 0 Hv Hw Hr). cbn [bind value_str].
  now rewrite (int_str_printable rt n Hn).
Qed.

(** X19.  A calculation typed at the prompt is answered on the
    screen: when the line, blanks apart, is no exit word and a math
    question, and the expression found in it parses to integer
    arithmetic of value [n], which the interpreter evaluates within its
    stack and its memory and agrees to print, the program writes the
    message of the calculator and one response, whose source is the
    calculator and whose content is the expression, [" = "] and [n] in
    decimal; then it asks again.  No server takes part. *)
Theorem calculation_is_answered rt uc ui w line (expr : str) t n :
  leaves uc (Return line) = false ->
  is_math_question (unicode rt) (Some (strip line)) = true ->
  extract_expression (unicode rt) (Some (strip line)) = Some expr ->
  ast_parse rt (source expr) = Return t ->
  int_value t = Some n ->
  within_stack rt 0 t = true ->
  roomy rt t = true ->
  printable rt n ->
  turn rt uc ui w (Return line)
  = ([Prompt (of_string "You: ");
      PrintValue (UI_MATH_MSG ui);
      Print
        (format_response (of_utf8 "🧮 Calculator")
           (expr ++ of_string " = " ++ decimal n)
           (fsub (stop w) (start w)))],
     Continue).
Proof.
  intros Hx Hm He Hp Hv Hw Hr Hn.
  pose proof (handle_math_int rt _ expr t n He Hp Hv Hw Hr Hn) as Hh.
  cbn [leaves] in Hx. cbn [turn].
  destruct (strip line) as [|c q]; [discriminate Hm|].
  change (existsb (str_eqb (lower uc (c :: q)))
            [of_string "exit"; of_string "quit"; of_string "sair"])
    with (existsb (str_eqb (lower uc (c :: q))) exit_words).
  rewrite Hx, Hm. unfold path. rewrite Hh. reflexivity.
Qed.

Lemma calculation_is_answered_witness :
  leaves sample_case (Return (of_string " what is 2 + 3 * 4?")) = false
  /\ printable sample_runtime 14
  /\ turn sample_runtime sample_case sample_messages offline
       (Return (of_string " what is 2 + 3 * 4?"))
     = ([Prompt (of_string "You: ");
         PrintValue (UI_MATH_MSG sample_messages);
         Print
           (format_response (of_utf8 "🧮 Calculator") (of_string "2+3*4 = 14")
              (fsub (stop offline) (start offline)))],
        Continue).
Proof.
  assert (Hn : printable sample_runtime 14) by (right; vm_compute; lia).
  split; [reflexivity|]. split; [exact Hn|].
  refine (calculation_is_answered sample_runtime sample_case sample_messages
            offline (of_string " what is 2 + 3 * 4?") (of_string "2+3*4")
            (ast.BinOp (ast.Constant (ast.CInt 2)) ast.Add
               (ast.BinOp (ast.Constant (ast.CInt 3)) ast.Mult
                  (ast.Constant (ast.CInt 4))))
            14 _ _ _ _ _ _ _ Hn);
    reflexivity.
Defined.

(** ** The program: a conversion without network *)

(** A text without an operator is no math question. *)
Lemma no_operator_not_math ucd (text : str) :
  (forall c, In c text -> ~ In c (of_string "+-*/^")) ->
  is_math_question ucd (Some text) = false.
Proof.
  intros H. destruct text as [|c text]; [reflexivity|].
  unfold is_math_question.
  assert (Hop : existsb (fun op => contains op (c :: text))
                  [chr "+"; chr "-"; chr "*"; chr "/"; chr "^"] = false).
  { destruct (existsb _ _) eqn:E; [|reflexivity].
    apply existsb_exists in E as (op & Hin & Hc). apply contains_in in Hc.
    exfalso. exact (H op Hc Hin). }
  rewrite Hop, andb_false_r. cbn [orb].
  destruct (re_search ucd loose_pattern (c :: text)) eqn:E; [|reflexivity].
  apply re_search_iff in E as (pre & m & post & Et & Hl).
  apply loose_pattern_lang in Hl
    as (d1 & w1 & o & w2 & d2 & -> & _ & _ & _ & Ho & _).
  exfalso. apply (H o); [|exact Ho]. rewrite Et.
  apply in_or_app. right. apply in_or_app. left.
  apply in_or_app. right. apply in_or_app. right. now left.
Qed.

Lemma is_in_length (k s : str) :
  is_in k s = true -> (length k <= length s)%nat.
Proof.
  intros H. apply is_in_iff in H as (pre & post & ->).
  rewrite !length_app. lia.
Qed.

Lemma is_in_first (k s : str) c :
  is_in (c :: k) s = true -> In c s.
Proof.
  intros H. apply is_in_iff in H as (pre & post & ->).
  apply in_or_app. right. now left.
Qed.

(** A word without the separator lies on one side of it. *)
Lemma is_in_split (k a b : str) sep :
  ~ In sep k -> is_in k (a ++ sep :: b) = true ->
  is_in k a = true \/ is_in k b = true.
Proof.
  intros Hs H. apply is_in_iff in H as (pre & post & E).
  apply app_eq_app in E as [l [[Ea El] | [Ep El]]].
  - left. apply is_in_iff.
    apply app_eq_app in El as [l' [[Ek E'] | [El' E']]].
    + destruct l' as [|x l'].
      * rewrite app_nil_r in Ek. subst. exists pre, []. now rewrite app_nil_r.
      * injection E' as <- _. exfalso. apply Hs. rewrite Ek.
        apply in_or_app. right. now left.
    + subst. exists pre, l'. now rewrite app_assoc.
  - destruct l as [|x l].
    + destruct k as [|x k].
      * left. apply is_in_iff. exists [], a. reflexivity.
      * injection El as <- _. exfalso. apply Hs. now left.
    + injection El as _ ->. right. apply is_in_iff. eauto.
Qed.

Lemma lower_digits (ds : str) :
  forallb is_ascii_digit ds = true -> map ascii_lower ds = ds.
Proof.
  induction ds as [|c ds IH]; [reflexivity|]. cbn [forallb map]. intros H.
  apply andb_true_iff in H as [Hc H]. rewrite (IH H). f_equal.
  unfold is_ascii_digit in Hc. apply andb_true_iff in Hc as [_ Hc].
  apply N.leb_le in Hc. unfold ascii_lower.
  destruct (65 <=? c)%N eqn:E; [|reflexivity].
  apply N.leb_le in E. lia.
Qed.

Lemma weather_keywords_shape :
  forallb
    (fun k =>
       negb (existsb (N.eqb 32) k) && (3 <? length k)%nat
       && negb (is_ascii_digit (hd 0%N k))
       && negb (is_in k (of_string "convert")))
    weather_keywords = true.
Proof. vm_compute. reflexivity. Qed.

Section Conversion.

Variable rt : runtime.
Variable uc : unicode_case.
Variables ds c1 c2 : str.
Hypothesis ds_some : ds <> [].
Hypothesis ds_digits : forallb is_ascii_digit ds = true.
Hypothesis c1_three : length c1 = 3%nat.
Hypothesis c1_letters : forallb is_letter c1 = true.
Hypothesis c2_three : length c2 = 3%nat.
Hypothesis c2_letters : forallb is_letter c2 = true.

Lemma conversion_question_ascii :
  is_ascii (conversion_question ds c1 c2) = true.
Proof.
  unfold conversion_question. rewrite !is_ascii_app.
  rewrite (is_ascii_forall is_ascii_digit _ ascii_digit_ascii ds_digits).
  rewrite (is_ascii_forall is_letter _ letter_ascii c1_letters).
  rewrite (is_ascii_forall is_letter _ letter_ascii c2_letters).
  reflexivity.
Qed.

Lemma conversion_question_stripped :
  strip (conversion_question ds c1 c2) = conversion_question ds c1 c2.
Proof.
  apply strip_of_ends; [reflexivity|].
  apply lstrip_fixed. unfold conversion_question.
  rewrite !rev_app_distr.
  destruct c2 as [|x [|y [|z [|]]]]; try discriminate.
  cbn [rev app]. cbn [forallb] in c2_letters.
  apply andb_true_iff in c2_letters as [_ H].
  apply andb_true_iff in H as [_ H].
  apply andb_true_iff in H as [H _].
  now apply letter_not_space.
Qed.

Lemma conversion_question_not_exit :
  leaves uc (Return (conversion_question ds c1 c2)) = false.
Proof.
  cbn [leaves]. rewrite conversion_question_stripped.
  unfold lower. rewrite conversion_question_ascii.
  assert (L : (8 <= length (map ascii_lower (conversion_question ds c1 c2)))%nat).
  { rewrite length_map. unfold conversion_question. rewrite length_app.
    cbn [length of_string]. simpl. lia. }
  destruct (map ascii_lower (conversion_question ds c1 c2))
    as [|a [|b [|c [|d [|e l]]]]]; simpl in L; try lia.
  unfold exit_words. cbn [existsb].
  rewrite !str_eqb_neq; [reflexivity|..]; intros H; simpl in H;
    discriminate H.
Qed.

Lemma conversion_question_not_math :
  is_math_question (unicode rt) (Some (conversion_question ds c1 c2)) = false.
Proof.
  apply no_operator_not_math. intros c Hc Ho.
  assert (D : forall x, is_ascii_digit x = true -> ~ In x (of_string "+-*/^")).
  { intros x Hx Hin. simpl in Hin.
    destruct Hin as [<-|[<-|[<-|[<-|[<-|[]]]]]]; discriminate Hx. }
  assert (L : forall x, is_letter x = true -> ~ In x (of_string "+-*/^")).
  { intros x Hx Hin. simpl in Hin.
    destruct Hin as [<-|[<-|[<-|[<-|[<-|[]]]]]]; discriminate Hx. }
  unfold conversion_question in Hc.
  rewrite !in_app_iff in Hc.
  destruct Hc as [Hc|[Hc|[Hc|[Hc|[Hc|Hc]]]]].
  - simpl in Hc, Ho. intuition congruence.
  - apply (D c); [|exact Ho].
    now apply (proj1 (forallb_forall _ _) ds_digits).
  - simpl in Hc, Ho. intuition congruence.
  - apply (L c); [|exact Ho].
    now apply (proj1 (forallb_forall _ _) c1_letters).
  - simpl in Hc, Ho. intuition congruence.
  - apply (L c); [|exact Ho].
    now apply (proj1 (forallb_forall _ _) c2_letters).
Qed.

Lemma conversion_question_lower :
  lower uc (conversion_question ds c1 c2)
  = of_string "convert" ++ 32%N :: ds ++ 32%N :: map ascii_lower c1
    ++ 32%N :: of_string "to" ++ 32%N :: map ascii_lower c2.
Proof.
  unfold lower. rewrite conversion_question_ascii.
  unfold conversion_question. rewrite !map_app, (lower_digits ds ds_digits).
  reflexivity.
Qed.

Lemma conversion_question_not_weather :
  is_weather_query uc (conversion_question ds c1 c2) = false.
Proof.
  unfold is_weather_query.
  destruct (conversion_question ds c1 c2) eqn:Q;
    [reflexivity|rewrite <- Q; clear Q].
  rewrite conversion_question_lower.
  destruct (existsb _ weather_keywords) eqn:E; [|reflexivity].
  apply existsb_exists in E as (k & Hk & E). exfalso.
  pose proof (proj1 (forallb_forall _ _) weather_keywords_shape k Hk) as S.
  cbv beta in S.
  apply andb_true_iff in S as [S S4]. apply andb_true_iff in S as [S S3].
  apply andb_true_iff in S as [S1 S2].
  apply negb_true_iff in S1, S3, S4. apply Nat.ltb_lt in S2.
  assert (Hsp : ~ In 32%N k).
  { intros H. apply not_true_iff_false in S1. apply S1.
    apply existsb_exists. exists 32%N. split; [exact H|reflexivity]. }
  assert (Short : forall u : str,
             (length u <= 3)%nat -> is_in k u = true -> False).
  { intros u Hu H. apply is_in_length in H.
    exact (Nat.lt_irrefl _
             (Nat.lt_le_trans _ _ _ S2 (Nat.le_trans _ _ _ H Hu))). }
  apply (is_in_split k _ _ 32%N Hsp) in E as [E|E];
    [rewrite S4 in E; discriminate|].
  apply (is_in_split k _ _ 32%N Hsp) in E as [E|E].
  { destruct k as [|x k]; [simpl in S2; lia|].
    apply is_in_first in E. cbn [hd] in S3.
    rewrite (proj1 (forallb_forall _ _) ds_digits x E) in S3. discriminate. }
  apply (is_in_split k _ _ 32%N Hsp) in E as [E|E].
  { apply (Short _ (Nat.eq_le_incl _ _ (eq_trans (length_map _ _) c1_three)) E). }
  apply (is_in_split k _ _ 32%N Hsp) in E as [E|E].
  { apply (Short (of_string "to")); [simpl; lia|exact E]. }
  apply (Short _ (Nat.eq_le_incl _ _ (eq_trans (length_map _ _) c2_three)) E).
Qed.

Lemma conversion_question_is_currency :
  is_currency_query rt uc (conversion_question ds c1 c2) = true.
Proof.
  unfold is_currency_query. rewrite conversion_question_lower.
  unfold query_patterns. cbn [existsb].
  destruct ds as [|d ds']; [now elim ds_some|].
  assert (Hd := ds_digits). cbn [forallb] in Hd.
  apply andb_true_iff in Hd as [Hd0 Hds].
  replace (regex_search (unicode rt) uc false
             (cat [lit "convert"; spaces; digits]) _)
    with (Some ([] : groups)); [reflexivity|].
  symmetry. unfold regex_search. apply search_groups_here.
  set (p := cat [lit "convert"; spaces; digits]). vm_compute in p. subst p.
  set (a := of_string "convert"). vm_compute in a. subst a.
  cbn [app]. apply run_seq.
  repeat (apply run_seq; apply run_once; [reflexivity|]).
  apply run_eps. apply run_seq. apply run_plus_one; [reflexivity| |].
  { rewrite space_set. now apply digit_not_space. }
  apply run_seq.
  change (d :: ds' ++ ?r) with (d :: ds' ++ r).
  apply run_plus.
  - rewrite digit_set. now apply ascii_digit_decimal.
  - rewrite <- (ascii_digits_decimal rt ds' Hds). apply forallb_eq.
    intros c. apply digit_set.
  - rewrite digit_set. reflexivity.
  - apply run_eps. reflexivity.
Qed.

End Conversion.

Lemma upper_capitals uc (c : str) :
  forallb is_letter c = true ->
  upper uc (map ascii_upper c) = map ascii_upper c.
Proof.
  intros H. unfold upper.
  assert (U : forall x, ascii_upper (ascii_upper x) = ascii_upper x).
  { intros x. unfold ascii_upper.
    destruct ((97 <=? x) && (x <=? 122))%N eqn:E; [|now rewrite E].
    apply andb_true_iff in E as [E1 E2].
    apply N.leb_le in E1, E2.
    destruct (97 <=? x - 32)%N eqn:E3; [|reflexivity].
    apply N.leb_le in E3. lia. }
  assert (A : is_ascii (map ascii_upper c) = true).
  { unfold is_ascii. induction c as [|x c IH]; [reflexivity|].
    cbn [forallb map] in *. apply andb_true_iff in H as [Hx H].
    rewrite (IH H), andb_true_r. apply letter_ascii in Hx.
    apply N.ltb_lt in Hx. apply N.ltb_lt. unfold ascii_upper.
    destruct ((97 <=? x) && (x <=? 122))%N; lia. }
  rewrite A, map_map. apply map_ext. exact U.
Qed.

(** X20.  A conversion typed at the prompt is answered even
    without network: for the question "convert N AAA to BBB", N in ASCII
    digits and AAA, BBB two different codes of the fallback table in
    letters of either case, when the three servers fail with an
    [Exception], the program writes the message of the currency path and
    one response, whose source is the currency API and whose content is
    the answer of the fallback table for the amount N and the two codes
    in capitals; then it asks again. *)
Theorem conversion_is_answered_offline rt uc ui w (ds c1 c2 : str)
  from_rate to_rate :
  ds <> [] -> forallb is_ascii_digit ds = true ->
  length c1 = 3%nat -> forallb is_letter c1 = true ->
  length c2 = 3%nat -> forallb is_letter c2 = true ->
  map ascii_upper c1 <> map ascii_upper c2 ->
  rate_of (map ascii_upper c1) usd_rates = Some from_rate ->
  rate_of (map ascii_upper c2) usd_rates = Some to_rate ->
  down (_try_exchangerate_api w) ->
  down (_try_fixer_free w) ->
  down (_try_currencyapi_free w) ->
  turn rt uc ui w (Return (conversion_question ds c1 c2))
  = ([Prompt (of_string "You: ");
      PrintValue (UI_CURRENCY_MSG ui);
      Print
        (format_response (of_utf8 "💱 Currency API")
           (offline_answer rt (whole_amount ds) (map ascii_upper c1)
              (map ascii_upper c2) from_rate to_rate)
           (fsub (stop w) (start w)))],
     Continue).
Proof.
  intros Hn Hd L1 H1 L2 H2 Hne R1 R2 D1 D2 D3.
  assert (X : leaves uc (Return (conversion_question ds c1 c2)) = false)
    by (apply conversion_question_not_exit; assumption).
  assert (S : strip (conversion_question ds c1 c2)
              = conversion_question ds c1 c2)
    by (apply conversion_question_stripped; assumption).
  assert (H : handle_currency rt uc w (conversion_question ds c1 c2)
              = Return
                  (offline_answer rt (whole_amount ds) (map ascii_upper c1)
                     (map ascii_upper c2) from_rate to_rate)).
  { unfold handle_currency, handle_query, conversion_question.
    rewrite (extract_conversion_form rt uc ds c1 c2 Hn Hd L1 H1 L2 H2).
    cbn [bind]. rewrite convert_distinct;
      rewrite !upper_capitals by assumption; [|exact Hne].
    cbn [try_methods].
    destruct (D1 (whole_amount ds) (map ascii_upper c1) (map ascii_upper c2))
      as (e1 & -> & ->).
    destruct (D2 (whole_amount ds) (map ascii_upper c1) (map ascii_upper c2))
      as (e2 & -> & ->).
    destruct (D3 (whole_amount ds) (map ascii_upper c1) (map ascii_upper c2))
      as (e3 & -> & ->).
    now rewrite (_try_hardcoded_rates_supported rt _ _ _ _ _ R1 R2). }
  cbn [leaves] in X. rewrite S in X.
  cbn [turn]. rewrite S.
  destruct (conversion_question ds c1 c2) as [|c q] eqn:Q.
  { discriminate Q. }
  change (existsb (str_eqb (lower uc (c :: q)))
            [of_string "exit"; of_string "quit"; of_string "sair"])
    with (existsb (str_eqb (lower uc (c :: q))) exit_words).
  rewrite X, <- Q. rewrite <- Q in H.
  rewrite conversion_question_not_math by assumption.
  rewrite conversion_question_not_weather by assumption.
  rewrite conversion_question_is_currency by assumption.
  unfold path. rewrite H. reflexivity.
Qed.

Lemma unreachable_down : down unreachable.
Proof. intros amount f t. eexists. split; reflexivity. Qed.

Lemma conversion_is_answered_offline_witness :
  rate_of (of_string "USD") usd_rates = Some (decimal_literal 10 1)
  /\ rate_of (of_string "BRL") usd_rates = Some (decimal_literal 50 1)
  /\ turn sample_runtime sample_case sample_messages offline
       (Return (of_string "convert 100 usd to Brl"))
     = ([Prompt (of_string "You: ");
         PrintValue (UI_CURRENCY_MSG sample_messages);
         Print
           (format_response (of_utf8 "💱 Currency API")
              (of_string
                 "<float> USD = 500.00 BRL (Approx. rate: 5.000000) [OFFLINE]")
              (fsub (stop offline) (start offline)))],
        Continue).
Proof.
  split; [reflexivity|]. split; [reflexivity|].
  refine (eq_trans
            (conversion_is_answered_offline sample_runtime sample_case
               sample_messages offline (of_string "100") (of_string "usd")
               (of_string "Brl") (decimal_literal 10 1) (decimal_literal 50 1)
               _ _ _ _ _ _ _ _ _ unreachable_down unreachable_down
               unreachable_down) _);
    try reflexivity; try discriminate.
Defined.

(** ** The program: a weather question *)

Section Place.

Variable rt : runtime.
Variable uc : unicode_case.
Variables lead name q : str.
Hypothesis lead_known : In lead place_leads.
Hypothesis name_some : name <> [].
Hypothesis name_chars : forallb place_char name = true.
Hypothesis name_stripped : strip name = name.
Hypothesis name_plain : ~ In (chr "-") name.
Hypothesis q_mark : q = [] \/ q = of_string "?".

Lemma weather_question_ascii :
  is_ascii (weather_question lead name q) = true.
Proof.
  unfold weather_question. rewrite !is_ascii_app.
  rewrite (is_ascii_forall place_char _ place_char_ascii name_chars).
  assert (Hl : is_ascii lead = true).
  { unfold place_leads in lead_known. simpl in lead_known.
    destruct lead_known as [<- | [<- | [<- | [<- | [<- | []]]]]];
      reflexivity. }
  rewrite Hl. destruct q_mark as [-> | ->]; reflexivity.
Qed.

Lemma weather_question_long :
  (8 <= length (weather_question lead name q))%nat.
Proof.
  unfold weather_question. rewrite length_app.
  assert (8 <= length lead)%nat; [|lia].
  unfold place_leads in lead_known. simpl in lead_known.
  destruct lead_known as [<- | [<- | [<- | [<- | [<- | []]]]]];
    simpl; lia.
Qed.

Lemma weather_question_not_exit :
  existsb (str_eqb (lower uc (weather_question lead name q))) exit_words
  = false.
Proof.
  unfold lower. rewrite weather_question_ascii.
  pose proof weather_question_long as L. rewrite <- (length_map ascii_lower) in L.
  destruct (map ascii_lower (weather_question lead name q))
    as [|a [|b [|c [|d [|e l]]]]]; simpl in L; try lia.
  unfold exit_words. cbn [existsb].
  rewrite !str_eqb_neq; [reflexivity|..]; intros H; simpl in H;
    discriminate H.
Qed.

Lemma weather_question_not_math :
  is_math_question (unicode rt) (Some (weather_question lead name q)) = false.
Proof.
  apply no_operator_not_math. intros c Hc Ho.
  unfold weather_question in Hc. rewrite !in_app_iff in Hc.
  destruct Hc as [Hc|[Hc|[Hc|Hc]]].
  - unfold place_leads in lead_known. simpl in lead_known.
    destruct lead_known as [<- | [<- | [<- | [<- | [<- | []]]]]];
      simpl in Hc, Ho; intuition congruence.
  - simpl in Hc, Ho. intuition congruence.
  - pose proof (proj1 (forallb_forall _ _) name_chars c Hc) as P.
    simpl in Ho.
    destruct Ho as [<-|[<-|[<-|[<-|[<-|[]]]]]];
      try discriminate P. exact (name_plain Hc).
  - destruct q_mark as [-> | ->]; simpl in Hc, Ho; intuition congruence.
Qed.

Lemma weather_question_is_weather :
  is_weather_query uc (weather_question lead name q) = true.
Proof.
  unfold is_weather_query.
  destruct (weather_question lead name q) eqn:Q.
  { pose proof weather_question_long as L. rewrite Q in L. simpl in L. lia. }
  rewrite <- Q. clear Q.
  unfold lower. rewrite weather_question_ascii.
  unfold weather_question. rewrite map_app.
  apply existsb_exists.
  assert (K : exists k post,
             In k weather_keywords /\ map ascii_lower lead = k ++ post).
  { unfold place_leads in lead_known. simpl in lead_known.
    destruct lead_known as [<- | [<- | [<- | [<- | [<- | []]]]]].
    - exists (of_string "weather"), (of_string " in").
      split; [vm_compute; tauto|reflexivity].
    - exists (of_string "forecast"), (of_string " in").
      split; [vm_compute; tauto|reflexivity].
    - exists (of_string "tempo"), (of_string " em").
      split; [vm_compute; tauto|reflexivity].
    - exists (of_string "clima"), (of_string " em").
      split; [vm_compute; tauto|reflexivity].
    - exists (of_string "pronostico"), (of_string " en").
      split; [vm_compute; tauto|reflexivity]. }
  destruct K as (k & post & Hk & ->). exists k. split; [exact Hk|].
  apply is_in_iff. exists [], (post ++ map ascii_lower (of_string " " ++ name ++ q)).
  now rewrite <- app_assoc.
Qed.

Lemma weather_question_place ucd :
  extract_location ucd uc (weather_question lead name q) = Some name.
Proof.
  pose proof (location_form_stripped lead name q lead_known name_some
                name_stripped q_mark) as Ht.
  pose proof weather_question_long as L.
  destruct name as [|n0 name']; [congruence|].
  pose proof (stripped_head n0 name' name_stripped) as Hn0.
  unfold extract_location, weather_question in *.
  destruct (lead ++ of_string " " ++ (n0 :: name') ++ q) as [|c0 text'] eqn:Et.
  { simpl in L. lia. }
  rewrite Ht. rewrite <- Et.
  rewrite (location_form_match ucd uc lead n0 name' q lead_known Hn0
             name_chars q_mark).
  cbn [group Nat.eqb]. now rewrite name_stripped.
Qed.

End Place.

(** X21.  A weather question reaches the weather service with the
    place that was typed: for a question of the documented form, a lead
    such as "weather in", a blank and a place name without hyphen, with or
    without a final question mark, the program writes the message of the
    weather path, asks [geocode] for the place name as it stands and
    [current_weather] for the location found, and shows the answer in one
    response; then it asks again. *)
Theorem weather_question_is_answered rt uc ui w (lead name q : str)
  loc answer :
  In lead place_leads ->
  name <> [] -> forallb place_char name = true -> strip name = name ->
  ~ In (chr "-") name ->
  q = [] \/ q = of_string "?" ->
  geocode w name = Return loc ->
  current_weather w loc = Return answer ->
  turn rt uc ui w (Return (weather_question lead name q))
  = ([Prompt (of_string "You: ");
      PrintValue (UI_WEATHER_MSG ui);
      Print
        (format_response (of_utf8 "☁️ Weather API") answer
           (fsub (stop w) (start w)))],
     Continue).
Proof.
  intros Hin Hn Hp Hs Hh Hq G C.
  assert (S : strip (weather_question lead name q)
              = weather_question lead name q)
    by (apply location_form_stripped; assumption).
  assert (X : existsb (str_eqb (lower uc (weather_question lead name q)))
                exit_words = false)
    by (apply weather_question_not_exit; assumption).
  assert (H : handle_weather rt uc w (weather_question lead name q)
              = Return answer).
  { unfold handle_weather. rewrite weather_question_place by assumption.
    destruct name as [|n0 name']; [congruence|].
    rewrite G. cbn [bind]. exact C. }
  cbn [turn]. rewrite S.
  destruct (weather_question lead name q) as [|c t] eqn:Q.
  { pose proof (weather_question_long lead name q Hin) as L.
    rewrite Q in L. simpl in L. lia. }
  change (existsb (str_eqb (lower uc (c :: t)))
            [of_string "exit"; of_string "quit"; of_string "sair"])
    with (existsb (str_eqb (lower uc (c :: t))) exit_words).
  rewrite X, <- Q. rewrite <- Q in H.
  rewrite weather_question_not_math by assumption.
  rewrite weather_question_is_weather by assumption.
  unfold path. rewrite H. reflexivity.
Qed.

Lemma weather_question_is_answered_witness :
  In (of_string "weather in") place_leads
  /\ strip (of_string "Porto Alegre") = of_string "Porto Alegre"
  /\ turn sample_runtime sample_case sample_messages fair
       (Return (of_string "weather in Porto Alegre?"))
     = ([Prompt (of_string "You: ");
         PrintValue (UI_WEATHER_MSG sample_messages);
         Print
           (format_response (of_utf8 "☁️ Weather API")
              (of_string "Weather in Porto Alegre: Clear sky")
              (fsub (stop fair) (start fair)))],
        Continue).
Proof.
  assert (Hin : In (of_string "weather in") place_leads) by (simpl; auto).
  split; [exact Hin|]. split; [reflexivity|].
  refine (weather_question_is_answered sample_runtime sample_case
            sample_messages fair (of_string "weather in")
            (of_string "Porto Alegre") (of_string "?") _ _
            Hin _ _ _ _ _ eq_refl eq_refl).
  - discriminate.
  - reflexivity.
  - reflexivity.
  - simpl. intuition discriminate.
  - now right.
Defined.

(** ** Arithmetic as it is typed: the tokens *)

Lemma emitted_nil r : emitted [] r = r.
Proof. destruct r; reflexivity. Qed.

Lemma emitted_app ts1 ts2 r :
  emitted (ts1 ++ ts2) r = emitted ts1 (emitted ts2 r).
Proof. destruct r; cbn [emitted]; [now rewrite app_assoc|reflexivity..]. Qed.

Lemma lex_cons st c (s : str) :
  grammar.lex st (c :: s)
  = match grammar.step st c with
    | grammar.Go ts st' => emitted ts (grammar.lex st' s)
    | grammar.Bad => grammar.LexInvalid
    | grammar.Unknown => grammar.LexUnmodelled
    end.
Proof.
  cbn [grammar.lex]. destruct (grammar.step st c); [|reflexivity..].
  destruct (grammar.lex st0 s); reflexivity.
Qed.

(** The digits of a number go to the state. *)
Lemma lex_digits : forall (ds : str) acc (rest : str),
  forallb is_ascii_digit ds = true ->
  grammar.lex (grammar.InInt acc) (ds ++ rest)
  = grammar.lex
      (grammar.InInt (rev (map (fun c => (c - 48)%N) ds) ++ acc)) rest.
Proof.
  induction ds as [|c ds IH]; intros acc rest H; [reflexivity|].
  cbn [forallb] in H. apply andb_true_iff in H as [Hc H].
  cbn [app]. rewrite lex_cons. cbn [grammar.step]. rewrite Hc.
  rewrite emitted_nil, (IH _ _ H). cbn [map rev].
  now rewrite <- app_assoc.
Qed.

Lemma digits_value_rev (ds : str) :
  grammar.digits_value (rev (map (fun c => (c - 48)%N) ds))
  = fold_left (fun acc c => (10 * acc + (c - 48))%N) ds 0%N.
Proof.
  unfold grammar.digits_value. rewrite fold_left_rev_right.
  generalize 0%N. induction ds as [|c ds IH]; intros a; [reflexivity|].
  cbn [map fold_left]. apply IH.
Qed.

Lemma zeros_number (ds : str) :
  forallb (N.eqb (chr "0")) ds = true -> number ds = 0%Z.
Proof.
  unfold number. intros H.
  assert (E : fold_left (fun acc c => (10 * acc + (c - 48))%N) ds 0%N = 0%N).
  { induction ds as [|c ds IH]; [reflexivity|].
    cbn [forallb] in H. apply andb_true_iff in H as [Hc H].
    apply N.eqb_eq in Hc. subst c. cbn [fold_left]. now apply IH. }
  now rewrite E.
Qed.

(** The token of a numeral. *)
Lemma int_token_numeral (ds : str) :
  numeral ds ->
  grammar.int_token (rev (map (fun c => (c - 48)%N) ds))
  = grammar.Go [grammar.NUMBER (ast.CInt (number ds))] grammar.Start.
Proof.
  intros (Hn & Hd & Hz & Hl). unfold grammar.int_token.
  assert (L : (4300 <? length (rev (map (fun c => (c - 48)%N) ds)))%nat
              = false).
  { apply Nat.ltb_ge. rewrite length_rev, length_map. exact Hl. }
  rewrite L, rev_involutive.
  assert (V : grammar.Go
                [grammar.NUMBER
                   (ast.CInt
                      (Z.of_N
                         (grammar.digits_value
                            (rev (map (fun c => (c - 48)%N) ds)))))]
                grammar.Start
              = grammar.Go [grammar.NUMBER (ast.CInt (number ds))]
                  grammar.Start).
  { unfold number. now rewrite digits_value_rev. }
  remember (map (fun c => (c - 48)%N) ds) as vals eqn:Ev.
  destruct vals as [|v vals]; [exact V|].
  destruct v as [|p]; [|destruct vals; exact V].
  destruct vals as [|v' vals']; [exact V|].
  destruct Hz as [Hz|Hz].
  - exfalso. apply Hz. destruct ds as [|c ds']; [discriminate Ev|].
    cbn [map] in Ev. injection Ev as Ec _. cbn [hd forallb] in *.
    apply andb_true_iff in Hd as [Hc _]. unfold is_ascii_digit in Hc.
    apply andb_true_iff in Hc as [Hc _]. apply N.leb_le in Hc.
    change (chr "0") with 48%N. lia.
  - rewrite (zeros_number _ Hz).
    assert (Z0 : forallb (N.eqb 0) (rev (0%N :: v' :: vals')) = true).
    { apply forallb_forall. intros x Hx. apply in_rev in Hx.
      rewrite Ev in Hx. apply in_map_iff in Hx as (y & <- & Hy).
      rewrite forallb_forall in Hz. specialize (Hz y Hy).
      apply N.eqb_eq in Hz. subst y. reflexivity. }
    now rewrite Z0.
Qed.

Lemma lex_number (ds rest : str) :
  numeral ds -> stops rest ->
  grammar.lex grammar.Start (ds ++ rest)
  = emitted [grammar.NUMBER (ast.CInt (number ds))]
      (grammar.lex grammar.Start rest).
Proof.
  intros Hn Hr. pose proof (int_token_numeral ds Hn) as T.
  destruct Hn as (Hn & Hd & _). destruct ds as [|c ds]; [congruence|].
  cbn [forallb] in Hd. apply andb_true_iff in Hd as [Hc Hd].
  cbn [app]. rewrite lex_cons. cbn [grammar.step]. unfold grammar.start.
  rewrite Hc, emitted_nil, (lex_digits ds _ rest Hd).
  cbn [map rev] in T.
  destruct rest as [|x rest].
  - cbn [grammar.lex grammar.finish]. rewrite T. reflexivity.
  - rewrite !lex_cons. cbn [stops] in Hr. simpl in Hr.
    destruct Hr as [<-|[<-|[<-|[<-|[<-|[]]]]]];
      cbn [grammar.step]; unfold grammar.finish_then_start;
      cbn [grammar.finish]; rewrite T; cbn; rewrite ?emitted_nil;
      try reflexivity; now rewrite <- emitted_app.
Qed.

Lemma source_app (a b : str) : source (a ++ b) = source a ++ source b.
Proof. apply flat_map_app. Qed.

Lemma source_digits (ds : str) :
  forallb is_ascii_digit ds = true -> source ds = ds.
Proof.
  unfold source, replace.
  induction ds as [|c ds IH]; [reflexivity|]. cbn [forallb]. intros H.
  apply andb_true_iff in H as [Hc H].
  cbn [flat_map]. rewrite (IH H).
  destruct (c =? chr "^")%N eqn:E; [|reflexivity].
  apply N.eqb_eq in E. subst c. discriminate Hc.
Qed.

Lemma written_app_inv : forall ts1 ts2 s,
  written (ts1 ++ ts2) s ->
  exists s1 s2, s = s1 ++ s2 /\ written ts1 s1 /\ written ts2 s2.
Proof.
  induction ts1 as [|t ts1 IH]; intros ts2 s H.
  - exists [], s. repeat split; [constructor|exact H].
  - inversion H as [|t' ts' p s' Hp Hs]; subst.
    apply IH in Hs as (s1 & s2 & -> & H1 & H2).
    exists (p ++ s1), s2. repeat split.
    + now rewrite app_assoc.
    + now constructor.
    + exact H2.
Qed.

Lemma written_cons_inv t ts s :
  written (t :: ts) s ->
  exists p s', s = p ++ s' /\ spelled t p /\ written ts s'.
Proof. inversion 1; subst; eauto. Qed.

Lemma written_nil_inv s : written [] s -> s = [].
Proof. now inversion 1. Qed.

(** An expression starts with a digit, a parenthesis or a sign. *)
Lemma written_first lvl ts e s :
  derives lvl ts e -> written ts s ->
  exists c r,
    source s = c :: r
    /\ (is_ascii_digit c = true \/ In c (of_string "(+-")).
Proof.
  intros D W. destruct (derives_first _ _ _ D) as (t & ts' & -> & B & _).
  apply written_cons_inv in W as (p & s' & -> & P & _).
  rewrite source_app.
  inversion P; subst; try destruct B.
  - match goal with
    | N : numeral ?d |- _ =>
        destruct N as (Hn & Hd & _); rewrite (source_digits d Hd);
        destruct d as [|c d']; [congruence|]; cbn [forallb] in Hd;
        apply andb_true_iff in Hd as [Hc _]; exists c, (d' ++ source s')
    end.
    split; [reflexivity|now left].
  - eexists _, _. split; [reflexivity|]. right. simpl. auto.
  - eexists _, _. split; [reflexivity|]. right. simpl. auto.
  - eexists _, _. split; [reflexivity|]. right. simpl. auto.
Qed.

Lemma lex_after_star c (r : str) :
  is_ascii_digit c = true \/ In c (of_string "(+-") ->
  grammar.lex grammar.AfterStar (c :: r)
  = emitted [grammar.STAR] (grammar.lex grammar.Start (c :: r)).
Proof.
  intros H. rewrite !lex_cons.
  destruct H as [H|H].
  - assert (E : (c =? chr "*")%N = false).
    { destruct (c =? chr "*")%N eqn:E; [|reflexivity].
      apply N.eqb_eq in E. subst c. discriminate H. }
    cbn [grammar.step]. rewrite E. unfold grammar.finish_then_start.
    cbn [grammar.finish]. unfold grammar.start. rewrite H.
    cbn [app]. now rewrite !emitted_nil.
  - simpl in H. destruct H as [<-|[<-|[<-|[]]]]; cbn;
      now rewrite <- emitted_app.
Qed.

Lemma lex_after_slash c (r : str) :
  is_ascii_digit c = true \/ In c (of_string "(+-") ->
  grammar.lex grammar.AfterSlash (c :: r)
  = emitted [grammar.SLASH] (grammar.lex grammar.Start (c :: r)).
Proof.
  intros H. rewrite !lex_cons.
  destruct H as [H|H].
  - assert (E : (c =? chr "/")%N = false).
    { destruct (c =? chr "/")%N eqn:E; [|reflexivity].
      apply N.eqb_eq in E. subst c. discriminate H. }
    cbn [grammar.step]. rewrite E. unfold grammar.finish_then_start.
    cbn [grammar.finish]. unfold grammar.start. rewrite H.
    cbn [app]. now rewrite !emitted_nil.
  - simpl in H. destruct H as [<-|[<-|[<-|[]]]]; cbn;
      now rewrite <- emitted_app.
Qed.

Lemma spelled_power_source p :
  spelled grammar.DOUBLESTAR p -> source p = of_string "**".
Proof. inversion 1; reflexivity. Qed.

Lemma lex_sign c t (r : str) :
  grammar.start c = grammar.Go [t] grammar.Start ->
  grammar.lex grammar.Start (c :: r)
  = emitted [t] (grammar.lex grammar.Start r).
Proof. intros H. rewrite lex_cons. cbn [grammar.step]. now rewrite H. Qed.

Lemma lex_star (r : str) :
  grammar.lex grammar.Start (42%N :: r) = grammar.lex grammar.AfterStar r.
Proof. rewrite lex_cons. apply emitted_nil. Qed.

Lemma lex_slash (r : str) :
  grammar.lex grammar.Start (47%N :: r) = grammar.lex grammar.AfterSlash r.
Proof. rewrite lex_cons. apply emitted_nil. Qed.

Lemma lex_stars (r : str) :
  grammar.lex grammar.Start (42%N :: 42%N :: r)
  = emitted [grammar.DOUBLESTAR] (grammar.lex grammar.Start r).
Proof. rewrite lex_star, lex_cons. reflexivity. Qed.

Lemma emitted_eq ts r r' : r = r' -> emitted ts r = emitted ts r'.
Proof. now intros ->. Qed.

Lemma lex_star_written lvl ts e (s rest : str) :
  derives lvl ts e -> written ts s ->
  grammar.lex grammar.Start (42%N :: source s ++ rest)
  = emitted [grammar.STAR] (grammar.lex grammar.Start (source s ++ rest)).
Proof.
  intros D W. rewrite lex_star.
  destruct (written_first _ _ _ _ D W) as (c & r0 & -> & F).
  apply (lex_after_star c (r0 ++ rest) F).
Qed.

Lemma lex_slash_written lvl ts e (s rest : str) :
  derives lvl ts e -> written ts s ->
  grammar.lex grammar.Start (47%N :: source s ++ rest)
  = emitted [grammar.SLASH] (grammar.lex grammar.Start (source s ++ rest)).
Proof.
  intros D W. rewrite lex_slash.
  destruct (written_first _ _ _ _ D W) as (c & r0 & -> & F).
  apply (lex_after_slash c (r0 ++ rest) F).
Qed.

(** An operator between two expressions. *)
Lemma lex_between ts1 t ts2 (s1 p s3 rest : str) code :
  source p = code ->
  stops (code ++ source s3 ++ rest) ->
  (forall rest',
     stops rest' ->
     grammar.lex grammar.Start (source s1 ++ rest')
     = emitted ts1 (grammar.lex grammar.Start rest')) ->
  grammar.lex grammar.Start (code ++ source s3 ++ rest)
  = emitted [t] (grammar.lex grammar.Start (source s3 ++ rest)) ->
  grammar.lex grammar.Start (source s3 ++ rest)
  = emitted ts2 (grammar.lex grammar.Start rest) ->
  grammar.lex grammar.Start (source (s1 ++ p ++ s3) ++ rest)
  = emitted (ts1 ++ t :: ts2) (grammar.lex grammar.Start rest).
Proof.
  intros Hp Hs H1 Ht H2.
  rewrite !source_app, Hp, <- !app_assoc, (H1 _ Hs), Ht, H2.
  now rewrite <- !emitted_app, <- app_assoc.
Qed.

(** The lexer finds the tokens of an expression in what was typed, once
    every [^] is written [**]. *)
Lemma lex_written lvl ts e :
  derives lvl ts e ->
  forall s rest,
    written ts s -> stops rest ->
    grammar.lex grammar.Start (source s ++ rest)
    = emitted ts (grammar.lex grammar.Start rest).
Proof.
  induction 1 as [c|ts e D IH|ts e D IH|ts1 ts2 b e D1 IH1 D2 IH2|ts e D IH
    |ts e D IH|ts e D IH|ts e D IH|ts1 ts2 l r D1 IH1 D2 IH2
    |ts1 ts2 l r D1 IH1 D2 IH2|ts e D IH|ts1 ts2 l r D1 IH1 D2 IH2
    |ts1 ts2 l r D1 IH1 D2 IH2];
    intros s rest W R; try (now apply IH).
  - (* a number *)
    apply written_cons_inv in W as (p & s' & -> & P & W).
    apply written_nil_inv in W as ->. rewrite app_nil_r.
    inversion P as [ds N| | | | | | | |]; subst.
    pose proof N as (_ & Hd & _). rewrite (source_digits _ Hd).
    now apply lex_number.
  - (* parentheses *)
    apply written_cons_inv in W as (p & s' & -> & P & W).
    apply written_app_inv in W as (s1 & s2 & -> & W1 & W2).
    apply written_cons_inv in W2 as (p2 & s3 & -> & P2 & W3).
    apply written_nil_inv in W3 as ->.
    inversion P; subst. inversion P2; subst.
    change (grammar.LPAR :: ts ++ [grammar.RPAR])
      with ([grammar.LPAR] ++ ts ++ [grammar.RPAR]).
    rewrite !emitted_app.
    rewrite !source_app, app_nil_r, <- !app_assoc.
    etransitivity; [apply (lex_sign 40%N grammar.LPAR); reflexivity|].
    apply emitted_eq.
    etransitivity; [apply (IH s1 (41%N :: rest) W1); simpl; auto 10|].
    apply emitted_eq. apply (lex_sign 41%N grammar.RPAR). reflexivity.
  - (* a power *)
    apply written_app_inv in W as (s1 & s2 & -> & W1 & W2).
    apply written_cons_inv in W2 as (p & s3 & -> & P & W3).
    apply (lex_between ts1 grammar.DOUBLESTAR ts2 s1 p s3 rest
             [42%N; 42%N]).
    + now apply spelled_power_source.
    + simpl. auto 10.
    + intros rest' R'. now apply IH1.
    + apply lex_stars.
    + now apply IH2.
  - (* a plus sign *)
    apply written_cons_inv in W as (p & s' & -> & P & W).
    inversion P; subst. rewrite source_app.
    change (grammar.PLUS :: ts) with ([grammar.PLUS] ++ ts).
    rewrite emitted_app.
    etransitivity; [apply (lex_sign 43%N grammar.PLUS); reflexivity|].
    apply emitted_eq. apply (IH s' rest W R).
  - (* a minus sign *)
    apply written_cons_inv in W as (p & s' & -> & P & W).
    inversion P; subst. rewrite source_app.
    change (grammar.MINUS :: ts) with ([grammar.MINUS] ++ ts).
    rewrite emitted_app.
    etransitivity; [apply (lex_sign 45%N grammar.MINUS); reflexivity|].
    apply emitted_eq. apply (IH s' rest W R).
  - (* a product *)
    apply written_app_inv in W as (s1 & s2 & -> & W1 & W2).
    apply written_cons_inv in W2 as (p & s3 & -> & P & W3).
    inversion P; subst.
    apply (lex_between ts1 grammar.STAR ts2 s1 _ s3 rest [42%N]).
    + reflexivity.
    + simpl. auto 10.
    + intros rest' R'. now apply IH1.
    + apply (lex_star_written _ _ _ s3 rest D2 W3).
    + now apply IH2.
  - (* a quotient *)
    apply written_app_inv in W as (s1 & s2 & -> & W1 & W2).
    apply written_cons_inv in W2 as (p & s3 & -> & P & W3).
    inversion P; subst.
    apply (lex_between ts1 grammar.SLASH ts2 s1 _ s3 rest [47%N]).
    + reflexivity.
    + simpl. auto 10.
    + intros rest' R'. now apply IH1.
    + apply (lex_slash_written _ _ _ s3 rest D2 W3).
    + now apply IH2.
  - (* a sum *)
    apply written_app_inv in W as (s1 & s2 & -> & W1 & W2).
    apply written_cons_inv in W2 as (p & s3 & -> & P & W3).
    inversion P; subst.
    apply (lex_between ts1 grammar.PLUS ts2 s1 _ s3 rest [43%N]).
    + reflexivity.
    + simpl. auto 10.
    + intros rest' R'. now apply IH1.
    + apply (lex_sign 43%N grammar.PLUS). reflexivity.
    + now apply IH2.
  - (* a difference *)
    apply written_app_inv in W as (s1 & s2 & -> & W1 & W2).
    apply written_cons_inv in W2 as (p & s3 & -> & P & W3).
    inversion P; subst.
    apply (lex_between ts1 grammar.MINUS ts2 s1 _ s3 rest [45%N]).
    + reflexivity.
    + simpl. auto 10.
    + intros rest' R'. now apply IH1.
    + apply (lex_sign 45%N grammar.MINUS). reflexivity.
    + now apply IH2.
Qed.

(** ** Arithmetic as it is typed: the result *)

Lemma written_lexed ts e (s : str) :
  derives LSum ts e -> written ts s ->
  grammar.lex grammar.Start (source s) = grammar.Tokens ts.
Proof.
  intros D W. pose proof (lex_written _ _ _ D s [] W I) as L.
  rewrite app_nil_r in L. rewrite L. cbn [grammar.lex grammar.finish emitted].
  now rewrite app_nil_r.
Qed.

Lemma spelled_class t (p : str) :
  spelled t p ->
  forallb math_class p = true
  /\ forallb (fun c => negb (py_isspace c)) p = true.
Proof.
  inversion 1 as [ds (_ & Hd & _)| | | | | | | |]; subst;
    try (split; reflexivity).
  split; apply forallb_forall; intros c Hc;
    pose proof (proj1 (forallb_forall _ _) Hd c Hc) as Dc.
  - unfold math_class. now rewrite Dc.
  - now rewrite (digit_not_space c Dc).
Qed.

Lemma written_class ts (s : str) :
  written ts s ->
  forallb math_class s = true
  /\ forallb (fun c => negb (py_isspace c)) s = true.
Proof.
  induction 1 as [|t ts p s P W [IH1 IH2]]; [split; reflexivity|].
  destruct (spelled_class t p P) as [P1 P2].
  rewrite !forallb_app, P1, P2, IH1, IH2. split; reflexivity.
Qed.

(** X22.  Arithmetic on integers typed in decimal is computed as it
    is typed.  For an expression typed without blanks, its numbers in
    decimal digits (no zero in front), with [+ - * /], parentheses and
    the power written [^] or [**], whose tokens form the tree [e] under
    the standard precedence: the lexer reads the tokens that were typed,
    so the text is a well-formed arithmetic string of reading [e], which
    the grammar model parses to [e] within its limits, and
    [extract_expression] returns the text as it is.  When the parser
    returns [e], a number that [safe_eval] returns is an [int] exactly
    when no division and no negative exponent is involved, and it is then
    the value of the expression; and when [e] is integer arithmetic of
    value [n], evaluated within the stack and the memory and printable,
    [safe_eval] returns the [int] [n] and [handle_math] answers every
    question in which this expression is found with the text, [" = "]
    and [n] in decimal. *)
Theorem typed_arithmetic_is_computed rt ts e (s : str) :
  written ts s -> derives LSum ts e ->
  ast_parse rt (source s) = Return e ->
  well_formed s e
  /\ ((length ts <= 1000)%nat -> (grammar.nesting 0 0 ts <= 100)%nat ->
      grammar.parse (source s) = grammar.Tree e)
  /\ extract_expression (unicode rt) (Some s) = Some s
  /\ (forall v, safe_eval rt (PyStr s) = Return v -> kind_of e v)
  /\ forall n,
       int_value e = Some n ->
       within_stack rt 0 e = true -> roomy rt e = true -> printable rt n ->
       safe_eval rt (PyStr s) = Return (VInt n)
       /\ forall question,
            extract_expression (unicode rt) (Some question) = Some s ->
            handle_math rt question
            = Return (s ++ of_string " = " ++ decimal n).
Proof.
  intros W D A.
  destruct (written_first _ _ _ _ D W) as (c & r & E & F).
  assert (Hs : s <> []) by (intros ->; discriminate E).
  assert (Hb : leading_blank (source s) = false).
  { rewrite E. cbn [leading_blank].
    destruct F as [F|F].
    - unfold is_ascii_digit in F. apply andb_true_iff in F as [F _].
      apply N.leb_le in F.
      destruct (c =? 32)%N eqn:E1; [apply N.eqb_eq in E1; lia|].
      destruct (c =? 9)%N eqn:E2; [apply N.eqb_eq in E2; lia|reflexivity].
    - simpl in F. destruct F as [<-|[<-|[<-|[]]]]; reflexivity. }
  pose proof (written_lexed ts e s D W) as L.
  assert (Wf : well_formed s e) by (exists ts; split; assumption).
  destruct (written_class ts s W) as [C1 C2].
  split; [exact Wf|]. split; [|split; [|split]].
  - intros Hlen Hnest. exact (derives_parse (source s) ts e Hb L Hlen Hnest D).
  - now apply extract_expression_whole.
  - intros v H.
    apply (walk_kind rt e v (well_formed_arithmetic _ _ Wf)).
    exact (safe_eval_returns rt s e v Hs A H).
  - intros n V Hw Hr Hn. split.
    + rewrite (safe_eval_tree rt s e Hs A).
      now rewrite (_eval_int rt e n 0 V Hw Hr).
    + intros question Q. now apply (handle_math_int rt question s e n).
Qed.

Lemma numeral_short (ds : str) :
  ds <> [] -> forallb is_ascii_digit ds = true ->
  hd 0%N ds <> chr "0" -> (length ds <= 4300)%nat -> numeral ds.
Proof. intros. repeat split; auto. Qed.

Lemma sample_tokens_written :
  written sample_tokens (of_string "12*(3+4)^2").
Proof.
  assert (N : forall ds : str,
            ds <> [] -> forallb is_ascii_digit ds = true ->
            hd 0%N ds <> chr "0" -> (length ds <= 4300)%nat ->
            spelled (grammar.NUMBER (ast.CInt (number ds))) ds).
  { intros. now apply sp_number, numeral_short. }
  apply (w_cons _ _ (of_string "12") (of_string "*(3+4)^2")).
  { apply (N (of_string "12")); [discriminate|reflexivity|discriminate|].
    simpl. lia. }
  apply (w_cons _ _ (of_string "*") (of_string "(3+4)^2")); [constructor|].
  apply (w_cons _ _ (of_string "(") (of_string "3+4)^2")); [constructor|].
  apply (w_cons _ _ (of_string "3") (of_string "+4)^2")).
  { apply (N (of_string "3")); [discriminate|reflexivity|discriminate|].
    simpl. lia. }
  apply (w_cons _ _ (of_string "+") (of_string "4)^2")); [constructor|].
  apply (w_cons _ _ (of_string "4") (of_string ")^2")).
  { apply (N (of_string "4")); [discriminate|reflexivity|discriminate|].
    simpl. lia. }
  apply (w_cons _ _ (of_string ")") (of_string "^2")); [constructor|].
  apply (w_cons _ _ (of_string "^") (of_string "2")); [apply sp_caret|].
  apply (w_cons _ _ (of_string "2") []).
  { apply (N (of_string "2")); [discriminate|reflexivity|discriminate|].
    simpl. lia. }
  constructor.
Qed.

Lemma sample_tokens_derive : derives LSum sample_tokens sample_tree.
Proof.
  apply d_term.
  apply (d_times [grammar.NUMBER (ast.CInt 12)]
           [grammar.LPAR; grammar.NUMBER (ast.CInt 3); grammar.PLUS;
            grammar.NUMBER (ast.CInt 4); grammar.RPAR; grammar.DOUBLESTAR;
            grammar.NUMBER (ast.CInt 2)]).
  - apply d_factor, d_power, d_atom, d_number.
  - apply d_power.
    apply (d_pow [grammar.LPAR; grammar.NUMBER (ast.CInt 3); grammar.PLUS;
                  grammar.NUMBER (ast.CInt 4); grammar.RPAR]
             [grammar.NUMBER (ast.CInt 2)]).
    + apply (d_paren [grammar.NUMBER (ast.CInt 3); grammar.PLUS;
                      grammar.NUMBER (ast.CInt 4)]).
      apply (d_add [grammar.NUMBER (ast.CInt 3)]
               [grammar.NUMBER (ast.CInt 4)]).
      * apply d_term, d_factor, d_power, d_atom, d_number.
      * apply d_factor, d_power, d_atom, d_number.
    + apply d_power, d_atom, d_number.
Qed.

Lemma typed_arithmetic_is_computed_witness :
  written sample_tokens (of_string "12*(3+4)^2")
  /\ derives LSum sample_tokens sample_tree
  /\ ast_parse sample_runtime (source (of_string "12*(3+4)^2"))
     = Return sample_tree
  /\ printable sample_runtime 588
  /\ well_formed (of_string "12*(3+4)^2") sample_tree
  /\ safe_eval sample_runtime (PyStr (of_string "12*(3+4)^2"))
     = Return (VInt 588)
  /\ handle_math sample_runtime (of_string "what is 12*(3+4)^2?")
     = Return (of_string "12*(3+4)^2 = 588").
Proof.
  assert (Hn : printable sample_runtime 588) by (right; vm_compute; lia).
  split; [exact sample_tokens_written|].
  split; [exact sample_tokens_derive|]. split; [reflexivity|].
  split; [exact Hn|].
  destruct (typed_arithmetic_is_computed sample_runtime sample_tokens
              sample_tree (of_string "12*(3+4)^2")
              sample_tokens_written sample_tokens_derive eq_refl)
    as (Wf & _ & _ & _ & C).
  split; [exact Wf|].
  destruct (C 588%Z eq_refl eq_refl eq_refl Hn) as [S H].
  split; [exact S|]. apply H. reflexivity.
Defined.
